(** * reedsolomon16: a shallow embedding of the facade, the stream adaptor,
      the Galois bridge and the radix-2/radix-4 butterflies.

    Source files embedded here:
    - [reedsolomon.go]   : [New], [New8], [New16], the [rsFF8] stream facade;
    - [streaming8.go]    : [rsStreamFF8] ([encode], [verify], [reconstruct],
                           [reconstructData], [split], [join] and helpers);
    - [galois_bridge.go] : [GaloisAdd], [GaloisMultiply], [GaloisDivide];
    - the arm64 kernel file ([fftDIT2], [ifftDIT2], [fftDIT28], [ifftDIT28])
      and the butterflies printed in the design document.

    Conventions.  A Go [int]/[int64] is a [Z]; a byte is a [Z] in [0, 256);
    [nil] readers and writers are [None]; a Go [error] is [option error]
    with [None] for [nil]; a run-time panic is the outcome [Panic]. *)

From Stdlib Require Import ZArith List Lia Bool.
Import ListNotations.
Local Open Scope Z_scope.

(** ** Outcomes and errors *)

(** The result of running a Go function: it returns, or it panics (index
    out of range, nil dereference, explicit [panic]).  [Timeout] is only
    produced by the fuel-bounded loops when the fuel runs out. *)
Inductive outcome (A : Type) : Type :=
| Ret (a : A)
| Panic
| Timeout.
Arguments Ret {A} a.
Arguments Panic {A}.
Arguments Timeout {A}.

Definition bind {A B} (m : outcome A) (f : A -> outcome B) : outcome B :=
  match m with
  | Ret a => f a
  | Panic => Panic
  | Timeout => Timeout
  end.

Declare Scope go_scope.
Delimit Scope go_scope with go.
Notation "x <- m ;; k" := (bind m (fun x => k))
  (at level 61, m at next level, right associativity) : go_scope.
Notation "' p <- m ;; k" := (bind m (fun p => k))
  (at level 61, p pattern, m at next level, right associativity) : go_scope.
Local Open Scope go_scope.

(** The error values of [reedsolomon.go], the [io] sentinels the stream
    code tests for, and the two wrappers of [streaming8.go]. *)
Inductive error : Type :=
| ErrInvShardNum
| ErrMaxShardNum
| ErrTooFewShards
| ErrShardNoData
| ErrShardSize
| ErrEmptyShards
| ErrInvalidShards
| ErrShortData
| ErrReconstructMismatch
| ErrNilWriter
| ErrSize
| EOF
| ErrUnexpectedEOF
| ErrShortWrite
| ErrIO (code : Z)
| StreamReadError (Err : error) (Stream : Z)
| StreamWriteError (Err : error) (Stream : Z).

Fixpoint error_eqb (a b : error) : bool :=
  match a, b with
  | ErrInvShardNum, ErrInvShardNum
  | ErrMaxShardNum, ErrMaxShardNum
  | ErrTooFewShards, ErrTooFewShards
  | ErrShardNoData, ErrShardNoData
  | ErrShardSize, ErrShardSize
  | ErrEmptyShards, ErrEmptyShards
  | ErrInvalidShards, ErrInvalidShards
  | ErrShortData, ErrShortData
  | ErrReconstructMismatch, ErrReconstructMismatch
  | ErrNilWriter, ErrNilWriter
  | ErrSize, ErrSize
  | EOF, EOF
  | ErrUnexpectedEOF, ErrUnexpectedEOF
  | ErrShortWrite, ErrShortWrite => true
  | ErrIO x, ErrIO y => x =? y
  | StreamReadError e i, StreamReadError f j => error_eqb e f && (i =? j)
  | StreamWriteError e i, StreamWriteError f j => error_eqb e f && (i =? j)
  | _, _ => false
  end.

(** [err == io.EOF] and friends on a possibly-nil error. *)
Definition is_err (e : option error) (x : error) : bool :=
  match e with
  | Some y => error_eqb y x
  | None => false
  end.

(** ** Machine integers *)

(** Go's [int] on the 64-bit targets the library is built for: addition
    wraps around modulo 2^64 into [-2^63, 2^63). *)
Definition int_min : Z := - 2 ^ 63.
Definition int_max : Z := 2 ^ 63 - 1.
Definition is_int (z : Z) : Prop := int_min <= z <= int_max.
Definition wrap64 (z : Z) : Z := (z + 2 ^ 63) mod 2 ^ 64 - 2 ^ 63.
Definition int_add (a b : Z) : Z := wrap64 (a + b).

(** ** galois_bridge.go *)

Module Bridge.

Definition is_byte (b : Z) : Prop := 0 <= b < 256.

(** [func GaloisAdd(a, b byte) byte { return a ^ b }] *)
Definition GaloisAdd (a b : Z) : Z := Z.lxor a b.

(** [func GaloisMultiply(a, b byte) byte { return a ^ b }] *)
Definition GaloisMultiply (a b : Z) : Z := Z.lxor a b.

(** [func GaloisDivide(a, b byte) byte]: panics on [b == 0], otherwise
    returns [a]. *)
Definition GaloisDivide (a b : Z) : outcome Z :=
  if b =? 0 then Panic else Ret a.

(** [func GaloisExp(a byte, n int) byte { return a }] *)
Definition GaloisExp (a n : Z) : Z := a.

End Bridge.

(** ** Byte lists with Go-style integer indices *)

Definition zlen {A} (l : list A) : Z := Z.of_nat (length l).
Definition ztake {A} (n : Z) (l : list A) : list A := firstn (Z.to_nat n) l.
Definition zdrop {A} (n : Z) (l : list A) : list A := skipn (Z.to_nat n) l.
Definition zeros (n : Z) : list Z := repeat 0 (Z.to_nat n).

(** [((n + 63) / 64) * 64]; Go's [/] truncates, which is [Z.quot]. *)
Definition align64 (n : Z) : Z := Z.quot (n + 63) 64 * 64.

(** ** io.Reader and io.Writer

    A reader is an in-memory byte stream ([bytes.Reader], [bytes.Buffer], a
    file): [Read] hands out as many of the remaining bytes as the caller's
    buffer takes.  Once the data is exhausted it reports [io.EOF], or the
    error [rfail] for a stream that breaks.  [rseek] records whether the
    dynamic type also implements [io.Seeker] ([bytes.Reader] and files do,
    [bytes.Buffer] does not): [join] asks. *)
Record Reader : Type := mkReader {
  rdata : list Z;
  rseek : bool;
  rfail : option error
}.

(** What an exhausted reader answers. *)
Definition rend (r : Reader) : error :=
  match rfail r with
  | Some e => e
  | None => EOF
  end.

(** [n, err := r.Read(p)] with [len(p) = l > 0]: the bytes read, the error
    and the advanced reader. *)
Definition Read (r : Reader) (l : Z) : list Z * option error * Reader :=
  match rdata r with
  | [] => ([], Some (rend r), r)
  | _ => (ztake l (rdata r), None,
          mkReader (zdrop l (rdata r)) (rseek r) (rfail r))
  end.

(** [n, err := io.ReadFull(r, buf)] with [len(buf) = l]: [ReadAtLeast]
    returns at once for an empty buffer; otherwise it reads until the
    buffer is full or the reader fails, and turns an [io.EOF] after some
    bytes into [io.ErrUnexpectedEOF]. *)
Definition ReadFull (r : Reader) (l : Z) : list Z * option error * Reader :=
  if l <=? 0 then ([], None, r)
  else
    let got := ztake l (rdata r) in
    let r' := mkReader (zdrop l (rdata r)) (rseek r) (rfail r) in
    if zlen got =? l then (got, None, r')
    else
      match rfail r with
      | Some e => (got, Some e, r')
      | None =>
          if zlen got =? 0 then (got, Some EOF, r')
          else (got, Some ErrUnexpectedEOF, r')
      end.

(** A writer collects what it is handed ([bytes.Buffer], a file); a broken
    one answers every [Write] with [wfail] and takes nothing. *)
Record Writer : Type := mkWriter {
  wdata : list Z;
  wfail : option error
}.

(** [n, err := w.Write(p)]. *)
Definition Write (w : Writer) (p : list Z) : Z * option error * Writer :=
  match wfail w with
  | Some e => (0, Some e, w)
  | None => (zlen p, None, mkWriter (wdata w ++ p) None)
  end.

(** ** Slices

    A [[]byte] whose offset into its backing array is zero, as all the
    block buffers of the stream adaptor are: [arr] is the backing array
    from the slice's start ([cap = len arr]) and [len] the visible length.
    Re-slicing [s[:n]] keeps the array, so bytes beyond an old length
    become visible again. *)
Record slice : Type := mkSlice {
  arr : list Z;
  len : Z
}.

Definition cap (s : slice) : Z := zlen (arr s).
Definition bytes (s : slice) : list Z := ztake (len s) (arr s).

(** [make([]byte, n)] *)
Definition make (n : Z) : slice := mkSlice (zeros n) n.

(** [s[:n]]: panics unless [0 <= n <= cap(s)]. *)
Definition reslice (s : slice) (n : Z) : outcome slice :=
  if (0 <=? n) && (n <=? cap s) then Ret (mkSlice (arr s) n) else Panic.

(** [copy(dst, src)]: the first [min(len dst, len src)] bytes. *)
Definition copy (dst : slice) (src : list Z) : slice :=
  let n := Z.min (len dst) (zlen src) in
  mkSlice (ztake n src ++ zdrop n (arr dst)) (len dst).

(** [for j := lo; j < hi; j++ { s[j] = 0 }]: every index must be below
    [len(s)]. *)
Definition zero_range (s : slice) (lo hi : Z) : outcome slice :=
  if hi <=? lo then Ret s
  else if (0 <=? lo) && (hi <=? len s) then
    Ret (mkSlice (ztake lo (arr s) ++ zeros (hi - lo) ++ zdrop hi (arr s))
                 (len s))
  else Panic.

(** [io.ReadFull(reader, s[:l])]: the bytes land at the start of the
    backing array. *)
Definition store (s : slice) (got : list Z) : slice :=
  mkSlice (got ++ zdrop (zlen got) (arr s)) (len s).

(** ** The in-memory codec

    [leopardFF8] itself (the FFT engine) is not part of the files embedded
    here; the stream adaptor only calls its four methods on the block
    matrix, so the engine is a record of those methods.  Each receives the
    [[][]byte] and returns its new state (the methods write parity bytes
    and re-slice missing shards in place). *)
Record Engine : Type := mkEngine {
  Encode : list slice -> option error * list slice;
  Verify : list slice -> bool * option error;
  Reconstruct : list slice -> option error * list slice;
  ReconstructData : list slice -> option error * list slice
}.

(** The fields of [leopardFF8] that [reedsolomon.go] reads, and its
    methods. *)
Record leopardFF8 : Type := mkFF8 {
  ff_dataShards : Z;
  ff_parityShards : Z;
  ff_totalShards : Z;
  ff_engine : Engine
}.

(** ** streaming8.go: rsStreamFF8 *)

(** The struct without [blockPool] (see [createSlice] below) and without
    the flags [concurrentReads]/[concurrentWrites]: [newStreamEncoderFF8]
    sets both to [false], the facade builds a fresh encoder for every call
    and never changes them, and the goroutine variants
    ([readInputsConcurrent], [writeOutputsConcurrent]) are not embedded. *)
Record rsStreamFF8 : Type := mkStreamFF8 {
  rs : leopardFF8;
  dataShards : Z;
  parityShards : Z;
  totalShards : Z;
  blockSize : Z
}.

(** *** split *)

(** [if x%64 != 0 { x = ((x + 63) / 64) * 64 }] *)
Definition align_if_needed (x : Z) : Z :=
  if Z.rem x 64 =? 0 then x else align64 x.

(** The size computation at the head of [split]: the per-shard size, the
    payload bytes of the last shard and the last shard's padded size.
    The division by [dataShards-1] panics when that is zero. *)
Definition split_sizes (k size : Z) : outcome (Z * Z * Z) :=
  let alignedSize := align_if_needed size in
  let perShard := align_if_needed (Z.quot alignedSize k) in
  let lastShardSize := size - perShard * (k - 1) in
  '(perShard, lastShardSize) <-
     (if lastShardSize <=? 0 then
        if k - 1 =? 0 then Panic
        else
          let perShard := align_if_needed (Z.quot (size - 1) (k - 1)) in
          let lastShardSize := size - perShard * (k - 1) in
          Ret (perShard, if lastShardSize <=? 0 then 1 else lastShardSize)
      else Ret (perShard, lastShardSize)) ;;
  Ret (perShard, lastShardSize, align_if_needed lastShardSize).

(** The inner loop on EOF: [for i := shardNum; i < len(dst); i++] writes
    [bytesToRead] zero bytes to every remaining writer. *)
Fixpoint split_fill (bytesToRead : Z) (dst : list (option Writer))
  : outcome (option error * list (option Writer)) :=
  match dst with
  | [] => Ret (None, [])
  | None :: _ => Panic
  | Some w :: rest =>
      let '(_, err, w') := Write w (bytes (make bytesToRead)) in
      match err with
      | Some e => Ret (Some e, Some w' :: rest)
      | None =>
          '(e, rest') <- split_fill bytesToRead rest ;;
          Ret (e, Some w' :: rest')
      end
  end.

(** [for shardNum := range dst { ... }]: [dst] is the part of the writer
    array from [shardNum] on; the result carries its new state. *)
Fixpoint split_loop (k size perShard lastShardSize alignedLastShardSize : Z)
    (buf : slice) (shardNum : Z) (data : Reader) (totalRead : Z)
    (dst : list (option Writer))
  : outcome (option error * Reader * list (option Writer)) :=
  match dst with
  | [] => Ret (None, data, [])
  | w :: rest =>
      let '(bytesToRead, actualDataSize) :=
        if shardNum =? k - 1 then (alignedLastShardSize, lastShardSize)
        else (perShard, perShard) in
      _ <- reslice buf actualDataSize ;;
      let '(got, err, data') := ReadFull data actualDataSize in
      if is_err err EOF then
        if totalRead <? size then Ret (Some ErrShortData, data', dst)
        else
          '(e, dst') <- split_fill bytesToRead dst ;;
          Ret (e, data', dst')
      else if (match err with Some _ => true | None => false end)
              && negb (is_err err ErrUnexpectedEOF) then
        Ret (err, data', dst)
      else
        let totalRead := totalRead + zlen got in
        let alignedData := copy (make bytesToRead) got in
        match w with
        | None => Panic
        | Some w =>
            let '(_, err, w') := Write w (bytes alignedData) in
            match err with
            | Some e => Ret (Some e, data', Some w' :: rest)
            | None =>
                '(e, data'', rest') <-
                   split_loop k size perShard lastShardSize
                     alignedLastShardSize buf (shardNum + 1) data'
                     totalRead rest ;;
                Ret (e, data'', Some w' :: rest')
            end
        end
  end.

(** [func (r *rsStreamFF8) split(data io.Reader, dst []io.Writer, size int64) error] *)
Definition split (r : rsStreamFF8) (data : Reader) (dst : list (option Writer))
    (size : Z) : outcome (option error * Reader * list (option Writer)) :=
  if negb (zlen dst =? dataShards r) then Ret (Some ErrTooFewShards, data, dst)
  else if size <=? 0 then Ret (Some ErrShortData, data, dst)
  else
    '(perShard, lastShardSize, alignedLastShardSize) <-
       split_sizes (dataShards r) size ;;
    let maxShardSize :=
      if alignedLastShardSize >? perShard then alignedLastShardSize
      else perShard in
    if maxShardSize <? 0 then Panic
    else
      split_loop (dataShards r) size perShard lastShardSize
        alignedLastShardSize (make maxShardSize) 0 data 0 dst.

(** *** join *)

(** [copy] of [got] into [buffer[off:]]. *)
Definition write_at (buffer : list Z) (off : Z) (got : list Z) : list Z :=
  ztake off buffer ++ got ++ zdrop (off + zlen got) buffer.

Definition is_some {A} (o : option A) : bool :=
  match o with Some _ => true | None => false end.

(** First special case of [join] ([outSize <= dataShards]): [io.ReadFull]
    from every non-nil shard into [buffer[totalRead:]] until the buffer is
    full.  Returns the error to return at once (if any), the buffer, the
    count and the readers. *)
Fixpoint join_tiny_loop (outSize : Z) (buffer : list Z) (totalRead : Z)
    (shards : list (option Reader))
  : option error * list Z * Z * list (option Reader) :=
  match shards with
  | [] => (None, buffer, totalRead, [])
  | None :: rest =>
      let '(e, b, t, rest') := join_tiny_loop outSize buffer totalRead rest in
      (e, b, t, None :: rest')
  | Some shard :: rest =>
      let '(got, err, shard') := ReadFull shard (outSize - totalRead) in
      if is_some err && negb (is_err err EOF)
         && negb (is_err err ErrUnexpectedEOF)
      then (err, buffer, totalRead, Some shard' :: rest)
      else
        let buffer := write_at buffer totalRead got in
        let totalRead := totalRead + zlen got in
        if totalRead >=? outSize then
          (None, buffer, totalRead, Some shard' :: rest)
        else
          let '(e, b, t, rest') :=
            join_tiny_loop outSize buffer totalRead rest in
          (e, b, t, Some shard' :: rest')
  end.

(** Second special case ([outSize < 1000]): one [Read] per non-nil shard
    into [buffer[totalWritten : totalWritten+toRead]]. *)
Fixpoint join_small_loop (outSize : Z) (buffer : list Z) (totalWritten : Z)
    (shards : list (option Reader))
  : option error * list Z * Z * list (option Reader) :=
  match shards with
  | [] => (None, buffer, totalWritten, [])
  | None :: rest =>
      let '(e, b, t, rest') :=
        join_small_loop outSize buffer totalWritten rest in
      (e, b, t, None :: rest')
  | Some shard :: rest =>
      let toRead := outSize - totalWritten in
      if toRead <=? 0 then (None, buffer, totalWritten, shards)
      else
        let '(got, err, shard') := Read shard toRead in
        if is_some err && negb (is_err err EOF)
        then (err, buffer, totalWritten, Some shard' :: rest)
        else
          let buffer := write_at buffer totalWritten got in
          let totalWritten := totalWritten + zlen got in
          if totalWritten >=? outSize then
            (None, buffer, totalWritten, Some shard' :: rest)
          else
            let '(e, b, t, rest') :=
              join_small_loop outSize buffer totalWritten rest in
            (e, b, t, Some shard' :: rest')
  end.

(** [(outSize + dataShards - 1) / dataShards], rounded up to 64. *)
Definition join_perShard (k outSize : Z) : Z :=
  align_if_needed (Z.quot (outSize + k - 1) k).

(** The loop of [joinWithMultiReader] that wraps the shards in
    [io.LimitReader]s: for every position the limit of its reader, or
    [None] when the shard is nil or the loop has left before it.
    [i] is the index, [nreaders] is [len(readers)], [n] is [len(shards)]. *)
Fixpoint mr_limits (perShard outSize : Z) (n : Z) (i nreaders : Z)
    (shards : list (option Reader)) : list (option Z) :=
  match shards with
  | [] => []
  | None :: rest =>
      None :: mr_limits perShard outSize n (i + 1) nreaders rest
  | Some _ :: rest =>
      if i =? n - 1 then
        let expectedSize := outSize - nreaders * perShard in
        if expectedSize <=? 0 then map (fun _ => None) shards
        else Some expectedSize
               :: mr_limits perShard outSize n (i + 1) (nreaders + 1) rest
      else Some perShard
             :: mr_limits perShard outSize n (i + 1) (nreaders + 1) rest
  end.

(** [io.CopyN(dst, io.MultiReader(readers...), remaining)]: the limited
    readers are drained in order into [dst] until [remaining] bytes have
    been copied.  A reader is left when its limit is reached or it
    reports [io.EOF]; any other error ends the copy.  (How [io.Copy]
    cuts the stream into [Write] calls is not observable on these
    writers.)  Returns the bytes written and the error of [io.Copy]. *)
Fixpoint copy_multi (remaining : Z) (shards : list (option Reader))
    (limits : list (option Z)) (dst : Writer)
  : Z * option error * list (option Reader) * Writer :=
  match shards, limits with
  | Some shard :: rest, Some limit :: lrest =>
      if remaining <=? 0 then (0, None, shards, dst)
      else
        let c := Z.min remaining limit in
        let got := ztake c (rdata shard) in
        let shard' := mkReader (zdrop c (rdata shard)) (rseek shard)
                               (rfail shard) in
        let '(_, werr, dst') :=
          if zlen got =? 0 then (0, None, dst) else Write dst got in
        match werr with
        | Some e => (0, Some e, Some shard' :: rest, dst')
        | None =>
            if remaining - zlen got <=? 0 then
              (zlen got, None, Some shard' :: rest, dst')
            else if (zlen got <? limit) && is_some (rfail shard) then
              (zlen got, rfail shard, Some shard' :: rest, dst')
            else
              let '(w, e, rest', dst'') :=
                copy_multi (remaining - zlen got) rest lrest dst' in
              (zlen got + w, e, Some shard' :: rest', dst'')
        end
  | s :: rest, _ :: lrest =>
      let '(w, e, rest', dst') := copy_multi remaining rest lrest dst in
      (w, e, s :: rest', dst')
  | _, _ => (0, None, shards, dst)
  end.

(** [func (r *rsStreamFF8) joinWithMultiReader(dst, shards, outSize) error] *)
Definition joinWithMultiReader (r : rsStreamFF8) (dst : Writer)
    (shards : list (option Reader)) (outSize : Z)
  : option error * Writer * list (option Reader) :=
  let perShard := join_perShard (dataShards r) outSize in
  let limits := mr_limits perShard outSize (zlen shards) 0 0 shards in
  let '(written, err, shards', dst') :=
    copy_multi outSize shards limits dst in
  (* io.CopyN reports io.EOF when fewer bytes came than asked for *)
  let err := match err with
             | None => if written <? outSize then Some EOF else None
             | Some e => Some e
             end in
  if is_some err && negb (is_err err EOF) then (err, dst', shards')
  else if written <? outSize then (Some ErrShortData, dst', shards')
  else (None, dst', shards').

(** [const bufSize = 64 * 1024] *)
Definition bufSize : Z := 64 * 1024.

(** The inner loop of [joinWithBufferedReads] on one shard:
    [for shardBytesRead < expectedShardSize && totalWritten < outSize].
    The first component is the error of a [return] inside the loop.
    Every round that goes on has taken at least one byte from the shard,
    so [fuel] above the number of remaining bytes is never used up. *)
Fixpoint buffered_shard_loop (fuel : nat) (outSize expectedShardSize : Z)
    (shard : Reader) (shardBytesRead totalWritten : Z) (dst : Writer)
  : outcome (option error * Reader * Z * Writer) :=
  if negb ((shardBytesRead <? expectedShardSize) && (totalWritten <? outSize))
  then Ret (None, shard, totalWritten, dst)
  else
    match fuel with
    | O => Timeout
    | S fuel =>
        let toRead := Z.min bufSize (expectedShardSize - shardBytesRead) in
        let toRead := if totalWritten + toRead >? outSize
                      then outSize - totalWritten else toRead in
        if toRead =? 0 then Ret (None, shard, totalWritten, dst)
        else
          let '(got, err, shard') := Read shard toRead in
          if (zlen got <=? 0) || is_err err EOF then
            Ret (None, shard', totalWritten, dst)
          else if is_some err && negb (is_err err EOF)
                  && negb (is_err err ErrUnexpectedEOF) then
            Ret (err, shard', totalWritten, dst)
          else
            let '(written, werr, dst') := Write dst got in
            match werr with
            | Some e => Ret (Some e, shard', totalWritten, dst')
            | None =>
                if negb (written =? zlen got) then
                  Ret (Some ErrShortWrite, shard', totalWritten, dst')
                else
                  let shardBytesRead := shardBytesRead + zlen got in
                  let totalWritten := totalWritten + zlen got in
                  if totalWritten >=? outSize then
                    Ret (None, shard', totalWritten, dst')
                  else
                    buffered_shard_loop fuel outSize expectedShardSize
                      shard' shardBytesRead totalWritten dst'
            end
    end.

Definition shard_fuel (shard : Reader) : nat := S (length (rdata shard)).

(** The loop after the main one, on the last non-nil shard:
    [for totalWritten < outSize { ... }]. *)
Fixpoint buffered_last_loop (fuel : nat) (outSize : Z) (lastShard : Reader)
    (totalWritten : Z) (dst : Writer)
  : outcome (option error * Reader * Z * Writer) :=
  if negb (totalWritten <? outSize) then Ret (None, lastShard, totalWritten, dst)
  else
    match fuel with
    | O => Timeout
    | S fuel =>
        let toRead := Z.min bufSize (outSize - totalWritten) in
        let '(got, err, lastShard') := Read lastShard toRead in
        if (zlen got <=? 0) || is_err err EOF then
          Ret (None, lastShard', totalWritten, dst)
        else if is_some err && negb (is_err err EOF)
                && negb (is_err err ErrUnexpectedEOF) then
          Ret (err, lastShard', totalWritten, dst)
        else
          let '(written, werr, dst') := Write dst got in
          match werr with
          | Some e => Ret (Some e, lastShard', totalWritten, dst')
          | None =>
              if negb (written =? zlen got) then
                Ret (Some ErrShortWrite, lastShard', totalWritten, dst')
              else
                buffered_last_loop fuel outSize lastShard'
                  (totalWritten + zlen got) dst'
          end
    end.

(** [for i, shard := range shards] of [joinWithBufferedReads].  Returns
    the error of an inner [return], the readers, [totalWritten], the
    writer and [lastIndex]. *)
Fixpoint buffered_loop (outSize perShard n : Z) (i : Z) (lastIndex : Z)
    (totalWritten : Z) (dst : Writer) (shards : list (option Reader))
  : outcome (option error * list (option Reader) * Z * Writer * Z) :=
  match shards with
  | [] => Ret (None, [], totalWritten, dst, lastIndex)
  | None :: rest =>
      '(e, rest', tw, dst', li) <-
         buffered_loop outSize perShard n (i + 1) lastIndex totalWritten
           dst rest ;;
      Ret (e, None :: rest', tw, dst', li)
  | Some shard :: rest =>
      let lastIndex := i in
      if (i =? n - 1) && (totalWritten <? outSize) then
        '(e, rest', tw, dst', li) <-
           buffered_loop outSize perShard n (i + 1) lastIndex totalWritten
             dst rest ;;
        Ret (e, Some shard :: rest', tw, dst', li)
      else
        '(e, shard', tw, dst') <-
           buffered_shard_loop (shard_fuel shard) outSize perShard shard 0
             totalWritten dst ;;
        match e with
        | Some _ => Ret (e, Some shard' :: rest, tw, dst', lastIndex)
        | None =>
            '(e, rest', tw, dst'', li) <-
               buffered_loop outSize perShard n (i + 1) lastIndex tw dst'
                 rest ;;
            Ret (e, Some shard' :: rest', tw, dst'', li)
        end
  end.

(** [shards[i] = x] on a list. *)
Fixpoint set_nth {A} (i : nat) (x : A) (l : list A) : list A :=
  match l, i with
  | [], _ => []
  | _ :: t, O => x :: t
  | h :: t, S i => h :: set_nth i x t
  end.

(** [func (r *rsStreamFF8) joinWithBufferedReads(dst, shards, outSize) error].
    [lastShard] is the reader object at [lastIndex], in the state the
    main loop left it in. *)
Definition joinWithBufferedReads (r : rsStreamFF8) (dst : Writer)
    (shards : list (option Reader)) (outSize : Z)
  : outcome (option error * Writer * list (option Reader)) :=
  let perShard := join_perShard (dataShards r) outSize in
  '(e, shards', totalWritten, dst', lastIndex) <-
     buffered_loop outSize perShard (zlen shards) 0 (-1) 0 dst shards ;;
  match e with
  | Some _ => Ret (e, dst', shards')
  | None =>
      '(e, shards'', totalWritten, dst'') <-
         (match nth_error shards' (Z.to_nat lastIndex) with
          | Some (Some lastShard) =>
              if (lastIndex >=? 0) && (totalWritten <? outSize) then
                '(e, lastShard', tw, dst'') <-
                   buffered_last_loop (shard_fuel lastShard) outSize
                     lastShard totalWritten dst' ;;
                Ret (e, set_nth (Z.to_nat lastIndex) (Some lastShard') shards',
                     tw, dst'')
              else Ret (None, shards', totalWritten, dst')
          | _ => Ret (None, shards', totalWritten, dst')
          end) ;;
      match e with
      | Some _ => Ret (e, dst'', shards'')
      | None =>
          if totalWritten <? outSize then Ret (Some ErrShortData, dst'', shards'')
          else Ret (None, dst'', shards'')
      end
  end.

(** [len(x) == 0]-style count of the non-nil entries. *)
Definition count_some {A} (l : list (option A)) : Z :=
  zlen (filter is_some l).

(** [shard.(io.Seeker)] succeeds for every non-nil shard. *)
Definition allSeekable (shards : list (option Reader)) : bool :=
  forallb (fun s => match s with Some rd => rseek rd | None => true end)
          shards.

(** [const smallFileThreshold = 10 * 1024 * 1024] *)
Definition smallFileThreshold : Z := 10 * 1024 * 1024.

(** [func (r *rsStreamFF8) join(dst io.Writer, shards []io.Reader, outSize int64) error] *)
Definition join (r : rsStreamFF8) (dst : option Writer)
    (shards : list (option Reader)) (outSize : Z)
  : outcome (option error * option Writer * list (option Reader)) :=
  match dst with
  | None => Ret (Some ErrNilWriter, dst, shards)
  | Some w =>
      if zlen shards =? 0 then Ret (Some ErrTooFewShards, dst, shards)
      else if outSize <=? 0 then Ret (Some ErrSize, dst, shards)
      else if outSize <=? dataShards r then
        let '(e, buffer, totalRead, shards') :=
          join_tiny_loop outSize (zeros outSize) 0 shards in
        match e with
        | Some _ => Ret (e, dst, shards')
        | None =>
            if totalRead <? outSize then Ret (Some ErrShortData, dst, shards')
            else
              let '(_, err, w') := Write w buffer in
              Ret (err, Some w', shards')
        end
      else
        (* shards = shards[:r.dataShards] when all n streams were handed in *)
        '(shards, extra) <-
           (if zlen shards =? dataShards r + parityShards r then
              if (0 <=? dataShards r) && (dataShards r <=? zlen shards)
              then Ret (ztake (dataShards r) shards,
                        zdrop (dataShards r) shards)
              else Panic
            else Ret (shards, [])) ;;
        let validDataShards := count_some shards in
        if validDataShards <? dataShards r then
          Ret (Some ErrTooFewShards, dst, shards ++ extra)
        else if count_some shards =? 0 then
          Ret (Some ErrTooFewShards, dst, shards ++ extra)
        else if outSize <? 1000 then
          let '(e, buffer, totalWritten, shards') :=
            join_small_loop outSize (zeros outSize) 0 shards in
          match e with
          | Some _ => Ret (e, dst, shards' ++ extra)
          | None =>
              if totalWritten <? outSize then
                Ret (Some ErrShortData, dst, shards' ++ extra)
              else
                let '(_, err, w') := Write w (ztake outSize buffer) in
                Ret (err, Some w', shards' ++ extra)
          end
        else if (outSize <=? smallFileThreshold) && allSeekable shards then
          let '(e, w', shards') := joinWithMultiReader r w shards outSize in
          Ret (e, Some w', shards' ++ extra)
        else
          '(e, w', shards') <- joinWithBufferedReads r w shards outSize ;;
          Ret (e, Some w', shards' ++ extra)
  end.

(** *** Reading one block row: readInputs and its inlined copies *)

Fixpoint mapM {A B} (f : A -> outcome B) (l : list A) : outcome (list B) :=
  match l with
  | [] => Ret []
  | a :: t => b <- f a ;; t' <- mapM f t ;; Ret (b :: t')
  end.

(** The read loop that opens [readInputs], [verify], [reconstruct] and
    [reconstructData] (four copies of the same text):
    [for i, reader := range readers].  A nil reader empties its block;
    otherwise [io.ReadFull(reader, dst[i][:blockSize])], and the first
    read with [n > 0] sets [size].  The first component is the
    [StreamReadError] of the [default:] case. *)
Fixpoint read_blocks (blockSize : Z) (i : Z) (size : Z)
    (readers : list (option Reader)) (dst : list slice)
  : outcome (option error * Z * list slice * list (option Reader)) :=
  match readers with
  | [] => Ret (None, size, dst, [])
  | rd :: rest =>
      match dst with
      | [] => Panic
      | s :: srest =>
          match rd with
          | None =>
              s' <- reslice s 0 ;;
              '(e, size, srest', rest') <-
                 read_blocks blockSize (i + 1) size rest srest ;;
              Ret (e, size, s' :: srest', None :: rest')
          | Some reader =>
              _ <- reslice s blockSize ;;
              let '(got, err, reader') := ReadFull reader blockSize in
              if is_some err && negb (is_err err EOF)
                 && negb (is_err err ErrUnexpectedEOF)
              then
                Ret (option_map (fun e => StreamReadError e i) err, size,
                     store s got :: srest, Some reader' :: rest)
              else
                let size := if (size =? -1) && (zlen got >? 0)
                            then zlen got else size in
                s' <- reslice (store s got) (zlen got) ;;
                '(e, size, srest', rest') <-
                   read_blocks blockSize (i + 1) size rest srest ;;
                Ret (e, size, s' :: srest', Some reader' :: rest')
          end
      end
  end.

(** Growing a block to [n] bytes: [readInputs] re-slices; the inlined
    copies first test [cap(all[i]) < n] and then allocate and copy. *)
Definition extend (checkCap : bool) (s : slice) (n : Z) : outcome slice :=
  if checkCap && (cap s <? n) then
    if n <? 0 then Panic else Ret (copy (make n) (bytes s))
  else reslice s n.

(** The body of the loop "adjust all shards to one size". *)
Definition resize_block (checkCap : bool) (size : Z) (s : slice)
  : outcome slice :=
  let currentSize := len s in
  if currentSize =? 0 then
    s' <- reslice s size ;; zero_range s' 0 size
  else if currentSize <? size then
    s' <- extend checkCap s size ;; zero_range s' currentSize size
  else if currentSize >? size then reslice s size
  else Ret s.

(** The body of the padding loop of [readInputs]
    ([if len(dst[i]) == size]). *)
Definition pad_block_readInputs (size paddedSize : Z) (s : slice)
  : outcome slice :=
  if len s =? size then
    s' <- reslice s paddedSize ;; zero_range s' size paddedSize
  else Ret s.

(** The body of the padding loop of the inlined copies
    ([if len(all[i]) > 0]). *)
Definition pad_block (size alignedSize : Z) (s : slice) : outcome slice :=
  if len s >? 0 then
    s' <- extend true s alignedSize ;; zero_range s' size alignedSize
  else Ret s.

(** [func (r *rsStreamFF8) readInputs(dst [][]byte, readers []io.Reader) (int, error)] *)
Definition readInputs (r : rsStreamFF8) (dst : list slice)
    (readers : list (option Reader))
  : outcome (Z * option error * list slice * list (option Reader)) :=
  '(e, size, dst, readers) <- read_blocks (blockSize r) 0 (-1) readers dst ;;
  match e with
  | Some _ => Ret (0, e, dst, readers)
  | None =>
      if size =? -1 then Ret (0, Some EOF, dst, readers)
      else
        dst <- mapM (resize_block false size) dst ;;
        if negb (Z.rem size 64 =? 0) then
          let paddedSize := align64 size in
          dst <- mapM (pad_block_readInputs size paddedSize) dst ;;
          Ret (size, None, dst, readers)
        else Ret (size, None, dst, readers)
  end.

(** [func (r *rsStreamFF8) writeOutputs(writers []io.Writer, src [][]byte, size int) error] *)
Fixpoint writeOutputs_loop (alignedSize : Z) (i : Z)
    (writers : list (option Writer)) (src : list slice)
  : outcome (option error * list (option Writer)) :=
  match writers with
  | [] => Ret (None, [])
  | None :: rest =>
      '(e, rest') <- writeOutputs_loop alignedSize (i + 1) rest (tl src) ;;
      Ret (e, None :: rest')
  | Some writer :: rest =>
      match src with
      | [] => Panic
      | s :: srest =>
          let writeSize := alignedSize in
          p <- reslice s writeSize ;;
          let '(n, err, writer') := Write writer (bytes p) in
          match err with
          | Some e => Ret (Some (StreamWriteError e i), Some writer' :: rest)
          | None =>
              if negb (n =? writeSize) then
                Ret (Some (StreamWriteError ErrShortWrite i),
                     Some writer' :: rest)
              else
                '(e, rest') <-
                   writeOutputs_loop alignedSize (i + 1) rest srest ;;
                Ret (e, Some writer' :: rest')
          end
      end
  end.

Definition writeOutputs (r : rsStreamFF8) (writers : list (option Writer))
    (src : list slice) (size : Z)
  : outcome (option error * list (option Writer)) :=
  writeOutputs_loop (align64 size) 0 writers src.

(** *** encode *)

(** [AllocAligned(shards, each)] (declared elsewhere in the package):
    [shards] zeroed buffers of [each] bytes. *)
Definition AllocAligned (shards each : Z) : list slice :=
  repeat (make each) (Z.to_nat shards).

(** [r.createSlice()], i.e. [r.blockPool.Get()] on the pool of a freshly
    built encoder: the pool is empty, so [New] allocates. *)
Definition createSlice (r : rsStreamFF8) : list slice :=
  AllocAligned (totalShards r) (blockSize r).

(** [l[:k]] and [l[k:]] on the block matrix. *)
Definition upto {A} (k : Z) (l : list A) : outcome (list A) :=
  if (0 <=? k) && (k <=? zlen l) then Ret (ztake k l) else Panic.
Definition from {A} (k : Z) (l : list A) : outcome (list A) :=
  if (0 <=? k) && (k <=? zlen l) then Ret (zdrop k l) else Panic.

(** Every round of the stream loops that goes on has read at least one
    byte, so this fuel is never used up. *)
Definition stream_fuel (inputs : list (option Reader)) : nat :=
  S (fold_right
       (fun rd n => match rd with
                    | Some rd => (length (rdata rd) + n)%nat
                    | None => n
                    end) O inputs).

(** "compute the aligned size and set all shards" in [encode]. *)
Definition encode_align (alignedSize : Z) (s : slice) : outcome slice :=
  let s := if len s <? alignedSize
           then copy (make alignedSize) (bytes s) else s in
  reslice s alignedSize.

(** The [for { ... }] of [encode]. *)
Fixpoint encode_loop (fuel : nat) (r : rsStreamFF8) (shards : list slice)
    (inputs : list (option Reader)) (outputs : list (option Writer))
  : outcome (option error * list (option Reader) * list (option Writer)) :=
  match fuel with
  | O => Timeout
  | S fuel =>
      dst <- upto (dataShards r) shards ;;
      '(size, err, dst, inputs) <- readInputs r dst inputs ;;
      let shards := dst ++ zdrop (dataShards r) shards in
      if is_err err EOF then Ret (None, inputs, outputs)
      else
        match err with
        | Some _ => Ret (err, inputs, outputs)
        | None =>
            let hasData := existsb (fun s => len s >? 0) dst in
            if negb hasData then Ret (Some ErrShardNoData, inputs, outputs)
            else
              let alignedSize := align64 size in
              shards <- mapM (encode_align alignedSize) shards ;;
              let '(err, shards) := Encode (ff_engine (rs r)) shards in
              match err with
              | Some _ => Ret (err, inputs, outputs)
              | None =>
                  src <- from (dataShards r) shards ;;
                  '(err, outputs) <- writeOutputs r outputs src size ;;
                  match err with
                  | Some _ => Ret (err, inputs, outputs)
                  | None => encode_loop fuel r shards inputs outputs
                  end
              end
        end
  end.

(** [encode] once the block matrix is at hand. *)
Definition encode_with (r : rsStreamFF8) (shards : list slice)
    (inputs : list (option Reader)) (outputs : list (option Writer))
  : outcome (option error * list (option Reader) * list (option Writer)) :=
  if negb (zlen inputs =? dataShards r) then
    Ret (Some ErrTooFewShards, inputs, outputs)
  else if negb (zlen outputs =? parityShards r) then
    Ret (Some ErrTooFewShards, inputs, outputs)
  else
    shards <- mapM (fun s => reslice s (blockSize r)) shards ;;
    encode_loop (stream_fuel inputs) r shards inputs outputs.

(** [func (r *rsStreamFF8) encode(inputs []io.Reader, outputs []io.Writer) error] *)
Definition encode (r : rsStreamFF8) (inputs : list (option Reader))
    (outputs : list (option Writer))
  : outcome (option error * list (option Reader) * list (option Writer)) :=
  encode_with r (createSlice r) inputs outputs.

(** *** verify *)

(** The part every round of [verify], [reconstruct] has after the read
    loop and the end test: resize and pad all blocks. *)
Definition shape_blocks (size : Z) (all : list slice)
  : outcome (Z * list slice) :=
  all <- mapM (resize_block true size) all ;;
  if negb (Z.rem size 64 =? 0) then
    let alignedSize := align64 size in
    all <- mapM (pad_block size alignedSize) all ;;
    Ret (alignedSize, all)
  else Ret (size, all).

Fixpoint verify_loop (fuel : nat) (r : rsStreamFF8) (all : list slice)
    (read : Z) (shards : list (option Reader))
  : outcome (bool * option error * list (option Reader)) :=
  match fuel with
  | O => Timeout
  | S fuel =>
      '(e, size, all, shards) <-
         read_blocks (blockSize r) 0 (-1) shards all ;;
      match e with
      | Some _ => Ret (false, e, shards)
      | None =>
          if (size =? -1) || (size =? 0) then
            if read =? 0 then Ret (false, Some ErrShardNoData, shards)
            else Ret (true, None, shards)
          else
            '(alignedSize, all) <- shape_blocks size all ;;
            let read := read + size in
            let '(ok, err) := Verify (ff_engine (rs r)) all in
            if negb ok || is_some err then Ret (ok, err, shards)
            else verify_loop fuel r all read shards
      end
  end.

Definition verify_with (r : rsStreamFF8) (all : list slice)
    (shards : list (option Reader))
  : outcome (bool * option error * list (option Reader)) :=
  if negb (zlen shards =? totalShards r) then
    Ret (false, Some ErrTooFewShards, shards)
  else verify_loop (stream_fuel shards) r all 0 shards.

(** [func (r *rsStreamFF8) verify(shards []io.Reader) (bool, error)] *)
Definition verify (r : rsStreamFF8) (shards : list (option Reader))
  : outcome (bool * option error * list (option Reader)) :=
  verify_with r (createSlice r) shards.

(** *** reconstruct *)

(** The loop that opens [reconstruct]: a slot that is both an input and
    an output ends the call; an output in a parity slot clears
    [reconDataOnly]. *)
Fixpoint recon_check (k : Z) (i : Z) (reconDataOnly : bool)
    (inputs : list (option Reader)) (outputs : list (option Writer))
  : outcome (option error * bool) :=
  match inputs with
  | [] => Ret (None, reconDataOnly)
  | inp :: irest =>
      match outputs with
      | [] => Panic
      | out :: orest =>
          if is_some inp && is_some out then
            Ret (Some ErrReconstructMismatch, reconDataOnly)
          else
            let reconDataOnly :=
              if (i >=? k) && is_some out then false else reconDataOnly in
            recon_check k (i + 1) reconDataOnly irest orest
      end
  end.

(** "before rebuilding make sure all shard sizes agree". *)
Definition even_block (alignedSize : Z) (s : slice) : outcome slice :=
  if negb (len s =? alignedSize) && negb (len s =? 0) then
    s' <- extend true s alignedSize ;; zero_range s' (len s') alignedSize
  else Ret s.

(** The output loop of [reconstruct]: data slots get [size] bytes, parity
    slots [alignedSize]. *)
Fixpoint recon_write (k size alignedSize : Z) (i : Z)
    (outputs : list (option Writer)) (all : list slice)
  : outcome (option error * list (option Writer)) :=
  match outputs with
  | [] => Ret (None, [])
  | None :: rest =>
      '(e, rest') <- recon_write k size alignedSize (i + 1) rest (tl all) ;;
      Ret (e, None :: rest')
  | Some writer :: rest =>
      match all with
      | [] => Panic
      | s :: srest =>
          let writeSize := if i >=? k then alignedSize else size in
          p <- reslice s writeSize ;;
          let '(n, err, writer') := Write writer (bytes p) in
          match err with
          | Some e => Ret (Some (StreamWriteError e i), Some writer' :: rest)
          | None =>
              if negb (n =? writeSize) then
                Ret (Some (StreamWriteError ErrShortWrite i),
                     Some writer' :: rest)
              else
                '(e, rest') <-
                   recon_write k size alignedSize (i + 1) rest srest ;;
                Ret (e, Some writer' :: rest')
          end
      end
  end.

Fixpoint reconstruct_loop (fuel : nat) (r : rsStreamFF8)
    (reconDataOnly : bool) (all : list slice) (read : Z)
    (inputs : list (option Reader)) (outputs : list (option Writer))
  : outcome (option error * list (option Reader) * list (option Writer)) :=
  match fuel with
  | O => Timeout
  | S fuel =>
      '(e, size, all, inputs) <-
         read_blocks (blockSize r) 0 (-1) inputs all ;;
      match e with
      | Some _ => Ret (e, inputs, outputs)
      | None =>
          if (size =? -1) || (size =? 0) then
            if read =? 0 then Ret (Some ErrShardNoData, inputs, outputs)
            else Ret (None, inputs, outputs)
          else
            '(alignedSize, all) <- shape_blocks size all ;;
            let read := read + size in
            all <- mapM (even_block alignedSize) all ;;
            let '(err, all) :=
              if reconDataOnly then ReconstructData (ff_engine (rs r)) all
              else Reconstruct (ff_engine (rs r)) all in
            match err with
            | Some _ => Ret (err, inputs, outputs)
            | None =>
                '(err, outputs) <-
                   recon_write (dataShards r) size alignedSize 0 outputs all ;;
                match err with
                | Some _ => Ret (err, inputs, outputs)
                | None =>
                    reconstruct_loop fuel r reconDataOnly all read inputs
                      outputs
                end
            end
      end
  end.

Definition reconstruct_with (r : rsStreamFF8) (all : list slice)
    (inputs : list (option Reader)) (outputs : list (option Writer))
  : outcome (option error * list (option Reader) * list (option Writer)) :=
  if negb (zlen inputs =? totalShards r) then
    Ret (Some ErrTooFewShards, inputs, outputs)
  else if negb (zlen outputs =? totalShards r) then
    Ret (Some ErrTooFewShards, inputs, outputs)
  else
    '(e, reconDataOnly) <- recon_check (dataShards r) 0 true inputs outputs ;;
    match e with
    | Some _ => Ret (e, inputs, outputs)
    | None =>
        reconstruct_loop (stream_fuel inputs) r reconDataOnly all 0 inputs
          outputs
    end.

(** [func (r *rsStreamFF8) reconstruct(inputs []io.Reader, outputs []io.Writer) error] *)
Definition reconstruct (r : rsStreamFF8) (inputs : list (option Reader))
    (outputs : list (option Writer))
  : outcome (option error * list (option Reader) * list (option Writer)) :=
  reconstruct_with r (createSlice r) inputs outputs.

(** *** reconstructData *)

(** The conflict loop of [reconstructData]. *)
Fixpoint data_check (inputs : list (option Reader))
    (outputs : list (option Writer)) : outcome (option error) :=
  match inputs with
  | [] => Ret None
  | inp :: irest =>
      match outputs with
      | [] => Panic
      | out :: orest =>
          if is_some inp && is_some out then Ret (Some ErrReconstructMismatch)
          else data_check irest orest
      end
  end.

(** [missingShards]: [true] at the data slots with no input and an
    output. *)
Fixpoint missing_of (k : Z) (i : Z) (inputs : list (option Reader))
    (outputs : list (option Writer)) : list bool :=
  match inputs, outputs with
  | inp :: irest, out :: orest =>
      ((i <? k) && negb (is_some inp) && is_some out)
        :: missing_of k (i + 1) irest orest
  | _, _ => []
  end.

(** [for i := range all { if missingShards[i] { continue }; body }] *)
Fixpoint skip_missing (body : slice -> outcome slice) (missing : list bool)
    (all : list slice) : outcome (list slice) :=
  match all with
  | [] => Ret []
  | s :: srest =>
      match missing with
      | [] => Panic
      | m :: mrest =>
          s' <- (if m then Ret s else body s) ;;
          rest' <- skip_missing body mrest srest ;;
          Ret (s' :: rest')
      end
  end.

(** "prepare room for the missing shards but keep their length 0":
    [for i := range missingShards]. *)
Fixpoint clear_missing (alignedSize : Z) (missing : list bool)
    (all : list slice) : outcome (list slice) :=
  match missing with
  | [] => Ret all
  | m :: mrest =>
      match all with
      | [] => if m then Panic else clear_missing alignedSize mrest []
      | s :: srest =>
          s' <- (if m then
                   if cap s <? alignedSize
                   then Ret (mkSlice (zeros alignedSize) 0)
                   else reslice s 0
                 else Ret s) ;;
          rest' <- clear_missing alignedSize mrest srest ;;
          Ret (s' :: rest')
      end
  end.

(** The output loop of [reconstructData]:
    [for i := 0; i < r.dataShards; i++]. *)
Fixpoint data_write (size : Z) (i : Z) (outputs : list (option Writer))
    (all : list slice) : outcome (option error * list (option Writer)) :=
  match outputs with
  | [] => Ret (None, [])
  | None :: rest =>
      '(e, rest') <- data_write size (i + 1) rest (tl all) ;;
      Ret (e, None :: rest')
  | Some writer :: rest =>
      match all with
      | [] => Panic
      | s :: srest =>
          p <- reslice s size ;;
          let '(n, err, writer') := Write writer (bytes p) in
          match err with
          | Some e => Ret (Some (StreamWriteError e i), Some writer' :: rest)
          | None =>
              if negb (n =? size) then
                Ret (Some (StreamWriteError ErrShortWrite i),
                     Some writer' :: rest)
              else
                '(e, rest') <- data_write size (i + 1) rest srest ;;
                Ret (e, Some writer' :: rest')
          end
      end
  end.

Fixpoint reconstructData_loop (fuel : nat) (r : rsStreamFF8)
    (missingShards : list bool) (all : list slice) (read : Z)
    (inputs : list (option Reader)) (outputs : list (option Writer))
  : outcome (option error * list (option Reader) * list (option Writer)) :=
  match fuel with
  | O => Timeout
  | S fuel =>
      '(e, size, all, inputs) <-
         read_blocks (blockSize r) 0 (-1) inputs all ;;
      match e with
      | Some _ => Ret (e, inputs, outputs)
      | None =>
          if (size =? -1) || (size =? 0) then
            if read =? 0 then Ret (Some ErrShardNoData, inputs, outputs)
            else Ret (None, inputs, outputs)
          else
            all <- skip_missing (resize_block true size) missingShards all ;;
            '(alignedSize, all) <-
               (if negb (Z.rem size 64 =? 0) then
                  let alignedSize := align64 size in
                  all <- skip_missing (pad_block size alignedSize)
                           missingShards all ;;
                  Ret (alignedSize, all)
                else Ret (size, all)) ;;
            let read := read + size in
            all <- clear_missing alignedSize missingShards all ;;
            let '(err, all) := ReconstructData (ff_engine (rs r)) all in
            match err with
            | Some _ => Ret (err, inputs, outputs)
            | None =>
                dataOut <- upto (dataShards r) outputs ;;
                '(err, dataOut) <- data_write size 0 dataOut all ;;
                let outputs := dataOut ++ zdrop (dataShards r) outputs in
                match err with
                | Some _ => Ret (err, inputs, outputs)
                | None =>
                    reconstructData_loop fuel r missingShards all read
                      inputs outputs
                end
            end
      end
  end.

Definition reconstructData_with (r : rsStreamFF8) (all : list slice)
    (inputs : list (option Reader)) (outputs : list (option Writer))
  : outcome (option error * list (option Reader) * list (option Writer)) :=
  if negb (zlen inputs =? totalShards r) then
    Ret (Some ErrTooFewShards, inputs, outputs)
  else if negb (zlen outputs =? totalShards r) then
    Ret (Some ErrTooFewShards, inputs, outputs)
  else
    e <- data_check inputs outputs ;;
    match e with
    | Some _ => Ret (e, inputs, outputs)
    | None =>
        if dataShards r >? totalShards r then Panic
        else
          let missingShards := missing_of (dataShards r) 0 inputs outputs in
          reconstructData_loop (stream_fuel inputs) r missingShards all 0
            inputs outputs
    end.

(** [func (r *rsStreamFF8) reconstructData(inputs []io.Reader, outputs []io.Writer) error] *)
Definition reconstructData (r : rsStreamFF8) (inputs : list (option Reader))
    (outputs : list (option Writer))
  : outcome (option error * list (option Reader) * list (option Writer)) :=
  reconstructData_with r (createSlice r) inputs outputs.

(** ** reedsolomon.go: constructors and the stream facade *)

(** Go's [(T, error)] for the constructors. *)
Inductive result (A : Type) : Type :=
| Ok (a : A)
| Err (e : error).
Arguments Ok {A} a.
Arguments Err {A} e.

Section Facade.

(** The engines [newFF8]/[newFF16] build for a valid [(k, m)]. *)
Variable engine8 : Z -> Z -> Engine.
Variable engine16 : Z -> Z -> Engine.

(** Modelled from the spec: [newFF8] is not among the embedded files.
    Section 3 gives the GF(2^8) backend the parameters [1 <= k], [1 <= m],
    [k + m <= 256]; section 6 names the errors [InvalidShardNum]
    (non-positive) and [MaxShardNum] (too many shards); section 4.5 says
    out-of-range [(k, m)] is reported.  [k + m] is the machine sum. *)
Definition newFF8 (dataShards parityShards : Z) : result leopardFF8 :=
  if (dataShards <=? 0) || (parityShards <=? 0) then Err ErrInvShardNum
  else if int_add dataShards parityShards >? 256 then Err ErrMaxShardNum
  else Ok (mkFF8 dataShards parityShards (int_add dataShards parityShards)
                 (engine8 dataShards parityShards)).

(** Modelled from the spec: [newFF16] is not among the embedded files.
    Section 3: [1 <= k], [1 <= m], [k + m <= 65536]; section 6:
    [InvalidShardNum] (non-positive), [MaxShardNum] (exceeds 65536). *)
Definition newFF16 (dataShards parityShards : Z) : result leopardFF8 :=
  if (dataShards <=? 0) || (parityShards <=? 0) then Err ErrInvShardNum
  else if int_add dataShards parityShards >? 65536 then Err ErrMaxShardNum
  else Ok (mkFF8 dataShards parityShards (int_add dataShards parityShards)
                 (engine16 dataShards parityShards)).

(** The interface value [ReedSolomon]: which wrapper it holds. *)
Inductive ReedSolomon : Type :=
| rsFF8 (ff : leopardFF8)
| rsFF16 (ff : leopardFF8).

Definition newReedSolomon8 (dataShards parityShards : Z)
  : result ReedSolomon :=
  match newFF8 dataShards parityShards with
  | Err e => Err e
  | Ok ff8 => Ok (rsFF8 ff8)
  end.

Definition newReedSolomon16 (dataShards parityShards : Z)
  : result ReedSolomon :=
  match newFF16 dataShards parityShards with
  | Err e => Err e
  | Ok ff16 => Ok (rsFF16 ff16)
  end.

Definition New8 (dataShards parityShards : Z) : result ReedSolomon :=
  newReedSolomon8 dataShards parityShards.

Definition New16 (dataShards parityShards : Z) : result ReedSolomon :=
  newReedSolomon16 dataShards parityShards.

(** [func New(dataShards, parityShards int) (ReedSolomon, error)] *)
Definition New (dataShards parityShards : Z) : result ReedSolomon :=
  if (dataShards <=? 0) || (parityShards <=? 0) then Err ErrInvShardNum
  else
    let totalShards := int_add dataShards parityShards in
    if totalShards <=? 256 then New8 dataShards parityShards
    else New16 dataShards parityShards.

(** [func newStreamEncoderFF8(dataShards, parityShards int) (rsStreamFF8, error)] *)
Definition newStreamEncoderFF8 (dataShards parityShards : Z)
  : result rsStreamFF8 :=
  if dataShards <=? 0 then Err ErrInvShardNum
  else if parityShards <=? 0 then Err ErrInvShardNum
  else
    match newFF8 dataShards parityShards with
    | Err e => Err e
    | Ok enc =>
        Ok (mkStreamFF8 enc dataShards parityShards
              (int_add dataShards parityShards) (4 * 1024 * 1024))
    end.

Definition stream_result : Type :=
  outcome (option error * list (option Reader) * list (option Writer)).

(** [func (r *rsFF8) StreamEncode(inputs []io.Reader, outputs []io.Writer) error] *)
Definition StreamEncode (r : leopardFF8) (inputs : list (option Reader))
    (outputs : list (option Writer)) : stream_result :=
  if negb (zlen inputs =? ff_dataShards r) then
    Ret (Some ErrTooFewShards, inputs, outputs)
  else if negb (zlen outputs =? ff_parityShards r) then
    Ret (Some ErrTooFewShards, inputs, outputs)
  else
    match newStreamEncoderFF8 (ff_dataShards r) (ff_parityShards r) with
    | Err e => Ret (Some e, inputs, outputs)
    | Ok enc => encode enc inputs outputs
    end.

(** [func (r *rsFF8) StreamVerify(shards []io.Reader) (bool, error)] *)
Definition StreamVerify (r : leopardFF8) (shards : list (option Reader))
  : outcome (bool * option error * list (option Reader)) :=
  if negb (zlen shards =? ff_totalShards r) then
    Ret (false, Some ErrTooFewShards, shards)
  else
    match newStreamEncoderFF8 (ff_dataShards r) (ff_parityShards r) with
    | Err e => Ret (false, Some e, shards)
    | Ok enc => verify enc shards
    end.

(** The two loops of [StreamReconstruct] before the encoder is used. *)
Fixpoint facade_check (inputs : list (option Reader))
    (outputs : list (option Writer)) : outcome bool :=
  match inputs with
  | [] => Ret false
  | inp :: irest =>
      match outputs with
      | [] => Panic
      | out :: orest =>
          if is_some inp && is_some out then Ret true
          else facade_check irest orest
      end
  end.

(** [for i := r.dataShards; i < r.totalShards; i++ { if outputs[i] != nil ... }] *)
Definition onlyData_of (dataShards totalShards : Z)
    (outputs : list (option Writer)) : outcome bool :=
  if dataShards >=? totalShards then Ret true
  else if dataShards <? 0 then Panic
  else
    let window := ztake (totalShards - dataShards) (zdrop dataShards outputs) in
    if existsb is_some window then Ret false
    else if zlen outputs <? totalShards then Panic
    else Ret true.

(** [func (r *rsFF8) StreamReconstruct(inputs []io.Reader, outputs []io.Writer) error] *)
Definition StreamReconstruct (r : leopardFF8) (inputs : list (option Reader))
    (outputs : list (option Writer)) : stream_result :=
  if negb (zlen inputs =? ff_totalShards r)
     || negb (zlen outputs =? ff_totalShards r) then
    Ret (Some ErrTooFewShards, inputs, outputs)
  else
    clash <- facade_check inputs outputs ;;
    if clash then Ret (Some ErrReconstructMismatch, inputs, outputs)
    else
      match newStreamEncoderFF8 (ff_dataShards r) (ff_parityShards r) with
      | Err e => Ret (Some e, inputs, outputs)
      | Ok enc =>
          onlyData <- onlyData_of (ff_dataShards r) (ff_totalShards r)
                        outputs ;;
          if onlyData then reconstructData enc inputs outputs
          else reconstruct enc inputs outputs
      end.

(** [dataOnlyOutputs := make([]io.Writer, r.totalShards)] followed by
    [for i := 0; i < r.dataShards; i++ { dataOnlyOutputs[i] = outputs[i] }]:
    either index panics when out of range. *)
Definition dataOnlyOutputs_of (dataShards totalShards : Z)
    (outputs : list (option Writer)) : outcome (list (option Writer)) :=
  if totalShards <? 0 then Panic
  else if dataShards <=? 0 then Ret (repeat None (Z.to_nat totalShards))
  else if (dataShards <=? zlen outputs) && (dataShards <=? totalShards) then
    Ret (ztake dataShards outputs
           ++ repeat None (Z.to_nat (totalShards - dataShards)))
  else Panic.

(** [StreamReconstructData] of [rsFF8] and of [rsFF16] is the same text
    over the receiver's own [StreamReconstruct]; [recon] is that method.
    The writers the caller passed are returned in their new state: those
    of the data slots come back from the delegated call. *)
Definition StreamReconstructData_of
    (recon : list (option Reader) -> list (option Writer) -> stream_result)
    (dataShards totalShards : Z)
    (inputs : list (option Reader)) (outputs : list (option Writer))
  : stream_result :=
  dataOnlyOutputs <- dataOnlyOutputs_of dataShards totalShards outputs ;;
  '(e, inputs', outs') <- recon inputs dataOnlyOutputs ;;
  Ret (e, inputs', ztake dataShards outs' ++ zdrop dataShards outputs).

(** [func (r *rsFF8) StreamReconstructData(inputs []io.Reader, outputs []io.Writer) error] *)
Definition StreamReconstructData (r : leopardFF8)
    (inputs : list (option Reader)) (outputs : list (option Writer))
  : stream_result :=
  StreamReconstructData_of (StreamReconstruct r) (ff_dataShards r)
    (ff_totalShards r) inputs outputs.

(** [func (r *rsFF8) StreamSplit(data io.Reader, dst []io.Writer, size int64) error] *)
Definition StreamSplit (r : leopardFF8) (data : Reader)
    (dst : list (option Writer)) (size : Z)
  : outcome (option error * Reader * list (option Writer)) :=
  if negb (zlen dst =? ff_dataShards r) then
    Ret (Some ErrTooFewShards, data, dst)
  else
    match newStreamEncoderFF8 (ff_dataShards r) (ff_parityShards r) with
    | Err e => Ret (Some e, data, dst)
    | Ok enc => split enc data dst size
    end.

(** [func (r *rsFF8) StreamJoin(dst io.Writer, shards []io.Reader, outSize int64) error] *)
Definition StreamJoin (r : leopardFF8) (dst : option Writer)
    (shards : list (option Reader)) (outSize : Z)
  : outcome (option error * option Writer * list (option Reader)) :=
  match dst with
  | None => Ret (Some ErrNilWriter, dst, shards)
  | Some _ =>
      match newStreamEncoderFF8 (ff_dataShards r) (ff_parityShards r) with
      | Err e => Ret (Some e, dst, shards)
      | Ok enc => join enc dst shards outSize
      end
  end.

End Facade.

(** ** Butterflies *)

Module Butterfly.

(** [ffe] is [uint16], [ffe8] is [uint8]; [modulus] is the largest value
    of each ([2^w - 1]). *)
Definition modulus : Z := 65535.
Definition modulus8 : Z := 255.

(** The kernel calls a butterfly makes, in order, with the positions of
    their operands in the work array. *)
Inductive kcall : Type :=
| KXor (input output : nat)
| KMulAdd (x y : nat) (log_m : Z)
| KMul (x y : nat) (log_m : Z).

(** The work array ([[][]byte]) and the log of kernel calls so far. *)
Record fft_state : Type := mkState {
  work : list (list Z);
  calls : list kcall
}.

(** [out[i] ^= in[i]] for every index of [in]. *)
Fixpoint xor_bytes (out input : list Z) : list Z :=
  match out, input with
  | o :: out', b :: input' => Z.lxor o b :: xor_bytes out' input'
  | _, _ => out
  end.

Section Kernels.

(** The product tables of the two fields are not among the embedded
    files: [mul8 log_m b] is the byte [multiply256LUT8]/[mul8LUTs] give
    for the constant with logarithm [log_m] and the byte [b];
    [mul16 log_m y] is the slice [y] multiplied by the constant with
    logarithm [log_m] through [mul16LUTs]. *)
Variable mul8 : Z -> Z -> Z.
Variable mul16 : Z -> list Z -> list Z.

Definition shard_at (st : fft_state) (i : nat) : outcome (list Z) :=
  match nth_error (work st) i with
  | Some s => Ret s
  | None => Panic
  end.

Definition put_shard (st : fft_state) (i : nat) (s : list Z) (c : kcall)
  : fft_state :=
  mkState (set_nth i s (work st)) (calls st ++ [c]).

(** Modelled from the spec: [sliceXor(in, out)] (section 4.2,
    [xor_slice]); the direction, [out ^= in], is the one
    [galMulSliceXor] relies on for [c == 1]. *)
Definition sliceXor (input output : nat) (st : fft_state)
  : outcome fft_state :=
  i <- shard_at st input ;;
  o <- shard_at st output ;;
  Ret (put_shard st output (xor_bytes o i) (KXor input output)).

(** Modelled from the spec: [xorSliceNEON(x, y)], the assembly twin of
    [sliceXor] ("64 byte aligned, always full"). *)
Definition xorSliceNEON (x y : nat) (st : fft_state) : outcome fft_state :=
  sliceXor x y st.

(** Modelled from the spec: [refMulAdd(x, y, log_m)], the reference
    [mul_add] of section 4.2: [x ^= c * y]. *)
Definition refMulAdd (x y : nat) (log_m : Z) (st : fft_state)
  : outcome fft_state :=
  sx <- shard_at st x ;;
  sy <- shard_at st y ;;
  Ret (put_shard st x (xor_bytes sx (mul16 log_m sy)) (KMulAdd x y log_m)).

(** Modelled from the spec: [refMul(x, y, log_m)], the reference [mul]:
    [x = c * y]. *)
Definition refMul (x y : nat) (log_m : Z) (st : fft_state)
  : outcome fft_state :=
  sy <- shard_at st y ;;
  _ <- shard_at st x ;;
  Ret (put_shard st x (mul16 log_m sy) (KMul x y log_m)).

(** [mulAdd8(out, in, log_m)]: the NEON kernel multiplies-and-adds the
    whole 32-byte blocks, [done = (len(in) >> 5) << 5] bytes; the rest
    goes to [refMulAdd8(in[done:], out[done:], log_m)], the reference
    [mul_add] with [in] in the place of its first argument. *)
Definition mulAdd8_bytes (out input : list Z) (log_m : Z)
  : list Z * list Z :=
  let done := Z.shiftl (Z.shiftr (zlen input) 5) 5 in
  let out1 := xor_bytes (ztake done out) (map (mul8 log_m) (ztake done input))
                ++ zdrop done out in
  if zlen input - done >? 0 then
    (out1,
     ztake done input
       ++ xor_bytes (zdrop done input) (map (mul8 log_m) (zdrop done out1)))
  else (out1, input).

Definition mulAdd8 (out input : nat) (log_m : Z) (st : fft_state)
  : outcome fft_state :=
  o <- shard_at st out ;;
  i <- shard_at st input ;;
  let '(o', i') := mulAdd8_bytes o i log_m in
  Ret (mkState (set_nth out o' (set_nth input i' (work st)))
               (calls st ++ [KMulAdd out input log_m])).

(** *** The arm64 file *)

(** [func fftDIT2(x, y []byte, log_m ffe)] *)
Definition fftDIT2 (x y : nat) (log_m : Z) (st : fft_state)
  : outcome fft_state :=
  st <- refMulAdd x y log_m st ;;
  xorSliceNEON x y st.

(** [func fftDIT28(x, y []byte, log_m ffe8)] *)
Definition fftDIT28 (x y : nat) (log_m : Z) (st : fft_state)
  : outcome fft_state :=
  st <- mulAdd8 x y log_m st ;;
  sliceXor x y st.

(** [func ifftDIT2(x, y []byte, log_m ffe)] *)
Definition ifftDIT2 (x y : nat) (log_m : Z) (st : fft_state)
  : outcome fft_state :=
  st <- xorSliceNEON x y st ;;
  refMulAdd x y log_m st.

(** [func ifftDIT28(x, y []byte, log_m ffe8)] *)
Definition ifftDIT28 (x y : nat) (log_m : Z) (st : fft_state)
  : outcome fft_state :=
  st <- sliceXor x y st ;;
  mulAdd8 x y log_m st.

(** [func mulgf16(x, y []byte, log_m ffe) { refMul(x, y, log_m) }] *)
Definition mulgf16 (x y : nat) (log_m : Z) (st : fft_state)
  : outcome fft_state :=
  refMul x y log_m st.

(** *** The butterflies of the design document *)

(** [mulgf16AVX2]: the AVX2 twin of [mulgf16], byte-identical to it
    (section 4.3). *)
Definition mulgf16AVX2 (x y : nat) (log_m : Z) (st : fft_state)
  : outcome fft_state :=
  refMul x y log_m st.

(** The design document's
    [func fftDIT2(x, y []byte, log_m ffe, o *options)]. *)
Definition doc_fftDIT2 (useAVX2 : bool) (x y : nat) (log_m : Z)
    (st : fft_state) : outcome fft_state :=
  if log_m =? 0 then sliceXor x y st
  else if log_m =? modulus then sliceXor x y st
  else if useAVX2 then mulgf16AVX2 x y log_m st
  else mulgf16 x y log_m st.

(** An index [dist*j] into [work]; a negative one panics. *)
Definition at_dist (dist : Z) (j : Z) : outcome nat :=
  if dist * j <? 0 then Panic else Ret (Z.to_nat (dist * j)).

(** The design document's
    [func fftDIT4(work [][]byte, dist int, log_m01, log_m23, log_m02 ffe, o *options)]. *)
Definition doc_fftDIT4 (useAVX2 : bool) (dist : Z)
    (log_m01 log_m23 log_m02 : Z) (st : fft_state) : outcome fft_state :=
  w0 <- at_dist dist 0 ;;
  w1 <- at_dist dist 1 ;;
  w2 <- at_dist dist 2 ;;
  w3 <- at_dist dist 3 ;;
  st <- (if log_m02 =? modulus then
           st <- sliceXor w0 w2 st ;; sliceXor w1 w3 st
         else
           st <- doc_fftDIT2 useAVX2 w0 w2 log_m02 st ;;
           doc_fftDIT2 useAVX2 w1 w3 log_m02 st) ;;
  st <- (if log_m01 =? modulus then sliceXor w0 w1 st
         else doc_fftDIT2 useAVX2 w0 w1 log_m01 st) ;;
  if log_m23 =? modulus then sliceXor w2 w3 st
  else doc_fftDIT2 useAVX2 w2 w3 log_m23 st.

End Kernels.

End Butterfly.

(** ** Vocabulary of the statements and sample values *)

(** A stream with nothing left that ends cleanly (or an absent one). *)
Definition exhausted (o : option Reader) : Prop :=
  match o with
  | Some rd => rdata rd = [] /\ rfail rd = None
  | None => True
  end.

(** An engine that leaves the block matrix as it is and accepts it; it
    stands in for the codec where an example needs one. *)
Definition idle_engine : Engine :=
  mkEngine (fun s => (None, s)) (fun _ => (true, None))
           (fun s => (None, s)) (fun s => (None, s)).

(** A [bytes.Reader] over [l] (seekable) and a [bytes.Buffer] holding [l]
    (not seekable). *)
Definition bytesReader (l : list Z) : Reader := mkReader l true None.
Definition bytesBuffer (l : list Z) : Reader := mkReader l false None.

(** A fresh [bytes.Buffer] to write into. *)
Definition newBuffer : Writer := mkWriter [] None.

(** The payload [B_i = i mod 256] of [n] bytes. *)
Definition payload (n : Z) : list Z :=
  map (fun i => Z.of_nat i mod 256) (seq 0 (Z.to_nat n)).

(** A (2, 1) codec value and a stream encoder over it with a small block
    size, for the examples. *)
Definition sample_ff : leopardFF8 := mkFF8 2 1 3 idle_engine.
Definition sample_stream : rsStreamFF8 := mkStreamFF8 sample_ff 2 1 3 128.

(** A product table whose every row multiplies by one. *)
Definition mul_by_one : Z -> Z -> Z := fun _ b => b.
Definition mul16_by_one : Z -> list Z -> list Z := fun _ y => y.

(** The kernel calls a butterfly may add: XORs, and multiplies by a
    twiddle other than MODULUS. *)
Definition no_modulus_multiply (c : Butterfly.kcall) : Prop :=
  match c with
  | Butterfly.KXor _ _ => True
  | Butterfly.KMulAdd _ _ t => t <> Butterfly.modulus
  | Butterfly.KMul _ _ t => t <> Butterfly.modulus
  end.


(** A writer that is there and takes what it is given. *)
Definition healthy (o : option Writer) : Prop :=
  match o with
  | Some w => wfail w = None
  | None => False
  end.

(** The writer after [c] has been written to it. *)
Definition feed (o : option Writer) (c : list Z) : option Writer :=
  match o with
  | Some w => Some (mkWriter (wdata w ++ c) None)
  | None => None
  end.

Definition feed_all (dst : list (option Writer)) (chunks : list (list Z))
  : list (option Writer) :=
  map (fun wc => feed (fst wc) (snd wc)) (combine dst chunks).

(** What [split] hands to [n] writers in a row when the payload [D]
    suffices: [perShard] bytes each, and to the last one [last] bytes
    followed by zeros up to [alast]. *)
Fixpoint split_layout (perShard last alast : Z) (D : list Z) (n : nat)
  : list (list Z) :=
  match n with
  | O => []
  | S O => [ztake last D ++ zeros (alast - last)]
  | S n' => ztake perShard D
              :: split_layout perShard last alast (zdrop perShard D) n'
  end.

(** The per-shard size [split] computes first. *)
Definition split_perShard (k size : Z) : Z :=
  align_if_needed (Z.quot (align_if_needed size) k).

(** The stream encoder [newStreamEncoderFF8] builds for [(k, m)], over
    the idle engine. *)
Definition stream_of (k m : Z) : rsStreamFF8 :=
  mkStreamFF8 (mkFF8 k m (k + m) idle_engine) k m (k + m) (4 * 1024 * 1024).

(** [n] fresh buffers to write into. *)
Definition buffers (n : nat) : list (option Writer) :=
  repeat (Some newBuffer) n.

(** Readers over what the shard writers have collected:
    [bytes.NewReader(buf.Bytes())] (seekable) or the buffers themselves. *)
Definition shard_readers (seek : bool) (ws : list (option Writer))
  : list (option Reader) :=
  map (option_map (fun w => mkReader (wdata w) seek None)) ws.

(** [StreamSplit] of the payload [D] into [k] fresh buffers, then
    [StreamJoin] of the [k] shard streams with [outSize = len(D)], on the
    codec [New(k, m)] returns: the error and what the destination
    received. *)
Definition split_then_join (k m : Z) (D : list Z) (seek : bool)
  : outcome (option error * list Z) :=
  let ff := mkFF8 k m (k + m) idle_engine in
  '(e, _, ws) <- StreamSplit (fun _ _ => idle_engine) ff (bytesReader D)
                   (buffers (Z.to_nat k)) (zlen D) ;;
  match e with
  | Some _ => Ret (e, [])
  | None =>
      '(e, w, _) <- StreamJoin (fun _ _ => idle_engine) ff (Some newBuffer)
                      (shard_readers seek ws) (zlen D) ;;
      Ret (e, match w with Some w => wdata w | None => [] end)
  end.

(** A reader that is absent or ends cleanly, and a writer that is absent
    or takes what it is given. *)
Definition clean (o : option Reader) : Prop :=
  match o with
  | Some rd => rfail rd = None
  | None => True
  end.

Definition willing (o : option Writer) : Prop :=
  match o with
  | Some w => wfail w = None
  | None => True
  end.

(** What one [io.ReadFull] of a block of [B] bytes takes from a stream,
    and the stream afterwards. *)
Definition chunk_of (B : Z) (o : option Reader) : list Z :=
  match o with
  | Some rd => ztake B (rdata rd)
  | None => []
  end.

Definition advance (B : Z) (o : option Reader) : option Reader :=
  option_map
    (fun rd => mkReader (zdrop B (rdata rd)) (rseek rd) (rfail rd)) o.

(** The per-iteration size: the length of the first read that delivered
    any byte ([-1] while there is none). *)
Fixpoint first_size (size : Z) (chunks : list (list Z)) : Z :=
  match chunks with
  | [] => size
  | c :: rest =>
      first_size (if (size =? -1) && (zlen c >? 0) then zlen c else size) rest
  end.

(** The padding contract for one block: the bytes read, cut to [s] or
    extended with zeros to [s], then extended with zeros to [s] rounded
    up to a multiple of 64. *)
Definition block (s : Z) (c : list Z) : list Z :=
  ztake s c ++ zeros (align64 s - Z.min s (zlen c)).

(** What the output loop of [reconstruct] writes from the block matrix:
    [s] bytes in a data slot, [s] rounded up in a parity slot. *)
Fixpoint recon_chunks (k s : Z) (i : Z) (all : list slice) : list (list Z) :=
  match all with
  | [] => []
  | b :: rest =>
      ztake (if i >=? k then align64 s else s) (arr b)
        :: recon_chunks k s (i + 1) rest
  end.

(** A block right after the read loop: it shows exactly the bytes read. *)
Definition block_read (B : Z) (c : list Z) (b : slice) : Prop :=
  len b = zlen c /\ bytes b = c /\ zlen c <= B /\ B <= cap b.

(** What "resize" leaves, with what "pad" will make of it. *)
Definition block_sized (B s : Z) (c : list Z) (b1 : slice) : Prop :=
  len b1 = s /\ B <= cap b1 /\
  (Z.rem s 64 = 0 -> bytes b1 = block s c) /\
  exists b2,
    pad_block s (align64 s) b1 = Ret b2 /\
    pad_block_readInputs s (align64 s) b1 = Ret b2 /\
    len b2 = align64 s /\ B <= cap b2 /\ bytes b2 = block s c.

(** A block as the codec receives it. *)
Definition block_padded (s : Z) (c : list Z) (b : slice) : Prop :=
  len b = align64 s /\ bytes b = block s c /\ align64 s <= cap b.

(** Three input streams for the (2, 1) sample: 70 bytes, 30 bytes and an
    absent one. *)
Definition sample_readers : list (option Reader) :=
  [Some (bytesReader (payload 70)); Some (bytesBuffer (payload 30)); None].

(** [reconstructData] keeps the block of a shard it has to rebuild
    empty; every other block is shaped as usual. *)
Definition gap_or_block (s : Z) (mc : bool * list Z) : list Z :=
  if fst mc then [] else block s (snd mc).

Definition gap_read (B : Z) (mc : bool * list Z) (b : slice) : Prop :=
  block_read B (snd mc) b /\ (fst mc = true -> snd mc = []).

Definition gap_sized (B s : Z) (mc : bool * list Z) (b : slice) : Prop :=
  if fst mc then len b = 0 /\ B <= cap b else block_sized B s (snd mc) b.

Definition gap_padded (s : Z) (mc : bool * list Z) (b : slice) : Prop :=
  if fst mc then len b = 0 /\ align64 s <= cap b
  else block_padded s (snd mc) b.

(** ** encoder.go: helpers of the encoders *)

(** [func checkStreamShards(shards []io.Reader) error]: the loop that
    looks for a non-nil stream. *)
Fixpoint hasData_of (shards : list (option Reader)) : bool :=
  match shards with
  | [] => false
  | Some _ :: _ => true
  | None :: rest => hasData_of rest
  end.

Definition checkStreamShards (shards : list (option Reader)) : option error :=
  if zlen shards =? 0 then Some ErrEmptyShards
  else if negb (hasData_of shards) then Some ErrShardNoData
  else None.

(** [func isZero(p []byte) bool] *)
Fixpoint isZero (p : list Z) : bool :=
  match p with
  | [] => true
  | v :: rest => if negb (v =? 0) then false else isZero rest
  end.

(** [func createShardsBySize(shards int, size int) [][]byte]: [make]
    panics on a negative length. *)
Definition createShardsBySize (shards size : Z) : outcome (list slice) :=
  if shards <? 0 then Panic
  else if (0 <? shards) && (size <? 0) then Panic
  else Ret (repeat (make size) (Z.to_nat shards)).

(** [func shardSize(shards [][]byte) int] *)
Fixpoint shardSize (shards : list slice) : Z :=
  match shards with
  | [] => 0
  | shard :: rest =>
      if negb (len shard =? 0) then len shard else shardSize rest
  end.

(** The loop of [checkShards]. *)
Fixpoint checkShards_loop (size : Z) (nilok : bool) (shards : list slice)
  : option error :=
  match shards with
  | [] => None
  | shard :: rest =>
      if negb (len shard =? size)
         && (negb (len shard =? 0) || negb nilok)
      then Some ErrShardSize
      else checkShards_loop size nilok rest
  end.

(** [func checkShards(shards [][]byte, nilok bool) error] *)
Definition checkShards (shards : list slice) (nilok : bool) : option error :=
  let size := shardSize shards in
  if size =? 0 then Some ErrShardNoData
  else checkShards_loop size nilok shards.

(** ** Vocabulary of the further properties *)

(** Streams over the byte strings [chunks], all of one kind:
    [bytes.NewReader] (seekable) or [bytes.Buffer]. *)
Definition readers_of (seek : bool) (chunks : list (list Z))
  : list (option Reader) :=
  map (fun c => Some (mkReader c seek None)) chunks.

(** The bytes the streams still hold. *)
Definition pending (inputs : list (option Reader)) : nat :=
  fold_right
    (fun rd n => match rd with
                 | Some rd => (length (rdata rd) + n)%nat
                 | None => n
                 end) O inputs.

(** A stream that breaks with [e] before it has delivered a block of
    [B] bytes; [e] is neither of the two end-of-stream values. *)
Definition breaks_with (B : Z) (e : error) (rd : Reader) : Prop :=
  rfail rd = Some e /\ zlen (rdata rd) < B /\
  error_eqb e EOF = false /\ error_eqb e ErrUnexpectedEOF = false.

(** No slot is both an input and an output. *)
Definition no_clash (inputs : list (option Reader))
    (outputs : list (option Writer)) : Prop :=
  Forall2 (fun inp out => is_some inp && is_some out = false) inputs outputs.

(** A codec method that works in place: it returns every buffer of the
    block matrix with the capacity and the length it had. *)
Definition keeps_shape (f : list slice -> option error * list slice) : Prop :=
  forall shards,
    Forall2 (fun a b => cap b = cap a /\ len b = len a) shards (snd (f shards)).

(** A codec method that may re-slice the buffers it is given but keeps
    their capacities (as one that rebuilds missing shards does). *)
Definition keeps_caps (f : list slice -> option error * list slice) : Prop :=
  forall shards,
    Forall2 (fun a b => cap b = cap a) shards (snd (f shards)).

(** ** galois_bridge.go: rsStream16, split and join

    The 16-bit stream adaptor is a second copy of the text of
    [streaming8.go] over [leopardFF16]; the struct has the same fields.
    Its [split] and [join] differ from the 8-bit ones only in the size
    computations, which add a 2-byte alignment step; the loops are the
    same text and are shared here. *)
Record rsStream16 : Type := mkStream16 {
  rs16 : leopardFF8;
  dataShards16 : Z;
  parityShards16 : Z;
  totalShards16 : Z;
  blockSize16 : Z
}.

(** [x' := x; if x%2 != 0 { x' = x + 1 };
     if x'%64 != 0 { x' = ((x' + 63) / 64) * 64 }] *)
Definition align2_64 (x : Z) : Z :=
  let a := if negb (Z.rem x 2 =? 0) then x + 1 else x in
  if negb (Z.rem a 64 =? 0) then align64 a else a.

(** The size computation at the head of [rsStream16.split]. *)
Definition split_sizes16 (k size : Z) : outcome (Z * Z * Z) :=
  let alignedSize := align2_64 size in
  let perShard := align_if_needed (Z.quot alignedSize k) in
  let lastShardSize := size - perShard * (k - 1) in
  '(perShard, lastShardSize) <-
     (if lastShardSize <=? 0 then
        if k - 1 =? 0 then Panic
        else
          let perShard := align_if_needed (Z.quot (size - 1) (k - 1)) in
          let lastShardSize := size - perShard * (k - 1) in
          Ret (perShard, if lastShardSize <=? 0 then 1 else lastShardSize)
      else Ret (perShard, lastShardSize)) ;;
  Ret (perShard, lastShardSize, align2_64 lastShardSize).

(** [func (r *rsStream16) split(data io.Reader, dst []io.Writer, size int64) error] *)
Definition split16 (r : rsStream16) (data : Reader)
    (dst : list (option Writer)) (size : Z)
  : outcome (option error * Reader * list (option Writer)) :=
  if negb (zlen dst =? dataShards16 r) then
    Ret (Some ErrTooFewShards, data, dst)
  else if size <=? 0 then Ret (Some ErrShortData, data, dst)
  else
    '(perShard, lastShardSize, alignedLastShardSize) <-
       split_sizes16 (dataShards16 r) size ;;
    let maxShardSize :=
      if alignedLastShardSize >? perShard then alignedLastShardSize
      else perShard in
    if maxShardSize <? 0 then Panic
    else
      split_loop (dataShards16 r) size perShard lastShardSize
        alignedLastShardSize (make maxShardSize) 0 data 0 dst.

(** [perShard := (outSize + dataShards - 1) / dataShards;
     if perShard%2 != 0 || perShard%64 != 0 {
        perShard = ((perShard + 63) / 64) * 64
        if perShard%2 != 0 { perShard += 1 } }] *)
Definition join_perShard16 (k outSize : Z) : Z :=
  let perShard := Z.quot (outSize + k - 1) k in
  if negb (Z.rem perShard 2 =? 0) || negb (Z.rem perShard 64 =? 0) then
    let perShard := align64 perShard in
    if negb (Z.rem perShard 2 =? 0) then perShard + 1 else perShard
  else perShard.

(** [func (r *rsStream16) joinWithMultiReader(dst, shards, outSize) error] *)
Definition joinWithMultiReader16 (r : rsStream16) (dst : Writer)
    (shards : list (option Reader)) (outSize : Z)
  : option error * Writer * list (option Reader) :=
  let perShard := join_perShard16 (dataShards16 r) outSize in
  let limits := mr_limits perShard outSize (zlen shards) 0 0 shards in
  let '(written, err, shards', dst') :=
    copy_multi outSize shards limits dst in
  let err := match err with
             | None => if written <? outSize then Some EOF else None
             | Some e => Some e
             end in
  if is_some err && negb (is_err err EOF) then (err, dst', shards')
  else if written <? outSize then (Some ErrShortData, dst', shards')
  else (None, dst', shards').

(** [func (r *rsStream16) joinWithBufferedReads(dst, shards, outSize) error] *)
Definition joinWithBufferedReads16 (r : rsStream16) (dst : Writer)
    (shards : list (option Reader)) (outSize : Z)
  : outcome (option error * Writer * list (option Reader)) :=
  let perShard := join_perShard16 (dataShards16 r) outSize in
  '(e, shards', totalWritten, dst', lastIndex) <-
     buffered_loop outSize perShard (zlen shards) 0 (-1) 0 dst shards ;;
  match e with
  | Some _ => Ret (e, dst', shards')
  | None =>
      '(e, shards'', totalWritten, dst'') <-
         (match nth_error shards' (Z.to_nat lastIndex) with
          | Some (Some lastShard) =>
              if (lastIndex >=? 0) && (totalWritten <? outSize) then
                '(e, lastShard', tw, dst'') <-
                   buffered_last_loop (shard_fuel lastShard) outSize
                     lastShard totalWritten dst' ;;
                Ret (e, set_nth (Z.to_nat lastIndex) (Some lastShard') shards',
                     tw, dst'')
              else Ret (None, shards', totalWritten, dst')
          | _ => Ret (None, shards', totalWritten, dst')
          end) ;;
      match e with
      | Some _ => Ret (e, dst'', shards'')
      | None =>
          if totalWritten <? outSize then Ret (Some ErrShortData, dst'', shards'')
          else Ret (None, dst'', shards'')
      end
  end.

(** [func (r *rsStream16) join(dst io.Writer, shards []io.Reader, outSize int64) error];
    the test for seekable shards comes before the small-data path
    here. *)
Definition join16 (r : rsStream16) (dst : option Writer)
    (shards : list (option Reader)) (outSize : Z)
  : outcome (option error * option Writer * list (option Reader)) :=
  match dst with
  | None => Ret (Some ErrNilWriter, dst, shards)
  | Some w =>
      if zlen shards =? 0 then Ret (Some ErrTooFewShards, dst, shards)
      else if outSize <=? 0 then Ret (Some ErrSize, dst, shards)
      else if outSize <=? dataShards16 r then
        let '(e, buffer, totalRead, shards') :=
          join_tiny_loop outSize (zeros outSize) 0 shards in
        match e with
        | Some _ => Ret (e, dst, shards')
        | None =>
            if totalRead <? outSize then Ret (Some ErrShortData, dst, shards')
            else
              let '(_, err, w') := Write w buffer in
              Ret (err, Some w', shards')
        end
      else
        '(shards, extra) <-
           (if zlen shards =? dataShards16 r + parityShards16 r then
              if (0 <=? dataShards16 r) && (dataShards16 r <=? zlen shards)
              then Ret (ztake (dataShards16 r) shards,
                        zdrop (dataShards16 r) shards)
              else Panic
            else Ret (shards, [])) ;;
        let validDataShards := count_some shards in
        if validDataShards <? dataShards16 r then
          Ret (Some ErrTooFewShards, dst, shards ++ extra)
        else if count_some shards =? 0 then
          Ret (Some ErrTooFewShards, dst, shards ++ extra)
        else
          let allSeekable := allSeekable shards in
          if outSize <? 1000 then
            let '(e, buffer, totalWritten, shards') :=
              join_small_loop outSize (zeros outSize) 0 shards in
            match e with
            | Some _ => Ret (e, dst, shards' ++ extra)
            | None =>
                if totalWritten <? outSize then
                  Ret (Some ErrShortData, dst, shards' ++ extra)
                else
                  let '(_, err, w') := Write w (ztake outSize buffer) in
                  Ret (err, Some w', shards' ++ extra)
            end
          else if (outSize <=? smallFileThreshold) && allSeekable then
            let '(e, w', shards') := joinWithMultiReader16 r w shards outSize in
            Ret (e, Some w', shards' ++ extra)
          else
            '(e, w', shards') <- joinWithBufferedReads16 r w shards outSize ;;
            Ret (e, Some w', shards' ++ extra)
  end.

(** ** galois_bridge.go: rsStream16.verify *)

(** [r.createSlice()] of the 16-bit adaptor:
    [AllocAligned(r.totalShards, r.blockSize)]. *)
Definition createSlice16 (r : rsStream16) : list slice :=
  AllocAligned (totalShards16 r) (blockSize16 r).

(** The body of the 64-byte padding loop of [rsStream16.verify]: a block
    shorter than [alignedSize] is always replaced by a fresh buffer of
    [alignedSize] bytes ([if len(all[i]) < alignedSize]), and the zero
    fill starts at the new length. *)
Definition pad_block_verify16 (alignedSize : Z) (s : slice) : outcome slice :=
  if len s >? 0 then
    s' <- (if len s <? alignedSize then
             if alignedSize <? 0 then Panic
             else Ret (copy (make alignedSize) (bytes s))
           else reslice s alignedSize) ;;
    zero_range s' (len s') alignedSize
  else Ret s.

(** The part of a round of [rsStream16.verify] between the end test and
    the call of the codec: resize to [size], pad an odd [size] by one
    byte, then pad to a multiple of 64.  Returns the size that is added
    to [read] and the blocks. *)
Definition shape_blocks16 (size : Z) (all : list slice)
  : outcome (Z * list slice) :=
  all <- mapM (resize_block true size) all ;;
  '(size, all) <-
     (if negb (Z.rem size 2 =? 0) then
        let paddedSize := size + (2 - Z.rem size 2) in
        all <- mapM (pad_block_readInputs size paddedSize) all ;;
        Ret (paddedSize, all)
      else Ret (size, all)) ;;
  if negb (Z.rem size 64 =? 0) then
    let alignedSize := align64 size in
    all <- mapM (pad_block_verify16 alignedSize) all ;;
    Ret (size, all)
  else Ret (size, all).

Fixpoint verify16_loop (fuel : nat) (r : rsStream16) (all : list slice)
    (read : Z) (shards : list (option Reader))
  : outcome (bool * option error * list (option Reader)) :=
  match fuel with
  | O => Timeout
  | S fuel =>
      '(e, size, all, shards) <-
         read_blocks (blockSize16 r) 0 (-1) shards all ;;
      match e with
      | Some _ => Ret (false, e, shards)
      | None =>
          if (size =? -1) || (size =? 0) then
            if read =? 0 then Ret (false, Some ErrShardNoData, shards)
            else Ret (true, None, shards)
          else
            '(size, all) <- shape_blocks16 size all ;;
            let read := read + size in
            let '(ok, err) := Verify (ff_engine (rs16 r)) all in
            if negb ok || is_some err then Ret (ok, err, shards)
            else verify16_loop fuel r all read shards
      end
  end.

(** [func (r *rsStream16) verify(shards []io.Reader) (bool, error)] *)
Definition verify16 (r : rsStream16) (shards : list (option Reader))
  : outcome (bool * option error * list (option Reader)) :=
  if negb (zlen shards =? totalShards16 r) then
    Ret (false, Some ErrTooFewShards, shards)
  else verify16_loop (stream_fuel shards) r (createSlice16 r) 0 shards.

(** ** galois_bridge.go: rsStream16.reconstruct *)

(** The read loop of [rsStream16.reconstruct]: as [read_blocks], but
    [size] starts from [0] and is set by the first read with [n > 0]
    while it is still [0]. *)
Fixpoint read_blocks16 (blockSize : Z) (i : Z) (size : Z)
    (readers : list (option Reader)) (dst : list slice)
  : outcome (option error * Z * list slice * list (option Reader)) :=
  match readers with
  | [] => Ret (None, size, dst, [])
  | rd :: rest =>
      match dst with
      | [] => Panic
      | s :: srest =>
          match rd with
          | None =>
              s' <- reslice s 0 ;;
              '(e, size, srest', rest') <-
                 read_blocks16 blockSize (i + 1) size rest srest ;;
              Ret (e, size, s' :: srest', None :: rest')
          | Some reader =>
              _ <- reslice s blockSize ;;
              let '(got, err, reader') := ReadFull reader blockSize in
              if is_some err && negb (is_err err EOF)
                 && negb (is_err err ErrUnexpectedEOF)
              then
                Ret (option_map (fun e => StreamReadError e i) err, size,
                     store s got :: srest, Some reader' :: rest)
              else
                s' <- reslice (store s got) (zlen got) ;;
                let size := if (zlen got >? 0) && (size =? 0)
                            then zlen got else size in
                '(e, size, srest', rest') <-
                   read_blocks16 blockSize (i + 1) size rest srest ;;
                Ret (e, size, s' :: srest', Some reader' :: rest')
          end
      end
  end.

(** [missingShards] of [rsStream16.reconstruct], a [map[int]bool]: the
    slots with no input and an output. *)
Fixpoint missing16_of (inputs : list (option Reader))
    (outputs : list (option Writer)) : outcome (list bool) :=
  match inputs with
  | [] => Ret []
  | inp :: irest =>
      match inp, outputs with
      | None, [] => Panic
      | _, _ =>
          rest <- missing16_of irest (tl outputs) ;;
          Ret ((negb (is_some inp)
                && match outputs with out :: _ => is_some out | [] => false end)
                 :: rest)
      end
  end.

(** A lookup in the map: absent keys read as [false]. *)
Definition is_missing (missing : list bool) : bool :=
  match missing with
  | m :: _ => m
  | [] => false
  end.

(** "Second pass" of a round: blocks to rebuild are emptied; an empty
    block that is not to be rebuilt ends the call with
    [ErrShardNoData]; the others are zero-extended, or cut, to
    [alignedSize]. *)
Fixpoint shape_recon16 (alignedSize : Z) (missing : list bool)
    (all : list slice) : outcome (option error * list slice) :=
  match all with
  | [] => Ret (None, [])
  | s :: srest =>
      if is_missing missing then
        s' <- reslice s 0 ;;
        '(e, rest') <- shape_recon16 alignedSize (tl missing) srest ;;
        Ret (e, s' :: rest')
      else if len s =? 0 then Ret (Some ErrShardNoData, all)
      else if len s <? alignedSize then
        s' <- extend true s alignedSize ;;
        s' <- zero_range s' (len s) alignedSize ;;
        '(e, rest') <- shape_recon16 alignedSize (tl missing) srest ;;
        Ret (e, s' :: rest')
      else if len s >? alignedSize then
        s' <- reslice s alignedSize ;;
        '(e, rest') <- shape_recon16 alignedSize (tl missing) srest ;;
        Ret (e, s' :: rest')
      else
        '(e, rest') <- shape_recon16 alignedSize (tl missing) srest ;;
        Ret (e, s :: rest')
  end.

(** The output loop: only the slots to rebuild are written. *)
Fixpoint recon_write16 (k origSize alignedSize : Z) (i : Z)
    (outputs : list (option Writer)) (missing : list bool)
    (all : list slice) : outcome (option error * list (option Writer)) :=
  match outputs with
  | [] => Ret (None, [])
  | out :: rest =>
      match out with
      | Some writer =>
          if negb (is_missing missing) then
            '(e, rest') <- recon_write16 k origSize alignedSize (i + 1) rest
                             (tl missing) (tl all) ;;
            Ret (e, out :: rest')
          else
            match all with
            | [] => Panic
            | s :: srest =>
                let writeSize := if i >=? k then alignedSize else origSize in
                p <- reslice s writeSize ;;
                let '(n, err, writer') := Write writer (bytes p) in
                match err with
                | Some e =>
                    Ret (Some (StreamWriteError e i), Some writer' :: rest)
                | None =>
                    if negb (n =? writeSize) then
                      Ret (Some (StreamWriteError ErrShortWrite i),
                           Some writer' :: rest)
                    else
                      '(e, rest') <-
                         recon_write16 k origSize alignedSize (i + 1) rest
                           (tl missing) srest ;;
                      Ret (e, Some writer' :: rest')
                end
            end
      | None =>
          '(e, rest') <- recon_write16 k origSize alignedSize (i + 1) rest
                           (tl missing) (tl all) ;;
          Ret (e, None :: rest')
      end
  end.

Fixpoint reconstruct16_loop (fuel : nat) (r : rsStream16)
    (reconDataOnly : bool) (missing : list bool) (all : list slice)
    (read : Z) (inputs : list (option Reader))
    (outputs : list (option Writer))
  : outcome (option error * list (option Reader) * list (option Writer)) :=
  match fuel with
  | O => Timeout
  | S fuel =>
      '(e, size, all, inputs) <-
         read_blocks16 (blockSize16 r) 0 0 inputs all ;;
      match e with
      | Some _ => Ret (e, inputs, outputs)
      | None =>
          if size =? 0 then
            if read =? 0 then Ret (Some ErrShardNoData, inputs, outputs)
            else Ret (None, inputs, outputs)
          else
            let origSize := size in
            let alignedSize :=
              if negb (Z.rem size 64 =? 0) then align64 size else size in
            '(e, all) <- shape_recon16 alignedSize missing all ;;
            match e with
            | Some _ => Ret (e, inputs, outputs)
            | None =>
                let '(err, all) :=
                  if reconDataOnly
                  then ReconstructData (ff_engine (rs16 r)) all
                  else Reconstruct (ff_engine (rs16 r)) all in
                match err with
                | Some _ => Ret (err, inputs, outputs)
                | None =>
                    '(err, outputs) <-
                       recon_write16 (dataShards16 r) origSize alignedSize 0
                         outputs missing all ;;
                    match err with
                    | Some _ => Ret (err, inputs, outputs)
                    | None =>
                        reconstruct16_loop fuel r reconDataOnly missing all
                          (read + origSize) inputs outputs
                    end
                end
            end
      end
  end.

(** [func (r *rsStream16) reconstruct(inputs []io.Reader, outputs []io.Writer) error];
    [all] is [totalShards] fresh buffers of [blockSize] bytes. *)
Definition reconstruct16 (r : rsStream16) (inputs : list (option Reader))
    (outputs : list (option Writer))
  : outcome (option error * list (option Reader) * list (option Writer)) :=
  if negb (zlen inputs =? totalShards16 r) then
    Ret (Some ErrTooFewShards, inputs, outputs)
  else if negb (zlen outputs =? totalShards16 r) then
    Ret (Some ErrTooFewShards, inputs, outputs)
  else if (0 <? totalShards16 r) && (blockSize16 r <? 0) then Panic
  else
    let all := repeat (make (blockSize16 r)) (Z.to_nat (totalShards16 r)) in
    '(e, reconDataOnly) <-
       recon_check (dataShards16 r) 0 true inputs outputs ;;
    match e with
    | Some _ => Ret (e, inputs, outputs)
    | None =>
        missing <- missing16_of inputs outputs ;;
        if negb (existsb (fun m => m) missing) then
          Ret (None, inputs, outputs)
        else
          reconstruct16_loop (stream_fuel inputs) r reconDataOnly missing
            all 0 inputs outputs
    end.

(** The size a round of [rsStream16.reconstruct] fixes: the length of
    the first read that delivered any byte ([0] while there is none). *)
Fixpoint first_size16 (size : Z) (chunks : list (list Z)) : Z :=
  match chunks with
  | [] => size
  | c :: rest =>
      first_size16 (if (zlen c >? 0) && (size =? 0) then zlen c else size)
        rest
  end.

(** The block [rsStream16.reconstruct] hands to the codec for a stream
    that delivered [c]: nothing for a shard to rebuild; otherwise [c]
    cut to [sp] bytes or zero-extended to [sp] bytes. *)
Definition block16 (sp : Z) (mc : bool * list Z) : list Z :=
  if fst mc then [] else ztake sp (snd mc) ++ zeros (sp - zlen (snd mc)).

(** The flags [rsStream16.reconstruct] keeps in [missingShards]. *)
Definition missing_flags (inputs : list (option Reader))
    (outputs : list (option Writer)) : list bool :=
  map (fun io => negb (is_some (fst io)) && is_some (snd io))
    (combine inputs outputs).

(** A slot that is not to be rebuilt and delivers no byte: there is
    neither a stream nor a writer, or the stream has ended. *)
Definition idle (io : option Reader * option Writer) : Prop :=
  match fst io with
  | None => snd io = None
  | Some rd => rdata rd = []
  end.

(** ** galois_bridge.go: rsStream16.reconstructData *)

(** The loop of [rsStream16.reconstructData].  The text is that of the
    8-bit loop except between "resize" and [read += size]: the aligned
    size gets a 2-byte step, and the padding loop is not guarded by
    [size%64 != 0]. *)
Fixpoint reconstructData16_loop (fuel : nat) (r : rsStream16)
    (missingShards : list bool) (all : list slice) (read : Z)
    (inputs : list (option Reader)) (outputs : list (option Writer))
  : outcome (option error * list (option Reader) * list (option Writer)) :=
  match fuel with
  | O => Timeout
  | S fuel =>
      '(e, size, all, inputs) <-
         read_blocks (blockSize16 r) 0 (-1) inputs all ;;
      match e with
      | Some _ => Ret (e, inputs, outputs)
      | None =>
          if (size =? -1) || (size =? 0) then
            if read =? 0 then Ret (Some ErrShardNoData, inputs, outputs)
            else Ret (None, inputs, outputs)
          else
            all <- skip_missing (resize_block true size) missingShards all ;;
            let alignedSize :=
              if negb (Z.rem size 64 =? 0) then align64 size else size in
            let alignedSize :=
              if negb (Z.rem alignedSize 2 =? 0) then alignedSize + 1
              else alignedSize in
            all <- skip_missing (pad_block size alignedSize)
                     missingShards all ;;
            let read := read + size in
            all <- clear_missing alignedSize missingShards all ;;
            let '(err, all) := ReconstructData (ff_engine (rs16 r)) all in
            match err with
            | Some _ => Ret (err, inputs, outputs)
            | None =>
                dataOut <- upto (dataShards16 r) outputs ;;
                '(err, dataOut) <- data_write size 0 dataOut all ;;
                let outputs := dataOut ++ zdrop (dataShards16 r) outputs in
                match err with
                | Some _ => Ret (err, inputs, outputs)
                | None =>
                    reconstructData16_loop fuel r missingShards all read
                      inputs outputs
                end
            end
      end
  end.

(** [func (r *rsStream16) reconstructData(inputs []io.Reader, outputs []io.Writer) error] *)
Definition reconstructData16 (r : rsStream16)
    (inputs : list (option Reader)) (outputs : list (option Writer))
  : outcome (option error * list (option Reader) * list (option Writer)) :=
  if negb (zlen inputs =? totalShards16 r) then
    Ret (Some ErrTooFewShards, inputs, outputs)
  else if negb (zlen outputs =? totalShards16 r) then
    Ret (Some ErrTooFewShards, inputs, outputs)
  else
    let all := createSlice16 r in
    e <- data_check inputs outputs ;;
    match e with
    | Some _ => Ret (e, inputs, outputs)
    | None =>
        if dataShards16 r >? totalShards16 r then Panic
        else
          let missingShards := missing_of (dataShards16 r) 0 inputs outputs in
          reconstructData16_loop (stream_fuel inputs) r missingShards all 0
            inputs outputs
    end.

(** A codec method hands back as many blocks as it was given (in Go it
    gets the slice header by value and cannot change its length). *)
Definition keeps_count (f : list slice -> option error * list slice) : Prop :=
  forall shards, length (snd (f shards)) = length shards.

(** ** galois_bridge.go: rsStream16.encode

    As for the 8-bit encoder, [concurrentReads] and [concurrentWrites]
    are [false], which is how [newStreamEncoderFF16] sets them: [encode]
    calls [readInputs] and [writeOutputs]. *)

(** [func (r *rsStream16) readInputs(readers []io.Reader, dst [][]byte) (int, error)]:
    the read loop is that of the 8-bit [readInputs]; an odd size is then
    raised by one, the blocks are resized to it and padded to a multiple
    of 64.  The size returned is the raised one. *)
Definition readInputs16 (r : rsStream16) (readers : list (option Reader))
    (dst : list slice)
  : outcome (Z * option error * list slice * list (option Reader)) :=
  '(e, size, dst, readers) <- read_blocks (blockSize16 r) 0 (-1) readers dst ;;
  match e with
  | Some _ => Ret (0, e, dst, readers)
  | None =>
      if size =? -1 then Ret (0, Some EOF, dst, readers)
      else
        let size := if negb (Z.rem size 2 =? 0) then size + 1 else size in
        dst <- mapM (resize_block false size) dst ;;
        let paddedSize := size in
        if negb (Z.rem paddedSize 64 =? 0) || negb (Z.rem paddedSize 2 =? 0)
        then
          let paddedSize := align64 paddedSize in
          let paddedSize :=
            if negb (Z.rem paddedSize 2 =? 0) then paddedSize + 1
            else paddedSize in
          dst <- mapM (pad_block_readInputs size paddedSize) dst ;;
          Ret (size, None, dst, readers)
        else Ret (size, None, dst, readers)
  end.

(** [func (r *rsStream16) writeOutputs(writers []io.Writer, src [][]byte, size int) error];
    the loop is that of the 8-bit [writeOutputs]. *)
Definition writeOutputs16 (r : rsStream16) (writers : list (option Writer))
    (src : list slice) (size : Z)
  : outcome (option error * list (option Writer)) :=
  let alignedSize := align64 size in
  let alignedSize :=
    if negb (Z.rem alignedSize 2 =? 0) then alignedSize + 1
    else alignedSize in
  writeOutputs_loop alignedSize 0 writers src.

(** "adjust all shards to the aligned size":
    [for i := 0; i < r.totalShards; i++], [n] rounds from index [i].  A
    buffer whose capacity is too small is replaced; otherwise it is
    re-sliced and, in a data slot, zeroed from [size] on. *)
Fixpoint encode16_adjust (k size alignedSize : Z) (i : Z) (n : nat)
    (shards : list slice) : outcome (list slice) :=
  match n with
  | O => Ret shards
  | S n =>
      match shards with
      | [] => Panic
      | s :: rest =>
          s' <- (if cap s <? alignedSize then
                   if alignedSize <? 0 then Panic
                   else Ret (copy (make alignedSize) (bytes s))
                 else
                   s' <- reslice s alignedSize ;;
                   if (i <? k) && (len s' >? size)
                   then zero_range s' size alignedSize
                   else Ret s') ;;
          rest' <- encode16_adjust k size alignedSize (i + 1) n rest ;;
          Ret (s' :: rest')
      end
  end.

(** The [for { ... }] of [rsStream16.encode]. *)
Fixpoint encode16_loop (fuel : nat) (r : rsStream16) (shards : list slice)
    (inputs : list (option Reader)) (outputs : list (option Writer))
  : outcome (option error * list (option Reader) * list (option Writer)) :=
  match fuel with
  | O => Timeout
  | S fuel =>
      dst <- upto (dataShards16 r) shards ;;
      '(size, err, dst, inputs) <- readInputs16 r inputs dst ;;
      let shards := dst ++ zdrop (dataShards16 r) shards in
      if is_err err EOF then Ret (None, inputs, outputs)
      else
        match err with
        | Some _ => Ret (err, inputs, outputs)
        | None =>
            let hasData := existsb (fun s => len s >? 0) dst in
            if negb hasData then Ret (Some ErrShardNoData, inputs, outputs)
            else
              let alignedSize :=
                if negb (Z.rem size 2 =? 0) then size + (2 - Z.rem size 2)
                else size in
              let alignedSize :=
                if negb (Z.rem alignedSize 64 =? 0) then align64 alignedSize
                else alignedSize in
              shards <- encode16_adjust (dataShards16 r) size alignedSize 0
                          (Z.to_nat (totalShards16 r)) shards ;;
              let '(err, shards) := Encode (ff_engine (rs16 r)) shards in
              match err with
              | Some _ => Ret (err, inputs, outputs)
              | None =>
                  src <- from (dataShards16 r) shards ;;
                  '(err, outputs) <- writeOutputs16 r outputs src size ;;
                  match err with
                  | Some _ => Ret (err, inputs, outputs)
                  | None => encode16_loop fuel r shards inputs outputs
                  end
              end
        end
  end.

(** [func (r *rsStream16) encode(inputs []io.Reader, outputs []io.Writer) error] *)
Definition encode16 (r : rsStream16) (inputs : list (option Reader))
    (outputs : list (option Writer))
  : outcome (option error * list (option Reader) * list (option Writer)) :=
  if negb (zlen inputs =? dataShards16 r) then
    Ret (Some ErrTooFewShards, inputs, outputs)
  else if negb (zlen outputs =? parityShards16 r) then
    Ret (Some ErrTooFewShards, inputs, outputs)
  else
    shards <- mapM (fun s => reslice s (blockSize16 r)) (createSlice16 r) ;;
    encode16_loop (stream_fuel inputs) r shards inputs outputs.

(** The size [rsStream16.readInputs] works with: the round's size made
    even. *)
Definition even_up (s : Z) : Z := if Z.rem s 2 =? 0 then s else s + 1.

(** What the adjusting loop of [rsStream16.encode] makes of a parity
    buffer: a fresh buffer when the capacity is below the aligned size,
    the same buffer re-sliced otherwise. *)
Definition parity_block16 (alignedSize : Z) (b : slice) : slice :=
  if cap b <? alignedSize then copy (make alignedSize) (bytes b)
  else mkSlice (arr b) alignedSize.

(** ** Design document, 2.2.3: [fecAlignedSlice]

    [buf := make([]byte, size+15)];
    [off := 16 - (int(uintptr(unsafe.Pointer(&buf[0]))) & 15)];
    [return buf[off : off+size]].  [addr] is the address of [buf[0]],
    which the allocator picks.  The result is the address of the first
    byte of the slice returned, with the slice. *)
Definition fecAlignedSlice (addr : Z) (size : Z) : outcome (Z * slice) :=
  if size + 15 <? 0 then Panic
  else
    let buf := make (size + 15) in
    if len buf =? 0 then Panic
    else
      let off := 16 - Z.land addr 15 in
      if (0 <=? off) && (off <=? off + size) && (off + size <=? cap buf)
      then Ret (addr + off, mkSlice (zdrop off (arr buf)) size)
      else Panic.

(** ** Whole runs *)

(** A stream that holds exactly [n] more bytes and then ends cleanly. *)
Definition holds (n : Z) (o : option Reader) : Prop :=
  match o with
  | Some rd => rfail rd = None /\ zlen (rdata rd) = n
  | None => False
  end.

(** A writer that has received [n] bytes more and stays willing; a nil
    slot stays nil. *)
Definition grew (n : Z) (o o' : option Writer) : Prop :=
  match o, o' with
  | Some w, Some w' =>
      exists c, wdata w' = wdata w ++ c /\ zlen c = n /\ wfail w' = None
  | None, None => True
  | _, _ => False
  end.

(** A codec method that reports no error. *)
Definition succeeds (f : list slice -> option error * list slice) : Prop :=
  forall shards, fst (f shards) = None.

(** A stream that is absent, or holds exactly [n] more bytes and then
    ends cleanly. *)
Definition holds_or_nil (n : Z) (o : option Reader) : Prop :=
  match o with
  | Some rd => rfail rd = None /\ zlen (rdata rd) = n
  | None => True
  end.

(** Slot by slot from index [i]: a writer of a data slot has received
    [nd] bytes more, one of a parity slot [np] bytes more. *)
Fixpoint grew_slots (k nd np : Z) (i : Z) (ws ws' : list (option Writer))
  : Prop :=
  match ws, ws' with
  | [], [] => True
  | o :: ws, o' :: ws' =>
      grew (if i >=? k then np else nd) o o' /\
      grew_slots k nd np (i + 1) ws ws'
  | _, _ => False
  end.

(** Every slot is served: it has a stream or a writer. *)
Definition served (inputs : list (option Reader))
    (outputs : list (option Writer)) : Prop :=
  Forall2 (fun inp out => is_some inp || is_some out = true) inputs outputs.

(** * Properties *)

(** ** Lists with integer indices *)

Lemma zlen_nonneg {A} (l : list A) : 0 <= zlen l.
Proof. unfold zlen; lia. Qed.

Lemma zlen_nil {A} : zlen (@nil A) = 0.
Proof. reflexivity. Qed.

Lemma zlen_cons {A} (a : A) l : zlen (a :: l) = zlen l + 1.
Proof. unfold zlen; cbn [length]; lia. Qed.

Lemma zlen_app {A} (l1 l2 : list A) : zlen (l1 ++ l2) = zlen l1 + zlen l2.
Proof. unfold zlen; rewrite length_app; lia. Qed.

Lemma zlen_ztake {A} n (l : list A) :
  zlen (ztake n l) = Z.min (Z.max 0 n) (zlen l).
Proof. unfold zlen, ztake; rewrite length_firstn; lia. Qed.

Lemma zlen_zdrop {A} n (l : list A) :
  zlen (zdrop n l) = zlen l - Z.min (Z.max 0 n) (zlen l).
Proof. unfold zlen, zdrop; rewrite length_skipn; lia. Qed.

Lemma zlen_zeros n : zlen (zeros n) = Z.max 0 n.
Proof. unfold zlen, zeros; rewrite repeat_length; lia. Qed.

Lemma zlen_map {A B} (f : A -> B) l : zlen (map f l) = zlen l.
Proof. unfold zlen; now rewrite length_map. Qed.

Lemma zlen_repeat {A} (a : A) n : zlen (repeat a n) = Z.of_nat n.
Proof. unfold zlen; now rewrite repeat_length. Qed.

Lemma zlen_zero_nil {A} (l : list A) : zlen l = 0 -> l = [].
Proof. destruct l; [easy | rewrite zlen_cons; pose proof (zlen_nonneg l); lia]. Qed.

Lemma ztake_all {A} n (l : list A) : zlen l <= n -> ztake n l = l.
Proof. unfold zlen, ztake; intros; apply firstn_all2; lia. Qed.

Lemma ztake_nonpos {A} n (l : list A) : n <= 0 -> ztake n l = [].
Proof.
  unfold ztake; intros. replace (Z.to_nat n) with O by lia. reflexivity.
Qed.

Lemma zdrop_nonpos {A} n (l : list A) : n <= 0 -> zdrop n l = l.
Proof.
  unfold zdrop; intros. replace (Z.to_nat n) with O by lia. reflexivity.
Qed.

Lemma zdrop_all {A} n (l : list A) : zlen l <= n -> zdrop n l = [].
Proof. unfold zlen, zdrop; intros; apply skipn_all2; lia. Qed.

Lemma ztake_zdrop {A} n (l : list A) : ztake n l ++ zdrop n l = l.
Proof. apply firstn_skipn. Qed.

Lemma ztake_app_l {A} n (l1 l2 : list A) :
  n <= zlen l1 -> ztake n (l1 ++ l2) = ztake n l1.
Proof.
  unfold zlen, ztake; intros. rewrite firstn_app.
  replace (Z.to_nat n - length l1)%nat with O by lia.
  cbn [firstn]. apply app_nil_r.
Qed.

Lemma ztake_app_r {A} n (l1 l2 : list A) :
  zlen l1 <= n -> ztake n (l1 ++ l2) = l1 ++ ztake (n - zlen l1) l2.
Proof.
  unfold zlen, ztake; intros. rewrite firstn_app.
  rewrite firstn_all2 by lia. f_equal. f_equal. lia.
Qed.

Lemma zdrop_app_l {A} n (l1 l2 : list A) :
  n <= zlen l1 -> zdrop n (l1 ++ l2) = zdrop n l1 ++ l2.
Proof.
  unfold zlen, zdrop; intros. rewrite skipn_app.
  replace (Z.to_nat n - length l1)%nat with O by lia. reflexivity.
Qed.

Lemma zdrop_app_r {A} n (l1 l2 : list A) :
  zlen l1 <= n -> zdrop n (l1 ++ l2) = zdrop (n - zlen l1) l2.
Proof.
  unfold zlen, zdrop; intros. rewrite skipn_app.
  rewrite skipn_all2 by lia. cbn [app]. f_equal. lia.
Qed.

Lemma ztake_ztake {A} n m (l : list A) :
  ztake n (ztake m l) = ztake (Z.min n m) l.
Proof.
  unfold ztake. rewrite firstn_firstn. f_equal. lia.
Qed.

Lemma zdrop_zdrop {A} n m (l : list A) :
  0 <= n -> 0 <= m -> zdrop n (zdrop m l) = zdrop (m + n) l.
Proof.
  unfold zdrop; intros. rewrite skipn_skipn. f_equal. lia.
Qed.

Lemma zeros_app n m : 0 <= n -> 0 <= m -> zeros n ++ zeros m = zeros (n + m).
Proof.
  unfold zeros; intros. rewrite <- repeat_app. f_equal. lia.
Qed.

Lemma firstn_repeat_min {A} (a : A) (n m : nat) :
  firstn n (repeat a m) = repeat a (Nat.min n m).
Proof.
  revert m; induction n; intros [| m]; cbn; try reflexivity.
  now rewrite IHn.
Qed.

Lemma skipn_repeat_sub {A} (a : A) (n m : nat) :
  skipn n (repeat a m) = repeat a (m - n).
Proof.
  revert m; induction n; intros [| m]; cbn; try reflexivity.
  apply IHn.
Qed.

Lemma ztake_zeros n m : ztake n (zeros m) = zeros (Z.min n m).
Proof.
  unfold ztake, zeros. rewrite firstn_repeat_min. f_equal. lia.
Qed.

Lemma zdrop_zeros n m : 0 <= n -> zdrop n (zeros m) = zeros (m - n).
Proof.
  unfold zdrop, zeros; intros. rewrite skipn_repeat_sub. f_equal. lia.
Qed.

Lemma zeros_nonpos n : n <= 0 -> zeros n = [].
Proof. unfold zeros; intros. replace (Z.to_nat n) with O by lia. reflexivity. Qed.

(** ** The Galois bridge *)

(** C9: [GaloisMultiply(a, b)] is [a XOR b]: it coincides with [GaloisAdd],
    so [GaloisMultiply(a, a) = 0] for every [a] and even [1 * 1] is [0], not
    [1]; the result of two bytes is a byte; [GaloisDivide(a, b)] returns [a]
    unchanged for every non-zero [b] (and panics for [b = 0]). *)
Theorem GaloisMultiply_is_xor :
  (forall a b, Bridge.GaloisMultiply a b = Z.lxor a b) /\
  (forall a b, Bridge.GaloisMultiply a b = Bridge.GaloisAdd a b) /\
  (forall a, Bridge.GaloisMultiply a a = 0) /\
  Bridge.GaloisMultiply 1 1 <> 1 /\
  (forall a b, Bridge.is_byte a -> Bridge.is_byte b ->
               Bridge.is_byte (Bridge.GaloisMultiply a b)) /\
  (forall a b, b <> 0 -> Bridge.GaloisDivide a b = Ret a) /\
  (forall a, Bridge.GaloisDivide a 0 = Panic).
Proof.
  repeat split; unfold Bridge.GaloisMultiply, Bridge.GaloisAdd; intros.
  - apply Z.lxor_nilpotent.
  - cbn. lia.
  - unfold Bridge.is_byte in *.
    assert (0 <= Z.lxor a b) by (apply Z.lxor_nonneg; split; lia). lia.
  - unfold Bridge.is_byte in *.
    destruct (Z.eq_dec (Z.lxor a b) 0) as [E | NE]; [lia |].
    assert (0 <= Z.lxor a b) by (apply Z.lxor_nonneg; split; lia).
    assert (Z.log2 (Z.lxor a b) < 8).
    { eapply Z.le_lt_trans; [apply Z.log2_lxor; lia |].
      apply Z.max_lub_lt.
      - destruct (Z.eq_dec a 0); [subst; cbn; lia |].
        apply Z.log2_lt_pow2; lia.
      - destruct (Z.eq_dec b 0); [subst; cbn; lia |].
        apply Z.log2_lt_pow2; lia. }
    apply Z.log2_lt_pow2 in H2; lia.
  - unfold Bridge.GaloisDivide. destruct (Z.eqb_spec b 0); congruence.
Qed.

(** ** The constructor *)

Lemma int_add_exact a b : is_int (a + b) -> int_add a b = a + b.
Proof.
  unfold is_int, int_min, int_max, int_add, wrap64; intros.
  rewrite Z.mod_small; lia.
Qed.

(** C8: [New] returns [InvalidShardNum] exactly when [k <= 0] or [m <= 0];
    for positive [k] and [m] it builds the GF(2^8) codec when [k + m <= 256],
    the GF(2^16) codec when [256 < k + m <= 65536], and returns [MaxShardNum]
    when [k + m] exceeds 65536.  [k + m] is the sum [New] computes, Go's
    [int] addition; it is the exact sum whenever that fits an [int]. *)
Theorem New_selects_backend (engine8 engine16 : Z -> Z -> Engine) :
  forall k m : Z,
    (New engine8 engine16 k m = Err ErrInvShardNum <-> (k <= 0 \/ m <= 0)) /\
    (0 < k -> 0 < m -> int_add k m <= 256 ->
       New engine8 engine16 k m
       = Ok (rsFF8 (mkFF8 k m (int_add k m) (engine8 k m)))) /\
    (0 < k -> 0 < m -> 256 < int_add k m <= 65536 ->
       New engine8 engine16 k m
       = Ok (rsFF16 (mkFF8 k m (int_add k m) (engine16 k m)))) /\
    (0 < k -> 0 < m -> 65536 < int_add k m ->
       New engine8 engine16 k m = Err ErrMaxShardNum) /\
    (is_int (k + m) -> int_add k m = k + m).
Proof.
  intros k m.
  unfold New, New8, New16, newReedSolomon8, newReedSolomon16, newFF8, newFF16.
  repeat split.
  - destruct (Z.leb_spec k 0), (Z.leb_spec m 0); cbn [orb]; try lia.
    destruct (Z.leb_spec (int_add k m) 256).
    + destruct (Z.gtb_spec (int_add k m) 256); [lia | discriminate].
    + destruct (Z.gtb_spec (int_add k m) 65536); discriminate.
  - intros [Hk | Hm].
    + destruct (Z.leb_spec k 0); [reflexivity | lia].
    + destruct (Z.leb_spec k 0); [reflexivity |].
      destruct (Z.leb_spec m 0); [reflexivity | lia].
  - intros Hk Hm Ht.
    destruct (Z.leb_spec k 0), (Z.leb_spec m 0); try lia. cbn [orb].
    destruct (Z.leb_spec (int_add k m) 256); [| lia].
    destruct (Z.gtb_spec (int_add k m) 256); [lia | reflexivity].
  - intros Hk Hm Ht.
    destruct (Z.leb_spec k 0), (Z.leb_spec m 0); try lia. cbn [orb].
    destruct (Z.leb_spec (int_add k m) 256); [lia |].
    destruct (Z.gtb_spec (int_add k m) 65536); [lia | reflexivity].
  - intros Hk Hm Ht.
    destruct (Z.leb_spec k 0), (Z.leb_spec m 0); try lia. cbn [orb].
    destruct (Z.leb_spec (int_add k m) 256); [lia |].
    destruct (Z.gtb_spec (int_add k m) 65536); [reflexivity | lia].
  - apply int_add_exact.
Qed.

(** ** The stream facade *)

Lemma facade_check_clash inputs : forall outputs i inp out,
  length inputs = length outputs ->
  nth_error inputs i = Some (Some inp) ->
  nth_error outputs i = Some (Some out) ->
  facade_check inputs outputs = Ret true.
Proof.
  induction inputs as [| a inputs IH]; intros [| b outputs] i inp out Hl Hi Ho;
    try (destruct i; discriminate).
  destruct i as [| i]; cbn in Hi, Ho.
  - injection Hi as ->. injection Ho as ->. reflexivity.
  - cbn [facade_check].
    destruct (is_some a && is_some b); [reflexivity |].
    eapply IH; eauto.
Qed.

Lemma recon_check_clash k inputs : forall outputs j b i inp out,
  length inputs = length outputs ->
  nth_error inputs i = Some (Some inp) ->
  nth_error outputs i = Some (Some out) ->
  exists b', recon_check k j b inputs outputs
             = Ret (Some ErrReconstructMismatch, b').
Proof.
  induction inputs as [| a inputs IH]; intros [| c outputs] j b i inp out Hl Hi Ho;
    try (destruct i; discriminate).
  destruct i as [| i]; cbn in Hi, Ho.
  - injection Hi as ->. injection Ho as ->. eexists. reflexivity.
  - cbn [recon_check].
    destruct (is_some a && is_some c); [eexists; reflexivity |].
    eapply IH; eauto.
Qed.

Lemma data_check_clash inputs : forall outputs i inp out,
  length inputs = length outputs ->
  nth_error inputs i = Some (Some inp) ->
  nth_error outputs i = Some (Some out) ->
  data_check inputs outputs = Ret (Some ErrReconstructMismatch).
Proof.
  induction inputs as [| a inputs IH]; intros [| b outputs] i inp out Hl Hi Ho;
    try (destruct i; discriminate).
  destruct i as [| i]; cbn in Hi, Ho.
  - injection Hi as ->. injection Ho as ->. reflexivity.
  - cbn [data_check].
    destruct (is_some a && is_some b); [reflexivity |].
    eapply IH; eauto.
Qed.

Lemma zlen_eq_length {A B} (l1 : list A) (l2 : list B) :
  zlen l1 = zlen l2 -> length l1 = length l2.
Proof. unfold zlen; lia. Qed.


(** ** Exhausted inputs *)


Lemma Forall_ztake {A} (P : A -> Prop) n l :
  Forall P l -> Forall P (ztake n l).
Proof.
  unfold ztake. generalize (Z.to_nat n) as k. intros k H; revert k.
  induction H; intros [| k]; cbn; auto.
Qed.

Lemma Forall_zdrop {A} (P : A -> Prop) n l :
  Forall P l -> Forall P (zdrop n l).
Proof.
  unfold zdrop. generalize (Z.to_nat n) as k. intros k H; revert k.
  induction H; intros [| k]; cbn; auto.
Qed.

Lemma reslice_ok s n :
  0 <= n <= cap s -> reslice s n = Ret (mkSlice (arr s) n).
Proof.
  unfold reslice; intros.
  destruct (Z.leb_spec 0 n), (Z.leb_spec n (cap s)); try lia. reflexivity.
Qed.

Lemma ReadFull_exhausted rd l :
  0 < l -> rdata rd = [] -> rfail rd = None ->
  ReadFull rd l = ([], Some EOF, rd).
Proof.
  intros Hl Hd Hf. unfold ReadFull.
  destruct (Z.leb_spec l 0); [lia |].
  rewrite Hd, Hf. unfold ztake, zdrop. rewrite firstn_nil, skipn_nil.
  cbn [zlen length Z.of_nat].
  destruct (Z.eqb_spec 0 l); [lia |]. cbn.
  destruct rd; cbn in *; subst; reflexivity.
Qed.

Lemma read_blocks_exhausted B readers : forall dst i size,
  0 < B ->
  Forall exhausted readers ->
  Forall (fun s => B <= cap s) dst ->
  (length readers <= length dst)%nat ->
  exists dst',
    read_blocks B i size readers dst = Ret (None, size, dst', readers) /\
    length dst' = length dst /\
    Forall (fun s => B <= cap s) dst'.
Proof.
  induction readers as [| rd readers IH]; intros dst i size HB He Hc Hl.
  - exists dst. cbn. auto.
  - destruct dst as [| s dst]; [cbn in Hl; lia |].
    inversion He as [| ? ? He1 He2]; subst.
    inversion Hc as [| ? ? Hc1 Hc2]; subst.
    cbn in Hl.
    destruct (IH dst (i + 1) size HB He2 Hc2 ltac:(lia)) as (dst' & E & L & C).
    cbn [read_blocks].
    destruct rd as [rd |].
    + destruct He1 as [Hd Hf].
      rewrite reslice_ok by (pose proof (zlen_nonneg (arr s)); unfold cap in *; lia).
      cbn [bind]. rewrite ReadFull_exhausted by assumption.
      cbn [is_some is_err error_eqb negb andb zlen length Z.of_nat].
      replace ((size =? -1) && (0 >? 0)) with false
        by (destruct (size =? -1); reflexivity).
      rewrite reslice_ok
        by (unfold store, cap; cbn [arr zlen length Z.of_nat app];
            rewrite zdrop_nonpos by lia; fold (cap s); lia).
      cbn [bind]. rewrite E. cbn [bind].
      eexists; split; [reflexivity |]. split; [cbn; lia |].
      constructor; [| assumption].
      unfold store, cap; cbn [arr zlen length Z.of_nat app].
      rewrite zdrop_nonpos by lia. exact Hc1.
    + rewrite reslice_ok by (pose proof (zlen_nonneg (arr s)); unfold cap in *; lia).
      cbn [bind]. rewrite E. cbn [bind].
      eexists; split; [reflexivity |]. split; [cbn; lia |].
      constructor; [| assumption]. exact Hc1.
Qed.

Lemma mapM_reslice B (l : list slice) :
  0 <= B -> Forall (fun s => B <= cap s) l ->
  mapM (fun s => reslice s B) l
  = Ret (map (fun s => mkSlice (arr s) B) l).
Proof.
  intros HB; induction 1 as [| s l Hs Hl IH]; [reflexivity |].
  cbn [mapM map]. rewrite reslice_ok by lia. cbn [bind].
  rewrite IH. reflexivity.
Qed.

Lemma cap_make n : cap (make n) = Z.max 0 n.
Proof. unfold cap, make; cbn. apply zlen_zeros. Qed.

Lemma createSlice_caps r :
  Forall (fun s => blockSize r <= cap s) (createSlice r).
Proof.
  unfold createSlice, AllocAligned. apply Forall_forall; intros s Hs.
  apply repeat_spec in Hs; subst. rewrite cap_make. lia.
Qed.

Lemma zlen_createSlice r : zlen (createSlice r) = Z.max 0 (totalShards r).
Proof.
  unfold createSlice, AllocAligned. rewrite zlen_repeat. lia.
Qed.

Lemma stream_fuel_pos inputs : exists f, stream_fuel inputs = S f.
Proof. unfold stream_fuel. eexists; reflexivity. Qed.

Lemma recon_check_clear k inputs : forall outputs i b,
  Forall2 (fun inp out => is_some inp && is_some out = false) inputs outputs ->
  exists b', recon_check k i b inputs outputs = Ret (None, b').
Proof.
  induction inputs as [| a inputs IH]; intros outputs i b H; inversion H; subst.
  - eexists; reflexivity.
  - cbn [recon_check]. rewrite H2. apply IH; assumption.
Qed.

Lemma data_check_clear inputs : forall outputs,
  Forall2 (fun inp out => is_some inp && is_some out = false) inputs outputs ->
  data_check inputs outputs = Ret None.
Proof.
  induction inputs as [| a inputs IH]; intros outputs H; inversion H; subst.
  - reflexivity.
  - cbn [data_check]. rewrite H2. apply IH; assumption.
Qed.

(** C6 (as the code has it): when every input stream is at EOF on entry,
    [verify], [reconstruct] and [reconstructData] return [ShardNoData],
    but [encode] returns [nil]: its loop leaves on the [io.EOF] of
    [readInputs] before the test for data, and keeps no count of the bytes
    read.  No stream is touched. *)
Theorem encode_on_exhausted_inputs :
  forall (r : rsStreamFF8) (inputs : list (option Reader))
         (outputs : list (option Writer)),
    0 < blockSize r ->
    0 < dataShards r <= totalShards r ->
    Forall exhausted inputs ->
    (zlen inputs = dataShards r -> zlen outputs = parityShards r ->
       encode r inputs outputs = Ret (None, inputs, outputs)) /\
    (zlen inputs = totalShards r ->
       verify r inputs = Ret (false, Some ErrShardNoData, inputs)) /\
    (zlen inputs = totalShards r -> zlen outputs = totalShards r ->
     Forall2 (fun inp out => is_some inp && is_some out = false)
             inputs outputs ->
       reconstruct r inputs outputs
       = Ret (Some ErrShardNoData, inputs, outputs) /\
       reconstructData r inputs outputs
       = Ret (Some ErrShardNoData, inputs, outputs)).
Proof.
  intros r inputs outputs HB Hk He.
  pose proof (createSlice_caps r) as Hcaps.
  pose proof (zlen_createSlice r) as Hlen.
  assert (Hcaps' : Forall (fun s => blockSize r <= cap s)
                     (map (fun s => mkSlice (arr s) (blockSize r)) (createSlice r))).
  { apply Forall_forall; intros s Hs. apply in_map_iff in Hs.
    destruct Hs as (s0 & <- & Hs0).
    rewrite Forall_forall in Hcaps. apply (Hcaps s0 Hs0). }
  repeat split.
  - intros Hli Hlo. unfold encode, encode_with.
    rewrite Hli, Hlo, !Z.eqb_refl. cbn [negb].
    rewrite mapM_reslice by (assumption || lia). cbn [bind].
    destruct (stream_fuel_pos inputs) as [f ->]. cbn [encode_loop].
    set (sh := map _ (createSlice r)) in *.
    assert (Hsh : zlen sh = totalShards r)
      by (unfold sh; rewrite zlen_map; lia).
    unfold upto.
    destruct (Z.leb_spec 0 (dataShards r)); [| lia].
    destruct (Z.leb_spec (dataShards r) (zlen sh)); [| lia].
    cbn [andb bind]. unfold readInputs.
    destruct (read_blocks_exhausted (blockSize r) inputs
                (ztake (dataShards r) sh) 0 (-1)) as (dst' & E & _ & _); auto.
    { apply Forall_ztake; assumption. }
    { unfold ztake. rewrite length_firstn. unfold zlen in *. lia. }
    rewrite E. reflexivity.
  - intros Hli. unfold verify, verify_with.
    rewrite Hli, Z.eqb_refl. cbn [negb].
    destruct (stream_fuel_pos inputs) as [f ->]. cbn [verify_loop].
    destruct (read_blocks_exhausted (blockSize r) inputs (createSlice r) 0 (-1))
      as (dst' & E & _ & _); auto.
    { unfold zlen in *. lia. }
    rewrite E. reflexivity.
  - unfold reconstruct, reconstruct_with.
    rewrite H, H0, Z.eqb_refl. cbn [negb].
    destruct (recon_check_clear (dataShards r) inputs outputs 0 true H1)
      as [b' ->]. cbn [bind].
    destruct (stream_fuel_pos inputs) as [f ->]. cbn [reconstruct_loop].
    destruct (read_blocks_exhausted (blockSize r) inputs (createSlice r) 0 (-1))
      as (dst' & E & _ & _); auto.
    { unfold zlen in *. lia. }
    rewrite E. reflexivity.
  - unfold reconstructData, reconstructData_with.
    rewrite H, H0, Z.eqb_refl. cbn [negb].
    rewrite data_check_clear by assumption. cbn [bind].
    destruct (Z.gtb_spec (dataShards r) (totalShards r)); [lia |].
    destruct (stream_fuel_pos inputs) as [f ->]. cbn [reconstructData_loop].
    destruct (read_blocks_exhausted (blockSize r) inputs (createSlice r) 0 (-1))
      as (dst' & E & _ & _); auto.
    { unfold zlen in *. lia. }
    rewrite E. reflexivity.
Qed.


Lemma encode_on_exhausted_inputs_witness :
  encode sample_stream [Some (bytesReader []); Some (bytesBuffer [])]
    [Some newBuffer]
  = Ret (None, [Some (bytesReader []); Some (bytesBuffer [])],
         [Some newBuffer]) /\
  verify sample_stream
    [Some (bytesReader []); Some (bytesReader []); Some (bytesReader [])]
  = Ret (false, Some ErrShardNoData,
         [Some (bytesReader []); Some (bytesReader []); Some (bytesReader [])]).
Proof.
  split.
  - apply (encode_on_exhausted_inputs sample_stream
             [Some (bytesReader []); Some (bytesBuffer [])] [Some newBuffer]);
      cbn; try lia; try reflexivity.
    repeat constructor.
  - apply (encode_on_exhausted_inputs sample_stream
             [Some (bytesReader []); Some (bytesReader []);
              Some (bytesReader [])] []);
      cbn; try lia; try reflexivity.
    repeat constructor.
Defined.

(** ** StreamReconstructData *)

Lemma bind_ret {A B} (a : A) (f : A -> outcome B) : bind (Ret a) f = f a.
Proof. reflexivity. Qed.

(** C10: [StreamReconstructData] copies [outputs[0 .. k-1]] before it
    delegates, with no test of [len(outputs)].  For a codec with
    [0 < k <= n] the copy panics exactly when [len(outputs) < k]: then the
    call ends in the panic, returns no error value and never reaches
    [StreamReconstruct]; with [len(outputs) >= k] the copy is in range and
    the call is the delegated one on [outputs[:k]] followed by [n - k] nil
    writers.  The same holds for the [rsFF8] method itself (and for
    [rsFF16], whose text is the same). *)
Theorem StreamReconstructData_index_safety (engine8 : Z -> Z -> Engine) :
  forall (recon : list (option Reader) -> list (option Writer) -> stream_result)
         (ff : leopardFF8) (k total : Z)
         (inputs : list (option Reader)) (outputs : list (option Writer)),
    0 < k <= total ->
    (dataOnlyOutputs_of k total outputs = Panic <-> zlen outputs < k) /\
    (zlen outputs < k ->
       StreamReconstructData_of recon k total inputs outputs = Panic) /\
    (k <= zlen outputs ->
       StreamReconstructData_of recon k total inputs outputs
       = ('(e, inputs', outs') <-
            recon inputs (ztake k outputs
                            ++ repeat None (Z.to_nat (total - k))) ;;
          Ret (e, inputs', ztake k outs' ++ zdrop k outputs))) /\
    (ff_dataShards ff = k -> ff_totalShards ff = total ->
     zlen outputs < k ->
       StreamReconstructData engine8 ff inputs outputs = Panic).
Proof.
  intros recon ff k total inputs outputs Hk.
  assert (Hlt : zlen outputs < k -> dataOnlyOutputs_of k total outputs = Panic).
  { intros Hl. unfold dataOnlyOutputs_of.
    destruct (Z.ltb_spec total 0); [reflexivity |].
    destruct (Z.leb_spec k 0); [lia |].
    destruct (Z.leb_spec k (zlen outputs)); [lia | reflexivity]. }
  assert (Hge : k <= zlen outputs ->
                dataOnlyOutputs_of k total outputs
                = Ret (ztake k outputs ++ repeat None (Z.to_nat (total - k)))).
  { intros Hl. unfold dataOnlyOutputs_of.
    destruct (Z.ltb_spec total 0); [lia |].
    destruct (Z.leb_spec k 0); [lia |].
    destruct (Z.leb_spec k (zlen outputs)); [| lia].
    destruct (Z.leb_spec k total); [reflexivity | lia]. }
  repeat split.
  - intros HP. destruct (Z.lt_ge_cases (zlen outputs) k) as [Hl | Hl];
      [exact Hl | rewrite Hge in HP by exact Hl; discriminate].
  - exact Hlt.
  - intros Hl. unfold StreamReconstructData_of. now rewrite Hlt.
  - intros Hl. unfold StreamReconstructData_of. now rewrite Hge.
  - intros <- <- Hl. unfold StreamReconstructData, StreamReconstructData_of.
    now rewrite Hlt.
Qed.

Lemma StreamReconstructData_index_safety_witness :
  StreamReconstructData (fun _ _ => idle_engine) sample_ff
    [None; Some (bytesReader [1]); Some (bytesReader [2])] [Some newBuffer]
  = Panic.
Proof.
  apply (StreamReconstructData_index_safety (fun _ _ => idle_engine)
           (StreamReconstruct (fun _ _ => idle_engine) sample_ff) sample_ff
           2 3 [None; Some (bytesReader [1]); Some (bytesReader [2])]
           [Some newBuffer]);
    cbn; try lia; reflexivity.
Defined.

(** ** Butterflies *)

Import Butterfly.

Lemma xor_bytes_length out : forall input,
  length (xor_bytes out input) = length out.
Proof.
  induction out as [| o out IH]; intros [| b input]; cbn; auto.
Qed.

Lemma zlen_xor_bytes out input : zlen (xor_bytes out input) = zlen out.
Proof. unfold zlen. now rewrite xor_bytes_length. Qed.

Lemma xor_bytes_involutive out : forall input,
  xor_bytes (xor_bytes out input) input = out.
Proof.
  induction out as [| o out IH]; intros [| b input]; cbn; auto.
  rewrite IH. f_equal.
  rewrite Z.lxor_assoc, Z.lxor_nilpotent. apply Z.lxor_0_r.
Qed.

Lemma done32_bounds n :
  0 <= n -> 0 <= Z.shiftl (Z.shiftr n 5) 5 <= n.
Proof.
  intros Hn. rewrite Z.shiftr_div_pow2, Z.shiftl_mul_pow2 by lia.
  change (2 ^ 5) with 32.
  pose proof (Z.div_mod n 32 ltac:(lia)).
  pose proof (Z.mod_pos_bound n 32 ltac:(lia)). lia.
Qed.

(** On two slices of one length [mulAdd8] is its own inverse, whatever
    the table: the blocks part is an XOR into [out], the tail part an XOR
    into [in], and neither changes what the other XORs with. *)
Lemma mulAdd8_bytes_involutive mul8 x y t :
  zlen x = zlen y ->
  let r := mulAdd8_bytes mul8 x y t in
  zlen (fst r) = zlen x /\ zlen (snd r) = zlen y /\
  mulAdd8_bytes mul8 (fst r) (snd r) t = (x, y).
Proof.
  intros Hxy. unfold mulAdd8_bytes.
  pose proof (done32_bounds (zlen y) (zlen_nonneg y)) as Hd.
  set (d := Z.shiftl (Z.shiftr (zlen y) 5) 5) in *.
  set (M := map (mul8 t)).
  assert (Ho1 : zlen (xor_bytes (ztake d x) (M (ztake d y)) ++ zdrop d x)
                = zlen x).
  { rewrite zlen_app, zlen_xor_bytes, zlen_ztake, zlen_zdrop. lia. }
  assert (Htk : ztake d (xor_bytes (ztake d x) (M (ztake d y)) ++ zdrop d x)
                = xor_bytes (ztake d x) (M (ztake d y))).
  { rewrite ztake_app_l by (rewrite zlen_xor_bytes, zlen_ztake; lia).
    apply ztake_all. rewrite zlen_xor_bytes, zlen_ztake. lia. }
  assert (Hdr : zdrop d (xor_bytes (ztake d x) (M (ztake d y)) ++ zdrop d x)
                = zdrop d x).
  { rewrite zdrop_app_r by (rewrite zlen_xor_bytes, zlen_ztake; lia).
    rewrite zlen_xor_bytes, zlen_ztake.
    apply zdrop_nonpos. lia. }
  destruct (Z.gtb_spec (zlen y - d) 0) as [Ht | Ht]; cbn [fst snd].
  - rewrite Hdr.
    assert (Hin : zlen (ztake d y ++ xor_bytes (zdrop d y) (M (zdrop d x)))
                  = zlen y).
    { rewrite zlen_app, zlen_xor_bytes, zlen_ztake, zlen_zdrop. lia. }
    split; [exact Ho1 |]. split; [exact Hin |].
    rewrite Hin. fold d. rewrite Htk.
    rewrite (ztake_app_l d (ztake d y)) by (rewrite zlen_ztake; lia).
    rewrite (ztake_all d (ztake d y)) by (rewrite zlen_ztake; lia).
    fold M. rewrite xor_bytes_involutive, Hdr, ztake_zdrop.
    destruct (Z.gtb_spec (zlen y - d) 0); [| lia].
    rewrite (zdrop_app_r d (ztake d y)) by (rewrite zlen_ztake; lia).
    rewrite zlen_ztake, zdrop_nonpos by lia.
    rewrite xor_bytes_involutive, ztake_zdrop. reflexivity.
  - split; [exact Ho1 |]. split; [reflexivity |].
    fold d. rewrite Htk. fold M.
    rewrite xor_bytes_involutive, Hdr, ztake_zdrop.
    destruct (Z.gtb_spec (zlen y - d) 0); [lia | reflexivity].
Qed.

(** C4: on two shard slices [x], [y] of one length and for every
    log-twiddle [t] (in particular every [t] other than MODULUS) the
    forward radix-2 butterfly runs the multiply-accumulate and then the
    XOR of the pair, the inverse butterfly runs the same two kernels in
    the opposite order, and the inverse butterfly applied to the forward
    butterfly's result gives back [x] and [y].  This holds for the 8-bit
    pair [fftDIT28]/[ifftDIT28] and the 16-bit pair [fftDIT2]/[ifftDIT2],
    whatever the product tables are. *)
Theorem ifft_dit2_undoes_fft_dit2
    (mul8 : Z -> Z -> Z) (mul16 : Z -> list Z -> list Z) :
  forall (x y : list Z) (t : Z),
    zlen x = zlen y ->
    (let x' := fst (mulAdd8_bytes mul8 x y t) in
     let y' := xor_bytes (snd (mulAdd8_bytes mul8 x y t)) x' in
     fftDIT28 mul8 0 1 t (mkState [x; y] [])
     = Ret (mkState [x'; y'] [KMulAdd 0 1 t; KXor 0 1]) /\
     ifftDIT28 mul8 0 1 t (mkState [x'; y'] [])
     = Ret (mkState [x; y] [KXor 0 1; KMulAdd 0 1 t])) /\
    (let x' := xor_bytes x (mul16 t y) in
     let y' := xor_bytes y x' in
     fftDIT2 mul16 0 1 t (mkState [x; y] [])
     = Ret (mkState [x'; y'] [KMulAdd 0 1 t; KXor 0 1]) /\
     ifftDIT2 mul16 0 1 t (mkState [x'; y'] [])
     = Ret (mkState [x; y] [KXor 0 1; KMulAdd 0 1 t])).
Proof.
  intros x y t Hxy. split.
  - destruct (mulAdd8_bytes_involutive mul8 x y t Hxy) as (L1 & L2 & Hinv).
    cbv zeta. split.
    + unfold fftDIT28, mulAdd8, sliceXor, shard_at, put_shard.
      cbn [work calls nth_error bind].
      destruct (mulAdd8_bytes mul8 x y t) as [o' i'] eqn:E.
      cbn [work calls nth_error bind set_nth app fst snd]. reflexivity.
    + unfold ifftDIT28, mulAdd8, sliceXor, shard_at, put_shard.
      cbn [work calls nth_error bind set_nth app].
      rewrite xor_bytes_involutive, Hinv.
      cbn [work calls nth_error bind set_nth app]. reflexivity.
  - cbv zeta. split.
    + unfold fftDIT2, refMulAdd, xorSliceNEON, sliceXor, shard_at, put_shard.
      cbn [work calls nth_error bind set_nth app]. reflexivity.
    + unfold ifftDIT2, refMulAdd, xorSliceNEON, sliceXor, shard_at, put_shard.
      cbn [work calls nth_error bind set_nth app].
      rewrite !xor_bytes_involutive. reflexivity.
Qed.

Lemma ifft_dit2_undoes_fft_dit2_witness :
  ifftDIT28 mul_by_one 0 1 7
    (mkState [fst (mulAdd8_bytes mul_by_one (zeros 64) (payload 64) 7);
              xor_bytes (snd (mulAdd8_bytes mul_by_one (zeros 64)
                                (payload 64) 7))
                (fst (mulAdd8_bytes mul_by_one (zeros 64) (payload 64) 7))]
             [])
  = Ret (mkState [zeros 64; payload 64] [KXor 0 1; KMulAdd 0 1 7]).
Proof.
  apply (ifft_dit2_undoes_fft_dit2 mul_by_one mul16_by_one
           (zeros 64) (payload 64) 7).
  reflexivity.
Defined.

Lemma sliceXor_calls i o st st' :
  sliceXor i o st = Ret st' -> calls st' = calls st ++ [KXor i o].
Proof.
  unfold sliceXor, shard_at, put_shard.
  destruct (nth_error (work st) i); [| discriminate].
  destruct (nth_error (work st) o); [| discriminate].
  cbn. intros [= <-]. reflexivity.
Qed.

Lemma refMul_calls mul16 x y t st st' :
  refMul mul16 x y t st = Ret st' -> calls st' = calls st ++ [KMul x y t].
Proof.
  unfold refMul, shard_at, put_shard.
  destruct (nth_error (work st) y); [| discriminate].
  destruct (nth_error (work st) x); [| discriminate].
  cbn. intros [= <-]. reflexivity.
Qed.

Lemma refMulAdd_calls mul16 x y t st st' :
  refMulAdd mul16 x y t st = Ret st' ->
  calls st' = calls st ++ [KMulAdd x y t].
Proof.
  unfold refMulAdd, shard_at, put_shard.
  destruct (nth_error (work st) x); [| discriminate].
  destruct (nth_error (work st) y); [| discriminate].
  cbn. intros [= <-]. reflexivity.
Qed.

Lemma mulAdd8_calls mul8 x y t st st' :
  mulAdd8 mul8 x y t st = Ret st' ->
  calls st' = calls st ++ [KMulAdd x y t].
Proof.
  unfold mulAdd8, shard_at.
  destruct (nth_error (work st) x); [| discriminate].
  destruct (nth_error (work st) y); [| discriminate].
  cbn [bind]. destruct (mulAdd8_bytes mul8 l l0 t).
  intros [= <-]. reflexivity.
Qed.

Lemma doc_fftDIT2_calls mul16 avx x y t st st' :
  doc_fftDIT2 mul16 avx x y t st = Ret st' ->
  exists c, calls st' = calls st ++ [c] /\ no_modulus_multiply c.
Proof.
  unfold doc_fftDIT2, mulgf16AVX2, mulgf16.
  destruct (Z.eqb_spec t 0).
  { intros H; apply sliceXor_calls in H. eexists; split; [eassumption | exact I]. }
  destruct (Z.eqb_spec t modulus).
  { intros H; apply sliceXor_calls in H. eexists; split; [eassumption | exact I]. }
  destruct avx; intros H; apply refMul_calls in H;
    (eexists; split; [eassumption | assumption]).
Qed.

Lemma bind_Ret_inv {A B} (m : outcome A) (f : A -> outcome B) b :
  bind m f = Ret b -> exists a, m = Ret a /\ f a = Ret b.
Proof. destruct m; cbn; try discriminate. eauto. Qed.

(** C3 (as the code has it): the butterflies that test their twiddle
    short-circuit MODULUS to a plain XOR -- the design document's radix-2
    butterfly is then just [sliceXor], its radix-4 butterfly with three
    MODULUS twiddles is four XORs, and for any twiddles it never calls a
    multiply kernel with MODULUS.  The arm64 radix-2 routines [fftDIT2],
    [ifftDIT2], [fftDIT28], [ifftDIT28] hold no such test: for every
    twiddle, MODULUS included, they call the multiply-accumulate kernel
    and the XOR kernel. *)
Theorem modulus_short_circuit
    (mul8 : Z -> Z -> Z) (mul16 : Z -> list Z -> list Z) (useAVX2 : bool) :
  (forall x y st,
     doc_fftDIT2 mul16 useAVX2 x y modulus st = sliceXor x y st) /\
  (forall x0 x1 x2 x3 : list Z,
     doc_fftDIT4 mul16 useAVX2 1 modulus modulus modulus
       (mkState [x0; x1; x2; x3] [])
     = Ret (mkState [x0; xor_bytes x1 x0; xor_bytes x2 x0;
                     xor_bytes (xor_bytes x3 x1) (xor_bytes x2 x0)]
                    [KXor 0 2; KXor 1 3; KXor 0 1; KXor 2 3])) /\
  (forall dist t01 t23 t02 st st',
     doc_fftDIT4 mul16 useAVX2 dist t01 t23 t02 st = Ret st' ->
     exists new, calls st' = calls st ++ new /\
                 Forall no_modulus_multiply new) /\
  (forall x y t st st',
     (fftDIT28 mul8 x y t st = Ret st' ->
      calls st' = calls st ++ [KMulAdd x y t; KXor x y]) /\
     (ifftDIT28 mul8 x y t st = Ret st' ->
      calls st' = calls st ++ [KXor x y; KMulAdd x y t]) /\
     (fftDIT2 mul16 x y t st = Ret st' ->
      calls st' = calls st ++ [KMulAdd x y t; KXor x y]) /\
     (ifftDIT2 mul16 x y t st = Ret st' ->
      calls st' = calls st ++ [KXor x y; KMulAdd x y t])).
Proof.
  split; [| split; [| split]].
  - intros x y st. unfold doc_fftDIT2. rewrite Z.eqb_refl.
    destruct (modulus =? 0); reflexivity.
  - intros. reflexivity.
  - intros dist t01 t23 t02 st st' H. unfold doc_fftDIT4 in H.
    do 4 (apply bind_Ret_inv in H; destruct H as (? & _ & H)).
    apply bind_Ret_inv in H. destruct H as (s1 & H1 & H).
    apply bind_Ret_inv in H. destruct H as (s2 & H2 & H3).
    assert (E1 : exists n1, calls s1 = calls st ++ n1
                            /\ Forall no_modulus_multiply n1).
    { destruct (t02 =? modulus).
      - apply bind_Ret_inv in H1. destruct H1 as (s0 & Ha & Hb).
        apply sliceXor_calls in Ha, Hb. rewrite Hb, Ha, <- app_assoc.
        eexists; split; [reflexivity |]. repeat constructor.
      - apply bind_Ret_inv in H1. destruct H1 as (s0 & Ha & Hb).
        apply doc_fftDIT2_calls in Ha, Hb.
        destruct Ha as (c1 & Ea & Pa), Hb as (c2 & Eb & Pb).
        rewrite Eb, Ea, <- app_assoc.
        eexists; split; [reflexivity |]. repeat constructor; assumption. }
    assert (E2 : exists c, calls s2 = calls s1 ++ [c] /\ no_modulus_multiply c).
    { destruct (t01 =? modulus).
      - apply sliceXor_calls in H2. eexists; split; [eassumption | exact I].
      - apply doc_fftDIT2_calls in H2. exact H2. }
    assert (E3 : exists c, calls st' = calls s2 ++ [c] /\ no_modulus_multiply c).
    { destruct (t23 =? modulus).
      - apply sliceXor_calls in H3. eexists; split; [eassumption | exact I].
      - apply doc_fftDIT2_calls in H3. exact H3. }
    destruct E1 as (n1 & E1 & F1), E2 as (c2 & E2 & P2), E3 as (c3 & E3 & P3).
    rewrite E3, E2, E1, <- !app_assoc.
    eexists; split; [reflexivity |].
    apply Forall_app; split; [assumption |]. repeat constructor; assumption.
  - intros x y t st st'. repeat split; intros H.
    + unfold fftDIT28 in H. apply bind_Ret_inv in H. destruct H as (s & Ha & Hb).
      apply mulAdd8_calls in Ha. apply sliceXor_calls in Hb.
      rewrite Hb, Ha, <- app_assoc. reflexivity.
    + unfold ifftDIT28 in H. apply bind_Ret_inv in H. destruct H as (s & Ha & Hb).
      apply sliceXor_calls in Ha. apply mulAdd8_calls in Hb.
      rewrite Hb, Ha, <- app_assoc. reflexivity.
    + unfold fftDIT2, xorSliceNEON in H.
      apply bind_Ret_inv in H. destruct H as (s & Ha & Hb).
      apply refMulAdd_calls in Ha. apply sliceXor_calls in Hb.
      rewrite Hb, Ha, <- app_assoc. reflexivity.
    + unfold ifftDIT2, xorSliceNEON in H.
      apply bind_Ret_inv in H. destruct H as (s & Ha & Hb).
      apply sliceXor_calls in Ha. apply refMulAdd_calls in Hb.
      rewrite Hb, Ha, <- app_assoc. reflexivity.
Qed.

(** C3, the claim as stated, fails on the arm64 radix-2 butterfly: with
    the twiddle MODULUS (255) [fftDIT28] still calls [mulAdd8] before the
    XOR, and with a table whose row 255 multiplies by one the two slices
    end up different from what a plain XOR of the pair leaves. *)
Lemma fftDIT28_multiplies_at_modulus :
  fftDIT28 mul_by_one 0 1 modulus8 (mkState [payload 64; payload 64] [])
  = Ret (mkState [zeros 64; payload 64] [KMulAdd 0 1 255; KXor 0 1]) /\
  sliceXor 0 1 (mkState [payload 64; payload 64] [])
  = Ret (mkState [payload 64; zeros 64] [KXor 0 1]) /\
  fftDIT28 mul_by_one 0 1 modulus8 (mkState [payload 64; payload 64] [])
  <> sliceXor 0 1 (mkState [payload 64; payload 64] []).
Proof.
  split; [vm_compute; reflexivity |].
  split; [vm_compute; reflexivity |].
  vm_compute. discriminate.
Qed.

(** ** Alignment arithmetic *)

Lemma align64_bounds x :
  0 <= x -> x <= align64 x < x + 64 /\ Z.rem (align64 x) 64 = 0.
Proof.
  intros. unfold align64. Z.to_euclidean_division_equations. lia.
Qed.

Lemma align64_fix x : 0 <= x -> Z.rem x 64 = 0 -> align64 x = x.
Proof.
  intros. unfold align64. Z.to_euclidean_division_equations. lia.
Qed.

Lemma align_if_needed_eq x : 0 <= x -> align_if_needed x = align64 x.
Proof.
  intros. unfold align_if_needed.
  destruct (Z.eqb_spec (Z.rem x 64) 0); [| reflexivity].
  symmetry. now apply align64_fix.
Qed.

Lemma align_if_needed_bounds x :
  0 <= x ->
  x <= align_if_needed x < x + 64 /\ Z.rem (align_if_needed x) 64 = 0.
Proof.
  intros. rewrite align_if_needed_eq by assumption. now apply align64_bounds.
Qed.

(** ** Slices, readers and writers *)

Lemma ReadFull_enough rd l :
  0 <= l <= zlen (rdata rd) ->
  ReadFull rd l
  = (ztake l (rdata rd), None,
     mkReader (zdrop l (rdata rd)) (rseek rd) (rfail rd)).
Proof.
  intros Hl. unfold ReadFull.
  destruct (Z.leb_spec l 0).
  - assert (l = 0) by lia. subst. rewrite ztake_nonpos, zdrop_nonpos by lia.
    destruct rd; reflexivity.
  - rewrite zlen_ztake.
    destruct (Z.eqb_spec (Z.min (Z.max 0 l) (zlen (rdata rd))) l); [| lia].
    reflexivity.
Qed.

Lemma bytes_make n : bytes (make n) = zeros n.
Proof.
  unfold bytes, make; cbn [arr len].
  destruct (Z.le_gt_cases 0 n).
  - apply ztake_all. rewrite zlen_zeros. lia.
  - rewrite ztake_nonpos, zeros_nonpos by lia. reflexivity.
Qed.

Lemma bytes_copy_make n got :
  zlen got <= n -> bytes (copy (make n) got) = got ++ zeros (n - zlen got).
Proof.
  intros H. pose proof (zlen_nonneg got).
  unfold bytes, copy, make; cbn [arr len].
  rewrite Z.min_r by lia. rewrite (ztake_all (zlen got) got) by lia.
  rewrite zdrop_zeros by lia.
  apply ztake_all. rewrite zlen_app, zlen_zeros. lia.
Qed.

Lemma Write_healthy w p :
  wfail w = None -> Write w p = (zlen p, None, mkWriter (wdata w ++ p) None).
Proof. unfold Write. now intros ->. Qed.

(** ** split *)

Section SplitMain.

Variables k size perShard last alast : Z.
Variable buf : slice.
Hypothesis HP : 0 <= perShard.
Hypothesis Hlast : 0 < last.
Hypothesis Halast : last <= alast.
Hypothesis HcapP : perShard <= cap buf.
Hypothesis Hcapl : alast <= cap buf.

(** With enough payload left the loop serves every remaining writer. *)
Lemma split_loop_main : forall (dst : list (option Writer)) shardNum data totalRead,
  dst <> [] ->
  shardNum = k - zlen dst ->
  Forall healthy dst ->
  (k - 1 - shardNum) * perShard + last <= zlen (rdata data) ->
  split_loop k size perShard last alast buf shardNum data totalRead dst
  = Ret (None,
         mkReader (zdrop ((k - 1 - shardNum) * perShard + last) (rdata data))
                  (rseek data) (rfail data),
         feed_all dst (split_layout perShard last alast (rdata data)
                         (length dst))).
Proof using HP Hlast Halast HcapP Hcapl.
  induction dst as [| w dst IH]; intros shardNum data totalRead Hne Hs Hh Hd;
    [congruence |].
  apply Forall_cons_iff in Hh; destruct Hh as [Hw Hh'].
  destruct w as [w |]; [| destruct Hw]. cbn in Hw.
  rewrite zlen_cons in Hs.
  pose proof (zlen_nonneg dst) as Hn.
  pose proof (zlen_nonneg (arr buf)) as Hcb. fold (cap buf) in Hcb.
  cbn [split_loop].
  destruct dst as [| w2 dst].
  - (* the last shard *)
    rewrite zlen_nil in Hs.
    destruct (Z.eqb_spec shardNum (k - 1)); [| lia].
    rewrite reslice_ok by lia. cbn [bind].
    replace ((k - 1 - shardNum) * perShard + last) with last in * by nia.
    rewrite ReadFull_enough by lia.
    cbn [is_err andb].
    rewrite bytes_copy_make by (rewrite zlen_ztake; lia).
    rewrite Write_healthy by assumption.
    cbn [split_loop bind length split_layout feed_all combine map fst snd feed].
    rewrite zlen_ztake. repeat f_equal. lia.
  - (* a shard before the last *)
    rewrite zlen_cons in Hs. pose proof (zlen_nonneg dst) as Hn'.
    destruct (Z.eqb_spec shardNum (k - 1)); [lia |].
    rewrite reslice_ok by lia. cbn [bind].
    assert (Hq : (k - 1 - shardNum) * perShard
                 = perShard + (k - 1 - (shardNum + 1)) * perShard) by ring.
    assert (0 <= (k - 1 - (shardNum + 1)) * perShard) by nia.
    rewrite ReadFull_enough by lia.
    cbn [is_err andb].
    rewrite bytes_copy_make by (rewrite zlen_ztake; lia).
    rewrite Write_healthy by assumption.
    rewrite zlen_ztake.
    replace (perShard - Z.min (Z.max 0 perShard) (zlen (rdata data))) with 0
      by lia.
    rewrite (zeros_nonpos 0), app_nil_r by lia.
    rewrite IH; try assumption; try discriminate.
    + cbn [bind rdata rseek rfail].
      rewrite zdrop_zdrop by lia.
      change (length (Some w :: w2 :: dst)) with (S (S (length dst))).
      change (length (w2 :: dst)) with (S (length dst)).
      cbn [split_layout feed_all combine map fst snd feed].
      replace ((k - 1 - shardNum) * perShard + last)
        with (perShard + ((k - 1 - (shardNum + 1)) * perShard + last)) by ring.
      reflexivity.
    + rewrite zlen_cons. lia.
    + cbn [rdata]. rewrite zlen_zdrop. lia.
Qed.

End SplitMain.

Lemma ReadFull_partial rd l :
  rfail rd = None -> 0 < zlen (rdata rd) < l ->
  ReadFull rd l
  = (rdata rd, Some ErrUnexpectedEOF, mkReader [] (rseek rd) None).
Proof.
  intros Hf Hl. unfold ReadFull.
  destruct (Z.leb_spec l 0); [lia |].
  rewrite ztake_all, zdrop_all by lia.
  destruct (Z.eqb_spec (zlen (rdata rd)) l); [lia |].
  rewrite Hf.
  destruct (Z.eqb_spec (zlen (rdata rd)) 0); [lia | reflexivity].
Qed.

Section SplitShort.

Variables k size perShard last alast : Z.
Variable buf : slice.
Hypothesis HP : 0 <= perShard.
Hypothesis Hlast : 0 < last.
Hypothesis Halast : last <= alast.
Hypothesis HcapP : perShard <= cap buf.
Hypothesis Hcapl : alast <= cap buf.

(** When the payload ends before the last shard's turn, the loop meets
    [io.EOF] with [totalRead < size]. *)
Lemma split_loop_short : forall (dst : list (option Writer)) shardNum data totalRead,
  dst <> [] ->
  shardNum = k - zlen dst ->
  Forall healthy dst ->
  rfail data = None ->
  totalRead + zlen (rdata data) < size ->
  zlen (rdata data) <= (k - 1 - shardNum) * perShard ->
  exists data' dst',
    split_loop k size perShard last alast buf shardNum data totalRead dst
    = Ret (Some ErrShortData, data', dst').
Proof using HP Hlast Halast HcapP Hcapl.
  induction dst as [| w dst IH];
    intros shardNum data totalRead Hne Hs Hh Hf Ht Hd; [congruence |].
  apply Forall_cons_iff in Hh; destruct Hh as [Hw Hh'].
  destruct w as [w |]; [| destruct Hw]. cbn in Hw.
  rewrite zlen_cons in Hs.
  pose proof (zlen_nonneg dst) as Hn.
  pose proof (zlen_nonneg (arr buf)) as Hcb. fold (cap buf) in Hcb.
  pose proof (zlen_nonneg (rdata data)) as Hdn.
  cbn [split_loop].
  destruct dst as [| w2 dst].
  - rewrite zlen_nil in Hs.
    destruct (Z.eqb_spec shardNum (k - 1)); [| lia].
    rewrite reslice_ok by lia. cbn [bind].
    assert (rdata data = []) by (apply zlen_zero_nil; nia).
    rewrite ReadFull_exhausted by (assumption || lia).
    cbn [is_err error_eqb].
    destruct (Z.ltb_spec totalRead size); [eauto | lia].
  - rewrite zlen_cons in Hs. pose proof (zlen_nonneg dst) as Hn'.
    destruct (Z.eqb_spec shardNum (k - 1)); [lia |].
    rewrite reslice_ok by lia. cbn [bind].
    assert (Hq : (k - 1 - shardNum) * perShard
                 = perShard + (k - 1 - (shardNum + 1)) * perShard) by ring.
    assert (0 <= (k - 1 - (shardNum + 1)) * perShard) by nia.
    assert (Hne2 : w2 :: dst <> []) by discriminate.
    assert (Hs2 : shardNum + 1 = k - zlen (w2 :: dst))
      by (rewrite zlen_cons; lia).
    destruct (Z.eq_dec (zlen (rdata data)) 0) as [Hz | Hz].
    + (* nothing left *)
      destruct (Z.eq_dec perShard 0) as [HP0 | HP0].
      * rewrite ReadFull_enough by lia.
        cbn [is_err andb].
        rewrite bytes_copy_make by (rewrite zlen_ztake; lia).
        rewrite Write_healthy by assumption.
        destruct (IH (shardNum + 1)
                    (mkReader (zdrop perShard (rdata data)) (rseek data)
                              (rfail data))
                    (totalRead + zlen (ztake perShard (rdata data)))
                    Hne2 Hs2 Hh' Hf) as (d' & o' & E).
        { cbn [rdata]. rewrite zlen_ztake, zlen_zdrop. lia. }
        { cbn [rdata]. rewrite zlen_zdrop. lia. }
        rewrite E. cbn [bind]. eauto.
      * rewrite ReadFull_exhausted
          by (try apply zlen_zero_nil; assumption || lia).
        cbn [is_err error_eqb].
        destruct (Z.ltb_spec totalRead size); [eauto | lia].
    + destruct (Z.lt_ge_cases (zlen (rdata data)) perShard) as [Hlt | Hge].
      * (* a short read *)
        rewrite ReadFull_partial by (assumption || lia).
        cbn [is_err error_eqb is_some andb negb].
        rewrite bytes_copy_make by lia.
        rewrite Write_healthy by assumption.
        destruct (IH (shardNum + 1) (mkReader [] (rseek data) None)
                    (totalRead + zlen (rdata data)) Hne2 Hs2 Hh' eq_refl)
          as (d' & o' & E).
        { cbn [rdata]. rewrite zlen_nil. lia. }
        { cbn [rdata]. rewrite zlen_nil. lia. }
        rewrite E. cbn [bind]. eauto.
      * (* a full read *)
        rewrite ReadFull_enough by lia.
        cbn [is_err andb].
        rewrite bytes_copy_make by (rewrite zlen_ztake; lia).
        rewrite Write_healthy by assumption.
        destruct (IH (shardNum + 1)
                    (mkReader (zdrop perShard (rdata data)) (rseek data)
                              (rfail data))
                    (totalRead + zlen (ztake perShard (rdata data)))
                    Hne2 Hs2 Hh' Hf) as (d' & o' & E).
        { cbn [rdata]. rewrite zlen_ztake, zlen_zdrop. lia. }
        { cbn [rdata]. rewrite zlen_zdrop. lia. }
        rewrite E. cbn [bind]. eauto.
Qed.

End SplitShort.

Lemma split_sizes_main k size :
  0 < size - split_perShard k size * (k - 1) ->
  split_sizes k size
  = Ret (split_perShard k size, size - split_perShard k size * (k - 1),
         align_if_needed (size - split_perShard k size * (k - 1))).
Proof.
  intros H. unfold split_sizes. fold (split_perShard k size).
  destruct (Z.leb_spec (size - split_perShard k size * (k - 1)) 0); [lia |].
  reflexivity.
Qed.

Lemma split_perShard_nonneg k size : 0 < k -> 0 < size -> 0 <= split_perShard k size.
Proof.
  intros Hk Hs. unfold split_perShard.
  pose proof (align_if_needed_bounds size ltac:(lia)) as [[H1 _] _].
  assert (0 <= Z.quot (align_if_needed size) k)
    by (apply Z.quot_pos; lia).
  pose proof (align_if_needed_bounds _ H) as [[H2 _] _]. lia.
Qed.

Lemma split_layout_length P last alast n : forall D,
  length (split_layout P last alast D n) = n.
Proof.
  induction n as [| [| n] IH]; intros D; try reflexivity.
  change (length (ztake P D :: split_layout P last alast (zdrop P D) (S n))
          = S (S n)).
  cbn [length]. now rewrite IH.
Qed.

Lemma split_layout_nth P last alast n : forall D (i : nat),
  0 <= P ->
  (i <= n)%nat ->
  nth i (split_layout P last alast D (S n)) []
  = if (i <? n)%nat then ztake P (zdrop (Z.of_nat i * P) D)
    else ztake last (zdrop (Z.of_nat n * P) D) ++ zeros (alast - last).
Proof.
  induction n as [| n IH]; intros D i HP Hi.
  - assert (i = O) by lia. subst i.
    cbn [nth split_layout Nat.ltb Nat.leb].
    rewrite zdrop_nonpos by lia. reflexivity.
  - change (split_layout P last alast D (S (S n)))
      with (ztake P D :: split_layout P last alast (zdrop P D) (S n)).
    destruct i as [| i].
    + cbn [nth]. destruct (Nat.ltb_spec 0 (S n)); [| lia].
      rewrite zdrop_nonpos by lia. reflexivity.
    + cbn [nth]. rewrite IH by (assumption || lia).
      rewrite !zdrop_zdrop by lia.
      replace (P + Z.of_nat i * P) with (Z.of_nat (S i) * P) by lia.
      replace (P + Z.of_nat n * P) with (Z.of_nat (S n) * P) by lia.
      destruct (Nat.ltb_spec i n), (Nat.ltb_spec (S i) (S n)); try lia;
        reflexivity.
Qed.

Lemma div_sandwich a b : 0 < b -> b * (a / b) <= a < b * (a / b) + b.
Proof.
  intros. pose proof (Z.div_mod a b ltac:(lia)).
  pose proof (Z.mod_pos_bound a b ltac:(lia)). lia.
Qed.

Lemma div64_unique f c : 64 * c - 63 <= f <= 64 * c -> (f + 63) / 64 = c.
Proof.
  intros. symmetry. apply (Z.div_unique (f + 63) 64 c (f + 63 - 64 * c)); lia.
Qed.

(** For at most 64 data shards the per-shard size of [split] is
    [ceil(size / k)] rounded up to a multiple of 64. *)
Lemma split_perShard_ceil k size :
  0 < size -> 0 < k <= 64 ->
  split_perShard k size = align64 (Z.quot (size + k - 1) k).
Proof.
  intros Hs Hk. unfold split_perShard.
  rewrite (align_if_needed_eq size) by lia.
  pose proof (align64_bounds size ltac:(lia)) as [[Ha _] _].
  rewrite align_if_needed_eq by (apply Z.quot_pos; lia).
  unfold align64 at 1 3.
  assert (Hn1 : 0 <= Z.quot (align64 size) k) by (apply Z.quot_pos; lia).
  assert (Hn2 : 0 <= Z.quot (size + k - 1) k) by (apply Z.quot_pos; lia).
  rewrite !(Z.quot_div_nonneg _ 64) by lia.
  unfold align64 in *.
  rewrite !(Z.quot_div_nonneg _ k) by lia.
  rewrite !(Z.quot_div_nonneg _ 64) by lia.
  set (q := (size + 63) / 64).
  set (f := q * 64 / k).
  set (g := (size + k - 1) / k).
  set (c := (q + k - 1) / k).
  pose proof (div_sandwich (size + 63) 64 ltac:(lia)) as Hq. fold q in Hq.
  pose proof (div_sandwich (q * 64) k ltac:(lia)) as Hf. fold f in Hf.
  pose proof (div_sandwich (size + k - 1) k ltac:(lia)) as Hg. fold g in Hg.
  pose proof (div_sandwich (q + k - 1) k ltac:(lia)) as Hc. fold c in Hc.
  clearbody q f g c. clear Ha Hn1 Hn2.
  rewrite (div64_unique f c), (div64_unique g c); [reflexivity | |].
  - split.
    + destruct (Z.le_gt_cases (64 * c - 63) g) as [| Hx]; [assumption |].
      assert (k * g + k <= k * (64 * c - 64) + k) by nia. nia.
    + destruct (Z.le_gt_cases g (64 * c)) as [| Hx]; [assumption |].
      assert (k * (64 * c + 1) <= k * g) by nia. nia.
  - split.
    + destruct (Z.le_gt_cases (64 * c - 63) f) as [| Hx]; [assumption |].
      assert (k * f + k <= k * (64 * c - 64) + k) by nia. nia.
    + destruct (Z.le_gt_cases f (64 * c)) as [| Hx]; [assumption |].
      assert (k * (64 * c + 1) <= k * f) by nia. nia.
Qed.




(** ** split followed by join *)

(** C1 at a failing input: 65 data shards, one parity shard, a payload
    of 4200 bytes.  [split] computes a per-shard size of 64 (the floor of
    4224/65, rounded up) and fills 64 shards of 64 bytes and a last one
    with the remaining 104 bytes; handed [bytes.Reader]s over these
    shards, [join] takes the [io.MultiReader] path, computes a per-shard
    size of 128 (the ceiling of 4200/65, rounded up), finds
    [4200 - 64*128 <= 0] for the last shard and leaves it out, copies
    4096 bytes and fails with [ShortData].  Over readers that are not
    seekable the buffered path of [join] returns the payload, as does the
    scenario S4 of the specification ((4, 2), 65 bytes). *)
Theorem split_then_join_shortdata :
  split_then_join 65 1 (payload 4200) true
  = Ret (Some ErrShortData, ztake 4096 (payload 4200)) /\
  split_then_join 65 1 (payload 4200) false = Ret (None, payload 4200) /\
  split_then_join 4 2 (payload 65) true = Ret (None, payload 65) /\
  split_then_join 4 2 (payload 65) false = Ret (None, payload 65).
Proof.
  split; [vm_compute; reflexivity |].
  split; [vm_compute; reflexivity |].
  split; vm_compute; reflexivity.
Qed.

(** ** The padding contract *)

Lemma mapM_spec {A B} (f : A -> outcome B) (R : A -> B -> Prop) l :
  (forall a, In a l -> exists b, f a = Ret b /\ R a b) ->
  exists l', mapM f l = Ret l' /\ Forall2 R l l'.
Proof.
  induction l as [| a l IH]; intros H.
  - exists []. split; [reflexivity | constructor].
  - destruct (H a (or_introl eq_refl)) as (b & Eb & Rb).
    destruct IH as (l' & El & Rl); [intros; apply H; now right |].
    exists (b :: l'). cbn [mapM]. rewrite Eb, El. cbn [bind].
    split; [reflexivity | now constructor].
Qed.

Lemma zdrop_ztake {A} n m (l : list A) :
  0 <= n <= m -> zdrop n (ztake m l) = ztake (m - n) (zdrop n l).
Proof.
  intros. unfold zdrop, ztake.
  rewrite firstn_skipn_comm. do 2 f_equal. lia.
Qed.

(** [s = s[:n]] followed by [for j := lo; j < n; j++ { s[j] = 0 }]. *)
Lemma grow_zero s lo n :
  0 <= lo <= n -> n <= cap s ->
  exists s',
    (x <- reslice s n ;; zero_range x lo n) = Ret s' /\
    len s' = n /\ cap s' = cap s /\
    bytes s' = ztake lo (arr s) ++ zeros (n - lo).
Proof.
  intros Hlo Hn. rewrite reslice_ok by lia. cbn [bind].
  unfold zero_range; cbn [len arr].
  destruct (Z.leb_spec n lo).
  - assert (lo = n) by lia. subst lo.
    eexists; split; [reflexivity |]. cbn [len]. split; [reflexivity |].
    split; [reflexivity |].
    unfold bytes; cbn [len arr].
    rewrite Z.sub_diag, (zeros_nonpos 0), app_nil_r by lia. reflexivity.
  - destruct (Z.leb_spec 0 lo); [| lia].
    destruct (Z.leb_spec n n); [| lia]. cbn [andb].
    eexists; split; [reflexivity |]. cbn [len]. split; [reflexivity |].
    unfold cap in *. cbn [arr].
    split.
    + rewrite !zlen_app, zlen_ztake, zlen_zeros, zlen_zdrop. lia.
    + unfold bytes; cbn [len arr].
      rewrite app_assoc.
      rewrite ztake_app_l
        by (rewrite zlen_app, zlen_ztake, zlen_zeros; lia).
      apply ztake_all. rewrite zlen_app, zlen_ztake, zlen_zeros. lia.
Qed.

Lemma bytes_length s : 0 <= len s <= cap s -> zlen (bytes s) = len s.
Proof. unfold bytes, cap. intros. rewrite zlen_ztake. lia. Qed.

Lemma extend_ok chk s n :
  0 <= n <= cap s -> extend chk s n = reslice s n.
Proof.
  intros. unfold extend.
  destruct (Z.ltb_spec (cap s) n); [lia |].
  now rewrite andb_false_r.
Qed.

Lemma bind_extend chk s n (f : slice -> outcome slice) :
  0 <= n <= cap s ->
  (x <- extend chk s n ;; f x) = (x <- reslice s n ;; f x).
Proof. intros. now rewrite extend_ok. Qed.

(** "adjust all shards to one size": the block keeps its first [size]
    bytes and is extended with zeros when it was shorter. *)
Lemma resize_block_spec chk size s :
  0 <= len s <= cap s -> 0 < size <= cap s ->
  exists s',
    resize_block chk size s = Ret s' /\
    len s' = size /\ cap s' = cap s /\
    bytes s' = ztake size (bytes s) ++ zeros (size - Z.min size (len s)).
Proof.
  intros Hl Hs. unfold resize_block.
  destruct (Z.eqb_spec (len s) 0) as [E0 | E0].
  - destruct (grow_zero s 0 size) as (s' & E & L & C & Bt); try lia.
    exists s'. rewrite E. repeat split; try assumption.
    assert (Hb : bytes s = [])
      by (unfold bytes; rewrite E0; apply ztake_nonpos; lia).
    rewrite Bt, Hb, E0. rewrite (ztake_nonpos 0) by lia.
    replace (ztake size (@nil Z)) with (@nil Z)
      by (unfold ztake; now rewrite firstn_nil).
    cbn [app]. f_equal. lia.
  - destruct (Z.ltb_spec (len s) size) as [Hlt | Hge].
    + rewrite bind_extend by lia.
      destruct (grow_zero s (len s) size) as (s' & E & L & C & Bt); try lia.
      exists s'. rewrite E. repeat split; try assumption.
      rewrite Bt. fold (bytes s).
      rewrite ztake_all by (rewrite bytes_length; lia).
      f_equal. f_equal. lia.
    + destruct (Z.gtb_spec (len s) size) as [Hgt | Hle].
      * rewrite reslice_ok by lia.
        eexists; split; [reflexivity |]. cbn [len]. repeat split.
        unfold bytes; cbn [len arr]. rewrite ztake_ztake.
        rewrite Z.min_l by lia.
        rewrite (zeros_nonpos _) by lia. now rewrite app_nil_r.
      * assert (len s = size) by lia.
        exists s. repeat split; try assumption.
        rewrite ztake_all by (rewrite bytes_length; lia).
        rewrite (zeros_nonpos _) by lia. now rewrite app_nil_r.
Qed.

(** The padding loops: a block of [size] bytes gets zeros up to
    [alignedSize]. *)
Lemma pad_block_spec size alignedSize s :
  len s = size -> 0 < size <= alignedSize -> alignedSize <= cap s ->
  exists s',
    pad_block size alignedSize s = Ret s' /\
    pad_block_readInputs size alignedSize s = Ret s' /\
    len s' = alignedSize /\ cap s' = cap s /\
    bytes s' = bytes s ++ zeros (alignedSize - size).
Proof.
  intros Hl Hs Hc. unfold pad_block, pad_block_readInputs.
  destruct (Z.gtb_spec (len s) 0); [| lia].
  destruct (Z.eqb_spec (len s) size); [| lia].
  rewrite bind_extend by lia.
  destruct (grow_zero s size alignedSize) as (s' & E & L & C & Bt); try lia.
  exists s'. rewrite E. repeat split; try assumption.
  rewrite Bt. unfold bytes. now rewrite Hl.
Qed.

Lemma mapM_Forall2 {C A B} (f : A -> outcome B)
    (P : C -> A -> Prop) (Q : C -> B -> Prop) cs l :
  Forall2 P cs l ->
  (forall c a, P c a -> exists b, f a = Ret b /\ Q c b) ->
  exists l', mapM f l = Ret l' /\ Forall2 Q cs l'.
Proof.
  intros H Hf. induction H as [| c a cs l Hca _ IH].
  - exists []. split; [reflexivity | constructor].
  - destruct (Hf c a Hca) as (b & Eb & Qb).
    destruct IH as (l' & El & Ql).
    exists (b :: l'). cbn [mapM]. rewrite Eb, El. cbn [bind].
    split; [reflexivity | now constructor].
Qed.

Lemma Forall2_map_eq {A B C} (f : A -> C) (g : B -> C) l1 l2 :
  Forall2 (fun a b => g b = f a) l1 l2 -> map g l2 = map f l1.
Proof. induction 1; cbn; congruence. Qed.

Lemma Forall2_weaken {A B} (P Q : A -> B -> Prop) l1 l2 :
  (forall a b, P a b -> Q a b) -> Forall2 P l1 l2 -> Forall2 Q l1 l2.
Proof. intros H; induction 1; constructor; auto. Qed.

Lemma ReadFull_clean rd l :
  rfail rd = None -> 0 < l ->
  exists e,
    ReadFull rd l
    = (ztake l (rdata rd), e,
       mkReader (zdrop l (rdata rd)) (rseek rd) (rfail rd)) /\
    is_some e && negb (is_err e EOF) && negb (is_err e ErrUnexpectedEOF)
    = false.
Proof.
  intros Hf Hl. unfold ReadFull.
  destruct (Z.leb_spec l 0); [lia |].
  destruct (zlen (ztake l (rdata rd)) =? l).
  - exists None. split; reflexivity.
  - rewrite Hf.
    destruct (zlen (ztake l (rdata rd)) =? 0); eexists; split; reflexivity.
Qed.

Lemma zlen_chunk_of B o : 0 <= zlen (chunk_of B o) <= Z.max 0 B.
Proof.
  destruct o as [rd |]; cbn [chunk_of].
  - pose proof (zlen_ztake B (rdata rd)) as E.
    pose proof (zlen_nonneg (rdata rd)). lia.
  - pose proof (@zlen_nil Z). lia.
Qed.

Lemma read_blocks_ok B readers : forall dst i size,
  0 < B ->
  Forall clean readers ->
  Forall (fun s => B <= cap s) dst ->
  length dst = length readers ->
  exists dst',
    read_blocks B i size readers dst
    = Ret (None, first_size size (map (chunk_of B) readers), dst',
           map (advance B) readers) /\
    Forall2 (block_read B) (map (chunk_of B) readers) dst'.
Proof.
  induction readers as [| rd readers IH]; intros dst i size HB Hc Hcap Hl.
  - destruct dst; [| discriminate]. exists []. split; [reflexivity | constructor].
  - destruct dst as [| s dst]; [discriminate |].
    apply Forall_cons_iff in Hc; destruct Hc as [Hc1 Hc2].
    apply Forall_cons_iff in Hcap; destruct Hcap as [Hs1 Hs2].
    cbn [length] in Hl; injection Hl as Hl.
    pose proof (zlen_nonneg (arr s)) as Hn. fold (cap s) in Hn.
    cbn [read_blocks map].
    destruct rd as [rd |].
    + cbn in Hc1.
      rewrite reslice_ok by lia. cbn [bind].
      destruct (ReadFull_clean rd B Hc1 HB) as (e & -> & ->).
      set (got := ztake B (rdata rd)).
      assert (Hg : 0 <= zlen got <= B)
        by (unfold got; rewrite zlen_ztake; pose proof (zlen_nonneg (rdata rd)); lia).
      assert (Hcs : cap (store s got) = cap s).
      { unfold store, cap; cbn [arr].
        rewrite zlen_app, zlen_zdrop. unfold cap in *. lia. }
      rewrite reslice_ok by lia. cbn [bind].
      destruct (IH dst (i + 1)
                  (if (size =? -1) && (zlen got >? 0) then zlen got else size)
                  HB Hc2 Hs2 Hl) as (dst' & E & F).
      rewrite E. cbn [bind].
      eexists; split; [reflexivity |].
      constructor; [| exact F].
      cbn [chunk_of]. fold got. unfold block_read. cbn [len].
      split; [reflexivity |]. split; [| split; [lia |]].
      * unfold bytes; cbn [len arr store].
        rewrite ztake_app_l by lia. apply ztake_all; lia.
      * unfold cap in *; cbn [arr]. exact (eq_ind_r (fun z => B <= z) Hs1 Hcs).
    + rewrite reslice_ok by lia. cbn [bind].
      destruct (IH dst (i + 1) size HB Hc2 Hs2 Hl) as (dst' & E & F).
      cbn [chunk_of first_size]. change (zlen (@nil Z)) with 0.
      change (0 >? 0) with false. rewrite andb_false_r.
      rewrite E. cbn [bind].
      eexists; split; [reflexivity |].
      constructor; [| exact F].
      unfold block_read. cbn [len arr]. change (zlen (@nil Z)) with 0.
      split; [reflexivity |]. split; [| split; [lia | exact Hs1]].
      unfold bytes; cbn [len arr]. apply ztake_nonpos; lia.
Qed.

Lemma first_size_bound B chunks : forall size,
  Forall (fun c => zlen c <= B) chunks ->
  first_size size chunks = size \/
  (size = -1 /\ 0 < first_size size chunks <= B).
Proof.
  induction chunks as [| c chunks IH]; intros size H; [now left |].
  apply Forall_cons_iff in H; destruct H as [H1 H2].
  cbn [first_size].
  destruct (Z.eqb_spec size (-1)) as [-> | Hne]; cbn [andb].
  - destruct (Z.gtb_spec (zlen c) 0) as [Hp | Hp].
    + destruct (IH (zlen c) H2) as [-> | [E _]]; [right; lia | lia].
    + apply IH; assumption.
  - destruct (IH size H2) as [E | [E _]]; [now left | contradiction].
Qed.

Lemma zlen_block s c : 0 <= s -> zlen (block s c) = align64 s.
Proof.
  intros. unfold block. pose proof (align64_bounds s H) as [[? ?] _].
  pose proof (zlen_nonneg c).
  rewrite zlen_app, zlen_ztake, zlen_zeros. lia.
Qed.

Lemma Write_reslice w s n :
  wfail w = None -> 0 <= n <= cap s ->
  exists p,
    reslice s n = Ret p /\ bytes p = ztake n (arr s) /\
    Write w (bytes p)
    = (n, None, mkWriter (wdata w ++ ztake n (arr s)) None).
Proof.
  intros Hw Hn. rewrite reslice_ok by assumption.
  eexists; split; [reflexivity |].
  unfold bytes; cbn [len arr]. split; [reflexivity |].
  rewrite Write_healthy by assumption.
  rewrite zlen_ztake. unfold cap in Hn.
  replace (Z.min (Z.max 0 n) (zlen (arr s))) with n by lia. reflexivity.
Qed.

Lemma writeOutputs_loop_ok A writers : forall src i,
  0 <= A ->
  Forall willing writers ->
  Forall (fun b => A <= cap b) src ->
  length src = length writers ->
  writeOutputs_loop A i writers src
  = Ret (None, feed_all writers (map (fun b => ztake A (arr b)) src)).
Proof.
  induction writers as [| w writers IH]; intros src i HA Hw Hc Hl.
  - destruct src; [reflexivity | discriminate].
  - destruct src as [| b src]; [discriminate |].
    apply Forall_cons_iff in Hw; destruct Hw as [Hw1 Hw2].
    apply Forall_cons_iff in Hc; destruct Hc as [Hc1 Hc2].
    cbn [length] in Hl; injection Hl as Hl.
    cbn [writeOutputs_loop tl].
    destruct w as [w |].
    + destruct (Write_reslice w b A Hw1 ltac:(lia)) as (p & Ep & _ & Ew).
      rewrite Ep. cbn [bind]. rewrite Ew, Z.eqb_refl. cbn [negb].
      rewrite IH by assumption. reflexivity.
    + rewrite IH by assumption. reflexivity.
Qed.

Lemma recon_write_ok k s writers : forall all i,
  0 <= s ->
  Forall willing writers ->
  Forall (fun b => align64 s <= cap b) all ->
  length all = length writers ->
  recon_write k s (align64 s) i writers all
  = Ret (None, feed_all writers (recon_chunks k s i all)).
Proof.
  induction writers as [| w writers IH]; intros all i Hs Hw Hc Hl.
  - destruct all; [reflexivity | discriminate].
  - destruct all as [| b all]; [discriminate |].
    apply Forall_cons_iff in Hw; destruct Hw as [Hw1 Hw2].
    apply Forall_cons_iff in Hc; destruct Hc as [Hc1 Hc2].
    cbn [length] in Hl; injection Hl as Hl.
    pose proof (align64_bounds s Hs) as [[Ha _] _].
    cbn [recon_write tl recon_chunks].
    destruct w as [w |].
    + assert (Hn : 0 <= (if i >=? k then align64 s else s) <= cap b)
        by (destruct (i >=? k); lia).
      destruct (Write_reslice w b _ Hw1 Hn) as (p & Ep & _ & Ew).
      rewrite Ep. cbn [bind]. rewrite Ew, Z.eqb_refl. cbn [negb].
      rewrite IH by assumption. reflexivity.
    + rewrite IH by assumption. reflexivity.
Qed.

Lemma data_write_ok s writers : forall all i,
  0 <= s ->
  Forall willing writers ->
  Forall (fun b => s <= cap b) all ->
  length all = length writers ->
  data_write s i writers all
  = Ret (None, feed_all writers (map (fun b => ztake s (arr b)) all)).
Proof.
  induction writers as [| w writers IH]; intros all i Hs Hw Hc Hl.
  - destruct all; [reflexivity | discriminate].
  - destruct all as [| b all]; [discriminate |].
    apply Forall_cons_iff in Hw; destruct Hw as [Hw1 Hw2].
    apply Forall_cons_iff in Hc; destruct Hc as [Hc1 Hc2].
    cbn [length] in Hl; injection Hl as Hl.
    cbn [data_write tl].
    destruct w as [w |].
    + destruct (Write_reslice w b s Hw1 ltac:(lia)) as (p & Ep & _ & Ew).
      rewrite Ep. cbn [bind]. rewrite Ew, Z.eqb_refl. cbn [negb].
      rewrite IH by assumption. reflexivity.
    + rewrite IH by assumption. reflexivity.
Qed.

Lemma recon_chunks_sizes k s all : forall i j c,
  0 <= s ->
  Forall (fun b => align64 s <= cap b) all ->
  nth_error (recon_chunks k s i all) j = Some c ->
  zlen c = if i + Z.of_nat j <? k then s else align64 s.
Proof.
  induction all as [| b all IH]; intros i j c Hs Hc H.
  - destruct j; discriminate.
  - apply Forall_cons_iff in Hc; destruct Hc as [Hc1 Hc2].
    pose proof (align64_bounds s Hs) as [[Ha _] _].
    destruct j as [| j]; cbn [recon_chunks nth_error] in H.
    + injection H as <-. rewrite zlen_ztake. unfold cap in Hc1.
      replace (i + Z.of_nat 0) with i by lia.
      destruct (Z.geb_spec i k), (Z.ltb_spec i k); lia.
    + rewrite (IH (i + 1) j c Hs Hc2 H).
      replace (i + 1 + Z.of_nat j) with (i + Z.of_nat (S j)) by lia.
      reflexivity.
Qed.

Lemma Forall_ztake_len n (src : list slice) :
  0 <= n -> Forall (fun b => n <= cap b) src ->
  Forall (fun c => zlen c = n) (map (fun b => ztake n (arr b)) src).
Proof.
  intros Hn H. induction H as [| b src Hb _ IH]; cbn [map]; constructor;
    [| exact IH].
  rewrite zlen_ztake. unfold cap in Hb. lia.
Qed.

(** One block through "resize" and "pad": the padding contract. *)
Lemma shape_one B s chk c b :
  0 < s <= B -> align64 s <= B ->
  block_read B c b ->
  exists b1,
    resize_block chk s b = Ret b1 /\ len b1 = s /\ B <= cap b1 /\
    bytes b1 = ztake s c ++ zeros (s - Z.min s (zlen c)) /\
    (Z.rem s 64 = 0 -> bytes b1 = block s c) /\
    exists b2,
      pad_block s (align64 s) b1 = Ret b2 /\
      pad_block_readInputs s (align64 s) b1 = Ret b2 /\
      len b2 = align64 s /\ B <= cap b2 /\ bytes b2 = block s c.
Proof.
  intros Hs Ha (Hl & Hb & Hcb & Hc).
  pose proof (zlen_nonneg c) as Hn.
  pose proof (align64_bounds s ltac:(lia)) as [[Ha1 Ha2] _].
  destruct (resize_block_spec chk s b) as (b1 & E1 & L1 & C1 & B1); try lia.
  exists b1. rewrite Hb, Hl in B1.
  split; [exact E1 |]. split; [exact L1 |]. split; [lia |].
  split; [exact B1 |]. split.
  - intros Hr. rewrite B1. unfold block.
    rewrite align64_fix by lia. reflexivity.
  - destruct (pad_block_spec s (align64 s) b1) as (b2 & E2 & E3 & L2 & C2 & B2);
      try lia.
    exists b2. split; [exact E2 |]. split; [exact E3 |].
    split; [exact L2 |]. split; [lia |].
    rewrite B2, B1. unfold block. rewrite <- app_assoc. f_equal.
    rewrite zeros_app by lia. f_equal. lia.
Qed.

Lemma Forall2_right {A B} (P : A -> B -> Prop) (Q : B -> Prop) l1 l2 :
  (forall a b, P a b -> Q b) -> Forall2 P l1 l2 -> Forall Q l2.
Proof. intros H; induction 1; constructor; eauto. Qed.

Lemma shape_all B s chk chunks all1 :
  0 < s <= B -> align64 s <= B ->
  Forall2 (block_read B) chunks all1 ->
  exists all2 blocks,
    mapM (resize_block chk s) all1 = Ret all2 /\
    (if Z.rem s 64 =? 0 then blocks = all2
     else mapM (pad_block s (align64 s)) all2 = Ret blocks /\
          mapM (pad_block_readInputs s (align64 s)) all2 = Ret blocks) /\
    Forall2 (block_padded s) chunks blocks.
Proof.
  intros Hs Ha F.
  destruct (mapM_Forall2 (resize_block chk s) (block_read B)
              (block_sized B s) chunks all1 F) as (all2 & E2 & F2).
  { intros c b Hcb.
    destruct (shape_one B s chk c b Hs Ha Hcb)
      as (b1 & E & L & C & _ & Hr & b2 & P1 & P2 & L2 & C2 & B2).
    exists b1. split; [exact E |]. unfold block_sized. eauto 10. }
  exists all2.
  destruct (Z.eqb_spec (Z.rem s 64) 0) as [Hr | Hr].
  - exists all2. split; [exact E2 |]. split; [reflexivity |].
    eapply Forall2_weaken; [| exact F2].
    intros c b (L & C & Hb & _). split; [| split; [now apply Hb | lia]].
    rewrite align64_fix by lia. exact L.
  - destruct (mapM_Forall2 (pad_block s (align64 s)) (block_sized B s)
                (block_padded s) chunks all2 F2) as (blocks & E3 & F3).
    { intros c b (_ & _ & _ & b2 & P1 & _ & L2 & C2 & B2).
      exists b2. split; [exact P1 | split; [| split]]; try assumption. lia. }
    destruct (mapM_Forall2 (pad_block_readInputs s (align64 s))
                (block_sized B s)
                (fun c b' => pad_block s (align64 s) b' = pad_block s (align64 s) b')
                chunks all2 F2) as (blocks' & E4 & _).
    { intros c b (_ & _ & _ & b2 & _ & P2 & _). eauto. }
    assert (blocks' = blocks).
    { clear - E3 E4 F2. revert blocks blocks' E3 E4.
      induction F2 as [| c b cs bs (_ & _ & _ & b2 & P1 & P2 & _) _ IH];
        intros blocks blocks' E3 E4; cbn [mapM] in E3, E4.
      - congruence.
      - rewrite P1 in E3. rewrite P2 in E4. cbn [bind] in E3, E4.
        destruct (mapM (pad_block s (align64 s)) bs) as [x | |];
          [| discriminate | discriminate].
        destruct (mapM (pad_block_readInputs s (align64 s)) bs) as [y | |];
          [| discriminate | discriminate].
        cbn [bind] in E3, E4.
        injection E3 as <-. injection E4 as <-.
        f_equal. exact (IH x y eq_refl eq_refl). }
    subst blocks'.
    exists blocks. split; [exact E2 |]. split; [split; assumption |].
    exact F3.
Qed.

Lemma align64_le_block B s :
  0 < B -> Z.rem B 64 = 0 -> 0 <= s <= B -> align64 s <= B.
Proof.
  intros. unfold align64. Z.to_euclidean_division_equations. lia.
Qed.

(** One round of a stream operation.  Let every block buffer hold at
    least [B = blockSize] bytes, let no stream fail, and let [s] be the
    size the round fixes -- the length of the first read that delivers any
    byte, which is the first non-absent stream's read when that stream has
    data.  Then [s <= B], and with [s_padded] the next multiple of 64:
    - [readInputs] (for [encode]) and the inlined read-resize-pad of
      [verify] and [reconstruct] succeed, advance every stream by what it
      delivered, and leave every block as [block s c]: the bytes [c] read
      from its stream cut to [s] when longer, zero-extended to [s] when
      shorter (or absent), then zero-padded to [s_padded];
    - [writeOutputs] writes exactly [s_padded] bytes to every parity
      writer, the output loop of [reconstruct] exactly [s] bytes to every
      writer of a data slot and [s_padded] bytes to every writer of a
      parity slot, and the output loop of [reconstructData] exactly [s]
      bytes. *)
Lemma round_parts :
  forall (r : rsStreamFF8) (readers : list (option Reader))
         (all : list slice),
    let B := blockSize r in
    let chunks := map (chunk_of B) readers in
    let s := first_size (-1) chunks in
    let s_padded := align64 s in
    0 < B -> Z.rem B 64 = 0 ->
    Forall clean readers ->
    Forall (fun b => B <= cap b) all ->
    length all = length readers ->
    0 < s ->
    (s <= B /\ s <= s_padded < s + 64 /\ Z.rem s_padded 64 = 0 /\
     s_padded <= B /\ Forall (fun c => zlen (block s c) = s_padded) chunks) /\
    (exists blocks,
       readInputs r all readers
       = Ret (s, None, blocks, map (advance B) readers) /\
       map bytes blocks = map (block s) chunks /\
       Forall (fun b => len b = s_padded /\ s_padded <= cap b) blocks) /\
    (exists all1 blocks,
       read_blocks B 0 (-1) readers all
       = Ret (None, s, all1, map (advance B) readers) /\
       shape_blocks s all1 = Ret (s_padded, blocks) /\
       map bytes blocks = map (block s) chunks /\
       Forall (fun b => len b = s_padded /\ s_padded <= cap b) blocks) /\
    (forall (writers : list (option Writer)) (src : list slice),
       Forall willing writers ->
       Forall (fun b => s_padded <= cap b) src ->
       length src = length writers ->
       writeOutputs r writers src s
       = Ret (None, feed_all writers
                      (map (fun b => ztake s_padded (arr b)) src)) /\
       recon_write (dataShards r) s s_padded 0 writers src
       = Ret (None, feed_all writers (recon_chunks (dataShards r) s 0 src)) /\
       data_write s 0 writers src
       = Ret (None, feed_all writers (map (fun b => ztake s (arr b)) src)) /\
       Forall (fun c => zlen c = s_padded)
              (map (fun b => ztake s_padded (arr b)) src) /\
       Forall (fun c => zlen c = s)
              (map (fun b => ztake s (arr b)) src) /\
       (forall (j : nat) c,
          nth_error (recon_chunks (dataShards r) s 0 src) j = Some c ->
          zlen c = if Z.of_nat j <? dataShards r then s else s_padded)).
Proof.
  intros r readers all B chunks s s_padded HB HBr Hclean Hcap Hlen Hs.
  assert (Hch : Forall (fun c => zlen c <= B) chunks).
  { unfold chunks. apply Forall_forall. intros c Hc.
    apply in_map_iff in Hc. destruct Hc as (o & <- & _).
    pose proof (zlen_chunk_of B o). lia. }
  assert (HsB : s <= B).
  { destruct (first_size_bound B chunks (-1) Hch) as [E | [_ E]];
      fold s in E; lia. }
  pose proof (align64_bounds s ltac:(lia)) as [Hsp Hspr].
  fold s_padded in Hsp, Hspr.
  assert (HspB : s_padded <= B) by (apply align64_le_block; lia).
  destruct (read_blocks_ok B readers all 0 (-1) HB Hclean Hcap Hlen)
    as (all1 & Er & Fr).
  fold chunks in Er, Fr. fold s in Er.
  split; [| split; [| split]].
  - repeat split; try lia.
    apply Forall_forall. intros c _. apply zlen_block. lia.
  - destruct (shape_all B s false chunks all1 ltac:(lia) HspB Fr)
      as (all2 & blocks & E2 & E3 & F3).
    exists blocks. split; [| split].
    + unfold readInputs. fold B. rewrite Er. cbn [bind].
      destruct (Z.eqb_spec s (-1)); [lia |].
      rewrite E2. cbn [bind].
      destruct (Z.rem s 64 =? 0); cbn [negb].
      * subst blocks. reflexivity.
      * destruct E3 as [_ ->]. reflexivity.
    + apply Forall2_map_eq. eapply Forall2_weaken; [| exact F3].
      intros c b (_ & Hb & _). exact Hb.
    + eapply Forall2_right; [| exact F3]. intros c b (Hl & _ & Hc).
      split; assumption.
  - destruct (shape_all B s true chunks all1 ltac:(lia) HspB Fr)
      as (all2 & blocks & E2 & E3 & F3).
    exists all1, blocks. split; [exact Er |]. split; [| split].
    + unfold shape_blocks. rewrite E2. cbn [bind].
      destruct (Z.eqb_spec (Z.rem s 64) 0) as [Hr | Hr]; cbn [negb].
      * subst blocks. unfold s_padded. rewrite align64_fix by lia. reflexivity.
      * destruct E3 as [-> _]. reflexivity.
    + apply Forall2_map_eq. eapply Forall2_weaken; [| exact F3].
      intros c b (_ & Hb & _). exact Hb.
    + eapply Forall2_right; [| exact F3]. intros c b (Hl & _ & Hc).
      split; assumption.
  - intros writers src Hw Hc Hl.
    split; [| split; [| split; [| split; [| split]]]].
    + unfold writeOutputs. apply writeOutputs_loop_ok; try assumption.
      fold s_padded. lia.
    + apply recon_write_ok; try assumption. lia.
    + apply data_write_ok; try assumption; [lia |].
      eapply Forall_impl; [| exact Hc]. cbn. intros; lia.
    + apply Forall_ztake_len; [lia | assumption].
    + apply Forall_ztake_len; [lia |].
      eapply Forall_impl; [| exact Hc]. cbn. intros; lia.
    + intros j c Hj.
      rewrite (recon_chunks_sizes (dataShards r) s src 0 j c); try assumption;
        [reflexivity | lia].
Qed.

Lemma skip_missing_Forall2 (body : slice -> outcome slice)
    (P Q : bool * list Z -> slice -> Prop) mcs all :
  Forall2 P mcs all ->
  (forall mc a, P mc a ->
     exists b, (if fst mc then Ret a else body a) = Ret b /\ Q mc b) ->
  exists l', skip_missing body (map fst mcs) all = Ret l' /\ Forall2 Q mcs l'.
Proof.
  intros H Hf. induction H as [| mc a mcs all Hca _ IH].
  - exists []. split; [reflexivity | constructor].
  - destruct (Hf mc a Hca) as (b & Eb & Qb).
    destruct IH as (l' & El & Ql).
    exists (b :: l'). cbn [skip_missing map]. rewrite Eb, El. cbn [bind].
    split; [reflexivity | now constructor].
Qed.

Lemma clear_missing_id sp (mcs : list (bool * list Z)) all :
  Forall2 (fun mc b => fst mc = true -> len b = 0 /\ sp <= cap b) mcs all ->
  clear_missing sp (map fst mcs) all = Ret all.
Proof.
  induction 1 as [| mc b mcs all Hb _ IH]; [reflexivity |].
  cbn [clear_missing map].
  destruct (fst mc) eqn:Em.
  - destruct (Hb eq_refl) as [Hl Hc].
    destruct (Z.ltb_spec (cap b) sp); [lia |].
    pose proof (zlen_nonneg (arr b)). fold (cap b) in H0.
    rewrite reslice_ok by lia. cbn [bind]. rewrite IH. cbn [bind].
    destruct b; cbn in *; subst; reflexivity.
  - cbn [bind]. rewrite IH. reflexivity.
Qed.

Lemma zip_missing B missing : forall readers all1,
  Forall2 (fun (m : bool) rd => m = true -> rd = @None Reader) missing readers ->
  Forall2 (block_read B) (map (chunk_of B) readers) all1 ->
  Forall2 (gap_read B) (combine missing (map (chunk_of B) readers)) all1 /\
  map fst (combine missing (map (chunk_of B) readers)) = missing.
Proof.
  induction missing as [| m missing IH]; intros readers all1 Hm Hr.
  - inversion Hm; subst. cbn [map] in Hr. inversion Hr; subst.
    split; [constructor | reflexivity].
  - destruct readers as [| rd readers]; [inversion Hm |].
    apply Forall2_cons_iff in Hm. destruct Hm as [Hrd Hm].
    cbn [map] in Hr. destruct all1 as [| b all1]; [inversion Hr |].
    apply Forall2_cons_iff in Hr. destruct Hr as [Hb Hr].
    destruct (IH readers all1 Hm Hr) as [F E].
    cbn [combine map fst]. split; [| now rewrite E].
    constructor; [| exact F].
    split; [exact Hb |]. cbn [fst snd]. intros Ht.
    rewrite (Hrd Ht). reflexivity.
Qed.

(** The read-resize-pad of [reconstructData]. *)
Lemma shape_gaps B s mcs all1 :
  0 < s <= B -> align64 s <= B ->
  Forall2 (gap_read B) mcs all1 ->
  exists all2 blocks,
    skip_missing (resize_block true s) (map fst mcs) all1 = Ret all2 /\
    (if negb (Z.rem s 64 =? 0)
     then (all <- skip_missing (pad_block s (align64 s)) (map fst mcs) all2 ;;
           Ret (align64 s, all))
     else Ret (s, all2)) = Ret (align64 s, blocks) /\
    clear_missing (align64 s) (map fst mcs) blocks = Ret blocks /\
    Forall2 (gap_padded s) mcs blocks.
Proof.
  intros Hs Ha F.
  destruct (skip_missing_Forall2 (resize_block true s) (gap_read B)
              (gap_sized B s) mcs all1 F) as (all2 & E2 & F2).
  { intros [m c] b [Hcb Hm]. unfold gap_sized. cbn [fst snd] in *.
    destruct m.
    - exists b. split; [reflexivity |].
      destruct Hcb as (Hl & _ & _ & Hc). rewrite (Hm eq_refl) in Hl.
      split; [exact Hl | exact Hc].
    - destruct (shape_one B s true c b Hs Ha Hcb)
        as (b1 & E & L & C & _ & Hr & b2 & P1 & P2 & L2 & C2 & B2).
      exists b1. split; [exact E |]. unfold block_sized. eauto 10. }
  exists all2.
  assert (Hclear : forall blocks, Forall2 (gap_padded s) mcs blocks ->
                     clear_missing (align64 s) (map fst mcs) blocks
                     = Ret blocks).
  { intros blocks Fb. apply clear_missing_id.
    eapply Forall2_weaken; [| exact Fb].
    intros mc b Hg Hm. unfold gap_padded in Hg. rewrite Hm in Hg. exact Hg. }
  destruct (Z.eqb_spec (Z.rem s 64) 0) as [Hr | Hr]; cbn [negb].
  - assert (Fb : Forall2 (gap_padded s) mcs all2).
    { eapply Forall2_weaken; [| exact F2].
      intros mc b Hg. unfold gap_sized, gap_padded in *.
      destruct (fst mc).
      - destruct Hg; split; [assumption | lia].
      - destruct Hg as (L & C & Hb & _).
        split; [| split; [now apply Hb | lia]].
        rewrite align64_fix by lia. exact L. }
    exists all2. split; [exact E2 |].
    split; [now rewrite align64_fix by lia |].
    split; [now apply Hclear | exact Fb].
  - destruct (skip_missing_Forall2 (pad_block s (align64 s)) (gap_sized B s)
                (gap_padded s) mcs all2 F2) as (blocks & E3 & F3).
    { intros mc b Hg. unfold gap_sized, gap_padded in *.
      destruct (fst mc).
      - exists b. split; [reflexivity |]. destruct Hg; split; [assumption | lia].
      - destruct Hg as (_ & _ & _ & b2 & P1 & _ & L2 & C2 & B2).
        exists b2. split; [exact P1 |]. split; [| split]; try assumption. lia. }
    exists blocks. split; [exact E2 |]. rewrite E3. cbn [bind].
    split; [reflexivity |]. split; [now apply Hclear | exact F3].
Qed.

Lemma gap_padded_bytes s (mcs : list (bool * list Z)) blocks :
  Forall2 (gap_padded s) mcs blocks ->
  map bytes blocks = map (gap_or_block s) mcs /\
  Forall2 (fun (mc : bool * list Z) b =>
             len b = if fst mc then 0 else align64 s) mcs blocks.
Proof.
  induction 1 as [| mc b mcs blocks Hb _ [IH1 IH2]].
  - split; [reflexivity | constructor].
  - cbn [map]. unfold gap_padded, gap_or_block in *.
    destruct (fst mc) eqn:Em.
    + destruct Hb as [Hl Hc]. split.
      * f_equal; [| exact IH1]. unfold bytes. rewrite Hl.
        apply ztake_nonpos. lia.
      * constructor; [rewrite Em; exact Hl | exact IH2].
    + destruct Hb as (Hl & Hby & _). split.
      * f_equal; assumption.
      * constructor; [rewrite Em; exact Hl | exact IH2].
Qed.

Lemma mapM_app {A B} (f : A -> outcome B) l1 l2 :
  mapM f (l1 ++ l2)
  = (x <- mapM f l1 ;; y <- mapM f l2 ;; Ret (x ++ y)).
Proof.
  induction l1 as [| a l1 IH]; cbn [mapM app bind].
  - destruct (mapM f l2); reflexivity.
  - destruct (f a); cbn [bind]; try reflexivity.
    rewrite IH. destruct (mapM f l1); cbn [bind]; try reflexivity.
    destruct (mapM f l2); reflexivity.
Qed.

Lemma mapM_id {A} (f : A -> outcome A) l :
  Forall (fun a => f a = Ret a) l -> mapM f l = Ret l.
Proof.
  induction 1 as [| a l Ha _ IH]; [reflexivity |].
  cbn [mapM]. rewrite Ha, IH. reflexivity.
Qed.

Lemma encode_align_padded sp b :
  0 <= sp -> len b = sp -> sp <= cap b -> encode_align sp b = Ret b.
Proof.
  intros Hs Hl Hc. unfold encode_align.
  destruct (Z.ltb_spec (len b) sp); [lia |].
  rewrite reslice_ok by lia. destruct b; cbn in *; subst; reflexivity.
Qed.

Lemma encode_align_len sp b :
  0 <= sp -> 0 <= len b <= cap b ->
  exists b', encode_align sp b = Ret b' /\ len b' = sp.
Proof.
  intros Hs Hl. unfold encode_align.
  destruct (Z.ltb_spec (len b) sp).
  - rewrite reslice_ok.
    + eexists; split; [reflexivity | reflexivity].
    + unfold copy, make, cap; cbn [arr len].
      rewrite zlen_app, zlen_ztake, zlen_zdrop, zlen_zeros.
      pose proof (zlen_nonneg (bytes b)). lia.
  - rewrite reslice_ok by lia.
    eexists; split; [reflexivity | reflexivity].
Qed.

Lemma even_block_padded sp b : len b = sp -> even_block sp b = Ret b.
Proof.
  intros Hl. unfold even_block. rewrite Hl, Z.eqb_refl. reflexivity.
Qed.

Lemma upto_ok {A} k (l : list A) : 0 <= k <= zlen l -> upto k l = Ret (ztake k l).
Proof.
  intros. unfold upto.
  destruct (Z.leb_spec 0 k), (Z.leb_spec k (zlen l)); try lia. reflexivity.
Qed.

Lemma length_zlen {A B} (l1 : list A) (l2 : list B) :
  zlen l1 = zlen l2 -> length l1 = length l2.
Proof. unfold zlen; lia. Qed.



(** * Further properties of the code *)

(** ** encoder.go *)

Lemma shardSize_zero shards :
  shardSize shards = 0 <-> Forall (fun s => len s = 0) shards.
Proof.
  induction shards as [| s shards IH]; cbn [shardSize].
  - split; [constructor | reflexivity].
  - destruct (Z.eqb_spec (len s) 0) as [E | E]; cbn [negb].
    + rewrite IH. split.
      * intros H. constructor; assumption.
      * intros H. apply Forall_cons_iff in H. tauto.
    + split; [intros H; contradiction |].
      intros H. apply Forall_cons_iff in H. tauto.
Qed.

Lemma checkShards_loop_ok size nilok shards :
  checkShards_loop size nilok shards = None <->
  Forall (fun s => len s = size \/ (len s = 0 /\ nilok = true)) shards.
Proof.
  induction shards as [| s shards IH]; cbn [checkShards_loop].
  - split; [constructor | reflexivity].
  - destruct (Z.eqb_spec (len s) size) as [E | E]; cbn [negb andb].
    + rewrite IH. split.
      * intros H. constructor; [left; exact E | exact H].
      * intros H. apply Forall_cons_iff in H. tauto.
    + destruct (Z.eqb_spec (len s) 0) as [E0 | E0], nilok; cbn [negb orb].
      * rewrite IH. split.
        -- intros H. constructor; [right; split; [exact E0 | reflexivity] | exact H].
        -- intros H. apply Forall_cons_iff in H. tauto.
      * split; [discriminate |].
        intros H. apply Forall_cons_iff in H.
        destruct H as [[H | [_ H]] _]; [contradiction | discriminate].
      * split; [discriminate |].
        intros H. apply Forall_cons_iff in H.
        destruct H as [[H | [H _]] _]; contradiction.
      * split; [discriminate |].
        intros H. apply Forall_cons_iff in H.
        destruct H as [[H | [H _]] _]; contradiction.
Qed.

Lemma checkShards_loop_err size nilok shards e :
  checkShards_loop size nilok shards = Some e -> e = ErrShardSize.
Proof.
  induction shards as [| s shards IH]; cbn [checkShards_loop].
  - discriminate.
  - destruct (negb (len s =? size) && (negb (len s =? 0) || negb nilok)).
    + congruence.
    + exact IH.
Qed.

(** X1: [shardSize] returns the length of the first shard that is not
    empty, and [0] exactly when every shard is empty (or there is none). *)
Theorem shardSize_first_nonempty :
  forall shards : list slice,
    (shardSize shards = 0 <-> Forall (fun s => len s = 0) shards) /\
    (shardSize shards <> 0 ->
       exists pre s post,
         shards = pre ++ s :: post /\
         Forall (fun s => len s = 0) pre /\
         len s = shardSize shards).
Proof.
  intros shards. split; [apply shardSize_zero |].
  induction shards as [| s shards IH]; cbn [shardSize].
  - intros H; contradiction.
  - destruct (Z.eqb_spec (len s) 0) as [E | E]; cbn [negb].
    + intros H. destruct (IH H) as (pre & s0 & post & -> & Hp & Hl).
      exists (s :: pre), s0, post. split; [reflexivity |].
      split; [constructor; assumption | exact Hl].
    + intros _. exists [], s, shards. split; [reflexivity |].
      split; [constructor | reflexivity].
Qed.

Lemma checkShards_None shards nilok :
  checkShards shards nilok = None <->
  shardSize shards <> 0 /\
  Forall (fun s => len s = shardSize shards
                   \/ (len s = 0 /\ nilok = true)) shards.
Proof.
  unfold checkShards. cbv zeta.
  destruct (Z.eqb_spec (shardSize shards) 0) as [E | E].
  - split; [discriminate | tauto].
  - rewrite checkShards_loop_ok. tauto.
Qed.

Lemma checkShards_NoData shards nilok :
  checkShards shards nilok = Some ErrShardNoData <->
  Forall (fun s => len s = 0) shards.
Proof.
  unfold checkShards. cbv zeta.
  destruct (Z.eqb_spec (shardSize shards) 0) as [E | E].
  - split; [intros _; apply shardSize_zero; exact E | reflexivity].
  - split.
    + intros H. apply checkShards_loop_err in H. discriminate.
    + intros H. apply shardSize_zero in H. contradiction.
Qed.

(** X2: [checkShards] accepts exactly the shard arrays that hold a
    non-empty shard and whose shards all have the length of the first
    non-empty one -- or are empty, when [nilok] is set.  It answers
    [ErrShardNoData] exactly when every shard is empty, and
    [ErrShardSize] in every other case. *)
Theorem checkShards_accepts :
  forall (shards : list slice) (nilok : bool),
    (checkShards shards nilok = None <->
       shardSize shards <> 0 /\
       Forall (fun s => len s = shardSize shards
                        \/ (len s = 0 /\ nilok = true)) shards) /\
    (checkShards shards nilok = Some ErrShardNoData <->
       Forall (fun s => len s = 0) shards) /\
    (forall e, checkShards shards nilok = Some e ->
       e = ErrShardNoData \/ e = ErrShardSize).
Proof.
  intros shards nilok.
  split; [apply checkShards_None |]. split; [apply checkShards_NoData |].
  intros e. unfold checkShards. cbv zeta.
  destruct (Z.eqb_spec (shardSize shards) 0) as [E | E].
  - intros H. left. congruence.
  - intros H. right. eapply checkShards_loop_err; exact H.
Qed.

Lemma hasData_of_Exists shards :
  hasData_of shards = true <-> Exists (fun s => s <> None) shards.
Proof.
  induction shards as [| s shards IH]; cbn [hasData_of].
  - split; [discriminate | intros H; inversion H].
  - destruct s as [rd |].
    + split; [| reflexivity]. intros _. left. discriminate.
    + rewrite IH. split.
      * intros H. right. exact H.
      * intros H. apply Exists_cons in H. destruct H as [H | H];
          [contradiction | exact H].
Qed.

(** X3: [checkStreamShards] answers [ErrEmptyShards] exactly for the
    empty array, [ErrShardNoData] exactly for a non-empty array of nil
    streams, and [nil] exactly when some stream is present. *)
Theorem checkStreamShards_cases :
  forall shards : list (option Reader),
    (checkStreamShards shards = Some ErrEmptyShards <-> shards = []) /\
    (checkStreamShards shards = Some ErrShardNoData <->
       shards <> [] /\ Forall (fun s => s = None) shards) /\
    (checkStreamShards shards = None <->
       Exists (fun s => s <> None) shards).
Proof.
  intros shards. unfold checkStreamShards.
  destruct shards as [| s shards].
  - cbn. split; [| split].
    + tauto.
    + split; [discriminate | intros [H _]; contradiction].
    + split; [discriminate | intros H; inversion H].
  - assert (Hz : (zlen (s :: shards) =? 0) = false).
    { apply Z.eqb_neq. unfold zlen. cbn [length]. lia. }
    rewrite Hz.
    pose proof (hasData_of_Exists (s :: shards)) as HE.
    destruct (hasData_of (s :: shards)) eqn:Eh; cbn [negb].
    + assert (Hex : Exists (fun s => s <> None) (s :: shards))
        by (apply HE; reflexivity).
      split; [| split].
      * split; discriminate.
      * split; [discriminate |]. intros [_ Hall].
        apply Exists_exists in Hex. destruct Hex as (x & Hin & Hx).
        rewrite Forall_forall in Hall. elim Hx. auto.
      * tauto.
    + split; [| split].
      * split; discriminate.
      * split; [| reflexivity]. intros _. split; [discriminate |].
        apply Forall_forall. intros x Hin.
        destruct x as [rd |]; [| reflexivity].
        assert (Hex : Exists (fun s => s <> None) (s :: shards)).
        { apply Exists_exists. exists (Some rd). split; [exact Hin | discriminate]. }
        apply HE in Hex. discriminate.
      * split; [discriminate |]. intros H. apply HE in H. discriminate.
Qed.

Lemma isZero_spec p : isZero p = true <-> Forall (fun v => v = 0) p.
Proof.
  induction p as [| v p IH]; cbn [isZero].
  - split; [constructor | reflexivity].
  - destruct (Z.eqb_spec v 0) as [E | E]; cbn [negb].
    + rewrite IH. split.
      * intros H. constructor; assumption.
      * intros H. apply Forall_cons_iff in H. tauto.
    + split; [discriminate |]. intros H. apply Forall_cons_iff in H. tauto.
Qed.

Lemma Forall_repeat {A} (P : A -> Prop) x n : P x -> Forall P (repeat x n).
Proof. intros H. induction n; cbn; constructor; assumption. Qed.

Lemma shardSize_repeat s n :
  (0 < n)%nat -> shardSize (repeat s n) = len s.
Proof.
  intros Hn. destruct n as [| n]; [lia |]. cbn [repeat shardSize].
  destruct (Z.eqb_spec (len s) 0) as [E | E]; cbn [negb]; [| reflexivity].
  rewrite E. apply shardSize_zero. apply Forall_repeat. exact E.
Qed.

(** X4: [createShardsBySize(n, size)] with [n >= 0] and [size >= 0]
    returns [n] shards of [size] bytes that are all zero ([isZero]
    holds of each, and [isZero] holds of a slice exactly when all its
    bytes are [0]).  For [n > 0] and [size > 0] the result passes
    [checkShards]; with [size = 0] it is refused with [ErrShardNoData].
    A negative [n], or a negative [size] with [n > 0], panics. *)
Theorem createShardsBySize_zeroed :
  forall (n size : Z) (nilok : bool),
    (forall p, isZero p = true <-> Forall (fun v => v = 0) p) /\
    (0 <= n -> 0 <= size ->
       exists shards,
         createShardsBySize n size = Ret shards /\
         zlen shards = n /\
         Forall (fun s => len s = size /\ cap s = size
                          /\ isZero (bytes s) = true) shards /\
         (0 < n -> 0 < size -> checkShards shards nilok = None) /\
         (size = 0 -> checkShards shards nilok = Some ErrShardNoData)) /\
    (n < 0 \/ (0 < n /\ size < 0) -> createShardsBySize n size = Panic).
Proof.
  intros n size nilok. split; [exact isZero_spec |]. split.
  - intros Hn Hs. exists (repeat (make size) (Z.to_nat n)).
    assert (Hmk : len (make size) = size /\ cap (make size) = size
                  /\ isZero (bytes (make size)) = true).
    { split; [reflexivity |]. split.
      - unfold cap, make, zeros, zlen. cbn [arr].
        rewrite repeat_length. lia.
      - apply isZero_spec. unfold bytes, make, ztake, zeros. cbn [arr len].
        apply Forall_ztake. apply Forall_repeat. reflexivity. }
    split; [| split; [| split; [| split]]].
    + unfold createShardsBySize.
      destruct (Z.ltb_spec n 0); [lia |].
      destruct (Z.ltb_spec size 0); [lia |].
      rewrite andb_false_r. reflexivity.
    + unfold zlen. rewrite repeat_length. lia.
    + apply Forall_repeat. exact Hmk.
    + intros Hn0 Hs0. apply checkShards_None.
      rewrite shardSize_repeat by lia. cbn [make len].
      split; [lia |]. apply Forall_repeat. left. reflexivity.
    + intros ->. apply checkShards_NoData.
      apply Forall_repeat. reflexivity.
  - intros [Hn | [Hn Hs]]; unfold createShardsBySize.
    + destruct (Z.ltb_spec n 0); [reflexivity | lia].
    + destruct (Z.ltb_spec n 0); [lia |].
      destruct (Z.ltb_spec 0 n); [| lia].
      destruct (Z.ltb_spec size 0); [reflexivity | lia].
Qed.

(** ** streaming8.go: split *)



(** ** streaming8.go: join after split *)

Lemma shard_readers_feed seek n : forall chunks,
  length chunks = n ->
  shard_readers seek (feed_all (buffers n) chunks) = readers_of seek chunks.
Proof.
  induction n as [| n IH]; intros [| c chunks] Hl; try discriminate.
  - reflexivity.
  - cbn [length] in Hl. injection Hl as Hl.
    unfold buffers, feed_all, shard_readers, readers_of in *.
    cbn [repeat combine map fst snd feed option_map newBuffer wdata app].
    f_equal. apply IH. exact Hl.
Qed.

Lemma write_at_nil buffer off : write_at buffer off [] = buffer.
Proof.
  unfold write_at. cbn [app]. change (zlen (@nil Z)) with 0.
  rewrite Z.add_0_r. apply ztake_zdrop.
Qed.

Lemma ztake_add {A} a b (l : list A) :
  0 <= a -> 0 <= b -> ztake (a + b) l = ztake a l ++ ztake b (zdrop a l).
Proof.
  intros Ha Hb. rewrite <- (ztake_zdrop a l) at 1.
  destruct (Z.le_gt_cases (zlen l) a) as [Hle | Hgt].
  - rewrite (zdrop_all a l Hle). rewrite app_nil_r.
    replace (ztake b (@nil A)) with (@nil A)
      by (unfold ztake; now rewrite firstn_nil).
    rewrite app_nil_r. rewrite ztake_ztake.
    rewrite !ztake_all by lia. reflexivity.
  - rewrite ztake_app_r by (rewrite zlen_ztake; lia).
    rewrite zlen_ztake. f_equal. f_equal. lia.
Qed.

Lemma write_at_app buffer off x y :
  0 <= off -> off + zlen x + zlen y <= zlen buffer ->
  write_at (write_at buffer off x) (off + zlen x) y
  = write_at buffer off (x ++ y).
Proof.
  intros Ho Hl. unfold write_at.
  pose proof (zlen_nonneg x) as Hx. pose proof (zlen_nonneg y) as Hy.
  assert (HA : zlen (ztake off buffer) = off) by (rewrite zlen_ztake; lia).
  rewrite (app_assoc (ztake off buffer) x).
  assert (HAx : zlen (ztake off buffer ++ x) = off + zlen x)
    by (rewrite zlen_app; lia).
  rewrite ztake_app_l by lia. rewrite ztake_all by lia.
  rewrite zdrop_app_r by lia. rewrite HAx.
  rewrite zdrop_zdrop by lia.
  rewrite zlen_app. rewrite <- !app_assoc.
  do 3 f_equal. f_equal. lia.
Qed.

Lemma zlen_write_at buffer off x :
  0 <= off -> off + zlen x <= zlen buffer ->
  zlen (write_at buffer off x) = zlen buffer.
Proof.
  intros Ho Hl. unfold write_at. pose proof (zlen_nonneg x).
  rewrite !zlen_app, zlen_ztake, zlen_zdrop. lia.
Qed.

Lemma write_at_whole x : write_at (zeros (zlen x)) 0 x = x.
Proof.
  unfold write_at. rewrite ztake_nonpos by lia.
  rewrite zdrop_all by (rewrite zlen_zeros; pose proof (zlen_nonneg x); lia).
  cbn [app]. apply app_nil_r.
Qed.

(** The layout [split] produces, read back shard by shard. *)
Section JoinLayout.

Variables (seek : bool) (P last alast outSize : Z).
Hypothesis HP : 0 <= P.
Hypothesis Hlast : 0 < last.

Lemma Read_chunk c l :
  zlen c <= l ->
  exists e shard',
    Read (mkReader c seek None) l = (c, e, shard') /\
    (is_some e && negb (is_err e EOF) = false).
Proof.
  intros Hl. unfold Read. cbn [rdata rend rfail rseek].
  destruct c as [| b c].
  - exists (Some EOF), (mkReader [] seek None). split; reflexivity.
  - exists None, (mkReader (zdrop l (b :: c)) seek None).
    rewrite ztake_all by exact Hl. split; reflexivity.
Qed.

Lemma join_small_layout : forall n D buffer tw,
  Z.of_nat n * P + last <= zlen D ->
  outSize - tw = Z.of_nat n * P + last ->
  0 <= tw -> zlen buffer = outSize ->
  exists shards',
    join_small_loop outSize buffer tw
      (readers_of seek (split_layout P last alast D (S n)))
    = (None, write_at buffer tw (ztake (Z.of_nat n * P + last) D), outSize,
       shards').
Proof.
  induction n as [| n IH]; intros D buffer tw HD Ho Htw Hb.
  - cbn [split_layout readers_of map join_small_loop].
    replace (Z.of_nat 0 * P + last) with last in * by lia.
    destruct (Z.leb_spec (outSize - tw) 0); [lia |].
    unfold Read. cbn [rdata rend rfail rseek].
    assert (Hc : zlen (ztake last D) = last) by (rewrite zlen_ztake; lia).
    destruct (ztake last D ++ zeros (alast - last)) as [| b c] eqn:Ec.
    { apply (f_equal zlen) in Ec. rewrite zlen_app in Ec.
      change (zlen (@nil Z)) with 0 in Ec.
      pose proof (zlen_nonneg (zeros (alast - last))). lia. }
    rewrite <- Ec. rewrite Ho.
    rewrite ztake_app_l by lia.
    rewrite (ztake_all last (ztake last D)) by lia.
    cbn [is_some andb]. rewrite Hc.
    destruct (Z.geb_spec (tw + last) outSize); [| lia].
    eexists. replace (tw + last) with outSize by lia. reflexivity.
  - change (split_layout P last alast D (S (S n)))
      with (ztake P D :: split_layout P last alast (zdrop P D) (S n)).
    cbn [readers_of map]. fold (readers_of seek).
    cbn [join_small_loop].
    assert (HSn : Z.of_nat (S n) * P + last = P + (Z.of_nat n * P + last))
      by lia.
    assert (Hnn : 0 <= Z.of_nat n * P) by (apply Z.mul_nonneg_nonneg; lia).
    destruct (Z.leb_spec (outSize - tw) 0); [lia |].
    assert (Hc : zlen (ztake P D) = P) by (rewrite zlen_ztake; lia).
    destruct (Read_chunk (ztake P D) (outSize - tw) ltac:(lia))
      as (e & shard' & ER & He).
    rewrite ER, He, Hc.
    destruct (Z.geb_spec (tw + P) outSize); [lia |].
    destruct (IH (zdrop P D) (write_at buffer tw (ztake P D)) (tw + P))
      as (shards' & E).
    + rewrite zlen_zdrop. lia.
    + lia.
    + lia.
    + rewrite zlen_write_at; lia.
    + unfold readers_of in E. rewrite E. eexists.
      assert (Hw : write_at (write_at buffer tw (ztake P D)) (tw + P)
                     (ztake (Z.of_nat n * P + last) (zdrop P D))
                   = write_at buffer tw (ztake (Z.of_nat (S n) * P + last) D)).
      { replace (tw + P) with (tw + zlen (ztake P D)) by lia.
        rewrite write_at_app.
        - rewrite HSn.
          rewrite (ztake_add P (Z.of_nat n * P + last) D) by lia.
          reflexivity.
        - lia.
        - rewrite Hc, zlen_ztake, zlen_zdrop. lia. }
      rewrite Hw. reflexivity.
Qed.

Lemma ReadFull_chunk c l :
  0 < l -> zlen c <= l ->
  exists e shard',
    ReadFull (mkReader c seek None) l = (c, e, shard') /\
    (is_some e && negb (is_err e EOF) && negb (is_err e ErrUnexpectedEOF)
     = false).
Proof.
  intros Hl Hc. unfold ReadFull. cbn [rdata rfail rseek].
  destruct (Z.leb_spec l 0); [lia |].
  rewrite (ztake_all l c) by exact Hc.
  destruct (zlen c =? l).
  - eexists _, _. split; reflexivity.
  - destruct (zlen c =? 0); eexists _, _; split; reflexivity.
Qed.

Lemma join_tiny_layout : forall n D buffer tw,
  Z.of_nat n * P + last <= zlen D ->
  outSize - tw = Z.of_nat n * P + last ->
  0 <= tw -> zlen buffer = outSize ->
  exists shards',
    join_tiny_loop outSize buffer tw
      (readers_of seek (split_layout P last alast D (S n)))
    = (None, write_at buffer tw (ztake (Z.of_nat n * P + last) D), outSize,
       shards').
Proof.
  induction n as [| n IH]; intros D buffer tw HD Ho Htw Hb.
  - cbn [split_layout readers_of map join_tiny_loop].
    replace (Z.of_nat 0 * P + last) with last in * by lia.
    assert (Hc : zlen (ztake last D) = last) by (rewrite zlen_ztake; lia).
    rewrite Ho. rewrite ReadFull_enough.
    2:{ cbn [rdata]. rewrite zlen_app, Hc.
        pose proof (zlen_nonneg (zeros (alast - last))). lia. }
    cbn [rdata rseek rfail is_some andb].
    rewrite ztake_app_l by lia.
    rewrite (ztake_all last (ztake last D)) by lia.
    rewrite Hc.
    destruct (Z.geb_spec (tw + last) outSize); [| lia].
    eexists. replace (tw + last) with outSize by lia. reflexivity.
  - change (split_layout P last alast D (S (S n)))
      with (ztake P D :: split_layout P last alast (zdrop P D) (S n)).
    cbn [readers_of map]. cbn [join_tiny_loop].
    assert (HSn : Z.of_nat (S n) * P + last = P + (Z.of_nat n * P + last))
      by lia.
    assert (Hnn : 0 <= Z.of_nat n * P) by (apply Z.mul_nonneg_nonneg; lia).
    assert (Hc : zlen (ztake P D) = P) by (rewrite zlen_ztake; lia).
    destruct (ReadFull_chunk (ztake P D) (outSize - tw) ltac:(lia) ltac:(lia))
      as (e & shard' & ER & He).
    rewrite ER, He, Hc.
    destruct (Z.geb_spec (tw + P) outSize); [lia |].
    destruct (IH (zdrop P D) (write_at buffer tw (ztake P D)) (tw + P))
      as (shards' & E).
    + rewrite zlen_zdrop. lia.
    + lia.
    + lia.
    + rewrite zlen_write_at; lia.
    + unfold readers_of in E. rewrite E. eexists.
      assert (Hw : write_at (write_at buffer tw (ztake P D)) (tw + P)
                     (ztake (Z.of_nat n * P + last) (zdrop P D))
                   = write_at buffer tw (ztake (Z.of_nat (S n) * P + last) D)).
      { replace (tw + P) with (tw + zlen (ztake P D)) by lia.
        rewrite write_at_app.
        - rewrite HSn.
          rewrite (ztake_add P (Z.of_nat n * P + last) D) by lia.
          reflexivity.
        - lia.
        - rewrite Hc, zlen_ztake, zlen_zdrop. lia. }
      rewrite Hw. reflexivity.
Qed.

End JoinLayout.

Section JoinLayoutCopy.

Variables (seek : bool) (P last alast outSize : Z).
Hypothesis HP : 0 <= P.
Hypothesis Hlast : 0 < last.

Lemma mr_limits_layout N : forall n i (chunks : list (list Z)),
  length chunks = S n ->
  i + Z.of_nat n = N - 1 ->
  outSize - (N - 1) * P = last ->
  mr_limits P outSize N i i (readers_of seek chunks)
  = repeat (Some P) n ++ [Some last].
Proof.
  induction n as [| n IH]; intros i chunks Hl Hi Ho.
  - destruct chunks as [| c [| c' chunks]]; try discriminate.
    cbn [readers_of map mr_limits repeat app].
    destruct (Z.eqb_spec i (N - 1)); [| lia].
    replace (outSize - i * P) with last by (subst i; lia).
    destruct (Z.leb_spec last 0); [lia |]. reflexivity.
  - destruct chunks as [| c chunks]; [discriminate |].
    cbn [length] in Hl. injection Hl as Hl.
    cbn [readers_of map mr_limits repeat app].
    destruct (Z.eqb_spec i (N - 1)); [lia |].
    f_equal. apply IH; [exact Hl | lia | exact Ho].
Qed.

Lemma copy_multi_layout : forall n D dst,
  Z.of_nat n * P + last <= zlen D ->
  wfail dst = None ->
  exists shards' dst',
    copy_multi (Z.of_nat n * P + last)
      (readers_of seek (split_layout P last alast D (S n)))
      (repeat (Some P) n ++ [Some last]) dst
    = (Z.of_nat n * P + last, None, shards', dst') /\
    wdata dst' = wdata dst ++ ztake (Z.of_nat n * P + last) D /\
    wfail dst' = None.
Proof.
  induction n as [| n IH]; intros D dst HD Hw.
  - cbn [split_layout readers_of map repeat app copy_multi].
    replace (Z.of_nat 0 * P + last) with last in * by lia.
    assert (Hc : zlen (ztake last D) = last) by (rewrite zlen_ztake; lia).
    destruct (Z.leb_spec last 0); [lia |].
    rewrite Z.min_id. cbn [rdata rseek rfail].
    rewrite ztake_app_l by lia.
    rewrite (ztake_all last (ztake last D)) by lia.
    rewrite Hc. destruct (Z.eqb_spec last 0); [lia |].
    rewrite Write_healthy by exact Hw.
    replace (last - last) with 0 by lia. cbn [Z.leb].
    eexists _, _. split; [reflexivity |]. split; reflexivity.
  - change (split_layout P last alast D (S (S n)))
      with (ztake P D :: split_layout P last alast (zdrop P D) (S n)).
    cbn [readers_of map repeat app copy_multi].
    assert (HSn : Z.of_nat (S n) * P + last = P + (Z.of_nat n * P + last))
      by lia.
    assert (Hnn : 0 <= Z.of_nat n * P) by (apply Z.mul_nonneg_nonneg; lia).
    assert (Hc : zlen (ztake P D) = P) by (rewrite zlen_ztake; lia).
    destruct (Z.leb_spec (Z.of_nat (S n) * P + last) 0); [lia |].
    rewrite (Z.min_r _ P) by lia. cbn [rdata rseek rfail].
    rewrite (ztake_all P (ztake P D)) by lia. rewrite Hc.
    cbn [is_some andb]. rewrite andb_false_r.
    replace (Z.of_nat (S n) * P + last - P)
      with (Z.of_nat n * P + last) by lia.
    destruct (Z.leb_spec (Z.of_nat n * P + last) 0); [lia |].
    destruct (Z.eqb_spec P 0) as [HP0 | HP0].
    + destruct (IH (zdrop P D) dst) as (shards' & dst' & E & E1 & E2).
      { rewrite zlen_zdrop. lia. }
      { exact Hw. }
      unfold readers_of in E. rewrite E.
      eexists _, _. split; [f_equal; f_equal; f_equal; lia |].
      split; [| exact E2]. rewrite E1. f_equal.
      rewrite HSn. rewrite (ztake_add P (Z.of_nat n * P + last) D) by lia.
      rewrite (ztake_nonpos P D) by lia. reflexivity.
    + rewrite Write_healthy by exact Hw.
      destruct (IH (zdrop P D) (mkWriter (wdata dst ++ ztake P D) None))
        as (shards' & dst' & E & E1 & E2).
      { rewrite zlen_zdrop. lia. }
      { reflexivity. }
      unfold readers_of in E. rewrite E.
      eexists _, _. split; [f_equal; f_equal; f_equal; lia |].
      split; [| exact E2]. rewrite E1. cbn [wdata].
      rewrite <- app_assoc. f_equal.
      rewrite HSn. rewrite (ztake_add P (Z.of_nat n * P + last) D) by lia.
      reflexivity.
Qed.

End JoinLayoutCopy.

Section JoinLayoutBuffered.

Variables (seek : bool) (outSize E : Z).

Lemma buffered_shard_all : forall fuel d sbr tw dst,
  (length d < fuel)%nat ->
  wfail dst = None ->
  tw + zlen d < outSize ->
  sbr + zlen d <= E ->
  exists shard' dst',
    buffered_shard_loop fuel outSize E (mkReader d seek None) sbr tw dst
    = Ret (None, shard', tw + zlen d, dst') /\
    wdata dst' = wdata dst ++ d /\ wfail dst' = None.
Proof.
  induction fuel as [| fuel IH]; intros d sbr tw dst Hf Hw Htw Hs; [lia |].
  pose proof (zlen_nonneg d) as Hd.
  cbn [buffered_shard_loop].
  destruct (Z.ltb_spec tw outSize); [| lia].
  destruct (Z.ltb_spec sbr E) as [HsE | HsE]; cbn [andb negb].
  2:{ assert (d = []) by (apply zlen_zero_nil; lia). subst d.
      eexists _, _. split; [| split; [symmetry; apply app_nil_r | exact Hw]].
      change (zlen (@nil Z)) with 0. rewrite Z.add_0_r. reflexivity. }
  set (t0 := Z.min bufSize (E - sbr)).
  assert (Ht0 : 0 < t0) by (unfold t0, bufSize; lia).
  set (t := if tw + t0 >? outSize then outSize - tw else t0).
  assert (Ht : 0 < t) by (unfold t; destruct (tw + t0 >? outSize); lia).
  destruct (Z.eqb_spec t 0); [lia |].
  unfold Read. cbn [rdata rend rfail rseek].
  destruct d as [| b d].
  - cbn [zlen length Z.of_nat Z.leb orb].
    eexists _, _. split; [| split; [symmetry; apply app_nil_r | exact Hw]].
    rewrite Z.add_0_r. reflexivity.
  - set (d0 := b :: d) in *.
    assert (Hg : 0 < zlen (ztake t d0) <= zlen d0).
    { rewrite zlen_ztake. unfold d0 at 1. rewrite zlen_cons.
      pose proof (zlen_nonneg d). lia. }
    destruct (Z.leb_spec (zlen (ztake t d0)) 0); [lia |].
    cbn [is_err orb is_some andb].
    rewrite Write_healthy by exact Hw.
    rewrite Z.eqb_refl. cbn [negb].
    destruct (Z.geb_spec (tw + zlen (ztake t d0)) outSize); [lia |].
    assert (Hsplit : zlen (ztake t d0) + zlen (zdrop t d0) = zlen d0).
    { rewrite <- zlen_app, ztake_zdrop. reflexivity. }
    destruct (IH (zdrop t d0) (sbr + zlen (ztake t d0))
                (tw + zlen (ztake t d0))
                (mkWriter (wdata dst ++ ztake t d0) None))
      as (shard' & dst' & Eq & E1 & E2).
    + unfold zlen in Hsplit, Hg. cbn [length] in Hf. unfold d0 in *.
      cbn [length] in *. lia.
    + reflexivity.
    + lia.
    + lia.
    + rewrite Eq. eexists _, _. split; [| split; [| exact E2]].
      * do 3 f_equal. lia.
      * rewrite E1. cbn [wdata]. rewrite <- app_assoc.
        rewrite ztake_zdrop. reflexivity.
Qed.

Lemma buffered_last_all : forall fuel d tw dst,
  (length d < fuel)%nat ->
  wfail dst = None ->
  tw <= outSize -> outSize - tw <= zlen d ->
  exists shard' dst',
    buffered_last_loop fuel outSize (mkReader d seek None) tw dst
    = Ret (None, shard', outSize, dst') /\
    wdata dst' = wdata dst ++ ztake (outSize - tw) d /\ wfail dst' = None.
Proof.
  induction fuel as [| fuel IH]; intros d tw dst Hf Hw Htw Hd; [lia |].
  cbn [buffered_last_loop].
  destruct (Z.ltb_spec tw outSize) as [Hlt | Hge]; cbn [negb].
  2:{ eexists _, _. split; [| split; [| exact Hw]].
      - replace tw with outSize by lia. reflexivity.
      - rewrite ztake_nonpos by lia. symmetry. apply app_nil_r. }
  set (t := Z.min bufSize (outSize - tw)).
  assert (Ht : 0 < t <= outSize - tw) by (unfold t, bufSize; lia).
  unfold Read. cbn [rdata rend rfail rseek].
  destruct d as [| b d].
  { change (zlen (@nil Z)) with 0 in Hd. lia. }
  set (d0 := b :: d) in *.
  assert (Hg : zlen (ztake t d0) = t) by (rewrite zlen_ztake; lia).
  rewrite Hg.
  destruct (Z.leb_spec t 0); [lia |].
  cbn [is_err orb is_some andb].
  rewrite Write_healthy by exact Hw.
  rewrite Hg, Z.eqb_refl. cbn [negb].
  assert (Hsplit : zlen (ztake t d0) + zlen (zdrop t d0) = zlen d0).
  { rewrite <- zlen_app, ztake_zdrop. reflexivity. }
  destruct (IH (zdrop t d0) (tw + t)
              (mkWriter (wdata dst ++ ztake t d0) None))
    as (shard' & dst' & Eq & E1 & E2).
  - unfold zlen in Hsplit, Hg. unfold d0 in *. cbn [length] in *. lia.
  - reflexivity.
  - lia.
  - lia.
  - rewrite Eq. eexists _, _. split; [reflexivity |]. split; [| exact E2].
    rewrite E1. cbn [wdata]. rewrite <- app_assoc. f_equal.
    replace (outSize - tw) with (t + (outSize - (tw + t))) by lia.
    rewrite ztake_add by lia.
    replace (t + (outSize - (tw + t)) - (tw + t) + tw)
      with (outSize - (tw + t)) by lia.
    reflexivity.
Qed.

End JoinLayoutBuffered.

Section JoinLayoutLoop.

Variables (seek : bool) (P last alast outSize E N : Z).
Hypothesis HP : 0 <= P.
Hypothesis Hlast : 0 < last.
Hypothesis HPE : P <= E.

Lemma buffered_loop_layout : forall n D i li tw dst,
  i + Z.of_nat n = N - 1 ->
  Z.of_nat n * P + last <= zlen D ->
  outSize - tw = Z.of_nat n * P + last ->
  wfail dst = None ->
  exists shards' dst',
    buffered_loop outSize E N i li tw dst
      (readers_of seek (split_layout P last alast D (S n)))
    = Ret (None,
           shards' ++ [Some (mkReader
                               (ztake last (zdrop (Z.of_nat n * P) D)
                                  ++ zeros (alast - last)) seek None)],
           tw + Z.of_nat n * P, dst', N - 1) /\
    length shards' = n /\
    wdata dst' = wdata dst ++ ztake (Z.of_nat n * P) D /\
    wfail dst' = None.
Proof.
  induction n as [| n IH]; intros D i li tw dst Hi HD Ho Hw.
  - cbn [split_layout readers_of map buffered_loop].
    replace (Z.of_nat 0 * P) with 0 in * by lia.
    destruct (Z.eqb_spec i (N - 1)); [| lia].
    destruct (Z.ltb_spec tw outSize); [| lia].
    cbn [andb bind]. exists [], dst.
    rewrite (zdrop_nonpos 0 D) by lia. rewrite (ztake_nonpos 0 D) by lia.
    rewrite Z.add_0_r, app_nil_r. subst i.
    split; [reflexivity |]. split; [reflexivity |]. split; [reflexivity | exact Hw].
  - change (split_layout P last alast D (S (S n)))
      with (ztake P D :: split_layout P last alast (zdrop P D) (S n)).
    cbn [readers_of map buffered_loop].
    assert (Hnn : 0 <= Z.of_nat n * P) by (apply Z.mul_nonneg_nonneg; lia).
    assert (Hc : zlen (ztake P D) = P) by (rewrite zlen_ztake; lia).
    destruct (Z.eqb_spec i (N - 1)); [lia |]. cbn [andb].
    destruct (buffered_shard_all seek outSize E
                (shard_fuel (mkReader (ztake P D) seek None))
                (ztake P D) 0 tw dst)
      as (shard' & dst1 & Eq & E1 & E2).
    + unfold shard_fuel. cbn [rdata]. lia.
    + exact Hw.
    + lia.
    + lia.
    + rewrite Eq. cbn [bind]. rewrite Hc.
      destruct (IH (zdrop P D) (i + 1) i (tw + P) dst1)
        as (shards' & dst' & Eq2 & L & D1 & D2).
      * lia.
      * rewrite zlen_zdrop. lia.
      * lia.
      * exact E2.
      * unfold readers_of in Eq2. rewrite Eq2. cbn [bind].
        exists (Some shard' :: shards'), dst'.
        split; [| split; [cbn [length]; now rewrite L | split; [| exact D2]]].
        -- cbn [app]. rewrite zdrop_zdrop by lia.
           replace (P + Z.of_nat n * P) with (Z.of_nat (S n) * P) by lia.
           replace (tw + P + Z.of_nat n * P)
             with (tw + Z.of_nat (S n) * P) by lia.
           reflexivity.
        -- rewrite D1, E1. rewrite <- app_assoc. f_equal.
           replace (Z.of_nat (S n) * P) with (P + Z.of_nat n * P) by lia.
           rewrite ztake_add by lia. reflexivity.
Qed.

End JoinLayoutLoop.

Lemma nth_error_snoc {A} (l : list A) (x : A) :
  nth_error (l ++ [x]) (length l) = Some x.
Proof. induction l as [| a l IH]; [reflexivity | exact IH]. Qed.

Lemma set_nth_snoc {A} (l : list A) (x y : A) :
  set_nth (length l) y (l ++ [x]) = l ++ [y].
Proof.
  induction l as [| a l IH]; [reflexivity |].
  cbn [length app set_nth]. now rewrite IH.
Qed.

Lemma align64_mono x y : 0 <= x <= y -> align64 x <= align64 y.
Proof.
  intros H. unfold align64.
  apply Z.mul_le_mono_nonneg_r; [lia |].
  apply Z.quot_le_mono; lia.
Qed.

(** The per-shard size of [split] never exceeds the one [join]
    computes; the two agree for at most 64 data shards. *)
Lemma split_perShard_le_join k size :
  0 < k -> 0 < size ->
  split_perShard k size <= join_perShard k size /\
  (k <= 64 -> split_perShard k size = join_perShard k size).
Proof.
  intros Hk Hs.
  assert (Hq : 0 <= Z.quot (size + k - 1) k) by (apply Z.quot_pos; lia).
  unfold join_perShard. rewrite (align_if_needed_eq _ Hq).
  assert (Heq : k <= 64 ->
                split_perShard k size = align64 (Z.quot (size + k - 1) k)).
  { intros Hk64. apply split_perShard_ceil; lia. }
  split; [| exact Heq].
  destruct (Z.le_gt_cases k 64) as [Hk64 | Hk64]; [rewrite Heq; lia |].
  unfold split_perShard.
  pose proof (align_if_needed_bounds size ltac:(lia)) as [Ha _].
  rewrite (align_if_needed_eq (Z.quot (align_if_needed size) k))
    by (apply Z.quot_pos; lia).
  apply align64_mono. split; [apply Z.quot_pos; lia |].
  apply Z.quot_le_mono; lia.
Qed.

Lemma count_some_readers_of seek chunks :
  count_some (readers_of seek chunks) = zlen chunks.
Proof.
  unfold count_some, readers_of, zlen.
  induction chunks as [| c chunks IH]; [reflexivity |].
  cbn [map filter is_some length]. lia.
Qed.

Lemma allSeekable_readers_of seek chunks :
  chunks <> [] -> allSeekable (readers_of seek chunks) = seek.
Proof.
  unfold allSeekable, readers_of.
  induction chunks as [| c chunks IH]; [congruence |]. intros _.
  cbn [map forallb rseek]. destruct chunks as [| c' chunks].
  - cbn. apply andb_true_r.
  - rewrite IH by discriminate. apply andb_diag.
Qed.

Lemma zlen_readers_of seek chunks : zlen (readers_of seek chunks) = zlen chunks.
Proof. unfold readers_of. apply zlen_map. Qed.

Lemma writer_eta w d :
  wdata w = d -> wfail w = None -> w = mkWriter d None.
Proof. destruct w; cbn; intros; subst; reflexivity. Qed.

(** Every path of [join] reads the layout of [split] back in order. *)
Lemma join_layout (r : rsStreamFF8) seek (n : nat) D size P last alast :
  dataShards r = Z.of_nat (S n) ->
  0 <= P -> 0 < last ->
  size = Z.of_nat n * P + last ->
  size <= zlen D ->
  P <= join_perShard (dataShards r) size ->
  (seek = true -> 1000 <= size <= smallFileThreshold ->
   P = join_perShard (dataShards r) size) ->
  exists shards',
    join r (Some newBuffer)
      (readers_of seek (split_layout P last alast D (S n))) size
    = Ret (None, Some (mkWriter (ztake size D) None), shards').
Proof.
  intros Hk HP Hlast Hsize HD HPj Heq.
  assert (Hnn : 0 <= Z.of_nat n * P) by (apply Z.mul_nonneg_nonneg; lia).
  set (chunks := split_layout P last alast D (S n)).
  assert (Hlen : zlen chunks = dataShards r).
  { unfold zlen, chunks. rewrite split_layout_length. lia. }
  assert (Hne : chunks <> []).
  { intros Hc. rewrite Hc in Hlen. change (zlen (@nil (list Z))) with 0 in Hlen.
    lia. }
  assert (Htk : zlen (ztake size D) = size) by (rewrite zlen_ztake; lia).
  unfold join. rewrite zlen_readers_of, Hlen.
  destruct (Z.eqb_spec (dataShards r) 0); [lia |].
  destruct (Z.leb_spec size 0); [lia |].
  destruct (Z.leb_spec size (dataShards r)) as [Htiny | Hbig].
  { (* at most one byte per shard *)
    destruct (join_tiny_layout seek P last alast size HP Hlast n D
                (zeros size) 0) as (shards' & E); try lia.
    { rewrite zlen_zeros. lia. }
    fold chunks in E. rewrite E.
    destruct (Z.ltb_spec size size); [lia |].
    rewrite <- Hsize.
    replace (zeros size) with (zeros (zlen (ztake size D)))
      by (now rewrite Htk).
    rewrite write_at_whole.
    eexists. reflexivity. }
  assert (Hpre : (if dataShards r =? dataShards r + parityShards r
                  then if (0 <=? dataShards r)
                          && (dataShards r <=? dataShards r)
                       then Ret (ztake (dataShards r) (readers_of seek chunks),
                                 zdrop (dataShards r) (readers_of seek chunks))
                       else Panic
                  else Ret (readers_of seek chunks, []))
                 = Ret (readers_of seek chunks, [])).
  { destruct (dataShards r =? dataShards r + parityShards r); [| reflexivity].
    destruct (Z.leb_spec 0 (dataShards r)); [| lia].
    rewrite Z.leb_refl. cbn [andb].
    rewrite ztake_all by (rewrite zlen_readers_of; lia).
    rewrite zdrop_all by (rewrite zlen_readers_of; lia). reflexivity. }
  rewrite Hpre. cbn [bind].
  rewrite count_some_readers_of, Hlen.
  rewrite Z.ltb_irrefl.
  destruct (Z.eqb_spec (dataShards r) 0); [lia |].
  destruct (Z.ltb_spec size 1000) as [Hsmall | Hlarge].
  { (* one Read per shard *)
    destruct (join_small_layout seek P last alast size HP Hlast n D
                (zeros size) 0) as (shards' & E); try lia.
    { rewrite zlen_zeros. lia. }
    fold chunks in E. rewrite E.
    destruct (Z.ltb_spec size size); [lia |].
    rewrite <- Hsize.
    replace (zeros size) with (zeros (zlen (ztake size D)))
      by (now rewrite Htk).
    rewrite write_at_whole.
    rewrite (ztake_all size (ztake size D)) by lia.
    eexists. reflexivity. }
  rewrite allSeekable_readers_of by exact Hne.
  destruct ((size <=? smallFileThreshold) && seek) eqn:Epath.
  - (* io.MultiReader *)
    apply andb_prop in Epath. destruct Epath as [Ethr ->].
    apply Z.leb_le in Ethr.
    unfold joinWithMultiReader. rewrite zlen_readers_of, Hlen.
    rewrite <- (Heq eq_refl) by lia.
    unfold chunks.
    rewrite (mr_limits_layout true P last size Hlast (dataShards r) n 0)
      by (rewrite ?split_layout_length; lia).
    destruct (copy_multi_layout true P last alast HP Hlast n D newBuffer)
      as (shards' & dst' & E & E1 & E2); [lia | reflexivity |].
    rewrite <- Hsize in E, E1. rewrite E.
    rewrite Z.ltb_irrefl. cbn [is_some andb].
    exists (shards' ++ []).
    rewrite (writer_eta dst' (ztake size D) E1 E2). reflexivity.
  - (* buffered reads *)
    unfold joinWithBufferedReads. rewrite zlen_readers_of, Hlen.
    unfold chunks.
    destruct (buffered_loop_layout seek P last alast size
                (join_perShard (dataShards r) size) (dataShards r)
                HP Hlast HPj n D 0 (-1) 0 newBuffer)
      as (pre & dst1 & E & L & D1 & D2); try lia; [reflexivity |].
    rewrite E. cbn [bind].
    replace (Z.to_nat (dataShards r - 1)) with (length pre) by lia.
    rewrite nth_error_snoc.
    destruct (Z.geb_spec (dataShards r - 1) 0); [| lia].
    destruct (Z.ltb_spec (0 + Z.of_nat n * P) size); [| lia].
    cbn [andb].
    set (lastd := ztake last (zdrop (Z.of_nat n * P) D)
                    ++ zeros (alast - last)).
    destruct (buffered_last_all seek size
                (shard_fuel (mkReader lastd seek None)) lastd
                (0 + Z.of_nat n * P) dst1)
      as (shard' & dst2 & E' & D3 & D4).
    + unfold shard_fuel. cbn [rdata]. lia.
    + exact D2.
    + lia.
    + unfold lastd. rewrite zlen_app, zlen_ztake, zlen_zdrop.
      pose proof (zlen_nonneg (zeros (alast - last))). lia.
    + rewrite E'. cbn [bind]. rewrite Z.ltb_irrefl.
      eexists. rewrite (writer_eta dst2 (ztake size D)); [reflexivity | | exact D4].
      rewrite D3, D1. cbn [newBuffer wdata app].
      replace (size - (0 + Z.of_nat n * P)) with last by lia.
      unfold lastd. rewrite ztake_app_l by (rewrite zlen_ztake, zlen_zdrop; lia).
      rewrite ztake_ztake, Z.min_id.
      rewrite Hsize. rewrite (ztake_add (Z.of_nat n * P) last D) by lia.
      reflexivity.
Qed.

Lemma split_main (r : rsStreamFF8) data dst size :
  0 < dataShards r -> zlen dst = dataShards r -> 0 < size ->
  (dataShards r - 1) * split_perShard (dataShards r) size < size ->
  Forall healthy dst ->
  size <= zlen (rdata data) ->
  split r data dst size
  = Ret (None,
         mkReader (zdrop size (rdata data)) (rseek data) (rfail data),
         feed_all dst
           (split_layout (split_perShard (dataShards r) size)
              (size - (dataShards r - 1) * split_perShard (dataShards r) size)
              (align64 (size - (dataShards r - 1)
                               * split_perShard (dataShards r) size))
              (rdata data) (length dst))).
Proof.
  intros Hk Hl Hs Hm Hh Hd.
  set (k := dataShards r) in *.
  set (perShard := split_perShard k size) in *.
  set (last := size - (k - 1) * perShard).
  set (alast := align64 last).
  pose proof (split_perShard_nonneg k size Hk Hs) as HP. fold perShard in HP.
  assert (Hlast : 0 < last) by (unfold last; lia).
  pose proof (align64_bounds last ltac:(lia)) as [Hab Har].
  fold alast in Hab, Har.
  assert (Hne : dst <> []).
  { intros ->. change (zlen (@nil (option Writer))) with 0 in Hl. lia. }
  assert (Hsz : split_sizes k size = Ret (perShard, last, alast)).
  { rewrite split_sizes_main by (fold perShard; unfold last in Hlast; lia).
    fold perShard. unfold alast, last.
    replace (size - perShard * (k - 1)) with (size - (k - 1) * perShard) by ring.
    rewrite align_if_needed_eq by (fold last; lia). reflexivity. }
  set (maxShardSize := if alast >? perShard then alast else perShard).
  assert (Hmax : perShard <= maxShardSize /\ alast <= maxShardSize).
  { unfold maxShardSize. destruct (Z.gtb_spec alast perShard); lia. }
  assert (Hcap : cap (make maxShardSize) = maxShardSize)
    by (rewrite cap_make; lia).
  unfold split. fold k. rewrite Hl, Z.eqb_refl. cbn [negb].
  destruct (Z.leb_spec size 0); [lia |].
  rewrite Hsz. cbn [bind]. fold maxShardSize.
  destruct (Z.ltb_spec maxShardSize 0); [lia |].
  rewrite (split_loop_main k size perShard last alast (make maxShardSize));
    try lia; try assumption.
  replace ((k - 1 - 0) * perShard + last) with size by (unfold last; ring).
  reflexivity.
Qed.

Lemma Forall_healthy_buffers n : Forall healthy (buffers n).
Proof. apply Forall_repeat. reflexivity. Qed.



(** ** streaming8.go: what join writes *)

Lemma Read_len rd l got e rd' :
  Read rd l = (got, e, rd') -> zlen got <= Z.max 0 l.
Proof.
  unfold Read. destruct (rdata rd) as [| b d].
  - intros H. injection H as <- _ _. change (zlen (@nil Z)) with 0. lia.
  - intros H. injection H as <- _ _. rewrite zlen_ztake. lia.
Qed.

Lemma Read_rest rd l got e rd' :
  Read rd l = (got, e, rd') ->
  (length (rdata rd') + length got <= length (rdata rd))%nat.
Proof.
  unfold Read. destruct (rdata rd) as [| b d] eqn:Ed.
  - intros H. injection H as <- _ <-. rewrite Ed. cbn. lia.
  - intros H. injection H as <- _ <-. cbn [rdata].
    unfold ztake, zdrop. rewrite length_firstn, length_skipn. lia.
Qed.

Lemma ReadFull_len rd l got e rd' :
  ReadFull rd l = (got, e, rd') -> zlen got <= Z.max 0 l.
Proof.
  unfold ReadFull. destruct (l <=? 0).
  - intros H. injection H as <- _ _. change (zlen (@nil Z)) with 0. lia.
  - assert (Hz : zlen (ztake l (rdata rd)) <= Z.max 0 l)
      by (rewrite zlen_ztake; lia).
    destruct (zlen (ztake l (rdata rd)) =? l).
    + intros H. injection H as <- _ _. exact Hz.
    + destruct (rfail rd).
      * intros H. injection H as <- _ _. exact Hz.
      * destruct (zlen (ztake l (rdata rd)) =? 0);
          intros H; injection H as <- _ _; exact Hz.
Qed.

(** A [Write] appends what it reports, and reports all or nothing. *)
Lemma Write_appends w p n e w' :
  Write w p = (n, e, w') ->
  (e = None /\ n = zlen p /\ wdata w' = wdata w ++ p) \/
  (e <> None /\ w' = w).
Proof.
  unfold Write. destruct (wfail w) as [x |].
  - intros H. injection H as _ <- <-. right. split; [discriminate | reflexivity].
  - intros H. injection H as <- <- <-. left. repeat split.
Qed.

Section JoinWrites.

Variable outSize : Z.

Lemma join_tiny_buffer : forall shards buffer tr e b t s',
  join_tiny_loop outSize buffer tr shards = (e, b, t, s') ->
  zlen buffer = outSize -> 0 <= tr < outSize ->
  zlen b = outSize.
Proof.
  induction shards as [| [shard |] shards IH]; intros buffer tr e b t s' H Hb Ht;
    cbn [join_tiny_loop] in H.
  - injection H as _ <- _ _. exact Hb.
  - destruct (ReadFull shard (outSize - tr)) as [[got err] shard'] eqn:ER.
    pose proof (ReadFull_len _ _ _ _ _ ER) as Hg.
    pose proof (zlen_nonneg got) as Hg0.
    destruct (is_some err && negb (is_err err EOF)
              && negb (is_err err ErrUnexpectedEOF)).
    + injection H as _ <- _ _. exact Hb.
    + assert (Hw : zlen (write_at buffer tr got) = outSize)
        by (rewrite zlen_write_at; lia).
      destruct (Z.geb_spec (tr + zlen got) outSize).
      * injection H as _ <- _ _. exact Hw.
      * destruct (join_tiny_loop outSize (write_at buffer tr got)
                    (tr + zlen got) shards) as [[[e1 b1] t1] r1] eqn:EL.
        injection H as _ <- _ _.
        eapply IH; [exact EL | exact Hw | lia].
  - destruct (join_tiny_loop outSize buffer tr shards)
      as [[[e1 b1] t1] r1] eqn:EL.
    injection H as _ <- _ _. eapply IH; [exact EL | exact Hb | exact Ht].
Qed.

Lemma join_small_buffer : forall shards buffer tw e b t s',
  join_small_loop outSize buffer tw shards = (e, b, t, s') ->
  zlen buffer = outSize -> 0 <= tw ->
  zlen b = outSize.
Proof.
  induction shards as [| [shard |] shards IH]; intros buffer tw e b t s' H Hb Ht;
    cbn [join_small_loop] in H.
  - injection H as _ <- _ _. exact Hb.
  - destruct (Z.leb_spec (outSize - tw) 0).
    { injection H as _ <- _ _. exact Hb. }
    destruct (Read shard (outSize - tw)) as [[got err] shard'] eqn:ER.
    pose proof (Read_len _ _ _ _ _ ER) as Hg.
    pose proof (zlen_nonneg got) as Hg0.
    destruct (is_some err && negb (is_err err EOF)).
    + injection H as _ <- _ _. exact Hb.
    + assert (Hw : zlen (write_at buffer tw got) = outSize)
        by (rewrite zlen_write_at; lia).
      destruct (Z.geb_spec (tw + zlen got) outSize).
      * injection H as _ <- _ _. exact Hw.
      * destruct (join_small_loop outSize (write_at buffer tw got)
                    (tw + zlen got) shards) as [[[e1 b1] t1] r1] eqn:EL.
        injection H as _ <- _ _.
        eapply IH; [exact EL | exact Hw | lia].
  - destruct (join_small_loop outSize buffer tw shards)
      as [[[e1 b1] t1] r1] eqn:EL.
    injection H as _ <- _ _. eapply IH; [exact EL | exact Hb | exact Ht].
Qed.

End JoinWrites.

(** [io.CopyN] never copies more than it was asked for, and the
    destination holds what the copy reports. *)
Lemma copy_multi_written : forall shards limits remaining dst w e s' dst',
  copy_multi remaining shards limits dst = (w, e, s', dst') ->
  0 <= w <= Z.max 0 remaining /\
  exists out, wdata dst' = wdata dst ++ out /\ zlen out = w.
Proof.
  induction shards as [| s shards IH]; intros limits remaining dst w e s' dst' H.
  - cbn [copy_multi] in H. injection H as <- _ _ <-.
    split; [lia |]. exists []. split; [symmetry; apply app_nil_r | reflexivity].
  - assert (Hskip : forall lrest,
              (let '(w, e, rest', dst') :=
                 copy_multi remaining shards lrest dst in
               (w, e, s :: rest', dst')) = (w, e, s', dst') ->
              0 <= w <= Z.max 0 remaining /\
              exists out, wdata dst' = wdata dst ++ out /\ zlen out = w).
    { intros lrest H1.
      destruct (copy_multi remaining shards lrest dst)
        as [[[w1 e1] r1] d1] eqn:EL.
      injection H1 as <- _ _ <-. eapply IH; exact EL. }
    assert (Hstop : (0, @None error, s :: shards, dst) = (w, e, s', dst') ->
              0 <= w <= Z.max 0 remaining /\
              exists out, wdata dst' = wdata dst ++ out /\ zlen out = w).
    { intros H1. injection H1 as <- _ _ <-. split; [lia |].
      exists []. split; [symmetry; apply app_nil_r | reflexivity]. }
    cbn [copy_multi] in H.
    destruct s as [shard |]; destruct limits as [| [limit |] lrest];
      try (apply Hstop; exact H); try (eapply Hskip; exact H).
    destruct (Z.leb_spec remaining 0); [apply Hstop; exact H |].
    set (got := ztake (Z.min remaining limit) (rdata shard)) in *.
    assert (Hg : 0 <= zlen got <= remaining).
    { unfold got. rewrite zlen_ztake.
      pose proof (zlen_nonneg (rdata shard)). lia. }
    destruct (if zlen got =? 0 then (0, None, dst) else Write dst got)
      as [[n werr] dst1] eqn:EW.
    assert (HW : (werr = None /\ exists o, wdata dst1 = wdata dst ++ o
                                           /\ zlen o = zlen got)
                 \/ (werr <> None /\ dst1 = dst)).
    { destruct (Z.eqb_spec (zlen got) 0) as [E0 | E0].
      - injection EW as _ <- <-. left. split; [reflexivity |].
        exists []. split; [symmetry; apply app_nil_r | now rewrite E0].
      - apply Write_appends in EW. destruct EW as [(-> & _ & Hd) | [Hn ->]].
        + left. split; [reflexivity |]. exists got. split; [exact Hd | reflexivity].
        + right. split; [exact Hn | reflexivity]. }
    destruct werr as [x |].
    + destruct HW as [[Hx _] | [_ ->]]; [discriminate |].
      injection H as <- _ _ <-. split; [lia |].
      exists []. split; [symmetry; apply app_nil_r | reflexivity].
    + destruct HW as [[_ (o & Ho & Hol)] | [Hx _]]; [| congruence].
      destruct (Z.leb_spec (remaining - zlen got) 0).
      * injection H as <- _ _ <-. split; [lia |].
        exists o. split; [exact Ho | exact Hol].
      * destruct ((zlen got <? limit) && is_some (rfail shard)).
        -- injection H as <- _ _ <-. split; [lia |].
           exists o. split; [exact Ho | exact Hol].
        -- destruct (copy_multi (remaining - zlen got) shards lrest dst1)
             as [[[w1 e1] r1] d1] eqn:EL.
           injection H as <- _ _ <-.
           destruct (IH _ _ _ _ _ _ _ EL) as [Hw1 (o1 & Ho1 & Hol1)].
           split; [lia |]. exists (o ++ o1). split.
           ++ rewrite Ho1, Ho. symmetry. apply app_assoc.
           ++ rewrite zlen_app. lia.
Qed.

Section BufferedWrites.

Variables (outSize E : Z).

(** The inner loop of [joinWithBufferedReads] always comes back, with
    the count it keeps equal to what the destination received since the
    loop began, and never beyond [outSize]. *)
Lemma buffered_shard_writes : forall fuel shard sbr tw dst,
  (length (rdata shard) < fuel)%nat ->
  exists e shard' tw' dst' out,
    buffered_shard_loop fuel outSize E shard sbr tw dst
    = Ret (e, shard', tw', dst') /\
    wdata dst' = wdata dst ++ out /\ zlen out = tw' - tw /\
    tw' <= Z.max tw outSize.
Proof.
  induction fuel as [| fuel IH]; intros shard sbr tw dst Hf; [lia |].
  assert (Hstay : forall (e : option error) (s : Reader),
            exists e0 shard' tw' dst' out,
              Ret (e, s, tw, dst) = Ret (e0, shard', tw', dst') /\
              wdata dst' = wdata dst ++ out /\ zlen out = tw' - tw /\
              tw' <= Z.max tw outSize).
  { intros e s. exists e, s, tw, dst, [].
    split; [reflexivity |]. split; [symmetry; apply app_nil_r |].
    change (zlen (@nil Z)) with 0. lia. }
  cbn [buffered_shard_loop].
  destruct (negb ((sbr <? E) && (tw <? outSize))) eqn:Ec; [apply Hstay |].
  apply negb_false_iff, andb_prop in Ec. destruct Ec as [Ec1 Ec2].
  apply Z.ltb_lt in Ec1, Ec2.
  set (t0 := Z.min bufSize (E - sbr)).
  set (t := if tw + t0 >? outSize then outSize - tw else t0).
  assert (Ht : t <= outSize - tw).
  { unfold t. destruct (Z.gtb_spec (tw + t0) outSize); lia. }
  destruct (t =? 0); [apply Hstay |].
  destruct (Read shard t) as [[got err] shard'] eqn:ER.
  pose proof (Read_len _ _ _ _ _ ER) as Hg.
  pose proof (Read_rest _ _ _ _ _ ER) as Hr.
  destruct (Z.leb_spec (zlen got) 0) as [Hz | Hz]; cbn [orb]; [apply Hstay |].
  destruct (is_err err EOF); [apply Hstay |].
  destruct (is_some err && negb false && negb (is_err err ErrUnexpectedEOF));
    [apply Hstay |].
  destruct (Write dst got) as [[written werr] dst1] eqn:EW.
  apply Write_appends in EW.
  destruct EW as [(-> & -> & Hd) | [Hn ->]].
  - rewrite Z.eqb_refl. cbn [negb].
    destruct (Z.geb_spec (tw + zlen got) outSize).
    + exists None, shard', (tw + zlen got), dst1, got.
      split; [reflexivity |]. split; [exact Hd |]. lia.
    + destruct (IH shard' (sbr + zlen got) (tw + zlen got) dst1)
        as (e & s2 & tw2 & d2 & o2 & Eq & D & L & B).
      { unfold zlen in Hz. lia. }
      rewrite Eq. exists e, s2, tw2, d2, (got ++ o2).
      split; [reflexivity |]. split; [| split].
      * rewrite D, Hd. symmetry. apply app_assoc.
      * rewrite zlen_app. lia.
      * lia.
  - destruct werr as [x |]; [| congruence]. apply Hstay.
Qed.

Lemma buffered_last_writes : forall fuel shard tw dst,
  (length (rdata shard) < fuel)%nat ->
  exists e shard' tw' dst' out,
    buffered_last_loop fuel outSize shard tw dst
    = Ret (e, shard', tw', dst') /\
    wdata dst' = wdata dst ++ out /\ zlen out = tw' - tw /\
    tw' <= Z.max tw outSize.
Proof.
  induction fuel as [| fuel IH]; intros shard tw dst Hf; [lia |].
  assert (Hstay : forall (e : option error) (s : Reader),
            exists e0 shard' tw' dst' out,
              Ret (e, s, tw, dst) = Ret (e0, shard', tw', dst') /\
              wdata dst' = wdata dst ++ out /\ zlen out = tw' - tw /\
              tw' <= Z.max tw outSize).
  { intros e s. exists e, s, tw, dst, [].
    split; [reflexivity |]. split; [symmetry; apply app_nil_r |].
    change (zlen (@nil Z)) with 0. lia. }
  cbn [buffered_last_loop].
  destruct (Z.ltb_spec tw outSize) as [Hlt | Hge]; cbn [negb]; [| apply Hstay].
  set (t := Z.min bufSize (outSize - tw)).
  assert (Ht : t <= outSize - tw) by (unfold t; lia).
  destruct (Read shard t) as [[got err] shard'] eqn:ER.
  pose proof (Read_len _ _ _ _ _ ER) as Hg.
  pose proof (Read_rest _ _ _ _ _ ER) as Hr.
  destruct (Z.leb_spec (zlen got) 0) as [Hz | Hz]; cbn [orb]; [apply Hstay |].
  destruct (is_err err EOF); [apply Hstay |].
  destruct (is_some err && negb false && negb (is_err err ErrUnexpectedEOF));
    [apply Hstay |].
  destruct (Write dst got) as [[written werr] dst1] eqn:EW.
  apply Write_appends in EW.
  destruct EW as [(-> & -> & Hd) | [Hn ->]].
  - rewrite Z.eqb_refl. cbn [negb].
    destruct (IH shard' (tw + zlen got) dst1)
      as (e & s2 & tw2 & d2 & o2 & Eq & D & L & B).
    { unfold zlen in Hz. lia. }
    rewrite Eq. exists e, s2, tw2, d2, (got ++ o2).
    split; [reflexivity |]. split; [| split].
    + rewrite D, Hd. symmetry. apply app_assoc.
    + rewrite zlen_app. lia.
    + lia.
  - destruct werr as [x |]; [| congruence]. apply Hstay.
Qed.

Lemma buffered_loop_writes N : forall shards i li tw dst,
  exists e shards' tw' dst' li' out,
    buffered_loop outSize E N i li tw dst shards
    = Ret (e, shards', tw', dst', li') /\
    wdata dst' = wdata dst ++ out /\ zlen out = tw' - tw /\
    tw' <= Z.max tw outSize.
Proof.
  induction shards as [| [shard |] shards IH]; intros i li tw dst;
    cbn [buffered_loop].
  - exists None, [], tw, dst, li, [].
    split; [reflexivity |]. split; [symmetry; apply app_nil_r |].
    change (zlen (@nil Z)) with 0. lia.
  - destruct ((i =? N - 1) && (tw <? outSize)).
    + destruct (IH (i + 1) i tw dst)
        as (e & s2 & tw2 & d2 & l2 & o2 & Eq & D & L & B).
      rewrite Eq. cbn [bind]. eexists _, _, _, _, _, o2.
      split; [reflexivity |]. split; [exact D |]. split; [exact L | exact B].
    + destruct (buffered_shard_writes (shard_fuel shard) shard 0 tw dst)
        as (e1 & s1 & tw1 & d1 & o1 & Eq1 & D1 & L1 & B1).
      { unfold shard_fuel. lia. }
      rewrite Eq1. cbn [bind]. destruct e1 as [x |].
      * eexists _, _, _, _, _, o1.
        split; [reflexivity |]. split; [exact D1 |]. split; [exact L1 | exact B1].
      * destruct (IH (i + 1) i tw1 d1)
          as (e & s2 & tw2 & d2 & l2 & o2 & Eq & D & L & B).
        rewrite Eq. cbn [bind]. eexists _, _, _, _, _, (o1 ++ o2).
        split; [reflexivity |]. split; [| split].
        -- rewrite D, D1. symmetry. apply app_assoc.
        -- rewrite zlen_app. lia.
        -- lia.
  - destruct (IH (i + 1) li tw dst)
      as (e & s2 & tw2 & d2 & l2 & o2 & Eq & D & L & B).
    rewrite Eq. cbn [bind]. eexists _, _, _, _, _, o2.
    split; [reflexivity |]. split; [exact D |]. split; [exact L | exact B].
Qed.

End BufferedWrites.

Lemma joinWithMultiReader_writes (r : rsStreamFF8) dst shards outSize :
  0 <= outSize ->
  exists e dst' shards' out,
    joinWithMultiReader r dst shards outSize = (e, dst', shards') /\
    wdata dst' = wdata dst ++ out /\ zlen out <= outSize /\
    (e = None -> zlen out = outSize).
Proof.
  intros Ho. unfold joinWithMultiReader. cbv zeta.
  destruct (copy_multi outSize shards
              (mr_limits (join_perShard (dataShards r) outSize) outSize
                 (zlen shards) 0 0 shards) dst)
    as [[[w e] s'] d'] eqn:EC.
  destruct (copy_multi_written _ _ _ _ _ _ _ _ EC) as [Hw (out & Hd & Hl)].
  set (err := match e with
              | Some e0 => Some e0
              | None => if w <? outSize then Some EOF else None
              end).
  destruct (is_some err && negb (is_err err EOF)).
  - exists err, d', s', out. split; [reflexivity |]. split; [exact Hd |].
    split; [lia |]. intros He. unfold err in He.
    destruct e; [discriminate |].
    destruct (Z.ltb_spec w outSize); [discriminate | lia].
  - destruct (Z.ltb_spec w outSize).
    + exists (Some ErrShortData), d', s', out. split; [reflexivity |].
      split; [exact Hd |]. split; [lia | discriminate].
    + exists None, d', s', out. split; [reflexivity |].
      split; [exact Hd |]. split; [lia |]. intros _. lia.
Qed.

Lemma joinWithBufferedReads_writes (r : rsStreamFF8) dst shards outSize :
  0 <= outSize ->
  exists e dst' shards' out,
    joinWithBufferedReads r dst shards outSize = Ret (e, dst', shards') /\
    wdata dst' = wdata dst ++ out /\ zlen out <= outSize /\
    (e = None -> zlen out = outSize).
Proof.
  intros Ho. unfold joinWithBufferedReads. cbv zeta.
  destruct (buffered_loop_writes outSize
              (join_perShard (dataShards r) outSize) (zlen shards)
              shards 0 (-1) 0 dst)
    as (e1 & s1 & tw1 & d1 & li & o1 & Eq1 & D1 & L1 & B1).
  rewrite Eq1. cbn [bind]. destruct e1 as [x |].
  { exists (Some x), d1, s1, o1. split; [reflexivity |].
    split; [exact D1 |]. split; [lia | discriminate]. }
  assert (Hfin : forall (e : option error) (s2 : list (option Reader))
                        tw2 (d2 : Writer) o2,
            wdata d2 = wdata d1 ++ o2 -> zlen o2 = tw2 - tw1 ->
            tw2 <= Z.max tw1 outSize ->
            exists e0 dst' shards' out,
              match e with
              | Some _ => Ret (e, d2, s2)
              | None =>
                  if tw2 <? outSize then Ret (Some ErrShortData, d2, s2)
                  else Ret (None, d2, s2)
              end = Ret (e0, dst', shards') /\
              wdata dst' = wdata dst ++ out /\ zlen out <= outSize /\
              (e0 = None -> zlen out = outSize)).
  { intros e s2 tw2 d2 o2 D2 L2 B2.
    assert (Hd : wdata d2 = wdata dst ++ (o1 ++ o2))
      by (rewrite D2, D1; symmetry; apply app_assoc).
    assert (Hl : zlen (o1 ++ o2) = tw2) by (rewrite zlen_app; lia).
    destruct e as [x |].
    - eexists _, _, _, _. split; [reflexivity |]. split; [exact Hd |].
      split; [lia | discriminate].
    - destruct (Z.ltb_spec tw2 outSize).
      + eexists _, _, _, _. split; [reflexivity |]. split; [exact Hd |].
        split; [lia | discriminate].
      + eexists _, _, _, _. split; [reflexivity |]. split; [exact Hd |].
        split; [lia |]. intros _. lia. }
  assert (Hnone : exists e0 dst' shards' out,
            match @None error with
            | Some _ => Ret (@None error, d1, s1)
            | None =>
                if tw1 <? outSize then Ret (Some ErrShortData, d1, s1)
                else Ret (None, d1, s1)
            end = Ret (e0, dst', shards') /\
            wdata dst' = wdata dst ++ out /\ zlen out <= outSize /\
            (e0 = None -> zlen out = outSize)).
  { apply (Hfin None s1 tw1 d1 []).
    - symmetry. apply app_nil_r.
    - change (zlen (@nil Z)) with 0. lia.
    - lia. }
  destruct (nth_error s1 (Z.to_nat li)) as [[lastShard |] |];
    try (cbn [bind]; exact Hnone).
  destruct ((li >=? 0) && (tw1 <? outSize)); [| cbn [bind]; exact Hnone].
  destruct (buffered_last_writes outSize (shard_fuel lastShard) lastShard
              tw1 d1)
    as (e2 & s2 & tw2 & d2 & o2 & Eq2 & D2 & L2 & B2).
  { unfold shard_fuel. lia. }
  rewrite Eq2. cbn [bind].
  exact (Hfin e2 _ tw2 d2 o2 D2 L2 B2).
Qed.

(** X7: [join] on a destination that is there always comes back (it
    neither panics nor loops), whatever the shard streams and the
    destination do.  What the destination has received when it returns
    is never more than [outSize] bytes, and exactly [outSize] bytes
    whenever it returns [nil]. *)
Theorem join_writes_outSize :
  forall (r : rsStreamFF8) (w : Writer) (shards : list (option Reader))
         (outSize : Z),
    0 < dataShards r -> 0 <= parityShards r ->
    exists e w' shards' out,
      join r (Some w) shards outSize = Ret (e, Some w', shards') /\
      wdata w' = wdata w ++ out /\
      zlen out <= Z.max 0 outSize /\
      (e = None -> zlen out = outSize).
Proof.
  intros r w shards outSize Hk Hm.
  assert (Hstay : forall (e : error) (s : list (option Reader)),
            exists e0 w' shards' out,
              Ret (Some e, Some w, s) = Ret (e0, Some w', shards') /\
              wdata w' = wdata w ++ out /\
              zlen out <= Z.max 0 outSize /\
              (e0 = None -> zlen out = outSize)).
  { intros e s. exists (Some e), w, s, [].
    split; [reflexivity |]. split; [symmetry; apply app_nil_r |].
    change (zlen (@nil Z)) with 0. split; [lia | discriminate]. }
  assert (Hwrite : forall p (s : list (option Reader)), zlen p = outSize ->
            exists e0 w' shards' out,
              (let '(_, err, w') := Write w p in Ret (err, Some w', s))
              = Ret (e0, Some w', shards') /\
              wdata w' = wdata w ++ out /\
              zlen out <= Z.max 0 outSize /\
              (e0 = None -> zlen out = outSize)).
  { intros p s Hp. destruct (Write w p) as [[n err] w1] eqn:EW.
    apply Write_appends in EW. destruct EW as [(-> & _ & Hd) | [Hn ->]].
    - exists None, w1, s, p. split; [reflexivity |]. split; [exact Hd |].
      split; [lia | intros _; exact Hp].
    - exists err, w, s, []. split; [reflexivity |].
      split; [symmetry; apply app_nil_r |].
      change (zlen (@nil Z)) with 0. split; [lia | intros ->; congruence]. }
  unfold join.
  destruct (zlen shards =? 0); [apply Hstay |].
  destruct (Z.leb_spec outSize 0) as [Ho | Ho]; [apply Hstay |].
  destruct (Z.leb_spec outSize (dataShards r)).
  { destruct (join_tiny_loop outSize (zeros outSize) 0 shards)
      as [[[e b] t] s'] eqn:EL.
    destruct e as [x |]; [apply Hstay |].
    destruct (t <? outSize); [apply Hstay |].
    apply Hwrite.
    eapply join_tiny_buffer; [exact EL | rewrite zlen_zeros; lia | lia]. }
  set (pre := if zlen shards =? dataShards r + parityShards r
              then if (0 <=? dataShards r) && (dataShards r <=? zlen shards)
                   then Ret (ztake (dataShards r) shards,
                             zdrop (dataShards r) shards)
                   else Panic
              else Ret (shards, [])).
  assert (Hpre : exists sh extra, pre = Ret (sh, extra)).
  { unfold pre. destruct (Z.eqb_spec (zlen shards)
                            (dataShards r + parityShards r)) as [El | El].
    - destruct (Z.leb_spec 0 (dataShards r)); [| lia].
      destruct (Z.leb_spec (dataShards r) (zlen shards)); [| lia].
      eexists _, _. reflexivity.
    - eexists _, _. reflexivity. }
  destruct Hpre as (sh & extra & ->). cbn [bind].
  destruct (count_some sh <? dataShards r); [apply Hstay |].
  destruct (count_some sh =? 0); [apply Hstay |].
  destruct (outSize <? 1000).
  { destruct (join_small_loop outSize (zeros outSize) 0 sh)
      as [[[e b] t] s'] eqn:EL.
    destruct e as [x |]; [apply Hstay |].
    destruct (t <? outSize); [apply Hstay |].
    apply Hwrite.
    rewrite zlen_ztake.
    rewrite (join_small_buffer outSize _ _ _ _ _ _ _ EL);
      [lia | rewrite zlen_zeros; lia | lia]. }
  destruct ((outSize <=? smallFileThreshold) && allSeekable sh).
  - destruct (joinWithMultiReader_writes r w sh outSize ltac:(lia))
      as (e & d & s' & out & Eq & D & L & N).
    rewrite Eq. exists e, d, (s' ++ extra), out.
    split; [reflexivity |]. split; [exact D |]. split; [lia | exact N].
  - destruct (joinWithBufferedReads_writes r w sh outSize ltac:(lia))
      as (e & d & s' & out & Eq & D & L & N).
    rewrite Eq. cbn [bind]. exists e, d, (s' ++ extra), out.
    split; [reflexivity |]. split; [exact D |]. split; [lia | exact N].
Qed.

Lemma join_writes_outSize_witness :
  exists e w' shards' out,
    join sample_stream (Some newBuffer)
      [Some (bytesBuffer (payload 70)); Some (bytesBuffer (payload 30))] 100
    = Ret (e, Some w', shards') /\
    wdata w' = wdata newBuffer ++ out /\
    zlen out <= Z.max 0 100 /\
    (e = None -> zlen out = 100).
Proof.
  apply (join_writes_outSize sample_stream newBuffer
           [Some (bytesBuffer (payload 70)); Some (bytesBuffer (payload 30))]
           100).
  - cbn; lia.
  - cbn; lia.
Defined.

(** ** streaming8.go: the block loops come back *)

Lemma ReadFull_rest rd l got e rd' :
  ReadFull rd l = (got, e, rd') ->
  (length (rdata rd') + length got = length (rdata rd))%nat /\
  zlen got <= Z.max 0 l.
Proof.
  intros H. split; [| eapply ReadFull_len; exact H].
  revert H. unfold ReadFull.
  assert (Hsp : (length (zdrop l (rdata rd)) + length (ztake l (rdata rd))
                 = length (rdata rd))%nat).
  { unfold ztake, zdrop. rewrite length_firstn, length_skipn. lia. }
  destruct (l <=? 0).
  - intros H. injection H as <- _ <-. cbn [length]. lia.
  - destruct (zlen (ztake l (rdata rd)) =? l).
    + intros H. injection H as <- _ <-. exact Hsp.
    + destruct (rfail rd).
      * intros H. injection H as <- _ <-. exact Hsp.
      * destruct (zlen (ztake l (rdata rd)) =? 0);
          intros H; injection H as <- _ <-; exact Hsp.
Qed.

Lemma stream_fuel_pending inputs : stream_fuel inputs = S (pending inputs).
Proof. reflexivity. Qed.

(** The read loop takes bytes from the streams, and at least one when it
    fixes the size of the round. *)
Lemma read_blocks_pending B : forall readers dst i size e size' dst' readers',
  read_blocks B i size readers dst = Ret (e, size', dst', readers') ->
  (pending readers' <= pending readers)%nat /\
  (size = -1 -> size' <> -1 -> (pending readers' < pending readers)%nat).
Proof.
  induction readers as [| rd readers IH];
    intros dst i size e size' dst' readers' H; cbn [read_blocks] in H.
  - injection H as _ <- _ <-. split; [lia | congruence].
  - destruct dst as [| s dst]; [discriminate |].
    destruct rd as [reader |].
    + destruct (reslice s B) as [x | |]; try discriminate. cbn [bind] in H.
      destruct (ReadFull reader B) as [[got err] reader'] eqn:ER.
      destruct (ReadFull_rest _ _ _ _ _ ER) as [Hr Hg].
      destruct (is_some err && negb (is_err err EOF)
                && negb (is_err err ErrUnexpectedEOF)).
      * injection H as _ <- _ <-. cbn [pending fold_right].
        fold (pending readers). split; [lia | congruence].
      * destruct (reslice (store s got) (zlen got)) as [y | |];
          try discriminate. cbn [bind] in H.
        destruct (read_blocks B (i + 1)
                    (if (size =? -1) && (zlen got >? 0) then zlen got else size)
                    readers dst) as [[[[e1 sz1] d1] r1] | |] eqn:EL;
          try discriminate. cbn [bind] in H.
        injection H as _ <- _ <-.
        destruct (IH _ _ _ _ _ _ _ EL) as [Hle Hlt].
        cbn [pending fold_right]. fold (pending readers) (pending r1).
        split; [lia |]. intros Hs Hs'.
        destruct (Z.eqb_spec size (-1)) as [_ | Hn]; [| contradiction].
        destruct (Z.gtb_spec (zlen got) 0) as [Hpos | Hz]; cbn [andb] in *.
        -- unfold zlen in Hpos. lia.
        -- specialize (Hlt Hs Hs'). lia.
    + destruct (reslice s 0) as [x | |]; try discriminate. cbn [bind] in H.
      destruct (read_blocks B (i + 1) size readers dst)
        as [[[[e1 sz1] d1] r1] | |] eqn:EL; try discriminate.
      cbn [bind] in H. injection H as _ <- _ <-.
      destruct (IH _ _ _ _ _ _ _ EL) as [Hle Hlt].
      cbn [pending fold_right]. fold (pending readers) (pending r1).
      split; [exact Hle | exact Hlt].
Qed.

(** With block buffers of at least [B] bytes the read loop cannot
    panic, and what it leaves fits the buffers. *)
Lemma read_blocks_total B : 0 < B -> forall readers dst i size,
  Forall (fun s => B <= cap s) dst ->
  length dst = length readers ->
  size = -1 \/ 0 < size <= B ->
  exists e size' dst' readers',
    read_blocks B i size readers dst = Ret (e, size', dst', readers') /\
    (e = None ->
     length dst' = length readers' /\
     Forall (fun s => 0 <= len s <= B /\ B <= cap s) dst' /\
     (size' = -1 \/ 0 < size' <= B)).
Proof.
  intros HB.
  induction readers as [| rd readers IH]; intros dst i size Hc Hl Hs.
  - destruct dst; [| discriminate]. cbn [read_blocks].
    eexists _, _, _, _. split; [reflexivity |]. intros _.
    split; [reflexivity |]. split; [constructor | exact Hs].
  - destruct dst as [| s dst]; [discriminate |].
    cbn [length] in Hl. injection Hl as Hl.
    apply Forall_cons_iff in Hc. destruct Hc as [Hcs Hc].
    pose proof (zlen_nonneg (arr s)) as Hcap0. fold (cap s) in Hcap0.
    cbn [read_blocks]. destruct rd as [reader |].
    + rewrite reslice_ok by lia. cbn [bind].
      destruct (ReadFull reader B) as [[got err] reader'] eqn:ER.
      destruct (ReadFull_rest _ _ _ _ _ ER) as [_ Hg].
      pose proof (zlen_nonneg got) as Hg0.
      destruct (is_some err && negb (is_err err EOF)
                && negb (is_err err ErrUnexpectedEOF)) eqn:Eerr.
      * eexists _, _, _, _. split; [reflexivity |].
        intros He. destruct err; [discriminate | discriminate].
      * assert (Hst : cap (store s got) = cap s).
        { unfold cap, store. cbn [arr]. rewrite zlen_app, zlen_zdrop.
          fold (cap s). lia. }
        rewrite reslice_ok by (rewrite Hst; lia). cbn [bind].
        destruct (IH dst (i + 1)
                    (if (size =? -1) && (zlen got >? 0) then zlen got else size)
                    Hc Hl) as (e & sz & d1 & r1 & Eq & Hok).
        { destruct ((size =? -1) && (zlen got >? 0)) eqn:Ec; [| exact Hs].
          apply andb_prop in Ec. destruct Ec as [_ Ec].
          apply Z.gtb_lt in Ec. right. lia. }
        rewrite Eq. cbn [bind]. eexists _, _, _, _. split; [reflexivity |].
        intros He. destruct (Hok He) as (L & F & S').
        split; [cbn [length]; now rewrite L |]. split; [| exact S'].
        constructor; [| exact F]. cbn [len]. unfold cap. cbn [arr].
        fold (cap (store s got)). rewrite Hst. lia.
    + rewrite reslice_ok by lia. cbn [bind].
      destruct (IH dst (i + 1) size Hc Hl Hs) as (e & sz & d1 & r1 & Eq & Hok).
      rewrite Eq. cbn [bind]. eexists _, _, _, _. split; [reflexivity |].
      intros He. destruct (Hok He) as (L & F & S').
      split; [cbn [length]; now rewrite L |]. split; [| exact S'].
      constructor; [| exact F]. cbn [len]. unfold cap. cbn [arr].
      fold (cap s). lia.
Qed.

Lemma shape_blocks_total B size all :
  0 < size <= B -> Z.rem B 64 = 0 ->
  Forall (fun s => 0 <= len s <= B /\ B <= cap s) all ->
  exists all',
    shape_blocks size all = Ret (align64 size, all') /\
    length all' = length all /\
    Forall (fun s => len s = align64 size /\ B <= cap s) all'.
Proof.
  intros Hs HBr F.
  pose proof (align64_bounds size ltac:(lia)) as [Ha Har].
  assert (HaB : align64 size <= B) by (apply align64_le_block; lia).
  destruct (mapM_spec (resize_block true size)
              (fun _ s' => len s' = size /\ B <= cap s') all)
    as (all1 & E1 & F1).
  { intros s Hin. rewrite Forall_forall in F. destruct (F s Hin) as [Hl Hc].
    destruct (resize_block_spec true size s) as (s' & E & L & C & _); try lia.
    exists s'. split; [exact E |]. split; [exact L | lia]. }
  assert (L1 : length all1 = length all)
    by (symmetry; eapply Forall2_length; exact F1).
  assert (F1' : Forall (fun s' => len s' = size /\ B <= cap s') all1)
    by (eapply Forall2_right; [| exact F1]; cbn; auto).
  unfold shape_blocks. rewrite E1. cbn [bind].
  destruct (Z.eqb_spec (Z.rem size 64) 0) as [Hr | Hr]; cbn [negb].
  - exists all1. rewrite (align64_fix size) by lia.
    split; [reflexivity |]. split; [exact L1 | exact F1'].
  - destruct (mapM_spec (pad_block size (align64 size))
                (fun _ s' => len s' = align64 size /\ B <= cap s') all1)
      as (all2 & E2 & F2).
    { intros s Hin. rewrite Forall_forall in F1'.
      destruct (F1' s Hin) as [Hl Hc].
      destruct (pad_block_spec size (align64 size) s) as (s' & E & _ & L & C & _);
        try lia.
      exists s'. split; [exact E |]. split; [exact L | lia]. }
    rewrite E2. cbn [bind]. exists all2.
    split; [reflexivity |]. split.
    + rewrite <- L1. symmetry. eapply Forall2_length; exact F2.
    + eapply Forall2_right; [| exact F2]; cbn; auto.
Qed.

Lemma verify_loop_total (r : rsStreamFF8) :
  0 < blockSize r -> Z.rem (blockSize r) 64 = 0 ->
  forall fuel all read shards,
    (pending shards < fuel)%nat ->
    Forall (fun s => blockSize r <= cap s) all ->
    length all = length shards ->
    exists ok e shards',
      verify_loop fuel r all read shards = Ret (ok, e, shards').
Proof.
  intros HB HBr.
  induction fuel as [| fuel IH]; intros all read shards Hf Hc Hl; [lia |].
  cbn [verify_loop].
  destruct (read_blocks_total (blockSize r) HB shards all 0 (-1) Hc Hl)
    as (e & size & all1 & shards1 & Eq & Hok); [left; reflexivity |].
  rewrite Eq. cbn [bind].
  destruct (read_blocks_pending _ _ _ _ _ _ _ _ _ Eq) as [Hle Hlt].
  destruct e as [x |]; [eexists _, _, _; reflexivity |].
  destruct (Hok eq_refl) as (L1 & F1 & Hsz).
  destruct ((size =? -1) || (size =? 0)) eqn:Eend.
  { destruct (read =? 0); eexists _, _, _; reflexivity. }
  apply orb_false_iff in Eend. destruct Eend as [En1 En0].
  apply Z.eqb_neq in En1, En0.
  destruct Hsz as [Hsz | Hsz]; [contradiction |].
  destruct (shape_blocks_total (blockSize r) size all1 Hsz HBr F1)
    as (all2 & E2 & L2 & F2).
  rewrite E2. cbn [bind].
  destruct (Verify (ff_engine (rs r)) all2) as [ok err].
  destruct (negb ok || is_some err); [eexists _, _, _; reflexivity |].
  apply IH.
  - specialize (Hlt eq_refl En1). lia.
  - eapply Forall_impl; [| exact F2]. cbn. intros s [_ H]. exact H.
  - rewrite L2. exact L1.
Qed.

(** X8: with the block size of [newStreamEncoderFF8] (positive, a
    multiple of 64) [verify] always comes back: whatever the streams
    hold or report and whatever the codec answers, it neither indexes
    out of range nor loops for ever.  A wrong stream count is answered
    with [ErrTooFewShards] before any stream is read. *)
Theorem verify_always_returns :
  forall (r : rsStreamFF8) (shards : list (option Reader)),
    0 < blockSize r -> Z.rem (blockSize r) 64 = 0 ->
    (exists ok e shards', verify r shards = Ret (ok, e, shards')) /\
    (zlen shards <> totalShards r ->
     verify r shards = Ret (false, Some ErrTooFewShards, shards)).
Proof.
  intros r shards HB HBr. unfold verify, verify_with.
  destruct (Z.eqb_spec (zlen shards) (totalShards r)) as [El | El]; cbn [negb].
  - split; [| intros H; contradiction].
    apply verify_loop_total; try assumption.
    + rewrite stream_fuel_pending. lia.
    + apply createSlice_caps.
    + pose proof (zlen_createSlice r) as Hz. unfold zlen in *. lia.
  - split; [eexists _, _, _; reflexivity | reflexivity].
Qed.

Lemma verify_always_returns_witness :
  (exists ok e shards',
     verify sample_stream sample_readers = Ret (ok, e, shards')) /\
  (zlen sample_readers <> totalShards sample_stream ->
   verify sample_stream sample_readers
   = Ret (false, Some ErrTooFewShards, sample_readers)).
Proof.
  apply (verify_always_returns sample_stream sample_readers).
  - cbn; lia.
  - reflexivity.
Defined.

(** ** streaming8.go: which stream an error names *)

Lemma ReadFull_breaks B e rd :
  0 < B -> breaks_with B e rd ->
  exists got rd',
    ReadFull rd B = (got, Some e, rd') /\
    (is_some (Some e) && negb (is_err (Some e) EOF)
     && negb (is_err (Some e) ErrUnexpectedEOF) = true).
Proof.
  intros HB (Hf & Hl & He1 & He2). unfold ReadFull.
  destruct (Z.leb_spec B 0); [lia |].
  rewrite (ztake_all B (rdata rd)) by lia.
  destruct (Z.eqb_spec (zlen (rdata rd)) B); [lia |].
  rewrite Hf. eexists _, _. split; [reflexivity |].
  cbn [is_some is_err andb]. rewrite He1, He2. reflexivity.
Qed.

Lemma read_blocks_broken B e bad post :
  0 < B -> breaks_with B e bad ->
  forall pre dst i size,
    Forall clean pre ->
    Forall (fun s => B <= cap s) dst ->
    (length pre < length dst)%nat ->
    exists size' dst' readers',
      read_blocks B i size (pre ++ Some bad :: post) dst
      = Ret (Some (StreamReadError e (i + zlen pre)), size', dst', readers').
Proof.
  intros HB Hbad.
  induction pre as [| rd pre IH]; intros dst i size Hc Hcap Hl.
  - destruct dst as [| s dst]; [cbn in Hl; lia |].
    apply Forall_cons_iff in Hcap. destruct Hcap as [Hs _].
    pose proof (zlen_nonneg (arr s)) as Hn. fold (cap s) in Hn.
    cbn [app read_blocks]. rewrite reslice_ok by lia. cbn [bind].
    destruct (ReadFull_breaks B e bad HB Hbad) as (got & rd' & -> & ->).
    change (zlen (@nil (option Reader))) with 0. rewrite Z.add_0_r.
    eexists _, _, _. reflexivity.
  - destruct dst as [| s dst]; [cbn in Hl; lia |].
    apply Forall_cons_iff in Hc. destruct Hc as [Hc1 Hc2].
    apply Forall_cons_iff in Hcap. destruct Hcap as [Hs1 Hs2].
    cbn [length] in Hl.
    pose proof (zlen_nonneg (arr s)) as Hn. fold (cap s) in Hn.
    rewrite zlen_cons.
    cbn [app read_blocks]. destruct rd as [rd |].
    + cbn in Hc1. rewrite reslice_ok by lia. cbn [bind].
      destruct (ReadFull_clean rd B Hc1 HB) as (e0 & -> & ->).
      set (got := ztake B (rdata rd)).
      assert (Hg : 0 <= zlen got <= B).
      { unfold got. rewrite zlen_ztake.
        pose proof (zlen_nonneg (rdata rd)). lia. }
      assert (Hcs : cap (store s got) = cap s).
      { unfold store, cap; cbn [arr].
        rewrite zlen_app, zlen_zdrop. unfold cap in *. lia. }
      rewrite reslice_ok by lia. cbn [bind].
      destruct (IH dst (i + 1)
                  (if (size =? -1) && (zlen got >? 0) then zlen got else size)
                  Hc2 Hs2 ltac:(lia)) as (sz & d1 & r1 & Eq).
      rewrite Eq. cbn [bind].
      replace (i + (zlen pre + 1)) with (i + 1 + zlen pre) by lia.
      eexists _, _, _. reflexivity.
    + rewrite reslice_ok by lia. cbn [bind].
      destruct (IH dst (i + 1) size Hc2 Hs2 ltac:(lia)) as (sz & d1 & r1 & Eq).
      rewrite Eq. cbn [bind].
      replace (i + (zlen pre + 1)) with (i + 1 + zlen pre) by lia.
      eexists _, _, _. reflexivity.
Qed.

Lemma caps_resliced B (l : list slice) :
  Forall (fun s => B <= cap s) l ->
  Forall (fun s => B <= cap s) (map (fun s => mkSlice (arr s) B) l).
Proof.
  intros H. apply Forall_forall. intros s Hs. apply in_map_iff in Hs.
  destruct Hs as (s0 & <- & Hs0). rewrite Forall_forall in H.
  apply (H s0 Hs0).
Qed.

(** X9: the stream adaptor names the first stream that breaks.  Let the
    input streams before position [j] be absent or end cleanly, and let
    stream [j] break with an error [e] -- other than [io.EOF] and
    [io.ErrUnexpectedEOF] -- before it has delivered one block.  Then
    [verify], [encode], [reconstruct] and [reconstructData] all return
    [StreamReadError{Err: e, Stream: j}], whatever the streams after
    [j] do; the three that write leave every output untouched. *)
Theorem first_broken_stream_is_named :
  forall (r : rsStreamFF8) (pre post : list (option Reader)) (bad : Reader)
         (e : error) (outputs : list (option Writer)),
    let inputs := pre ++ Some bad :: post in
    let err := Some (StreamReadError e (zlen pre)) in
    0 < blockSize r ->
    Forall clean pre ->
    breaks_with (blockSize r) e bad ->
    (zlen inputs = totalShards r ->
       exists inputs', verify r inputs = Ret (false, err, inputs')) /\
    (zlen inputs = dataShards r -> zlen outputs = parityShards r ->
     dataShards r <= totalShards r ->
       exists inputs', encode r inputs outputs = Ret (err, inputs', outputs)) /\
    (zlen inputs = totalShards r -> zlen outputs = totalShards r ->
     dataShards r <= totalShards r ->
     no_clash inputs outputs ->
       (exists inputs',
          reconstruct r inputs outputs = Ret (err, inputs', outputs)) /\
       (exists inputs',
          reconstructData r inputs outputs = Ret (err, inputs', outputs))).
Proof.
  intros r pre post bad e outputs inputs err HB Hpre Hbad.
  pose proof (createSlice_caps r) as Hcaps.
  pose proof (zlen_createSlice r) as Hlen.
  pose proof (zlen_nonneg pre) as Hp0.
  pose proof (zlen_nonneg post) as Hq0.
  assert (Hin : zlen inputs = zlen pre + zlen post + 1).
  { unfold inputs. rewrite zlen_app, zlen_cons. lia. }
  assert (Hfuel : exists f, stream_fuel inputs = S f)
    by apply stream_fuel_pos.
  destruct Hfuel as (f & Hf).
  split; [| split].
  - intros Hl. unfold verify, verify_with. rewrite Hl, Z.eqb_refl.
    cbn [negb]. rewrite Hf. cbn [verify_loop].
    destruct (read_blocks_broken (blockSize r) e bad post HB Hbad pre
                (createSlice r) 0 (-1) Hpre Hcaps)
      as (sz & d1 & r1 & Eq).
    { unfold zlen in *. lia. }
    fold inputs in Eq. rewrite Eq. cbn [bind Z.add].
    eexists. reflexivity.
  - intros Hl Ho Hk. unfold encode, encode_with.
    rewrite Hl, Ho, !Z.eqb_refl. cbn [negb].
    rewrite mapM_reslice by (try lia; exact Hcaps). cbn [bind].
    rewrite Hf. cbn [encode_loop].
    set (shards := map (fun s => mkSlice (arr s) (blockSize r)) (createSlice r)).
    assert (Hsl : zlen shards = Z.max 0 (totalShards r))
      by (unfold shards; rewrite zlen_map; exact Hlen).
    rewrite upto_ok by lia. cbn [bind]. unfold readInputs.
    destruct (read_blocks_broken (blockSize r) e bad post HB Hbad pre
                (ztake (dataShards r) shards) 0 (-1) Hpre)
      as (sz & d1 & r1 & Eq).
    { apply Forall_ztake. apply caps_resliced. exact Hcaps. }
    { assert (zlen (ztake (dataShards r) shards) = dataShards r)
        by (rewrite zlen_ztake; lia).
      unfold zlen in *. lia. }
    fold inputs in Eq. rewrite Eq. cbn [bind Z.add is_err error_eqb].
    eexists. reflexivity.
  - intros Hl Ho Hk Hclash. split.
    + unfold reconstruct, reconstruct_with.
      rewrite Hl, Ho, !Z.eqb_refl. cbn [negb].
      destruct (recon_check_clear (dataShards r) inputs outputs 0 true Hclash)
        as (b & ->).
      cbn [bind]. rewrite Hf. cbn [reconstruct_loop].
      destruct (read_blocks_broken (blockSize r) e bad post HB Hbad pre
                  (createSlice r) 0 (-1) Hpre Hcaps)
        as (sz & d1 & r1 & Eq).
      { unfold zlen in *. lia. }
      fold inputs in Eq. rewrite Eq. cbn [bind Z.add].
      eexists. reflexivity.
    + unfold reconstructData, reconstructData_with.
      rewrite Hl, Ho, !Z.eqb_refl. cbn [negb].
      rewrite (data_check_clear inputs outputs Hclash). cbn [bind].
      destruct (Z.gtb_spec (dataShards r) (totalShards r)); [lia |].
      rewrite Hf. cbn [reconstructData_loop].
      destruct (read_blocks_broken (blockSize r) e bad post HB Hbad pre
                  (createSlice r) 0 (-1) Hpre Hcaps)
        as (sz & d1 & r1 & Eq).
      { unfold zlen in *. lia. }
      fold inputs in Eq. rewrite Eq. cbn [bind Z.add].
      eexists. reflexivity.
Qed.

Lemma first_broken_stream_is_named_witness :
  exists inputs',
    verify sample_stream
      ([Some (bytesReader (payload 70))]
         ++ Some (mkReader (payload 30) false (Some (ErrIO 5))) :: [None])
    = Ret (false,
           Some (StreamReadError (ErrIO 5)
                   (zlen [Some (bytesReader (payload 70))])), inputs').
Proof.
  destruct (first_broken_stream_is_named sample_stream
              [Some (bytesReader (payload 70))] [None]
              (mkReader (payload 30) false (Some (ErrIO 5))) (ErrIO 5) [])
    as [H _].
  - cbn; lia.
  - repeat constructor.
  - split; [reflexivity |]. split; [vm_compute; reflexivity |].
    split; reflexivity.
  - apply H. reflexivity.
Defined.

Lemma feed_all_cons w ws c cs :
  feed_all (w :: ws) (c :: cs) = feed w c :: feed_all ws cs.
Proof. reflexivity. Qed.

Section BrokenWriter.

Variables (e : error) (bad : Writer) (post : list (option Writer)).
Hypothesis Hbad : wfail bad = Some e.

Lemma Write_broken p : Write bad p = (0, Some e, bad).
Proof. unfold Write. now rewrite Hbad. Qed.

Lemma writeOutputs_loop_broken A : 0 <= A -> forall pre src i,
  Forall willing pre ->
  Forall (fun b => A <= cap b) src ->
  (length pre < length src)%nat ->
  writeOutputs_loop A i (pre ++ Some bad :: post) src
  = Ret (Some (StreamWriteError e (i + zlen pre)),
         feed_all pre (map (fun b => ztake A (arr b)) src)
           ++ Some bad :: post).
Proof.
  intros HA. induction pre as [| w pre IH]; intros src i Hw Hc Hl;
    (destruct src as [| b src]; [cbn in Hl; lia |]);
    apply Forall_cons_iff in Hc; destruct Hc as [Hc1 Hc2].
  - pose proof (zlen_nonneg (arr b)) as Hn. fold (cap b) in Hn.
    cbn [app writeOutputs_loop]. rewrite reslice_ok by lia. cbn [bind].
    rewrite Write_broken.
    change (zlen (@nil (option Writer))) with 0. rewrite Z.add_0_r.
    reflexivity.
  - apply Forall_cons_iff in Hw. destruct Hw as [Hw1 Hw2].
    cbn [length] in Hl. rewrite zlen_cons.
    replace (i + (zlen pre + 1)) with (i + 1 + zlen pre) by lia.
    cbn [app writeOutputs_loop tl map]. rewrite feed_all_cons.
    destruct w as [w |].
    + destruct (Write_reslice w b A Hw1 ltac:(lia)) as (p & Ep & _ & Ew).
      rewrite Ep. cbn [bind]. rewrite Ew, Z.eqb_refl. cbn [negb].
      rewrite IH by (try assumption; lia). reflexivity.
    + rewrite IH by (try assumption; lia). reflexivity.
Qed.

Lemma recon_write_broken k s : 0 <= s -> forall pre all i,
  Forall willing pre ->
  Forall (fun b => align64 s <= cap b) all ->
  (length pre < length all)%nat ->
  recon_write k s (align64 s) i (pre ++ Some bad :: post) all
  = Ret (Some (StreamWriteError e (i + zlen pre)),
         feed_all pre (recon_chunks k s i all) ++ Some bad :: post).
Proof.
  intros Hs. pose proof (align64_bounds s Hs) as [Ha _].
  induction pre as [| w pre IH]; intros all i Hw Hc Hl;
    (destruct all as [| b all]; [cbn in Hl; lia |]);
    apply Forall_cons_iff in Hc; destruct Hc as [Hc1 Hc2].
  - pose proof (zlen_nonneg (arr b)) as Hn. fold (cap b) in Hn.
    cbn [app recon_write].
    rewrite reslice_ok by (destruct (i >=? k); lia). cbn [bind].
    rewrite Write_broken.
    change (zlen (@nil (option Writer))) with 0. rewrite Z.add_0_r.
    reflexivity.
  - apply Forall_cons_iff in Hw. destruct Hw as [Hw1 Hw2].
    cbn [length] in Hl. rewrite zlen_cons.
    replace (i + (zlen pre + 1)) with (i + 1 + zlen pre) by lia.
    cbn [app recon_write tl recon_chunks]. rewrite feed_all_cons.
    destruct w as [w |].
    + destruct (Write_reslice w b (if i >=? k then align64 s else s) Hw1)
        as (p & Ep & _ & Ew); [destruct (i >=? k); lia |].
      rewrite Ep. cbn [bind]. rewrite Ew, Z.eqb_refl. cbn [negb].
      rewrite IH by (try assumption; lia). reflexivity.
    + rewrite IH by (try assumption; lia). reflexivity.
Qed.

Lemma data_write_broken s : 0 <= s -> forall pre all i,
  Forall willing pre ->
  Forall (fun b => s <= cap b) all ->
  (length pre < length all)%nat ->
  data_write s i (pre ++ Some bad :: post) all
  = Ret (Some (StreamWriteError e (i + zlen pre)),
         feed_all pre (map (fun b => ztake s (arr b)) all)
           ++ Some bad :: post).
Proof.
  intros Hs. induction pre as [| w pre IH]; intros all i Hw Hc Hl;
    (destruct all as [| b all]; [cbn in Hl; lia |]);
    apply Forall_cons_iff in Hc; destruct Hc as [Hc1 Hc2].
  - pose proof (zlen_nonneg (arr b)) as Hn. fold (cap b) in Hn.
    cbn [app data_write]. rewrite reslice_ok by lia. cbn [bind].
    rewrite Write_broken.
    change (zlen (@nil (option Writer))) with 0. rewrite Z.add_0_r.
    reflexivity.
  - apply Forall_cons_iff in Hw. destruct Hw as [Hw1 Hw2].
    cbn [length] in Hl. rewrite zlen_cons.
    replace (i + (zlen pre + 1)) with (i + 1 + zlen pre) by lia.
    cbn [app data_write tl map]. rewrite feed_all_cons.
    destruct w as [w |].
    + destruct (Write_reslice w b s Hw1 ltac:(lia)) as (p & Ep & _ & Ew).
      rewrite Ep. cbn [bind]. rewrite Ew, Z.eqb_refl. cbn [negb].
      rewrite IH by (try assumption; lia). reflexivity.
    + rewrite IH by (try assumption; lia). reflexivity.
Qed.

End BrokenWriter.

(** X10: the output loops name the first writer that fails.  Let the
    writers before position [j] be absent or accept their data, and let
    writer [j] answer its [Write] with the error [e].  Then
    [writeOutputs], the output loop of [reconstruct] and the output loop
    of [reconstructData] return [StreamWriteError{Err: e, Stream: j}];
    every writer before [j] has received its block for the round, and
    writer [j] and those after it nothing. *)
Theorem first_failed_writer_is_named :
  forall (r : rsStreamFF8) (pre post : list (option Writer)) (bad : Writer)
         (e : error) (src : list slice) (s : Z),
    let writers := pre ++ Some bad :: post in
    let err := Some (StreamWriteError e (zlen pre)) in
    0 <= s ->
    Forall willing pre ->
    wfail bad = Some e ->
    Forall (fun b => align64 s <= cap b) src ->
    (length pre < length src)%nat ->
    writeOutputs r writers src s
    = Ret (err, feed_all pre (map (fun b => ztake (align64 s) (arr b)) src)
                  ++ Some bad :: post) /\
    recon_write (dataShards r) s (align64 s) 0 writers src
    = Ret (err, feed_all pre (recon_chunks (dataShards r) s 0 src)
                  ++ Some bad :: post) /\
    data_write s 0 writers src
    = Ret (err, feed_all pre (map (fun b => ztake s (arr b)) src)
                  ++ Some bad :: post).
Proof.
  intros r pre post bad e src s writers err Hs Hw Hbad Hc Hl.
  pose proof (align64_bounds s Hs) as [Ha _].
  split; [| split].
  - unfold writeOutputs, writers.
    rewrite (writeOutputs_loop_broken e bad post Hbad (align64 s));
      try assumption; [reflexivity | lia].
  - unfold writers.
    rewrite (recon_write_broken e bad post Hbad (dataShards r) s);
      try assumption. reflexivity.
  - unfold writers.
    rewrite (data_write_broken e bad post Hbad s); try assumption;
      [reflexivity |].
    eapply Forall_impl; [| exact Hc]. cbn. intros; lia.
Qed.

Lemma first_failed_writer_is_named_witness :
  writeOutputs sample_stream
    ([Some newBuffer] ++ Some (mkWriter [] (Some (ErrIO 7))) :: [None])
    [make 128; make 128; make 128] 70
  = Ret (Some (StreamWriteError (ErrIO 7) (zlen [Some newBuffer])),
         feed_all [Some newBuffer]
           (map (fun b => ztake (align64 70) (arr b))
              [make 128; make 128; make 128])
           ++ Some (mkWriter [] (Some (ErrIO 7))) :: [None]).
Proof.
  destruct (first_failed_writer_is_named sample_stream [Some newBuffer]
              [None] (mkWriter [] (Some (ErrIO 7))) (ErrIO 7)
              [make 128; make 128; make 128] 70) as [H _].
  - lia.
  - repeat constructor.
  - reflexivity.
  - repeat constructor; vm_compute; discriminate.
  - cbn; lia.
  - exact H.
Defined.

(** ** galois_bridge.go: the 16-bit adaptor's split and join *)

Lemma align2_64_eq x : 0 <= x -> align2_64 x = align_if_needed x.
Proof.
  intros Hx. unfold align2_64, align_if_needed, align64.
  destruct (Z.eqb_spec (Z.rem x 2) 0) as [E2 | E2]; cbn [negb].
  - destruct (Z.rem x 64 =? 0); reflexivity.
  - destruct (Z.eqb_spec (Z.rem (x + 1) 64) 0) as [E64 | E64];
      destruct (Z.eqb_spec (Z.rem x 64) 0) as [F64 | F64]; cbn [negb];
      revert E2; try revert E64; try revert F64;
      Z.to_euclidean_division_equations; lia.
Qed.

Lemma join_perShard16_eq k outSize :
  join_perShard16 k outSize = join_perShard k outSize.
Proof.
  unfold join_perShard16, join_perShard, align_if_needed. cbv zeta.
  set (p := Z.quot (outSize + k - 1) k).
  assert (Ha : Z.rem (align64 p) 2 = 0).
  { unfold align64. Z.to_euclidean_division_equations. lia. }
  rewrite Ha. cbn [Z.eqb negb].
  destruct (Z.eqb_spec (Z.rem p 64) 0) as [E64 | E64]; cbn [negb].
  - assert (E2 : Z.rem p 2 = 0)
      by (revert E64; Z.to_euclidean_division_equations; lia).
    rewrite E2. reflexivity.
  - rewrite orb_true_r. reflexivity.
Qed.

Lemma split_sizes16_eq k size :
  0 < size -> split_sizes16 k size = split_sizes k size.
Proof.
  intros Hs. unfold split_sizes16, split_sizes. cbv zeta.
  rewrite (align2_64_eq size) by lia.
  set (P := align_if_needed (Z.quot (align_if_needed size) k)).
  destruct (Z.leb_spec (size - P * (k - 1)) 0) as [Hle | Hgt].
  - destruct (k - 1 =? 0); [reflexivity |]. cbn [bind].
    set (P1 := align_if_needed (Z.quot (size - 1) (k - 1))).
    destruct (Z.leb_spec (size - P1 * (k - 1)) 0).
    + rewrite align2_64_eq by lia. reflexivity.
    + rewrite align2_64_eq by lia. reflexivity.
  - cbn [bind]. rewrite align2_64_eq by lia. reflexivity.
Qed.



(** ** streaming8.go: encode comes back *)

Lemma read_blocks_lengths B : forall readers dst i size sz d' r',
  read_blocks B i size readers dst = Ret (None, sz, d', r') ->
  length r' = length readers /\ length d' = length dst.
Proof.
  induction readers as [| rd readers IH]; intros dst i size sz d' r' H;
    cbn [read_blocks] in H.
  - injection H as _ <- <-. split; reflexivity.
  - destruct dst as [| s dst]; [discriminate |].
    destruct rd as [reader |].
    + destruct (reslice s B) as [x | |]; try discriminate. cbn [bind] in H.
      destruct (ReadFull reader B) as [[got err] reader'].
      destruct (is_some err && negb (is_err err EOF)
                && negb (is_err err ErrUnexpectedEOF)) eqn:Ee.
      * destruct err; cbn in H; [discriminate | discriminate].
      * destruct (reslice (store s got) (zlen got)) as [y | |];
          try discriminate. cbn [bind] in H.
        destruct (read_blocks B (i + 1)
                    (if (size =? -1) && (zlen got >? 0) then zlen got else size)
                    readers dst) as [[[[e1 sz1] d1] r1] | |] eqn:EL;
          try discriminate. cbn [bind] in H.
        injection H as -> _ <- <-.
        destruct (IH _ _ _ _ _ _ EL) as [L1 L2]. cbn [length]. lia.
    + destruct (reslice s 0) as [x | |]; try discriminate. cbn [bind] in H.
      destruct (read_blocks B (i + 1) size readers dst)
        as [[[[e1 sz1] d1] r1] | |] eqn:EL; try discriminate.
      cbn [bind] in H. injection H as -> _ <- <-.
      destruct (IH _ _ _ _ _ _ EL) as [L1 L2]. cbn [length]. lia.
Qed.

Lemma readInputs_total (r : rsStreamFF8) readers dst :
  0 < blockSize r -> Z.rem (blockSize r) 64 = 0 ->
  Forall (fun s => blockSize r <= cap s) dst ->
  length dst = length readers ->
  exists size err dst' readers',
    readInputs r dst readers = Ret (size, err, dst', readers') /\
    (pending readers' <= pending readers)%nat /\
    (err = None ->
     0 < size <= blockSize r /\
     length readers' = length readers /\
     length dst' = length dst /\
     Forall (fun s => len s = align64 size /\ blockSize r <= cap s) dst' /\
     (pending readers' < pending readers)%nat).
Proof.
  intros HB HBr Hc Hl. unfold readInputs.
  destruct (read_blocks_total (blockSize r) HB readers dst 0 (-1) Hc Hl)
    as (e & size & d1 & r1 & Eq & Hok); [left; reflexivity |].
  rewrite Eq. cbn [bind].
  destruct (read_blocks_pending _ _ _ _ _ _ _ _ _ Eq) as [Hle Hlt].
  destruct e as [x |].
  { eexists _, _, _, _. split; [reflexivity |]. split; [exact Hle | discriminate]. }
  destruct (Hok eq_refl) as (L1 & F1 & Hsz).
  destruct (read_blocks_lengths _ _ _ _ _ _ _ _ Eq) as [Lr Ld].
  destruct (Z.eqb_spec size (-1)) as [En | En].
  { eexists _, _, _, _. split; [reflexivity |]. split; [exact Hle | discriminate]. }
  destruct Hsz as [Hsz | Hsz]; [contradiction |].
  pose proof (align64_bounds size ltac:(lia)) as [Ha Har].
  assert (HaB : align64 size <= blockSize r) by (apply align64_le_block; lia).
  destruct (mapM_spec (resize_block false size)
              (fun _ s' => len s' = size /\ blockSize r <= cap s') d1)
    as (d2 & E2 & F2).
  { intros s Hin. rewrite Forall_forall in F1. destruct (F1 s Hin) as [Hl1 Hc1].
    destruct (resize_block_spec false size s) as (s' & E & L & C & _); try lia.
    exists s'. split; [exact E |]. split; [exact L | lia]. }
  assert (L2 : length d2 = length d1)
    by (symmetry; eapply Forall2_length; exact F2).
  assert (F2' : Forall (fun s' => len s' = size /\ blockSize r <= cap s') d2)
    by (eapply Forall2_right; [| exact F2]; cbn; auto).
  rewrite E2. cbn [bind].
  destruct (Z.eqb_spec (Z.rem size 64) 0) as [Hr | Hr]; cbn [negb].
  - eexists _, _, _, _. split; [reflexivity |]. split; [exact Hle |].
    intros _. split; [exact Hsz |]. split; [exact Lr |].
    split; [lia |]. split; [| apply Hlt; [reflexivity | exact En]].
    rewrite (align64_fix size) by lia. exact F2'.
  - destruct (mapM_spec (pad_block_readInputs size (align64 size))
                (fun _ s' => len s' = align64 size /\ blockSize r <= cap s') d2)
      as (d3 & E3 & F3).
    { intros s Hin. rewrite Forall_forall in F2'.
      destruct (F2' s Hin) as [Hl2 Hc2].
      destruct (pad_block_spec size (align64 size) s) as (s' & _ & E & L & C & _);
        try lia.
      exists s'. split; [exact E |]. split; [exact L | lia]. }
    rewrite E3. cbn [bind].
    eexists _, _, _, _. split; [reflexivity |]. split; [exact Hle |].
    intros _. split; [exact Hsz |]. split; [exact Lr |].
    split; [| split; [| apply Hlt; [reflexivity | exact En]]].
    + rewrite <- Ld, <- L2. symmetry. eapply Forall2_length; exact F3.
    + eapply Forall2_right; [| exact F3]; cbn; auto.
Qed.

Lemma encode_align_total sp b :
  0 <= sp -> 0 <= len b <= cap b ->
  exists b',
    encode_align sp b = Ret b' /\ len b' = sp /\ sp <= cap b' /\
    (sp <= len b -> cap b' = cap b).
Proof.
  intros Hs Hl. unfold encode_align.
  destruct (Z.ltb_spec (len b) sp).
  - assert (Hc : cap (copy (make sp) (bytes b)) = sp).
    { unfold copy, make, cap; cbn [arr len].
      rewrite zlen_app, zlen_ztake, zlen_zdrop, zlen_zeros.
      pose proof (zlen_nonneg (bytes b)). lia. }
    rewrite reslice_ok by lia.
    eexists. split; [reflexivity |]. split; [reflexivity |].
    split; [| lia]. unfold cap in *. cbn [arr]. lia.
  - rewrite reslice_ok by lia.
    eexists. split; [reflexivity |]. split; [reflexivity |].
    split; [| reflexivity]. unfold cap. cbn [arr]. fold (cap b). lia.
Qed.

Lemma writeOutputs_loop_total A : 0 <= A -> forall writers src i,
  Forall (fun b => A <= cap b) src ->
  (length writers <= length src)%nat ->
  exists e w',
    writeOutputs_loop A i writers src = Ret (e, w') /\
    length w' = length writers.
Proof.
  intros HA. induction writers as [| w writers IH]; intros src i Hc Hl.
  - eexists _, _. split; reflexivity.
  - destruct src as [| b src]; [cbn in Hl; lia |].
    apply Forall_cons_iff in Hc. destruct Hc as [Hc1 Hc2].
    cbn [length] in Hl.
    pose proof (zlen_nonneg (arr b)) as Hn. fold (cap b) in Hn.
    cbn [writeOutputs_loop tl]. destruct w as [w |].
    + rewrite reslice_ok by lia. cbn [bind].
      destruct (Write w (bytes (mkSlice (arr b) A))) as [[n err] w1].
      destruct err as [x |]; [eexists _, _; split; reflexivity |].
      destruct (negb (n =? A)); [eexists _, _; split; reflexivity |].
      destruct (IH src (i + 1) Hc2 ltac:(lia)) as (e & w' & Eq & L).
      rewrite Eq. cbn [bind]. eexists _, _. split; [reflexivity |].
      cbn [length]. now rewrite L.
    + destruct (IH src (i + 1) Hc2 ltac:(lia)) as (e & w' & Eq & L).
      rewrite Eq. cbn [bind]. eexists _, _. split; [reflexivity |].
      cbn [length]. now rewrite L.
Qed.

Lemma from_ok {A} k (l : list A) : 0 <= k <= zlen l -> from k l = Ret (zdrop k l).
Proof.
  intros. unfold from.
  destruct (Z.leb_spec 0 k), (Z.leb_spec k (zlen l)); try lia. reflexivity.
Qed.

Lemma zlen_length {A B} (l1 : list A) (l2 : list B) :
  length l1 = length l2 -> zlen l1 = zlen l2.
Proof. unfold zlen; lia. Qed.

Lemma encode_loop_total (r : rsStreamFF8) :
  0 < blockSize r -> Z.rem (blockSize r) 64 = 0 ->
  0 <= dataShards r -> 0 <= parityShards r ->
  totalShards r = dataShards r + parityShards r ->
  keeps_shape (Encode (ff_engine (rs r))) ->
  forall fuel shards inputs outputs,
    (pending inputs < fuel)%nat ->
    zlen inputs = dataShards r -> zlen outputs = parityShards r ->
    zlen shards = totalShards r ->
    Forall (fun s => blockSize r <= cap s) (ztake (dataShards r) shards) ->
    Forall (fun s => 0 <= len s <= cap s) (zdrop (dataShards r) shards) ->
    exists e inputs' outputs',
      encode_loop fuel r shards inputs outputs = Ret (e, inputs', outputs').
Proof.
  intros HB HBr Hk Hm Ht Hkeep.
  induction fuel as [| fuel IH];
    intros shards inputs outputs Hf Hli Hlo Hls Hd Hp; [lia |].
  cbn [encode_loop]. rewrite upto_ok by lia. cbn [bind].
  destruct (readInputs_total r inputs (ztake (dataShards r) shards) HB HBr Hd)
    as (size & err & dst' & inputs' & Eq & Hle & Hok).
  { apply length_zlen. rewrite zlen_ztake. lia. }
  rewrite Eq. cbn [bind].
  destruct (is_err err EOF); [eexists _, _, _; reflexivity |].
  destruct err as [x |]; [eexists _, _, _; reflexivity |].
  destruct (Hok eq_refl) as (Hsz & Lr & Ld & Fd & Hlt).
  destruct (negb (existsb (fun s => len s >? 0) dst'));
    [eexists _, _, _; reflexivity |].
  pose proof (align64_bounds size ltac:(lia)) as [Ha _].
  assert (HaB : align64 size <= blockSize r) by (apply align64_le_block; lia).
  set (sp := align64 size) in *.
  destruct (mapM_spec (encode_align sp)
              (fun _ s' => len s' = sp /\ blockSize r <= cap s') dst')
    as (x & Ex & Fx).
  { intros s Hin. rewrite Forall_forall in Fd. destruct (Fd s Hin) as [Hl1 Hc1].
    destruct (encode_align_total sp s) as (s' & E & L & _ & C); try lia.
    exists s'. split; [exact E |]. split; [exact L |]. rewrite C; lia. }
  destruct (mapM_spec (encode_align sp)
              (fun _ s' => len s' = sp /\ sp <= cap s')
              (zdrop (dataShards r) shards))
    as (y & Ey & Fy).
  { intros s Hin. rewrite Forall_forall in Hp.
    destruct (encode_align_total sp s) as (s' & E & L & C & _);
      [lia | apply Hp; exact Hin |].
    exists s'. split; [exact E |]. split; [exact L | exact C]. }
  rewrite mapM_app, Ex. cbn [bind]. rewrite Ey. cbn [bind].
  assert (Lx : zlen x = dataShards r).
  { rewrite <- (zlen_length _ _ (Forall2_length Fx)).
    rewrite (zlen_length _ _ Ld), zlen_ztake. lia. }
  assert (Ly : zlen y = parityShards r).
  { rewrite <- (zlen_length _ _ (Forall2_length Fy)).
    rewrite zlen_zdrop. lia. }
  pose proof (Hkeep (x ++ y)) as HK.
  destruct (Encode (ff_engine (rs r)) (x ++ y)) as [err2 shards2].
  cbn [snd] in HK.
  destruct err2 as [x0 |]; [eexists _, _, _; reflexivity |].
  apply Forall2_app_inv_l in HK.
  destruct HK as (x2 & y2 & Fx2 & Fy2 & ->).
  assert (Lx2 : zlen x2 = dataShards r)
    by (rewrite <- (zlen_length _ _ (Forall2_length Fx2)); exact Lx).
  assert (Ly2 : zlen y2 = parityShards r)
    by (rewrite <- (zlen_length _ _ (Forall2_length Fy2)); exact Ly).
  assert (Gx : Forall (fun s => len s = sp /\ blockSize r <= cap s) x).
  { eapply Forall2_right; [| exact Fx]; cbn; auto. }
  assert (Gy : Forall (fun s => len s = sp /\ sp <= cap s) y).
  { eapply Forall2_right; [| exact Fy]; cbn; auto. }
  assert (Gx2 : Forall (fun s => blockSize r <= cap s) x2).
  { clear - Gx Fx2. induction Fx2 as [| a b la lb [Hc Hl] _ IHF];
      constructor.
    - apply Forall_cons_iff in Gx. destruct Gx as [[_ G] _]. lia.
    - apply IHF. apply Forall_cons_iff in Gx. tauto. }
  assert (Gy2 : Forall (fun s => len s = sp /\ sp <= cap s) y2).
  { clear - Gy Fy2. induction Fy2 as [| a b la lb [Hc Hl] _ IHF];
      constructor.
    - apply Forall_cons_iff in Gy. destruct Gy as [[G1 G2] _]. lia.
    - apply IHF. apply Forall_cons_iff in Gy. tauto. }
  rewrite from_ok by (rewrite zlen_app; lia). cbn [bind].
  rewrite zdrop_app_r by lia. rewrite zdrop_nonpos by lia.
  unfold writeOutputs. fold sp.
  destruct (writeOutputs_loop_total sp ltac:(lia) outputs y2 0)
    as (e & o' & Eo & Lo).
  { eapply Forall_impl; [| exact Gy2]. cbn. intros s [_ H]. exact H. }
  { unfold zlen in *. lia. }
  rewrite Eo. cbn [bind].
  destruct e as [x0 |]; [eexists _, _, _; reflexivity |].
  apply IH.
  - lia.
  - rewrite (zlen_length _ _ Lr). exact Hli.
  - rewrite (zlen_length _ _ Lo). exact Hlo.
  - rewrite zlen_app. lia.
  - rewrite ztake_app_l by lia. rewrite ztake_all by lia. exact Gx2.
  - rewrite zdrop_app_r by lia. rewrite zdrop_nonpos by lia.
    eapply Forall_impl; [| exact Gy2]. cbn. intros s [H1 H2]. lia.
Qed.

(** X12: [encode] always comes back.  For an encoder as
    [newStreamEncoderFF8] builds it ([k >= 0] data and [m >= 0] parity
    shards, [k + m] in total, a positive block size that is a multiple
    of 64) over a codec whose [Encode] works in place, [encode] neither
    indexes out of range nor loops for ever, whatever the input streams
    and the output writers do. *)
Theorem encode_always_returns :
  forall (r : rsStreamFF8) (inputs : list (option Reader))
         (outputs : list (option Writer)),
    0 < blockSize r -> Z.rem (blockSize r) 64 = 0 ->
    0 <= dataShards r -> 0 <= parityShards r ->
    totalShards r = dataShards r + parityShards r ->
    keeps_shape (Encode (ff_engine (rs r))) ->
    exists e inputs' outputs',
      encode r inputs outputs = Ret (e, inputs', outputs').
Proof.
  intros r inputs outputs HB HBr Hk Hm Ht Hkeep.
  unfold encode, encode_with.
  destruct (Z.eqb_spec (zlen inputs) (dataShards r)) as [Hli | Hli];
    cbn [negb]; [| eexists _, _, _; reflexivity].
  destruct (Z.eqb_spec (zlen outputs) (parityShards r)) as [Hlo | Hlo];
    cbn [negb]; [| eexists _, _, _; reflexivity].
  pose proof (createSlice_caps r) as Hcaps.
  pose proof (zlen_createSlice r) as Hlen.
  rewrite mapM_reslice by (try lia; exact Hcaps). cbn [bind].
  apply encode_loop_total; try assumption.
  - rewrite stream_fuel_pending. lia.
  - rewrite zlen_map. lia.
  - apply Forall_ztake. apply caps_resliced. exact Hcaps.
  - apply Forall_zdrop. apply Forall_forall. intros s Hs.
    apply in_map_iff in Hs. destruct Hs as (s0 & <- & Hs0).
    rewrite Forall_forall in Hcaps. specialize (Hcaps s0 Hs0).
    cbn [len]. unfold cap in *. cbn [arr]. lia.
Qed.

Lemma encode_always_returns_witness :
  exists e inputs' outputs',
    encode sample_stream
      [Some (bytesReader (payload 70)); Some (bytesBuffer (payload 30))]
      [Some newBuffer]
    = Ret (e, inputs', outputs').
Proof.
  apply (encode_always_returns sample_stream
           [Some (bytesReader (payload 70)); Some (bytesBuffer (payload 30))]
           [Some newBuffer]).
  - cbn; lia.
  - reflexivity.
  - cbn; lia.
  - cbn; lia.
  - reflexivity.
  - intros shards. cbn. induction shards; constructor; auto.
Defined.

(** ** streaming8.go: reconstruct and reconstructData come back *)

Lemma recon_check_total k : forall inputs outputs i b,
  length inputs = length outputs ->
  exists e b', recon_check k i b inputs outputs = Ret (e, b').
Proof.
  induction inputs as [| inp inputs IH]; intros outputs i b Hl.
  - eexists _, _. reflexivity.
  - destruct outputs as [| out outputs]; [discriminate |].
    cbn [length] in Hl. injection Hl as Hl. cbn [recon_check].
    destruct (is_some inp && is_some out); [eexists _, _; reflexivity |].
    apply IH. exact Hl.
Qed.

Lemma data_check_total : forall inputs outputs,
  length inputs = length outputs ->
  exists e, data_check inputs outputs = Ret e.
Proof.
  induction inputs as [| inp inputs IH]; intros outputs Hl.
  - eexists. reflexivity.
  - destruct outputs as [| out outputs]; [discriminate |].
    cbn [length] in Hl. injection Hl as Hl. cbn [data_check].
    destruct (is_some inp && is_some out); [eexists; reflexivity |].
    apply IH. exact Hl.
Qed.

Lemma length_missing_of k : forall inputs outputs i,
  length inputs = length outputs ->
  length (missing_of k i inputs outputs) = length inputs.
Proof.
  induction inputs as [| inp inputs IH]; intros outputs i Hl.
  - reflexivity.
  - destruct outputs as [| out outputs]; [discriminate |].
    cbn [length] in Hl. injection Hl as Hl.
    cbn [missing_of length]. now rewrite IH.
Qed.

Lemma recon_write_total k size sp : 0 <= size <= sp -> forall outputs all i,
  Forall (fun b => sp <= cap b) all ->
  (length outputs <= length all)%nat ->
  exists e o',
    recon_write k size sp i outputs all = Ret (e, o') /\
    length o' = length outputs.
Proof.
  intros Hs. induction outputs as [| w outputs IH]; intros all i Hc Hl.
  - eexists _, _. split; reflexivity.
  - destruct all as [| b all]; [cbn in Hl; lia |].
    apply Forall_cons_iff in Hc. destruct Hc as [Hc1 Hc2].
    cbn [length] in Hl.
    pose proof (zlen_nonneg (arr b)) as Hn. fold (cap b) in Hn.
    cbn [recon_write tl]. destruct w as [w |].
    + rewrite reslice_ok by (destruct (i >=? k); lia). cbn [bind].
      destruct (Write w (bytes (mkSlice (arr b)
                                  (if i >=? k then sp else size))))
        as [[n err] w1].
      destruct err as [x |]; [eexists _, _; split; reflexivity |].
      destruct (negb (n =? (if i >=? k then sp else size)));
        [eexists _, _; split; reflexivity |].
      destruct (IH all (i + 1) Hc2 ltac:(lia)) as (e & o' & Eq & L).
      rewrite Eq. cbn [bind]. eexists _, _. split; [reflexivity |].
      cbn [length]. now rewrite L.
    + destruct (IH all (i + 1) Hc2 ltac:(lia)) as (e & o' & Eq & L).
      rewrite Eq. cbn [bind]. eexists _, _. split; [reflexivity |].
      cbn [length]. now rewrite L.
Qed.

Lemma data_write_total size : 0 <= size -> forall outputs all i,
  Forall (fun b => size <= cap b) all ->
  (length outputs <= length all)%nat ->
  exists e o',
    data_write size i outputs all = Ret (e, o') /\
    length o' = length outputs.
Proof.
  intros Hs. induction outputs as [| w outputs IH]; intros all i Hc Hl.
  - eexists _, _. split; reflexivity.
  - destruct all as [| b all]; [cbn in Hl; lia |].
    apply Forall_cons_iff in Hc. destruct Hc as [Hc1 Hc2].
    cbn [length] in Hl.
    pose proof (zlen_nonneg (arr b)) as Hn. fold (cap b) in Hn.
    cbn [data_write tl]. destruct w as [w |].
    + rewrite reslice_ok by lia. cbn [bind].
      destruct (Write w (bytes (mkSlice (arr b) size))) as [[n err] w1].
      destruct err as [x |]; [eexists _, _; split; reflexivity |].
      destruct (negb (n =? size)); [eexists _, _; split; reflexivity |].
      destruct (IH all (i + 1) Hc2 ltac:(lia)) as (e & o' & Eq & L).
      rewrite Eq. cbn [bind]. eexists _, _. split; [reflexivity |].
      cbn [length]. now rewrite L.
    + destruct (IH all (i + 1) Hc2 ltac:(lia)) as (e & o' & Eq & L).
      rewrite Eq. cbn [bind]. eexists _, _. split; [reflexivity |].
      cbn [length]. now rewrite L.
Qed.

Lemma keeps_caps_ge B (f : list slice -> option error * list slice) all :
  keeps_caps f ->
  Forall (fun s => B <= cap s) all ->
  Forall (fun s => B <= cap s) (snd (f all)) /\
  length (snd (f all)) = length all.
Proof.
  intros Hk Hc. specialize (Hk all). split.
  - induction Hk as [| a b la lb Hab _ IHF]; constructor.
    + apply Forall_cons_iff in Hc. destruct Hc as [Hc _]. lia.
    + apply IHF. apply Forall_cons_iff in Hc. tauto.
  - symmetry. eapply Forall2_length. exact Hk.
Qed.

Lemma reconstruct_loop_total (r : rsStreamFF8) :
  0 < blockSize r -> Z.rem (blockSize r) 64 = 0 ->
  keeps_caps (Reconstruct (ff_engine (rs r))) ->
  keeps_caps (ReconstructData (ff_engine (rs r))) ->
  forall fuel reconDataOnly all read inputs outputs,
    (pending inputs < fuel)%nat ->
    Forall (fun s => blockSize r <= cap s) all ->
    length all = length inputs ->
    length outputs = length inputs ->
    exists e inputs' outputs',
      reconstruct_loop fuel r reconDataOnly all read inputs outputs
      = Ret (e, inputs', outputs').
Proof.
  intros HB HBr HkR HkD.
  induction fuel as [| fuel IH];
    intros reconDataOnly all read inputs outputs Hf Hc Hl Hlo; [lia |].
  cbn [reconstruct_loop].
  destruct (read_blocks_total (blockSize r) HB inputs all 0 (-1) Hc Hl)
    as (e & size & all1 & inputs1 & Eq & Hok); [left; reflexivity |].
  rewrite Eq. cbn [bind].
  destruct (read_blocks_pending _ _ _ _ _ _ _ _ _ Eq) as [Hle Hlt].
  destruct e as [x |]; [eexists _, _, _; reflexivity |].
  destruct (Hok eq_refl) as (L1 & F1 & Hsz).
  destruct (read_blocks_lengths _ _ _ _ _ _ _ _ Eq) as [Lr Ld].
  destruct ((size =? -1) || (size =? 0)) eqn:Eend.
  { destruct (read =? 0); eexists _, _, _; reflexivity. }
  apply orb_false_iff in Eend. destruct Eend as [En1 En0].
  apply Z.eqb_neq in En1, En0.
  destruct Hsz as [Hsz | Hsz]; [contradiction |].
  destruct (shape_blocks_total (blockSize r) size all1 Hsz HBr F1)
    as (all2 & E2 & L2 & F2).
  rewrite E2. cbn [bind].
  pose proof (align64_bounds size ltac:(lia)) as [Ha _].
  assert (HaB : align64 size <= blockSize r) by (apply align64_le_block; lia).
  rewrite (mapM_id (even_block (align64 size)) all2).
  2:{ eapply Forall_impl; [| exact F2]. cbn. intros s [H _].
      now apply even_block_padded. }
  cbn [bind].
  assert (F2c : Forall (fun s => blockSize r <= cap s) all2).
  { eapply Forall_impl; [| exact F2]. cbn. intros s [_ H]. exact H. }
  set (res := if reconDataOnly
              then ReconstructData (ff_engine (rs r)) all2
              else Reconstruct (ff_engine (rs r)) all2).
  assert (Hres : Forall (fun s => blockSize r <= cap s) (snd res)
                 /\ length (snd res) = length all2).
  { unfold res. destruct reconDataOnly;
      apply keeps_caps_ge; assumption. }
  destruct res as [err all3]. cbn [snd] in Hres. destruct Hres as [F3 L3].
  destruct err as [x |]; [eexists _, _, _; reflexivity |].
  destruct (recon_write_total (dataShards r) size (align64 size)
              ltac:(lia) outputs all3 0)
    as (e & o' & Eo & Lo).
  { eapply Forall_impl; [| exact F3]. cbn. intros; lia. }
  { lia. }
  rewrite Eo. cbn [bind].
  destruct e as [x |]; [eexists _, _, _; reflexivity |].
  apply IH.
  - specialize (Hlt eq_refl En1). lia.
  - exact F3.
  - lia.
  - lia.
Qed.

Lemma skip_missing_rel (body : slice -> outcome slice)
    (R R' : bool -> slice -> Prop) :
  (forall s, R false s -> exists s', body s = Ret s' /\ R' false s') ->
  (forall s, R true s -> R' true s) ->
  forall missing all,
    Forall2 R missing all ->
    exists all', skip_missing body missing all = Ret all' /\
                 Forall2 R' missing all'.
Proof.
  intros Hb Ht missing all F.
  induction F as [| m s missing all Hms _ (all' & E & F')].
  - exists []. split; [reflexivity | constructor].
  - cbn [skip_missing]. destruct m.
    + cbn [bind]. rewrite E. cbn [bind]. exists (s :: all').
      split; [reflexivity |]. constructor; [apply Ht; exact Hms | exact F'].
    + destruct (Hb s Hms) as (s' & Es & Hs'). rewrite Es. cbn [bind].
      rewrite E. cbn [bind]. exists (s' :: all').
      split; [reflexivity |]. constructor; assumption.
Qed.

Lemma clear_missing_total B sp : sp <= B ->
  forall missing all,
    Forall2 (fun (m : bool) s => B <= cap s) missing all ->
    exists all', clear_missing sp missing all = Ret all' /\
                 Forall (fun s => B <= cap s) all' /\
                 length all' = length all.
Proof.
  intros Hsp missing all F.
  induction F as [| m s missing all Hms _ (all' & E & F' & L)].
  - exists []. split; [reflexivity |]. split; [constructor | reflexivity].
  - cbn [clear_missing].
    pose proof (zlen_nonneg (arr s)) as Hn. fold (cap s) in Hn.
    destruct m.
    + destruct (Z.ltb_spec (cap s) sp); [lia |].
      rewrite reslice_ok by lia. cbn [bind]. rewrite E. cbn [bind].
      eexists. split; [reflexivity |]. split.
      * constructor; [| exact F']. unfold cap. cbn [arr]. exact Hms.
      * cbn [length]. now rewrite L.
    + cbn [bind]. rewrite E. cbn [bind].
      eexists. split; [reflexivity |]. split.
      * constructor; [exact Hms | exact F'].
      * cbn [length]. now rewrite L.
Qed.

Lemma Forall2_const_l {A B} (P : B -> Prop) (l1 : list A) : forall l2,
  length l1 = length l2 -> Forall P l2 -> Forall2 (fun _ b => P b) l1 l2.
Proof.
  induction l1 as [| a l1 IH]; intros [| b l2] Hl F; try discriminate.
  - constructor.
  - cbn [length] in Hl. injection Hl as Hl.
    apply Forall_cons_iff in F. destruct F as [F1 F2].
    constructor; [exact F1 | apply IH; assumption].
Qed.

Lemma reconstructData_loop_total (r : rsStreamFF8) :
  0 < blockSize r -> Z.rem (blockSize r) 64 = 0 ->
  0 <= dataShards r ->
  keeps_caps (ReconstructData (ff_engine (rs r))) ->
  forall fuel missing all read inputs outputs,
    (pending inputs < fuel)%nat ->
    Forall (fun s => blockSize r <= cap s) all ->
    length all = length inputs ->
    length outputs = length inputs ->
    length missing = length inputs ->
    dataShards r <= zlen inputs ->
    exists e inputs' outputs',
      reconstructData_loop fuel r missing all read inputs outputs
      = Ret (e, inputs', outputs').
Proof.
  intros HB HBr Hk HkD.
  induction fuel as [| fuel IH];
    intros missing all read inputs outputs Hf Hc Hl Hlo Hlm Hkt; [lia |].
  cbn [reconstructData_loop].
  destruct (read_blocks_total (blockSize r) HB inputs all 0 (-1) Hc Hl)
    as (e & size & all1 & inputs1 & Eq & Hok); [left; reflexivity |].
  rewrite Eq. cbn [bind].
  destruct (read_blocks_pending _ _ _ _ _ _ _ _ _ Eq) as [Hle Hlt].
  destruct e as [x |]; [eexists _, _, _; reflexivity |].
  destruct (Hok eq_refl) as (L1 & F1 & Hsz).
  destruct (read_blocks_lengths _ _ _ _ _ _ _ _ Eq) as [Lr Ld].
  destruct ((size =? -1) || (size =? 0)) eqn:Eend.
  { destruct (read =? 0); eexists _, _, _; reflexivity. }
  apply orb_false_iff in Eend. destruct Eend as [En1 En0].
  apply Z.eqb_neq in En1, En0.
  destruct Hsz as [Hsz | Hsz]; [contradiction |].
  pose proof (align64_bounds size ltac:(lia)) as [Ha Har].
  assert (HaB : align64 size <= blockSize r) by (apply align64_le_block; lia).
  set (B := blockSize r) in *.
  set (R0 := fun (_ : bool) s => 0 <= len s <= B /\ B <= cap s).
  set (R1 := fun (m : bool) s =>
               if m then B <= cap s else len s = size /\ B <= cap s).
  set (R2 := fun (m : bool) s =>
               if m then B <= cap s else len s = align64 size /\ B <= cap s).
  assert (G0 : Forall2 R0 missing all1).
  { unfold R0.
    apply (Forall2_const_l (fun s => 0 <= len s <= B /\ B <= cap s));
      [lia | exact F1]. }
  destruct (skip_missing_rel (resize_block true size) R0 R1) with
    (missing := missing) (all := all1) as (all2 & E2 & G1); [| | exact G0 |].
  { intros s [Hl1 Hc1].
    destruct (resize_block_spec true size s) as (s' & E & L & C & _); try lia.
    exists s'. split; [exact E |]. split; [exact L | lia]. }
  { intros s [_ Hc1]. exact Hc1. }
  rewrite E2. cbn [bind].
  assert (Hpad : exists all3,
            (if negb (Z.rem size 64 =? 0)
             then (all <- skip_missing (pad_block size (align64 size))
                            missing all2 ;;
                   Ret (align64 size, all))
             else Ret (size, all2)) = Ret (align64 size, all3) /\
            Forall2 R2 missing all3).
  { destruct (Z.eqb_spec (Z.rem size 64) 0) as [Hr | Hr]; cbn [negb].
    - exists all2. rewrite (align64_fix size) by lia.
      split; [reflexivity |]. unfold R2. rewrite (align64_fix size) by lia.
      exact G1.
    - destruct (skip_missing_rel (pad_block size (align64 size)) R1 R2) with
        (missing := missing) (all := all2) as (all3 & E3 & G2);
        [| | exact G1 |].
      + intros s [Hl1 Hc1].
        destruct (pad_block_spec size (align64 size) s)
          as (s' & E & _ & L & C & _); try lia.
        exists s'. split; [exact E |]. split; [exact L | lia].
      + intros s Hc1. exact Hc1.
      + exists all3. rewrite E3. cbn [bind]. split; [reflexivity | exact G2]. }
  destruct Hpad as (all3 & -> & G2). cbn [bind].
  destruct (clear_missing_total B (align64 size) HaB missing all3)
    as (all4 & E4 & F4 & L4).
  { eapply Forall2_weaken; [| exact G2]. unfold R2.
    intros m s H. destruct m; [exact H | apply H]. }
  rewrite E4. cbn [bind].
  destruct (keeps_caps_ge B _ all4 HkD F4) as [F5 L5].
  destruct (ReconstructData (ff_engine (rs r)) all4) as [err all5].
  cbn [snd] in F5, L5.
  destruct err as [x |]; [eexists _, _, _; reflexivity |].
  assert (L3 : length all3 = length missing)
    by (symmetry; eapply Forall2_length; exact G2).
  assert (Hzo : zlen outputs = zlen inputs) by (unfold zlen; lia).
  rewrite upto_ok by lia. cbn [bind].
  destruct (data_write_total size ltac:(lia)
              (ztake (dataShards r) outputs) all5 0)
    as (e & o' & Eo & Lo).
  { eapply Forall_impl; [| exact F5]. cbn. intros; lia. }
  { assert (zlen (ztake (dataShards r) outputs) = dataShards r)
      by (rewrite zlen_ztake; lia).
    unfold zlen in *. lia. }
  rewrite Eo. cbn [bind].
  destruct e as [x |]; [eexists _, _, _; reflexivity |].
  apply IH.
  - specialize (Hlt eq_refl En1). lia.
  - exact F5.
  - lia.
  - rewrite length_app, Lo.
    assert (H1 : zlen (ztake (dataShards r) outputs) = dataShards r)
      by (rewrite zlen_ztake; lia).
    assert (H2 : zlen (zdrop (dataShards r) outputs)
                 = zlen outputs - dataShards r)
      by (rewrite zlen_zdrop; lia).
    unfold zlen in *. lia.
  - lia.
  - unfold zlen in *. lia.
Qed.

(** X13: [reconstruct] and [reconstructData] always come back.  For an
    encoder with a positive block size that is a multiple of 64 and
    [0 <= k <= n] over a codec whose [Reconstruct] and [ReconstructData]
    keep the capacities of the buffers they are given, both return --
    without indexing out of range or looping for ever -- whatever the
    input streams and output writers do. *)
Theorem reconstruct_always_returns :
  forall (r : rsStreamFF8) (inputs : list (option Reader))
         (outputs : list (option Writer)),
    0 < blockSize r -> Z.rem (blockSize r) 64 = 0 ->
    0 <= dataShards r <= totalShards r ->
    keeps_caps (Reconstruct (ff_engine (rs r))) ->
    keeps_caps (ReconstructData (ff_engine (rs r))) ->
    (exists e inputs' outputs',
       reconstruct r inputs outputs = Ret (e, inputs', outputs')) /\
    (exists e inputs' outputs',
       reconstructData r inputs outputs = Ret (e, inputs', outputs')).
Proof.
  intros r inputs outputs HB HBr Hk HkR HkD.
  pose proof (createSlice_caps r) as Hcaps.
  pose proof (zlen_createSlice r) as Hlen.
  split.
  - unfold reconstruct, reconstruct_with.
    destruct (Z.eqb_spec (zlen inputs) (totalShards r)) as [Hli | Hli];
      cbn [negb]; [| eexists _, _, _; reflexivity].
    destruct (Z.eqb_spec (zlen outputs) (totalShards r)) as [Hlo | Hlo];
      cbn [negb]; [| eexists _, _, _; reflexivity].
    destruct (recon_check_total (dataShards r) inputs outputs 0 true)
      as (e & b & ->); [unfold zlen in *; lia |].
    cbn [bind]. destruct e as [x |]; [eexists _, _, _; reflexivity |].
    apply reconstruct_loop_total; try assumption.
    + rewrite stream_fuel_pending. lia.
    + unfold zlen in *. lia.
    + unfold zlen in *. lia.
  - unfold reconstructData, reconstructData_with.
    destruct (Z.eqb_spec (zlen inputs) (totalShards r)) as [Hli | Hli];
      cbn [negb]; [| eexists _, _, _; reflexivity].
    destruct (Z.eqb_spec (zlen outputs) (totalShards r)) as [Hlo | Hlo];
      cbn [negb]; [| eexists _, _, _; reflexivity].
    destruct (data_check_total inputs outputs) as (e & ->);
      [unfold zlen in *; lia |].
    cbn [bind]. destruct e as [x |]; [eexists _, _, _; reflexivity |].
    destruct (Z.gtb_spec (dataShards r) (totalShards r)); [lia |].
    apply reconstructData_loop_total; try assumption; try lia.
    + rewrite stream_fuel_pending. lia.
    + unfold zlen in *. lia.
    + unfold zlen in *. lia.
    + apply length_missing_of. unfold zlen in *. lia.
Qed.

Lemma reconstruct_always_returns_witness :
  (exists e inputs' outputs',
     reconstruct sample_stream sample_readers
       [None; None; Some newBuffer] = Ret (e, inputs', outputs')) /\
  (exists e inputs' outputs',
     reconstructData sample_stream sample_readers
       [None; None; Some newBuffer] = Ret (e, inputs', outputs')).
Proof.
  apply (reconstruct_always_returns sample_stream sample_readers
           [None; None; Some newBuffer]).
  - cbn; lia.
  - reflexivity.
  - cbn; lia.
  - intros shards. cbn. induction shards; constructor; auto.
  - intros shards. cbn. induction shards; constructor; auto.
Defined.

(** ** galois_bridge.go: rsStream16.verify *)

Lemma read_blocks_short_caps B : 0 <= B -> forall readers dst i size,
  existsb is_some readers = true ->
  Forall (fun s => cap s < B) dst ->
  length dst = length readers ->
  read_blocks B i size readers dst = Panic.
Proof.
  intros HB. induction readers as [| rd readers IH]; intros dst i size He Hc Hl.
  - discriminate.
  - destruct dst as [| s dst]; [discriminate |].
    cbn [length] in Hl. injection Hl as Hl.
    apply Forall_cons_iff in Hc. destruct Hc as [Hc1 Hc2].
    pose proof (zlen_nonneg (arr s)) as Hn. fold (cap s) in Hn.
    cbn [read_blocks]. destruct rd as [reader |].
    + unfold reslice. destruct (Z.leb_spec B (cap s)); [lia |].
      rewrite andb_false_r. reflexivity.
    + cbn [existsb is_some orb] in He.
      rewrite reslice_ok by lia. cbn [bind].
      rewrite (IH dst (i + 1) size He Hc2 Hl). reflexivity.
Qed.

Lemma first_size_present B : forall readers sz,
  first_size sz (map (chunk_of B) readers) <> sz ->
  existsb is_some readers = true.
Proof.
  induction readers as [| rd readers IH]; intros sz H.
  - cbn in H. congruence.
  - destruct rd as [reader |]; [reflexivity |].
    cbn [map chunk_of first_size] in H.
    change (zlen (@nil Z)) with 0 in H. change (0 >? 0) with false in H.
    rewrite andb_false_r in H. cbn [existsb is_some orb].
    apply (IH sz H).
Qed.

Lemma existsb_advance B readers :
  existsb is_some (map (advance B) readers) = existsb is_some readers.
Proof.
  induction readers as [| [rd |] readers IH]; cbn; [reflexivity | reflexivity |].
  exact IH.
Qed.

(** X14: [rsStream16.verify] does not survive a short block row.  Let
    the shard streams end cleanly, let the first read that delivers
    bytes deliver [s] of them, and let [s] -- made even -- be no
    multiple of 64 and round up to less than the block size.  The round
    replaces every block by a fresh buffer of the rounded-up size, so
    when the codec accepts the row the next round's
    [all[i][:r.blockSize]] is out of range: the call panics instead of
    returning.  (The 8-bit [verify] tests the capacity, keeps its
    buffers, and returns.) *)
Theorem verify16_panics_after_short_round :
  forall (r : rsStream16) (shards : list (option Reader)),
    let B := blockSize16 r in
    let s := first_size (-1) (map (chunk_of B) shards) in
    let s2 := if Z.rem s 2 =? 0 then s else s + 1 in
    0 < B -> Z.rem B 64 = 0 ->
    zlen shards = totalShards16 r ->
    Forall clean shards ->
    0 < s -> Z.rem s2 64 <> 0 -> align64 s2 < B ->
    (forall all, Verify (ff_engine (rs16 r)) all = (true, None)) ->
    verify16 r shards = Panic.
Proof.
  intros r shards B s s2 HB HBr Hl Hclean Hs Hr Ha Hacc.
  unfold verify16. rewrite Hl, Z.eqb_refl. cbn [negb].
  assert (Hcaps : Forall (fun b => B <= cap b) (createSlice16 r)).
  { unfold createSlice16, AllocAligned. apply Forall_repeat.
    rewrite cap_make. lia. }
  assert (Hlen : length (createSlice16 r) = length shards).
  { unfold createSlice16, AllocAligned. rewrite repeat_length.
    unfold zlen in Hl. lia. }
  rewrite stream_fuel_pending. cbn [verify16_loop]. fold B.
  destruct (read_blocks_ok B shards (createSlice16 r) 0 (-1) HB Hclean
              Hcaps Hlen) as (all1 & Er & Fr).
  fold s in Er. rewrite Er. cbn [bind].
  destruct (read_blocks_pending _ _ _ _ _ _ _ _ _ Er) as [_ Hlt].
  destruct (Z.eqb_spec s (-1)); [lia |].
  destruct (Z.eqb_spec s 0); [lia |]. cbn [orb].
  assert (HsB : s <= B).
  { assert (Hch : Forall (fun c => zlen c <= B) (map (chunk_of B) shards)).
    { apply Forall_forall. intros c Hc. apply in_map_iff in Hc.
      destruct Hc as (o & <- & _). pose proof (zlen_chunk_of B o). lia. }
    destruct (first_size_bound B _ (-1) Hch) as [E | [_ E]]; fold s in E; lia. }
  (* resize *)
  destruct (mapM_spec (resize_block true s)
              (fun _ b => len b = s /\ B <= cap b) all1) as (all2 & E2 & F2).
  { intros b Hin.
    assert (Hb : 0 <= len b <= cap b /\ B <= cap b).
    { clear - Fr Hin. induction Fr as [| c b0 cs bs Hcb _ IHF];
        [contradiction |].
      destruct Hin as [<- | Hin]; [| apply IHF; exact Hin].
      destruct Hcb as (H1 & _ & H3 & H4). pose proof (zlen_nonneg c). lia. }
    destruct (resize_block_spec true s b) as (b' & E & L & C & _); try lia.
    exists b'. split; [exact E |]. split; [exact L | lia]. }
  assert (G2 : Forall (fun b => len b = s /\ B <= cap b) all2)
    by (eapply Forall2_right; [| exact F2]; cbn; auto).
  unfold shape_blocks16. rewrite E2. cbn [bind].
  (* make the size even *)
  assert (Hodd : exists all3,
            (if negb (Z.rem s 2 =? 0)
             then (all <- mapM (pad_block_readInputs s (s + (2 - Z.rem s 2)))
                            all2 ;;
                   Ret (s + (2 - Z.rem s 2), all))
             else Ret (s, all2)) = Ret (s2, all3) /\
            Forall (fun b => len b = s2 /\ B <= cap b) all3 /\
            length all3 = length all2).
  { unfold s2. destruct (Z.eqb_spec (Z.rem s 2) 0) as [E0 | E0]; cbn [negb].
    - exists all2. split; [reflexivity |]. split; [exact G2 | reflexivity].
    - assert (E1 : Z.rem s 2 = 1)
        by (revert E0; Z.to_euclidean_division_equations; lia).
      rewrite E1. replace (s + (2 - 1)) with (s + 1) by lia.
      assert (HsB1 : s + 1 <= B)
        by (revert HBr E1; Z.to_euclidean_division_equations; lia).
      destruct (mapM_spec (pad_block_readInputs s (s + 1))
                  (fun _ b => len b = s + 1 /\ B <= cap b) all2)
        as (all3 & E3 & F3).
      { intros b Hin. rewrite Forall_forall in G2.
        destruct (G2 b Hin) as [L C].
        destruct (pad_block_spec s (s + 1) b) as (b' & _ & E & L' & C' & _);
          try lia.
        exists b'. split; [exact E |]. split; [exact L' | lia]. }
      rewrite E3. cbn [bind]. exists all3. split; [reflexivity |].
      split; [eapply Forall2_right; [| exact F3]; cbn; auto |].
      symmetry. eapply Forall2_length. exact F3. }
  destruct Hodd as (all3 & -> & G3 & L3). cbn [bind].
  assert (Hs2 : 0 < s2) by (unfold s2; destruct (Z.rem s 2 =? 0); lia).
  destruct (Z.eqb_spec (Z.rem s2 64) 0) as [| _]; [contradiction |].
  cbn [negb].
  pose proof (align64_bounds s2 ltac:(lia)) as [Hab Har].
  assert (Hgt : s2 < align64 s2).
  { destruct (Z.eq_dec (align64 s2) s2) as [E | E]; [| lia].
    rewrite E in Har. contradiction. }
  (* every block becomes a fresh buffer of the rounded-up size *)
  destruct (mapM_spec (pad_block_verify16 (align64 s2))
              (fun _ b => cap b = align64 s2) all3) as (all4 & E4 & F4).
  { intros b Hin. rewrite Forall_forall in G3. destruct (G3 b Hin) as [L C].
    unfold pad_block_verify16.
    destruct (Z.gtb_spec (len b) 0); [| lia].
    destruct (Z.ltb_spec (len b) (align64 s2)); [| lia].
    destruct (Z.ltb_spec (align64 s2) 0); [lia |]. cbn [bind].
    unfold zero_range. cbn [len copy make].
    destruct (Z.leb_spec (align64 s2) (align64 s2)); [| lia].
    eexists. split; [reflexivity |].
    unfold cap, copy, make. cbn [arr len].
    rewrite zlen_app, zlen_ztake, zlen_zdrop, zlen_zeros.
    pose proof (zlen_nonneg (bytes b)). lia. }
  rewrite E4. cbn [bind]. rewrite Hacc. cbn [negb is_some orb].
  assert (Hp : exists f, pending shards = S f).
  { specialize (Hlt eq_refl ltac:(lia)).
    destruct (pending shards); [lia | eexists; reflexivity]. }
  destruct Hp as (f & ->). cbn [verify16_loop]. fold B.
  rewrite (read_blocks_short_caps B ltac:(lia)); [reflexivity | | |].
  - rewrite existsb_advance. apply (first_size_present B shards (-1)).
    fold s. lia.
  - eapply Forall2_right; [| exact F4]. cbn. intros _ b H. lia.
  - rewrite length_map.
    rewrite <- (Forall2_length F4), L3, <- (Forall2_length F2).
    rewrite <- (Forall2_length Fr). apply length_map.
Qed.

Lemma verify16_panics_after_short_round_witness :
  verify16 (mkStream16 sample_ff 2 1 3 256) sample_readers = Panic.
Proof.
  apply (verify16_panics_after_short_round
           (mkStream16 sample_ff 2 1 3 256) sample_readers).
  - cbn; lia.
  - reflexivity.
  - reflexivity.
  - repeat constructor.
  - vm_compute; reflexivity.
  - vm_compute; discriminate.
  - vm_compute; reflexivity.
  - reflexivity.
Defined.

(** ** galois_bridge.go: rsStream16.reconstruct *)

Lemma read_blocks16_ok B readers : forall dst i size,
  0 < B ->
  Forall clean readers ->
  Forall (fun s => B <= cap s) dst ->
  length dst = length readers ->
  exists dst',
    read_blocks16 B i size readers dst
    = Ret (None, first_size16 size (map (chunk_of B) readers), dst',
           map (advance B) readers) /\
    Forall2 (block_read B) (map (chunk_of B) readers) dst'.
Proof.
  induction readers as [| rd readers IH]; intros dst i size HB Hc Hcap Hl.
  - destruct dst; [| discriminate]. exists []. split; [reflexivity | constructor].
  - destruct dst as [| s dst]; [discriminate |].
    apply Forall_cons_iff in Hc; destruct Hc as [Hc1 Hc2].
    apply Forall_cons_iff in Hcap; destruct Hcap as [Hs1 Hs2].
    cbn [length] in Hl; injection Hl as Hl.
    pose proof (zlen_nonneg (arr s)) as Hn. fold (cap s) in Hn.
    cbn [read_blocks16 map].
    destruct rd as [rd |].
    + cbn in Hc1.
      rewrite reslice_ok by lia. cbn [bind].
      destruct (ReadFull_clean rd B Hc1 HB) as (e & -> & ->).
      set (got := ztake B (rdata rd)).
      assert (Hg : 0 <= zlen got <= B)
        by (unfold got; rewrite zlen_ztake; pose proof (zlen_nonneg (rdata rd)); lia).
      assert (Hcs : cap (store s got) = cap s).
      { unfold store, cap; cbn [arr].
        rewrite zlen_app, zlen_zdrop. unfold cap in *. lia. }
      rewrite reslice_ok by lia. cbn [bind].
      destruct (IH dst (i + 1)
                  (if (zlen got >? 0) && (size =? 0) then zlen got else size)
                  HB Hc2 Hs2 Hl) as (dst' & E & F).
      rewrite E. cbn [bind].
      eexists; split; [reflexivity |].
      constructor; [| exact F].
      cbn [chunk_of]. fold got. unfold block_read. cbn [len].
      split; [reflexivity |]. split; [| split; [lia |]].
      * unfold bytes; cbn [len arr store].
        rewrite ztake_app_l by lia. apply ztake_all; lia.
      * unfold cap in *; cbn [arr]. exact (eq_ind_r (fun z => B <= z) Hs1 Hcs).
    + rewrite reslice_ok by lia. cbn [bind].
      destruct (IH dst (i + 1) size HB Hc2 Hs2 Hl) as (dst' & E & F).
      cbn [chunk_of first_size16]. change (zlen (@nil Z)) with 0.
      change (0 >? 0) with false. cbn [andb].
      rewrite E. cbn [bind].
      eexists; split; [reflexivity |].
      constructor; [| exact F].
      unfold block_read. cbn [len arr]. change (zlen (@nil Z)) with 0.
      split; [reflexivity |]. split; [| split; [lia | exact Hs1]].
      unfold bytes; cbn [len arr]. apply ztake_nonpos; lia.
Qed.

Lemma first_size16_bound B chunks : forall size,
  Forall (fun c => zlen c <= B) chunks ->
  first_size16 size chunks = size \/
  (size = 0 /\ 0 < first_size16 size chunks <= B).
Proof.
  induction chunks as [| c chunks IH]; intros size Hc; [left; reflexivity |].
  apply Forall_cons_iff in Hc. destruct Hc as [Hc1 Hc2].
  cbn [first_size16].
  destruct (Z.gtb_spec (zlen c) 0) as [Hp | Hp];
    destruct (Z.eqb_spec size 0) as [Hz | Hz]; cbn [andb];
    try (destruct (IH size Hc2) as [E | E]; [left; exact E | right; exact E]).
  destruct (IH (zlen c) Hc2) as [E | [E _]]; [| lia].
  right. split; [exact Hz |]. rewrite E. lia.
Qed.

Section ShapeRecon16.

Variables (B sp : Z).
Hypothesis Hsp : 0 < sp <= B.

Lemma shape_recon16_block c b :
  block_read B c b -> c <> [] ->
  exists b',
    (if len b =? 0 then Ret b
     else if len b <? sp then
       s' <- extend true b sp ;; zero_range s' (len b) sp
     else if len b >? sp then reslice b sp
     else Ret b) = Ret b' /\
    (len b =? 0) = false /\
    bytes b' = ztake sp c ++ zeros (sp - zlen c) /\
    len b' = sp /\ B <= cap b'.
Proof.
  intros (Hl & Hb & HcB & Hc) Hne.
  pose proof (zlen_nonneg c) as Hc0.
  assert (Hpos : 0 < zlen c).
  { destruct c; [congruence |]. rewrite zlen_cons.
    pose proof (zlen_nonneg c). lia. }
  destruct (Z.eqb_spec (len b) 0); [lia |].
  destruct (Z.ltb_spec (len b) sp) as [Hlt | Hge].
  - rewrite bind_extend by lia.
    destruct (grow_zero b (len b) sp) as (b' & E & L & C & By); try lia.
    exists b'. split; [exact E |]. split; [reflexivity |].
    split; [| split; [exact L | lia]].
    rewrite By. fold (bytes b). rewrite Hb, Hl.
    rewrite (ztake_all sp c) by lia. reflexivity.
  - destruct (Z.gtb_spec (len b) sp) as [Hgt | Hle].
    + rewrite reslice_ok by lia. eexists. split; [reflexivity |].
      split; [reflexivity |]. split; [| split; [reflexivity |]].
      * unfold bytes. cbn [len arr].
        rewrite zeros_nonpos by lia. rewrite app_nil_r.
        rewrite <- Hb. unfold bytes. rewrite ztake_ztake.
        f_equal. lia.
      * unfold cap. cbn [arr]. exact Hc.
    + exists b. split; [reflexivity |]. split; [reflexivity |].
      split; [| split; [lia | exact Hc]].
      rewrite Hb. rewrite (ztake_all sp c) by lia.
      rewrite zeros_nonpos by lia. symmetry. apply app_nil_r.
Qed.

Lemma shape_recon16_ok : forall (mcs : list (bool * list Z)) all1,
  Forall2 (fun mc b => block_read B (snd mc) b) mcs all1 ->
  Forall (fun mc => fst mc = true \/ snd mc <> []) mcs ->
  exists blocks,
    shape_recon16 sp (map fst mcs) all1 = Ret (None, blocks) /\
    map bytes blocks = map (block16 sp) mcs /\
    Forall (fun b => B <= cap b) blocks /\
    length blocks = length all1.
Proof.
  intros mcs all1 F. induction F as [| [m c] b mcs all1 Hcb _ IH]; intros Hok.
  - exists []. split; [reflexivity |]. split; [reflexivity |].
    split; [constructor | reflexivity].
  - apply Forall_cons_iff in Hok. destruct Hok as [Hm Hok].
    destruct (IH Hok) as (blocks & E & By & C & L).
    cbn [fst snd] in Hcb, Hm.
    cbn [shape_recon16 map fst is_missing tl].
    destruct m.
    + destruct Hcb as (Hl & Hb & HcB & Hc).
      pose proof (zlen_nonneg c).
      rewrite reslice_ok by lia. cbn [bind]. rewrite E. cbn [bind].
      eexists. split; [reflexivity |]. cbn [map]. split; [| split].
      * rewrite By; f_equal; unfold block16, bytes; cbn [fst len arr];
          apply ztake_nonpos; lia.
      * constructor; [| exact C]. unfold cap. cbn [arr]. exact Hc.
      * cbn [length]. now rewrite L.
    + destruct Hm as [Hm | Hm]; [discriminate |].
      destruct (shape_recon16_block c b Hcb Hm) as (b' & Eb & E0 & Bb & Lb & Cb).
      rewrite E0. rewrite E0 in Eb.
      destruct (Z.ltb_spec (len b) sp) as [Hlt | Hge].
      * destruct (extend true b sp) as [x | |]; try discriminate.
        cbn [bind] in Eb |- *. rewrite Eb. cbn [bind]. rewrite E. cbn [bind].
        eexists. split; [reflexivity |]. cbn [map]. split; [| split].
        -- rewrite By; f_equal; exact Bb.
        -- constructor; assumption.
        -- cbn [length]. now rewrite L.
      * destruct (Z.gtb_spec (len b) sp) as [Hgt | Hle].
        -- rewrite Eb. cbn [bind]. rewrite E. cbn [bind].
           eexists. split; [reflexivity |]. cbn [map]. split; [| split].
           ++ rewrite By; f_equal; exact Bb.
           ++ constructor; assumption.
           ++ cbn [length]. now rewrite L.
        -- injection Eb as <-. rewrite E. cbn [bind].
           eexists. split; [reflexivity |]. cbn [map]. split; [| split].
           ++ rewrite By; f_equal; exact Bb.
           ++ constructor; assumption.
           ++ cbn [length]. now rewrite L.
Qed.

Lemma shape_recon16_nodata : forall (mcs : list (bool * list Z)) all1,
  Forall2 (fun mc b => block_read B (snd mc) b) mcs all1 ->
  Exists (fun mc => fst mc = false /\ snd mc = []) mcs ->
  exists rest, shape_recon16 sp (map fst mcs) all1
               = Ret (Some ErrShardNoData, rest).
Proof.
  intros mcs all1 F. induction F as [| [m c] b mcs all1 Hcb F' IH]; intros Hex.
  - inversion Hex.
  - cbn [fst snd] in Hcb.
    cbn [shape_recon16 map fst is_missing tl].
    destruct m.
    + apply Exists_cons in Hex. destruct Hex as [[Hm _] | Hex];
        [discriminate |].
      destruct (IH Hex) as (rest & E).
      destruct Hcb as (Hl & Hb & HcB & Hc). pose proof (zlen_nonneg c).
      rewrite reslice_ok by lia. cbn [bind]. rewrite E. cbn [bind].
      eexists. reflexivity.
    + destruct c as [| x c].
      * destruct Hcb as (Hl & _). change (zlen (@nil Z)) with 0 in Hl.
        rewrite Hl. cbn [Z.eqb]. eexists. reflexivity.
      * apply Exists_cons in Hex. destruct Hex as [[_ Hm] | Hex];
          [discriminate |].
        destruct (IH Hex) as (rest & E).
        destruct (shape_recon16_block (x :: c) b Hcb ltac:(discriminate))
          as (b' & Eb & E0 & Bb & Lb & Cb).
        rewrite E0. rewrite E0 in Eb.
        destruct (Z.ltb_spec (len b) sp) as [Hlt | Hge].
        -- destruct (extend true b sp) as [y | |]; try discriminate.
           cbn [bind] in Eb |- *. rewrite Eb. cbn [bind]. rewrite E.
           cbn [bind]. eexists. reflexivity.
        -- destruct (Z.gtb_spec (len b) sp) as [Hgt | Hle].
           ++ rewrite Eb. cbn [bind]. rewrite E. cbn [bind].
              eexists. reflexivity.
           ++ rewrite E. cbn [bind]. eexists. reflexivity.
Qed.

End ShapeRecon16.

Lemma missing16_of_flags : forall inputs outputs,
  length inputs = length outputs ->
  missing16_of inputs outputs = Ret (missing_flags inputs outputs).
Proof.
  induction inputs as [| inp inputs IH]; intros outputs Hl.
  - reflexivity.
  - destruct outputs as [| out outputs]; [discriminate |].
    cbn [length] in Hl. injection Hl as Hl.
    cbn [missing16_of tl]. rewrite (IH outputs Hl).
    destruct inp; reflexivity.
Qed.

Lemma missing_flags_none : forall inputs outputs,
  Forall (fun o => o = None) outputs ->
  existsb (fun m : bool => m) (missing_flags inputs outputs) = false.
Proof.
  induction inputs as [| inp inputs IH]; intros outputs Ho; [reflexivity |].
  destruct outputs as [| out outputs]; [reflexivity |].
  apply Forall_cons_iff in Ho. destruct Ho as [-> Ho].
  unfold missing_flags. cbn [combine map existsb fst snd is_some].
  rewrite andb_false_r. cbn [orb]. apply IH. exact Ho.
Qed.

Lemma recon_check_none k : forall inputs outputs i b,
  length inputs = length outputs ->
  Forall (fun o => o = None) outputs ->
  recon_check k i b inputs outputs = Ret (None, b).
Proof.
  induction inputs as [| inp inputs IH]; intros outputs i b Hl Ho.
  - reflexivity.
  - destruct outputs as [| out outputs]; [discriminate |].
    cbn [length] in Hl. injection Hl as Hl.
    apply Forall_cons_iff in Ho. destruct Ho as [-> Ho].
    cbn [recon_check is_some]. rewrite !andb_false_r.
    apply IH; assumption.
Qed.

Lemma length_missing_flags inputs outputs :
  length inputs = length outputs ->
  length (missing_flags inputs outputs) = length inputs.
Proof.
  intros H. unfold missing_flags. rewrite length_map, length_combine. lia.
Qed.

Lemma combine_block_read B : forall (missing : list bool) chunks all1,
  Forall2 (block_read B) chunks all1 ->
  length missing = length chunks ->
  Forall2 (fun (mc : bool * list Z) b => block_read B (snd mc) b)
    (combine missing chunks) all1 /\
  map fst (combine missing chunks) = missing.
Proof.
  intros missing chunks all1 F. revert missing.
  induction F as [| c b chunks all1 Hcb _ IH]; intros missing Hl.
  - destruct missing; [| discriminate]. split; [constructor | reflexivity].
  - destruct missing as [| m missing]; [discriminate |].
    cbn [length] in Hl. injection Hl as Hl.
    destruct (IH missing Hl) as [F' E].
    cbn [combine map fst]. split; [constructor; assumption |].
    now rewrite E.
Qed.

Lemma block_read_le B chunks all1 :
  Forall2 (block_read B) chunks all1 -> Forall (fun c => zlen c <= B) chunks.
Proof.
  induction 1 as [| c b chunks all1 (_ & _ & H & _) _ IH]; constructor;
    assumption.
Qed.

Lemma idle_no_data B : forall inputs outputs,
  0 < B ->
  Exists idle (combine inputs outputs) ->
  Exists (fun mc : bool * list Z => fst mc = false /\ snd mc = [])
    (combine (missing_flags inputs outputs) (map (chunk_of B) inputs)).
Proof.
  intros inputs outputs HB.
  revert outputs.
  induction inputs as [| inp inputs IH]; intros outputs Hex.
  - inversion Hex.
  - destruct outputs as [| out outputs]; [inversion Hex |].
    unfold missing_flags. cbn [combine map fst snd] in Hex |- *.
    apply Exists_cons in Hex. destruct Hex as [Hi | Hex].
    + apply Exists_cons_hd. unfold idle in Hi. cbn [fst snd] in Hi |- *.
      destruct inp as [rd |].
      * split; [reflexivity |]. cbn [chunk_of]. rewrite Hi.
        unfold ztake. apply firstn_nil.
      * subst out. split; reflexivity.
    + apply Exists_cons_tl. apply IH. exact Hex.
Qed.

Lemma aligned16 s :
  0 <= s -> (if negb (Z.rem s 64 =? 0) then align64 s else s) = align64 s.
Proof.
  intros H. destruct (Z.eqb_spec (Z.rem s 64) 0) as [E | E]; [| reflexivity].
  cbn [negb]. symmetry. apply align64_fix; assumption.
Qed.

(** X15: [rsStream16.reconstruct] with no output writer.  When both
    slices have [totalShards] slots and every output is nil, the call
    returns nil at once: no stream is read and the codec is not invoked,
    whatever inputs are absent. *)
Theorem reconstruct16_without_outputs :
  forall (r : rsStream16) (inputs : list (option Reader))
         (outputs : list (option Writer)),
    zlen inputs = totalShards16 r ->
    zlen outputs = totalShards16 r ->
    0 <= blockSize16 r ->
    Forall (fun o => o = None) outputs ->
    reconstruct16 r inputs outputs = Ret (None, inputs, outputs).
Proof.
  intros r inputs outputs Hi Ho HB Hn.
  unfold reconstruct16. rewrite Hi, Ho, Z.eqb_refl. cbn [negb].
  replace (blockSize16 r <? 0) with false by (symmetry; apply Z.ltb_ge; lia).
  rewrite andb_false_r.
  assert (Hl : length inputs = length outputs)
    by (apply length_zlen; lia).
  rewrite (recon_check_none (dataShards16 r) inputs outputs 0 true Hl Hn).
  cbn [bind]. rewrite (missing16_of_flags inputs outputs Hl). cbn [bind].
  rewrite (missing_flags_none inputs outputs Hn). reflexivity.
Qed.

(** X16: [rsStream16.reconstruct] wants every slot served.  Let the
    arguments be well formed (both of [totalShards] slots, no slot both
    an input and an output, no stream failing), the block size a
    positive multiple of 64, and at least one shard to rebuild.  If some
    slot is idle -- it has neither a stream nor a writer, or its stream
    has no byte left -- the call reads one block row from the streams and
    returns [ErrShardNoData], without invoking the codec or writing. *)
Theorem reconstruct16_idle_slot_is_no_data :
  forall (r : rsStream16) (inputs : list (option Reader))
         (outputs : list (option Writer)),
    let B := blockSize16 r in
    zlen inputs = totalShards16 r ->
    zlen outputs = totalShards16 r ->
    0 < B -> Z.rem B 64 = 0 ->
    no_clash inputs outputs ->
    Forall clean inputs ->
    existsb (fun m => m) (missing_flags inputs outputs) = true ->
    Exists idle (combine inputs outputs) ->
    reconstruct16 r inputs outputs
    = Ret (Some ErrShardNoData, map (advance B) inputs, outputs).
Proof.
  intros r inputs outputs B Hi Ho HB H64 Hnc Hcl Hm Hidle.
  unfold reconstruct16. rewrite Hi, Ho, Z.eqb_refl. cbn [negb].
  fold B.
  replace (B <? 0) with false by (symmetry; apply Z.ltb_ge; lia).
  rewrite andb_false_r.
  assert (Hl : length inputs = length outputs)
    by (apply length_zlen; lia).
  destruct (recon_check_clear (dataShards16 r) inputs outputs 0 true Hnc)
    as (b & ->).
  cbn [bind]. rewrite (missing16_of_flags inputs outputs Hl). cbn [bind].
  rewrite Hm. cbn [negb].
  rewrite stream_fuel_pending. cbn [reconstruct16_loop]. fold B.
  set (all := repeat (make B) (Z.to_nat (totalShards16 r))).
  assert (Hcaps : Forall (fun s => B <= cap s) all).
  { apply Forall_repeat. rewrite cap_make. lia. }
  assert (Hla : length all = length inputs).
  { unfold all. rewrite repeat_length. unfold zlen in Hi. lia. }
  destruct (read_blocks16_ok B inputs all 0 0 HB Hcl Hcaps Hla)
    as (all1 & E & F).
  rewrite E. cbn [bind].
  set (s := first_size16 0 (map (chunk_of B) inputs)).
  destruct (Z.eqb_spec s 0) as [Hs | Hs]; [reflexivity |].
  destruct (first_size16_bound B (map (chunk_of B) inputs) 0
              (block_read_le B _ _ F)) as [Hz | [_ Hb]];
    [fold s in Hz; lia |].
  fold s in Hb.
  rewrite (aligned16 s) by lia.
  assert (Hlm : length (missing_flags inputs outputs)
                = length (map (chunk_of B) inputs)).
  { rewrite length_map. apply length_missing_flags. exact Hl. }
  destruct (combine_block_read B _ _ _ F Hlm) as [F' Ef].
  assert (Hsp : 0 < align64 s <= B).
  { pose proof (align64_bounds s ltac:(lia)).
    pose proof (align64_le_block B s HB H64 ltac:(lia)). lia. }
  destruct (shape_recon16_nodata B (align64 s) Hsp _ _ F'
              (idle_no_data B inputs outputs HB Hidle)) as (rest & Es).
  rewrite Ef in Es. rewrite Es. reflexivity.
Qed.

Lemma reconstruct16_without_outputs_witness :
  reconstruct16 (mkStream16 sample_ff 2 1 3 128)
    [Some (mkReader [1; 2; 3] false None); None; None] [None; None; None]
  = Ret (None, [Some (mkReader [1; 2; 3] false None); None; None],
         [None; None; None]).
Proof.
  apply (reconstruct16_without_outputs (mkStream16 sample_ff 2 1 3 128)
           [Some (mkReader [1; 2; 3] false None); None; None]
           [None; None; None]).
  - reflexivity.
  - reflexivity.
  - cbn; lia.
  - repeat constructor.
Defined.

Lemma reconstruct16_idle_slot_is_no_data_witness :
  let r := mkStream16 (mkFF8 4 2 6 idle_engine) 4 2 6 128 in
  let inputs :=
    [Some (bytesReader (payload 70)); None; Some (bytesReader (payload 70));
     Some (bytesReader (payload 70)); Some (bytesReader (payload 128));
     None] in
  let outputs := [None; Some (mkWriter [] None); None; None; None; None] in
  reconstruct16 r inputs outputs
  = Ret (Some ErrShardNoData, map (advance 128) inputs, outputs).
Proof.
  intros r inputs outputs.
  apply (reconstruct16_idle_slot_is_no_data r inputs outputs).
  - reflexivity.
  - reflexivity.
  - cbn; lia.
  - reflexivity.
  - repeat constructor.
  - repeat constructor.
  - reflexivity.
  - do 5 apply Exists_cons_tl. apply Exists_cons_hd. reflexivity.
Defined.

(** X17: one round of [rsStream16.reconstruct].  Let no stream fail,
    let the block size [B] be a positive multiple of 64, let [s > 0] be
    the size the round fixes -- the length of the first read that
    delivers any byte -- and [s_padded] the next multiple of 64, and let
    every slot that is not to be rebuilt deliver at least one byte.
    Then the round reads every stream once and invokes the codec on
    these blocks: an empty block for a shard to rebuild; for the others
    the bytes [c] read from the stream, zero-extended to [s_padded] when
    shorter and cut to [s_padded] (not to [s]) when longer.  The output
    loop then runs with [s] and [s_padded], and the next round starts
    from the advanced streams with [read + s]. *)
Theorem reconstruct16_round :
  forall (r : rsStream16) (inputs : list (option Reader))
         (missing : list bool) (all : list slice),
    let B := blockSize16 r in
    let chunks := map (chunk_of B) inputs in
    let s := first_size16 0 chunks in
    let s_padded := align64 s in
    let inputs' := map (advance B) inputs in
    0 < B -> Z.rem B 64 = 0 ->
    Forall clean inputs ->
    Forall (fun b => B <= cap b) all ->
    length all = length inputs ->
    length missing = length inputs ->
    Forall (fun mc : bool * list Z => fst mc = true \/ snd mc <> [])
      (combine missing chunks) ->
    0 < s ->
    s <= B /\ s <= s_padded < s + 64 /\ Z.rem s_padded 64 = 0 /\
    exists blocks,
      map bytes blocks = map (block16 s_padded) (combine missing chunks) /\
      forall fuel rdo read outputs,
        reconstruct16_loop (S fuel) r rdo missing all read inputs outputs
        = let '(err, all') :=
            if rdo then ReconstructData (ff_engine (rs16 r)) blocks
            else Reconstruct (ff_engine (rs16 r)) blocks in
          match err with
          | Some _ => Ret (err, inputs', outputs)
          | None =>
              '(err, outputs') <-
                 recon_write16 (dataShards16 r) s s_padded 0 outputs missing
                   all' ;;
              match err with
              | Some _ => Ret (err, inputs', outputs')
              | None =>
                  reconstruct16_loop fuel r rdo missing all' (read + s)
                    inputs' outputs'
              end
          end.
Proof.
  intros r inputs missing all B chunks s s_padded inputs'
         HB H64 Hcl Hcaps Hla Hlm Hok Hs.
  destruct (read_blocks16_ok B inputs all 0 0 HB Hcl Hcaps Hla)
    as (all1 & E & F).
  fold chunks in E, F. fold s in E. fold inputs' in E.
  destruct (first_size16_bound B chunks 0 (block_read_le B _ _ F))
    as [Hz | [_ Hb]]; [fold s in Hz; lia |].
  fold s in Hb.
  pose proof (align64_bounds s ltac:(lia)) as Ha. fold s_padded in Ha.
  pose proof (align64_le_block B s HB H64 ltac:(lia)) as HaB.
  fold s_padded in HaB.
  split; [lia |]. split; [lia |]. split; [apply Ha |].
  assert (Hlm' : length missing = length chunks)
    by (unfold chunks; rewrite length_map; exact Hlm).
  destruct (combine_block_read B _ _ _ F Hlm') as [F' Ef].
  assert (Hsp : 0 < s_padded <= B) by lia.
  destruct (shape_recon16_ok B s_padded Hsp _ _ F' Hok)
    as (blocks & Es & By & _ & _).
  rewrite Ef in Es.
  exists blocks. split; [exact By |].
  intros fuel rdo read outputs.
  cbn [reconstruct16_loop]. fold B. rewrite E. cbn [bind].
  destruct (Z.eqb_spec s 0) as [H0 | _]; [lia |].
  rewrite (aligned16 s) by lia. fold s_padded.
  rewrite Es. cbn [bind]. reflexivity.
Qed.

Lemma reconstruct16_round_witness :
  let r := mkStream16 (mkFF8 4 2 6 idle_engine) 4 2 6 128 in
  let inputs :=
    [Some (bytesReader (payload 70)); None; Some (bytesReader (payload 128));
     Some (bytesReader (payload 30)); Some (bytesReader (payload 128));
     Some (bytesReader (payload 128))] in
  let missing := [false; true; false; false; false; false] in
  exists blocks,
    map bytes blocks
    = [payload 70 ++ zeros 58; []; payload 128; payload 30 ++ zeros 98;
       payload 128; payload 128] /\
    forall fuel,
      reconstruct16_loop (S fuel) r true missing
        (repeat (make 128) 6) 0 inputs
        [None; Some (mkWriter [] None); None; None; None; None]
      = let '(err, all') := ReconstructData (ff_engine (rs16 r)) blocks in
        match err with
        | Some _ =>
            Ret (err, map (advance 128) inputs,
                 [None; Some (mkWriter [] None); None; None; None; None])
        | None =>
            '(err, outputs') <-
               recon_write16 4 70 128 0
                 [None; Some (mkWriter [] None); None; None; None; None]
                 missing all' ;;
            match err with
            | Some _ => Ret (err, map (advance 128) inputs, outputs')
            | None =>
                reconstruct16_loop fuel r true missing all' (0 + 70)
                  (map (advance 128) inputs) outputs'
            end
        end.
Proof.
  intros r inputs missing.
  destruct (reconstruct16_round r inputs missing (repeat (make 128) 6))
    as (_ & _ & _ & blocks & By & H).
  - cbn; lia.
  - reflexivity.
  - repeat constructor.
  - repeat constructor; vm_compute; discriminate.
  - reflexivity.
  - reflexivity.
  - vm_compute.
    repeat (apply Forall_cons;
            [first [left; reflexivity | right; discriminate] |]).
    apply Forall_nil.
  - vm_compute; reflexivity.
  - exists blocks. split; [exact By |].
    intros fuel. exact (H fuel true 0 _).
Defined.

(** ** galois_bridge.go: rsStream16.reconstructData *)

Lemma reslice_inv s n s' :
  reslice s n = Ret s' -> s' = mkSlice (arr s) n /\ 0 <= n <= cap s.
Proof.
  unfold reslice.
  destruct (Z.leb_spec 0 n), (Z.leb_spec n (cap s)); cbn [andb];
    intros Hr; try discriminate.
  injection Hr as <-. split; [reflexivity | lia].
Qed.

Lemma zero_range_inv s lo hi s' :
  zero_range s lo hi = Ret s' -> 0 <= len s <= cap s ->
  len s' = len s /\ cap s' = cap s.
Proof.
  unfold zero_range. intros H Hw.
  destruct (Z.leb_spec hi lo).
  - injection H as <-. split; reflexivity.
  - destruct (Z.leb_spec 0 lo), (Z.leb_spec hi (len s)); cbn [andb] in H;
      try discriminate.
    injection H as <-. cbn [len]. split; [reflexivity |].
    unfold cap in *. cbn [arr].
    rewrite !zlen_app, zlen_ztake, zlen_zeros, zlen_zdrop. lia.
Qed.

Lemma extend_inv s n s' :
  extend true s n = Ret s' -> 0 <= len s <= cap s ->
  len s' = n /\ n <= cap s' /\ 0 <= n.
Proof.
  unfold extend. cbn [andb]. intros H Hw.
  destruct (Z.ltb_spec (cap s) n).
  - destruct (Z.ltb_spec n 0); [discriminate |].
    injection H as <-. unfold copy, make, cap. cbn [len arr].
    split; [reflexivity |]. split; [| lia].
    assert (Hb : zlen (bytes s) = len s).
    { unfold bytes. rewrite zlen_ztake. unfold cap in Hw. lia. }
    rewrite zlen_app, zlen_ztake, zlen_zdrop, zlen_zeros, Hb. lia.
  - apply reslice_inv in H. destruct H as [-> H].
    unfold cap in *. cbn [len arr]. lia.
Qed.

Lemma resize_block_wf size s s' :
  0 < size -> 0 <= len s <= cap s ->
  resize_block true size s = Ret s' ->
  len s' = size /\ size <= cap s'.
Proof.
  intros Hs Hw. unfold resize_block.
  destruct (Z.eqb_spec (len s) 0) as [E0 | E0].
  - destruct (reslice s size) as [x | |] eqn:Ex; try discriminate.
    cbn [bind]. intros Hz.
    apply reslice_inv in Ex. destruct Ex as [-> Hx].
    apply zero_range_inv in Hz; [| unfold cap; cbn [len arr]; exact Hx].
    unfold cap in *. cbn [len arr] in Hz. lia.
  - destruct (Z.ltb_spec (len s) size).
    + destruct (extend true s size) as [x | |] eqn:Ex; try discriminate.
      cbn [bind]. intros Hz.
      apply extend_inv in Ex; [| exact Hw].
      apply zero_range_inv in Hz; lia.
    + destruct (Z.gtb_spec (len s) size).
      * intros Hx. apply reslice_inv in Hx. destruct Hx as [-> Hx].
        unfold cap. cbn [len arr]. unfold cap in Hx. lia.
      * intros Hx. injection Hx as <-. lia.
Qed.

Lemma pad_block_same size s :
  0 < size -> len s = size -> size <= cap s ->
  pad_block size size s = Ret s.
Proof.
  intros Hs Hl Hc. unfold pad_block.
  destruct (Z.gtb_spec (len s) 0); [| lia].
  rewrite bind_extend by lia. rewrite reslice_ok by lia. cbn [bind].
  unfold zero_range. rewrite Z.leb_refl.
  destruct s as [a l]. cbn [len arr] in *. subst l. reflexivity.
Qed.

Lemma skip_missing_pad_same size : 0 < size ->
  forall missing all1 all2,
    Forall (fun s => 0 <= len s <= cap s) all1 ->
    skip_missing (resize_block true size) missing all1 = Ret all2 ->
    skip_missing (pad_block size size) missing all2 = Ret all2.
Proof.
  intros Hs missing all1. revert missing.
  induction all1 as [| s all1 IH]; intros missing all2 Hw H.
  - destruct missing; cbn [skip_missing] in H; injection H as <-;
      reflexivity.
  - destruct missing as [| m missing]; cbn [skip_missing] in H;
      [discriminate |].
    apply Forall_cons_iff in Hw. destruct Hw as [Hw1 Hw2].
    destruct (if m then Ret s else resize_block true size s)
      as [s2 | |] eqn:E1; try discriminate.
    cbn [bind] in H.
    destruct (skip_missing (resize_block true size) missing all1)
      as [rest | |] eqn:E2; try discriminate.
    cbn [bind] in H. injection H as <-.
    cbn [skip_missing]. rewrite (IH missing rest Hw2 E2).
    destruct m.
    + reflexivity.
    + destruct (resize_block_wf size s s2 Hs Hw1 E1) as [Hl Hc].
      rewrite (pad_block_same size s2 Hs Hl Hc). reflexivity.
Qed.

Lemma skip_missing_length (body : slice -> outcome slice) :
  forall missing all all',
    skip_missing body missing all = Ret all' -> length all' = length all.
Proof.
  intros missing all. revert missing.
  induction all as [| s all IH]; intros missing all' H.
  - destruct missing; cbn [skip_missing] in H; injection H as <-;
      reflexivity.
  - destruct missing as [| m missing]; cbn [skip_missing] in H;
      [discriminate |].
    destruct (if m then Ret s else body s) as [s2 | |]; try discriminate.
    cbn [bind] in H.
    destruct (skip_missing body missing all) as [rest | |] eqn:E;
      try discriminate.
    cbn [bind] in H. injection H as <-. cbn [length].
    now rewrite (IH missing rest E).
Qed.

Lemma clear_missing_length a :
  forall missing all all',
    clear_missing a missing all = Ret all' -> length all' = length all.
Proof.
  induction missing as [| m missing IH]; intros all all' H;
    cbn [clear_missing] in H.
  - injection H as <-. reflexivity.
  - destruct all as [| s all].
    + destruct m; [discriminate |]. apply (IH [] all' H).
    + destruct (if m
                then if cap s <? a then Ret (mkSlice (zeros a) 0)
                     else reslice s 0
                else Ret s) as [s2 | |]; try discriminate.
      cbn [bind] in H.
      destruct (clear_missing a missing all) as [rest | |] eqn:E;
        try discriminate.
      cbn [bind] in H. injection H as <-. cbn [length].
      now rewrite (IH all rest E).
Qed.

Lemma read_blocks_wf B : forall readers dst i size sz d' r',
  read_blocks B i size readers dst = Ret (None, sz, d', r') ->
  length dst = length readers ->
  (size = -1 \/ 0 < size) ->
  Forall (fun s => 0 <= len s <= cap s) d' /\ (sz = -1 \/ 0 < sz).
Proof.
  induction readers as [| rd readers IH]; intros dst i size sz d' r' H Hl Hs;
    cbn [read_blocks] in H.
  - injection H as <- <- _. destruct dst; [| discriminate].
    split; [constructor | exact Hs].
  - destruct dst as [| s dst]; [discriminate |].
    cbn [length] in Hl. injection Hl as Hl.
    destruct rd as [reader |].
    + destruct (reslice s B) as [x | |]; try discriminate. cbn [bind] in H.
      destruct (ReadFull reader B) as [[got err] reader'].
      destruct (is_some err && negb (is_err err EOF)
                && negb (is_err err ErrUnexpectedEOF)) eqn:Ee.
      * destruct err; [discriminate | discriminate].
      * destruct (reslice (store s got) (zlen got)) as [s2 | |] eqn:E2;
          try discriminate.
        cbn [bind] in H.
        destruct (read_blocks B (i + 1)
                    (if (size =? -1) && (zlen got >? 0) then zlen got
                     else size) readers dst)
          as [[[[e1 sz1] d1] r1] | |] eqn:E1; try discriminate.
        cbn [bind] in H. injection H as -> -> <- <-.
        destruct (IH dst (i + 1) _ sz d1 r1 E1 Hl) as [F Hz].
        { destruct (Z.eqb_spec size (-1)), (Z.gtb_spec (zlen got) 0);
            cbn [andb]; lia. }
        split; [| exact Hz]. constructor; [| exact F].
        apply reslice_inv in E2. destruct E2 as [-> E2].
        unfold cap in *. cbn [len arr] in *. exact E2.
    + destruct (reslice s 0) as [s2 | |] eqn:E2; try discriminate.
      cbn [bind] in H.
      destruct (read_blocks B (i + 1) size readers dst)
        as [[[[e1 sz1] d1] r1] | |] eqn:E1; try discriminate.
      cbn [bind] in H. injection H as -> -> <- <-.
      destruct (IH dst (i + 1) size sz d1 r1 E1 Hl Hs) as [F Hz].
      split; [| exact Hz]. constructor; [| exact F].
      apply reslice_inv in E2. destruct E2 as [-> E2].
      unfold cap in *. cbn [len arr] in *. exact E2.
Qed.

Lemma rem64_even a : Z.rem a 64 = 0 -> Z.rem a 2 = 0.
Proof. intros H. Z.to_euclidean_division_equations. lia. Qed.

Lemma align64_rem x : Z.rem (align64 x) 64 = 0.
Proof. unfold align64. apply Z.rem_mul. lia. Qed.

Lemma reconstructData16_loop_eq (r16 : rsStream16) (r8 : rsStreamFF8) :
  rs16 r16 = rs r8 -> dataShards16 r16 = dataShards r8 ->
  blockSize16 r16 = blockSize r8 ->
  keeps_count (ReconstructData (ff_engine (rs r8))) ->
  forall fuel missing all read inputs outputs,
    length all = length inputs ->
    reconstructData16_loop fuel r16 missing all read inputs outputs
    = reconstructData_loop fuel r8 missing all read inputs outputs.
Proof.
  intros Hrs Hk HB Hcount.
  induction fuel as [| fuel IH]; intros missing all read inputs outputs Hl;
    [reflexivity |].
  cbn [reconstructData16_loop reconstructData_loop]. rewrite Hrs, Hk, HB.
  destruct (read_blocks (blockSize r8) 0 (-1) inputs all)
    as [[[[e sz] all1] inputs1] | |] eqn:ER; try reflexivity.
  cbn [bind]. destruct e as [e |]; [reflexivity |].
  destruct ((sz =? -1) || (sz =? 0)) eqn:Ez; [reflexivity |].
  apply orb_false_iff in Ez. destruct Ez as [Ez1 Ez0].
  apply Z.eqb_neq in Ez1, Ez0.
  destruct (read_blocks_wf _ _ _ _ _ _ _ _ ER Hl (or_introl eq_refl))
    as [Hw Hsz].
  assert (Hpos : 0 < sz) by lia.
  destruct (read_blocks_lengths _ _ _ _ _ _ _ _ ER) as [Hli Hla].
  destruct (skip_missing (resize_block true sz) missing all1)
    as [all2 | |] eqn:ES; try reflexivity.
  cbn [bind].
  pose proof (skip_missing_length _ _ _ _ ES) as Hl2.
  assert (Hshape :
    (all <- skip_missing
              (pad_block sz
                 (if negb (Z.rem (if negb (Z.rem sz 64 =? 0)
                                  then align64 sz else sz) 2 =? 0)
                  then (if negb (Z.rem sz 64 =? 0)
                        then align64 sz else sz) + 1
                  else if negb (Z.rem sz 64 =? 0) then align64 sz else sz))
              missing all2 ;;
     Ret (if negb (Z.rem (if negb (Z.rem sz 64 =? 0)
                          then align64 sz else sz) 2 =? 0)
          then (if negb (Z.rem sz 64 =? 0) then align64 sz else sz) + 1
          else if negb (Z.rem sz 64 =? 0) then align64 sz else sz, all))
    = (if negb (Z.rem sz 64 =? 0) then
         all <- skip_missing (pad_block sz (align64 sz)) missing all2 ;;
         Ret (align64 sz, all)
       else Ret (sz, all2))).
  { destruct (Z.eqb_spec (Z.rem sz 64) 0) as [E64 | E64]; cbn [negb].
    - rewrite (rem64_even sz E64). cbn [Z.eqb negb].
      rewrite (skip_missing_pad_same sz Hpos missing all1 all2 Hw ES).
      reflexivity.
    - rewrite (rem64_even (align64 sz) (align64_rem sz)). cbn [Z.eqb negb].
      reflexivity. }
  set (a16 := if negb (Z.rem (if negb (Z.rem sz 64 =? 0)
                              then align64 sz else sz) 2 =? 0)
              then (if negb (Z.rem sz 64 =? 0) then align64 sz else sz) + 1
              else if negb (Z.rem sz 64 =? 0) then align64 sz else sz)
    in *.
  cbv zeta.
  destruct (skip_missing (pad_block sz a16) missing all2)
    as [all3 | |] eqn:EP; cbn [bind] in Hshape |- *; rewrite <- Hshape;
    cbn [bind]; try reflexivity.
  pose proof (skip_missing_length _ _ _ _ EP) as Hl3.
  destruct (clear_missing a16 missing all3) as [all4 | |] eqn:EC;
    cbn [bind]; try reflexivity.
  pose proof (clear_missing_length _ _ _ _ EC) as Hl4.
  pose proof (Hcount all4) as Hl5.
  destruct (ReconstructData (ff_engine (rs r8)) all4) as [err all5].
  cbn [snd] in Hl5.
  destruct err as [err |]; [reflexivity |].
  destruct (upto (dataShards r8) outputs) as [dataOut | |];
    cbn [bind]; try reflexivity.
  destruct (data_write sz 0 dataOut all5) as [[err2 dataOut'] | |];
    cbn [bind]; try reflexivity.
  destruct err2 as [err2 |]; [reflexivity |].
  apply IH. lia.
Qed.

(** X18: [rsStream16.reconstructData] behaves as the 8-bit
    [reconstructData].  For a 16-bit and an 8-bit stream encoder over
    the same codec, with the same shard counts and block size, and a
    codec whose [ReconstructData] hands back as many blocks as it gets,
    the two calls return the same result on every input: the same
    error, the same bytes taken from every stream and the same bytes
    written to every writer.  The 2-byte alignment step of the 16-bit
    text never changes a size, and its unguarded padding loop changes
    no block when the round's size is a multiple of 64. *)
Theorem reconstructData16_agrees :
  forall (r16 : rsStream16) (r8 : rsStreamFF8),
    rs16 r16 = rs r8 ->
    dataShards16 r16 = dataShards r8 ->
    totalShards16 r16 = totalShards r8 ->
    blockSize16 r16 = blockSize r8 ->
    keeps_count (ReconstructData (ff_engine (rs r8))) ->
    forall inputs outputs,
      reconstructData16 r16 inputs outputs
      = reconstructData r8 inputs outputs.
Proof.
  intros r16 r8 Hrs Hk Hn HB Hcount inputs outputs.
  unfold reconstructData16, reconstructData, reconstructData_with.
  rewrite Hk, Hn.
  destruct (Z.eqb_spec (zlen inputs) (totalShards r8)) as [Hi | Hi];
    cbn [negb]; [| reflexivity].
  destruct (negb (zlen outputs =? totalShards r8)); [reflexivity |].
  cbv zeta.
  destruct (data_check inputs outputs) as [e | |]; cbn [bind];
    try reflexivity.
  destruct e as [e |]; [reflexivity |].
  destruct (dataShards r8 >? totalShards r8); [reflexivity |].
  unfold createSlice16, createSlice. rewrite Hn, HB.
  apply (reconstructData16_loop_eq r16 r8 Hrs Hk HB Hcount).
  unfold AllocAligned. rewrite repeat_length. unfold zlen in Hi. lia.
Qed.

Lemma reconstructData16_agrees_witness :
  reconstructData16 (mkStream16 sample_ff 2 1 3 128)
    [Some (bytesReader (payload 300)); None;
     Some (bytesReader (payload 300))]
    [None; Some newBuffer; None]
  = reconstructData sample_stream
      [Some (bytesReader (payload 300)); None;
       Some (bytesReader (payload 300))]
      [None; Some newBuffer; None].
Proof.
  apply (reconstructData16_agrees (mkStream16 sample_ff 2 1 3 128)
           sample_stream); try reflexivity.
  intros shards. reflexivity.
Defined.

(** ** galois_bridge.go: rsStream16.encode *)

Lemma even_up_bounds B s :
  0 < s <= B -> Z.rem B 64 = 0 ->
  s <= even_up s <= s + 1 /\ even_up s <= B /\ Z.rem (even_up s) 2 = 0.
Proof.
  intros Hs HB. unfold even_up.
  destruct (Z.eqb_spec (Z.rem s 2) 0) as [E | E].
  - repeat split; lia.
  - Z.to_euclidean_division_equations. lia.
Qed.

Lemma even_up_code s :
  (if negb (Z.rem s 2 =? 0) then s + 1 else s) = even_up s.
Proof. unfold even_up. destruct (Z.rem s 2 =? 0); reflexivity. Qed.

Lemma even_fix a :
  Z.rem a 2 = 0 -> (if negb (Z.rem a 2 =? 0) then a + 1 else a) = a.
Proof. intros ->. reflexivity. Qed.

Lemma writeOutputs16_loop r writers src size :
  writeOutputs16 r writers src size
  = writeOutputs_loop (align64 size) 0 writers src.
Proof.
  unfold writeOutputs16.
  rewrite (even_fix (align64 size)
             (rem64_even _ (align64_rem size))).
  reflexivity.
Qed.

Section Round16.

Variables (r : rsStream16) (readers : list (option Reader)).
Let B := blockSize16 r.
Let chunks := map (chunk_of B) readers.
Let s := first_size (-1) chunks.
Let s2 := even_up s.
Let sp := align64 s2.

Hypothesis HB : 0 < B.
Hypothesis HB64 : Z.rem B 64 = 0.
Hypothesis Hclean : Forall clean readers.
Hypothesis Hs : 0 < s.

Lemma round16_sizes :
  s <= B /\ s <= s2 <= s + 1 /\ s2 <= B /\ Z.rem s2 2 = 0 /\
  s2 <= sp < s2 + 64 /\ Z.rem sp 64 = 0 /\ sp <= B.
Proof.
  assert (HsB : s <= B).
  { destruct (first_size_bound B chunks (-1)) as [E | [_ E]].
    - apply Forall_forall. intros c Hc. unfold chunks in Hc.
      apply in_map_iff in Hc. destruct Hc as (o & <- & _).
      pose proof (zlen_chunk_of B o). lia.
    - fold s in E. lia.
    - fold s in E. lia. }
  destruct (even_up_bounds B s (conj Hs HsB) HB64) as (H1 & H2 & H3).
  fold s2 in H1, H2, H3.
  pose proof (align64_bounds s2 ltac:(lia)) as [H4 H5]. fold sp in H4, H5.
  pose proof (align64_le_block B s2 HB HB64 ltac:(lia)) as H6. fold sp in H6.
  repeat split; try lia; assumption.
Qed.

Lemma readInputs16_ok dst :
  Forall (fun b => B <= cap b) dst ->
  length dst = length readers ->
  exists blocks,
    readInputs16 r readers dst
    = Ret (s2, None, blocks, map (advance B) readers) /\
    Forall2 (block_padded s2) chunks blocks.
Proof.
  intros Hcap Hlen.
  destruct round16_sizes as (HsB & Hs2 & Hs2B & Hev & Hsp & Hsp64 & HspB).
  destruct (read_blocks_ok B readers dst 0 (-1) HB Hclean Hcap Hlen)
    as (all1 & Er & Fr).
  fold chunks in Er, Fr. fold s in Er.
  destruct (shape_all B s2 false chunks all1 ltac:(lia) HspB Fr)
    as (all2 & blocks & E2 & E3 & F3).
  exists blocks. split; [| exact F3].
  unfold readInputs16. fold B. rewrite Er. cbn [bind].
  destruct (Z.eqb_spec s (-1)); [lia |].
  rewrite (even_up_code s). fold s2. rewrite E2. cbn [bind]. cbv zeta.
  rewrite Hev. cbn [Z.eqb negb]. rewrite orb_false_r.
  destruct (Z.eqb_spec (Z.rem s2 64) 0) as [E64 | E64]; cbn [negb].
  - subst blocks. reflexivity.
  - destruct E3 as [_ E3]. fold sp. fold sp in E3.
    rewrite (even_fix sp (rem64_even sp Hsp64)).
    rewrite E3. reflexivity.
Qed.

End Round16.

Lemma block_rezero s2 c (b : slice) :
  0 < s2 -> block_padded s2 c b ->
  ztake s2 (arr b) ++ zeros (align64 s2 - s2) = block s2 c.
Proof.
  intros Hs (Hl & Hb & Hc).
  pose proof (align64_bounds s2 ltac:(lia)) as [Ha _].
  pose proof (zlen_nonneg c) as Hc0.
  assert (E : ztake s2 (arr b) = ztake s2 (block s2 c)).
  { rewrite <- Hb. unfold bytes. rewrite ztake_ztake, Hl.
    f_equal. lia. }
  rewrite E. unfold block.
  rewrite (ztake_app_r s2 (ztake s2 c)) by (rewrite zlen_ztake; lia).
  rewrite zlen_ztake.
  replace (Z.min (Z.max 0 s2) (zlen c)) with (Z.min s2 (zlen c)) by lia.
  rewrite ztake_zeros. rewrite <- app_assoc. f_equal.
  replace (Z.min (s2 - Z.min s2 (zlen c)) (align64 s2 - Z.min s2 (zlen c)))
    with (s2 - Z.min s2 (zlen c)) by lia.
  rewrite zeros_app by lia. f_equal. lia.
Qed.

Lemma encode16_adjust_data k s2 : 0 < s2 ->
  forall chunks blocks,
    Forall2 (block_padded s2) chunks blocks ->
    forall i n rest,
      0 <= i -> i + zlen blocks <= k ->
      exists blocks',
        Forall2 (block_padded s2) chunks blocks' /\
        encode16_adjust k s2 (align64 s2) i (length blocks + n)
          (blocks ++ rest)
        = (rest' <- encode16_adjust k s2 (align64 s2) (i + zlen blocks) n
                      rest ;;
           Ret (blocks' ++ rest')).
Proof.
  intros Hs chunks blocks F.
  pose proof (align64_bounds s2 ltac:(lia)) as [Ha _].
  induction F as [| c b chunks blocks Hcb _ IH]; intros i n rest Hi Hk.
  - exists []. split; [constructor |].
    cbn [length plus app]. rewrite zlen_nil, Z.add_0_r.
    destruct (encode16_adjust k s2 (align64 s2) i n rest); reflexivity.
  - rewrite zlen_cons in Hk. pose proof (zlen_nonneg blocks) as Hbn.
    destruct (IH (i + 1) n rest ltac:(lia) ltac:(lia)) as (blocks' & F' & E').
    pose proof Hcb as (Hl & Hb & Hc).
    assert (Hb' : exists b',
      (s' <- reslice b (align64 s2) ;;
       if (i <? k) && (len s' >? s2)
       then zero_range s' s2 (align64 s2) else Ret s') = Ret b' /\
      block_padded s2 c b').
    { rewrite reslice_ok by lia. cbn [bind len].
      replace (i <? k) with true by (symmetry; apply Z.ltb_lt; lia).
      cbn [andb].
      destruct (Z.gtb_spec (align64 s2) s2) as [Hgt | Hle].
      - destruct (grow_zero b s2 (align64 s2)) as (b' & E & L & C & By);
          try lia.
        rewrite reslice_ok in E by lia. cbn [bind] in E.
        exists b'. split; [exact E |].
        split; [exact L |]. split; [| lia].
        rewrite By. apply block_rezero; assumption.
      - exists b. split; [| exact Hcb].
        destruct b as [a l]. cbn [len arr] in *. now subst l. }
    destruct Hb' as (b' & Eb & Hcb').
    exists (b' :: blocks'). split; [constructor; assumption |].
    cbn [length plus app encode16_adjust].
    destruct (Z.ltb_spec (cap b) (align64 s2)); [lia |].
    rewrite Eb. cbn [bind]. rewrite E'.
    rewrite zlen_cons.
    replace (i + (zlen blocks + 1)) with (i + 1 + zlen blocks) by lia.
    destruct (encode16_adjust k s2 (align64 s2) (i + 1 + zlen blocks) n rest);
      reflexivity.
Qed.

Lemma encode16_adjust_parity k s2 sp : 0 <= sp ->
  forall parity i,
    k <= i ->
    encode16_adjust k s2 sp i (length parity) parity
    = Ret (map (parity_block16 sp) parity).
Proof.
  intros Hsp. induction parity as [| b parity IH]; intros i Hi;
    [reflexivity |].
  cbn [length encode16_adjust map]. unfold parity_block16 at 1.
  destruct (Z.ltb_spec (cap b) sp).
  - destruct (Z.ltb_spec sp 0); [lia |]. cbn [bind].
    rewrite IH by lia. reflexivity.
  - rewrite reslice_ok by lia. cbn [bind len].
    replace (i <? k) with false by (symmetry; apply Z.ltb_ge; lia).
    cbn [andb bind]. rewrite IH by lia. reflexivity.
Qed.

Lemma len_parity_block16 sp b : len (parity_block16 sp b) = sp.
Proof. unfold parity_block16. destruct (cap b <? sp); reflexivity. Qed.

Lemma block_padded_bytes s2 chunks blocks :
  Forall2 (block_padded s2) chunks blocks ->
  map bytes blocks = map (block s2) chunks.
Proof.
  induction 1 as [| c b cs bs (_ & Hb & _) _ IH]; [reflexivity |].
  cbn [map]. now rewrite Hb, IH.
Qed.

(** X19: one round of [rsStream16.encode].  Let no stream fail, let the
    block size [B] be a positive multiple of 64, [s > 0] the length of
    the first read that delivers any byte, [s2] that size made even and
    [s_padded] the next multiple of 64; let the matrix hold
    [totalShards] buffers, the [k = dataShards] first ones of capacity
    [B] or more.  Then the round reads every stream once and invokes the
    codec on [k] data blocks of [s_padded] bytes -- the bytes read from
    each stream cut to [s2] (so one byte more than [s] when [s] is odd)
    or zero-extended, then zero-padded -- followed by the parity
    buffers at length [s_padded] (fresh ones where the capacity was
    smaller).  [writeOutputs] is called with [s2] and hands exactly
    [s_padded] bytes to every parity writer. *)
Theorem encode16_round :
  forall (r : rsStream16) (inputs : list (option Reader))
         (shards : list slice),
    let B := blockSize16 r in
    let k := dataShards16 r in
    let chunks := map (chunk_of B) inputs in
    let s := first_size (-1) chunks in
    let s2 := even_up s in
    let s_padded := align64 s2 in
    let inputs' := map (advance B) inputs in
    0 < B -> Z.rem B 64 = 0 ->
    Forall clean inputs ->
    0 < s ->
    zlen inputs = k ->
    zlen shards = totalShards16 r ->
    k <= zlen shards ->
    Forall (fun b => B <= cap b) (ztake k shards) ->
    (s <= s2 <= s + 1 /\ Z.rem s2 2 = 0 /\ s2 <= s_padded < s2 + 64 /\
     Z.rem s_padded 64 = 0 /\ s_padded <= B) /\
    (exists blocks,
       map bytes blocks = map (block s2) chunks /\
       Forall (fun b => len b = s_padded)
         (blocks ++ map (parity_block16 s_padded) (zdrop k shards)) /\
       forall fuel outputs,
         encode16_loop (S fuel) r shards inputs outputs
         = let '(err, shards') :=
             Encode (ff_engine (rs16 r))
               (blocks ++ map (parity_block16 s_padded) (zdrop k shards)) in
           match err with
           | Some _ => Ret (err, inputs', outputs)
           | None =>
               src <- from k shards' ;;
               '(err, outputs') <- writeOutputs16 r outputs src s2 ;;
               match err with
               | Some _ => Ret (err, inputs', outputs')
               | None => encode16_loop fuel r shards' inputs' outputs'
               end
           end) /\
    (forall (writers : list (option Writer)) (src : list slice),
       Forall willing writers ->
       Forall (fun b => s_padded <= cap b) src ->
       length src = length writers ->
       writeOutputs16 r writers src s2
       = Ret (None, feed_all writers
                      (map (fun b => ztake s_padded (arr b)) src))).
Proof.
  intros r inputs shards B k chunks s s2 s_padded inputs'
         HB HB64 Hclean Hs Hlk Hln Hkn Hcap.
  destruct (round16_sizes r inputs HB HB64 Hs)
    as (HsB & Hs2 & Hs2B & Hev & Hsp & Hsp64 & HspB).
  fold B chunks s s2 s_padded in HsB, Hs2, Hs2B, Hev, Hsp, Hsp64, HspB.
  pose proof (zlen_nonneg inputs) as Hin.
  split; [repeat split; try lia; assumption |]. split.
  - assert (Hlen : length (ztake k shards) = length inputs).
    { apply length_zlen. rewrite zlen_ztake. lia. }
    destruct (readInputs16_ok r inputs HB HB64 Hclean Hs (ztake k shards)
                Hcap Hlen) as (blocks & Eri & Fb).
    fold B chunks s s2 inputs' in Eri, Fb.
    assert (Hlb : length blocks = length (ztake k shards)).
    { rewrite Hlen. rewrite <- (Forall2_length Fb). apply length_map. }
    assert (Hzb : zlen blocks = k).
    { unfold zlen. rewrite Hlb, Hlen. exact Hlk. }
    destruct (encode16_adjust_data k s2 ltac:(lia) chunks blocks Fb 0
                (length (zdrop k shards)) (zdrop k shards)
                ltac:(lia) ltac:(lia)) as (blocks' & Fb' & Ea).
    fold s_padded in Ea.
    rewrite Z.add_0_l, Hzb in Ea.
    rewrite (encode16_adjust_parity k s2 s_padded ltac:(lia)) in Ea by lia.
    cbn [bind] in Ea.
    exists blocks'. split; [| split].
    + apply (block_padded_bytes s2 chunks blocks' Fb').
    + apply Forall_app. split.
      * eapply Forall2_right; [| exact Fb']. intros c b (Hl & _). exact Hl.
      * apply Forall_forall. intros b Hb. apply in_map_iff in Hb.
        destruct Hb as (b0 & <- & _). apply len_parity_block16.
    + intros fuel outputs. cbn [encode16_loop]. fold k B.
      rewrite upto_ok by lia. cbn [bind].
      rewrite Eri. cbn [bind is_err].
      assert (Hhas : existsb (fun b => len b >? 0) blocks = true).
      { assert (Fl : Forall (fun b => len b = s_padded) blocks).
        { eapply Forall2_right; [| exact Fb]. intros c b (Hl & _). exact Hl. }
        destruct blocks as [| b blocks0].
        - exfalso. rewrite zlen_nil in Hzb.
          assert (Hnil : inputs = []) by (apply zlen_zero_nil; lia).
          unfold s, chunks in Hs. rewrite Hnil in Hs. cbn in Hs. lia.
        - apply Forall_cons_iff in Fl. destruct Fl as [Hl _].
          cbn [existsb].
          destruct (Z.gtb_spec (len b) 0); [reflexivity | lia]. }
      rewrite Hhas. cbn [negb]. cbv zeta.
      rewrite Hev. cbn [Z.eqb negb].
      rewrite (aligned16 s2) by lia. fold s_padded.
      replace (Z.to_nat (totalShards16 r))
        with (length blocks + length (zdrop k shards))%nat.
      2:{ rewrite Hlb, <- length_app.
          unfold ztake, zdrop. rewrite firstn_skipn.
          unfold zlen in Hln. lia. }
      rewrite Ea. cbn [bind]. reflexivity.
  - intros writers src Hw Hc Hl.
    rewrite writeOutputs16_loop. fold s_padded.
    apply writeOutputs_loop_ok; try assumption. lia.
Qed.

Lemma encode16_round_witness :
  let r := mkStream16 sample_ff 2 1 3 128 in
  let inputs :=
    [Some (bytesReader (payload 71)); Some (bytesReader (payload 100))] in
  exists blocks,
    map bytes blocks
    = [payload 71 ++ zeros 57; payload 72 ++ zeros 56] /\
    forall fuel outputs,
      encode16_loop (S fuel) r (repeat (make 128) 3) inputs outputs
      = let '(err, shards') :=
          Encode (ff_engine (rs16 r)) (blocks ++ [make 128]) in
        match err with
        | Some _ => Ret (err, map (advance 128) inputs, outputs)
        | None =>
            src <- from 2 shards' ;;
            '(err, outputs') <- writeOutputs16 r outputs src 72 ;;
            match err with
            | Some _ => Ret (err, map (advance 128) inputs, outputs')
            | None =>
                encode16_loop fuel r shards' (map (advance 128) inputs)
                  outputs'
            end
        end.
Proof.
  intros r inputs.
  destruct (encode16_round r inputs (repeat (make 128) 3))
    as (_ & (blocks & By & _ & H) & _).
  - cbn; lia.
  - reflexivity.
  - repeat constructor.
  - vm_compute; reflexivity.
  - reflexivity.
  - reflexivity.
  - vm_compute; discriminate.
  - repeat constructor; vm_compute; discriminate.
  - exists blocks. split; [exact By |]. exact H.
Defined.

(** ** galois_bridge.go: rsStream16.encode comes back *)

Lemma readInputs16_total (r : rsStream16) readers dst :
  0 < blockSize16 r -> Z.rem (blockSize16 r) 64 = 0 ->
  Forall (fun s => blockSize16 r <= cap s) dst ->
  length dst = length readers ->
  exists size err dst' readers',
    readInputs16 r readers dst = Ret (size, err, dst', readers') /\
    (pending readers' <= pending readers)%nat /\
    (err = None ->
     0 < size <= blockSize16 r /\ Z.rem size 2 = 0 /\
     length readers' = length readers /\
     length dst' = length dst /\
     Forall (fun s => len s = align64 size /\ blockSize16 r <= cap s) dst' /\
     (pending readers' < pending readers)%nat).
Proof.
  intros HB HBr Hc Hl. unfold readInputs16.
  destruct (read_blocks_total (blockSize16 r) HB readers dst 0 (-1) Hc Hl)
    as (e & size & d1 & r1 & Eq & Hok); [left; reflexivity |].
  rewrite Eq. cbn [bind].
  destruct (read_blocks_pending _ _ _ _ _ _ _ _ _ Eq) as [Hle Hlt].
  destruct e as [x |].
  { eexists _, _, _, _. split; [reflexivity |].
    split; [exact Hle | discriminate]. }
  destruct (Hok eq_refl) as (L1 & F1 & Hsz).
  destruct (read_blocks_lengths _ _ _ _ _ _ _ _ Eq) as [Lr Ld].
  destruct (Z.eqb_spec size (-1)) as [En | En].
  { eexists _, _, _, _. split; [reflexivity |].
    split; [exact Hle | discriminate]. }
  destruct Hsz as [Hsz | Hsz]; [contradiction |].
  rewrite (even_up_code size).
  destruct (even_up_bounds (blockSize16 r) size Hsz HBr) as (He1 & He2 & He3).
  set (size2 := even_up size) in *.
  pose proof (align64_bounds size2 ltac:(lia)) as [Ha Har].
  assert (HaB : align64 size2 <= blockSize16 r)
    by (apply align64_le_block; lia).
  destruct (mapM_spec (resize_block false size2)
              (fun _ s' => len s' = size2 /\ blockSize16 r <= cap s') d1)
    as (d2 & E2 & F2).
  { intros s Hin. rewrite Forall_forall in F1.
    destruct (F1 s Hin) as [Hl1 Hc1].
    destruct (resize_block_spec false size2 s) as (s' & E & L & C & _);
      try lia.
    exists s'. split; [exact E |]. split; [exact L | lia]. }
  assert (L2 : length d2 = length d1)
    by (symmetry; eapply Forall2_length; exact F2).
  assert (F2' : Forall (fun s' => len s' = size2 /\ blockSize16 r <= cap s') d2)
    by (eapply Forall2_right; [| exact F2]; cbn; auto).
  rewrite E2. cbn [bind]. cbv zeta.
  rewrite He3. cbn [Z.eqb negb]. rewrite orb_false_r.
  destruct (Z.eqb_spec (Z.rem size2 64) 0) as [Hr | Hr]; cbn [negb].
  - eexists _, _, _, _. split; [reflexivity |]. split; [exact Hle |].
    intros _. split; [lia |]. split; [exact He3 |]. split; [exact Lr |].
    split; [lia |]. split; [| apply Hlt; [reflexivity | exact En]].
    rewrite (align64_fix size2) by lia. exact F2'.
  - rewrite (even_fix (align64 size2) (rem64_even _ Har)).
    destruct (mapM_spec (pad_block_readInputs size2 (align64 size2))
                (fun _ s' => len s' = align64 size2 /\
                             blockSize16 r <= cap s') d2)
      as (d3 & E3 & F3).
    { intros s Hin. rewrite Forall_forall in F2'.
      destruct (F2' s Hin) as [Hl2 Hc2].
      destruct (pad_block_spec size2 (align64 size2) s)
        as (s' & _ & E & L & C & _); try lia.
      exists s'. split; [exact E |]. split; [exact L | lia]. }
    rewrite E3. cbn [bind].
    eexists _, _, _, _. split; [reflexivity |]. split; [exact Hle |].
    intros _. split; [lia |]. split; [exact He3 |]. split; [exact Lr |].
    split; [| split; [| apply Hlt; [reflexivity | exact En]]].
    + rewrite <- Ld, <- L2. symmetry. eapply Forall2_length; exact F3.
    + eapply Forall2_right; [| exact F3]; cbn; auto.
Qed.

Lemma encode16_adjust_total k size sp : 0 <= size <= sp ->
  forall shards i,
    exists shards',
      encode16_adjust k size sp i (length shards) shards = Ret shards' /\
      Forall2 (fun a b => len b = sp /\ sp <= cap b /\
                          (sp <= cap a -> cap b = cap a)) shards shards'.
Proof.
  intros Hs. induction shards as [| s shards IH]; intros i.
  - exists []. split; [reflexivity | constructor].
  - destruct (IH (i + 1)) as (rest & Er & Fr).
    assert (Hstep : exists s',
      (if cap s <? sp then
         if sp <? 0 then Panic else Ret (copy (make sp) (bytes s))
       else
         s' <- reslice s sp ;;
         if (i <? k) && (len s' >? size) then zero_range s' size sp
         else Ret s') = Ret s' /\
      len s' = sp /\ sp <= cap s' /\ (sp <= cap s -> cap s' = cap s)).
    { destruct (Z.ltb_spec (cap s) sp) as [Hlt | Hge].
      - destruct (Z.ltb_spec sp 0); [lia |].
        eexists. split; [reflexivity |]. split; [reflexivity |].
        split; [| lia].
        unfold copy, make, cap. cbn [len arr].
        rewrite zlen_app, zlen_ztake, zlen_zdrop, zlen_zeros.
        pose proof (zlen_nonneg (bytes s)). lia.
      - rewrite reslice_ok by lia. cbn [bind len].
        assert (Hw : 0 <= len (mkSlice (arr s) sp)
                     <= cap (mkSlice (arr s) sp))
          by (unfold cap in *; cbn [len arr]; lia).
        destruct ((i <? k) && (sp >? size)).
        + destruct (zero_range (mkSlice (arr s) sp) size sp)
            as [z | |] eqn:Ez.
          * destruct (zero_range_inv _ _ _ _ Ez Hw) as [Hl Hc].
            exists z. split; [reflexivity |].
            unfold cap in *. cbn [len arr] in *. lia.
          * exfalso. unfold zero_range in Ez. cbn [len] in Ez.
            destruct (sp <=? size); [discriminate |].
            destruct (Z.leb_spec 0 size), (Z.leb_spec sp sp);
              cbn [andb] in Ez; try discriminate; lia.
          * exfalso. unfold zero_range in Ez.
            destruct (sp <=? size); [discriminate |].
            destruct ((0 <=? size)
                      && (sp <=? len (mkSlice (arr s) sp)));
              discriminate.
        + eexists. split; [reflexivity |].
          unfold cap in *. cbn [len arr]. lia. }
    destruct Hstep as (s' & Es & Hs').
    exists (s' :: rest). cbn [length encode16_adjust].
    rewrite Es. cbn [bind]. rewrite Er. cbn [bind].
    split; [reflexivity |]. constructor; assumption.
Qed.

Lemma encode16_loop_total (r : rsStream16) :
  0 < blockSize16 r -> Z.rem (blockSize16 r) 64 = 0 ->
  0 <= dataShards16 r -> 0 <= parityShards16 r ->
  totalShards16 r = dataShards16 r + parityShards16 r ->
  keeps_caps (Encode (ff_engine (rs16 r))) ->
  forall fuel shards inputs outputs,
    (pending inputs < fuel)%nat ->
    zlen inputs = dataShards16 r -> zlen outputs = parityShards16 r ->
    zlen shards = totalShards16 r ->
    Forall (fun s => blockSize16 r <= cap s)
      (ztake (dataShards16 r) shards) ->
    exists e inputs' outputs',
      encode16_loop fuel r shards inputs outputs = Ret (e, inputs', outputs').
Proof.
  intros HB HBr Hk Hm Ht Hkeep.
  induction fuel as [| fuel IH];
    intros shards inputs outputs Hf Hli Hlo Hls Hd; [lia |].
  cbn [encode16_loop]. rewrite upto_ok by lia. cbn [bind].
  destruct (readInputs16_total r inputs (ztake (dataShards16 r) shards)
              HB HBr Hd)
    as (size & err & dst' & inputs' & Eq & Hle & Hok).
  { apply length_zlen. rewrite zlen_ztake. lia. }
  rewrite Eq. cbn [bind].
  destruct (is_err err EOF); [eexists _, _, _; reflexivity |].
  destruct err as [x |]; [eexists _, _, _; reflexivity |].
  destruct (Hok eq_refl) as (Hsz & Hev & Lr & Ld & Fd & Hlt).
  destruct (negb (existsb (fun s => len s >? 0) dst'));
    [eexists _, _, _; reflexivity |].
  cbv zeta. rewrite Hev. cbn [Z.eqb negb].
  rewrite (aligned16 size) by lia.
  pose proof (align64_bounds size ltac:(lia)) as [Ha _].
  assert (HaB : align64 size <= blockSize16 r)
    by (apply align64_le_block; lia).
  set (sp := align64 size) in *.
  set (mat := dst' ++ zdrop (dataShards16 r) shards).
  assert (Lmat : zlen mat = totalShards16 r).
  { unfold mat. rewrite zlen_app, (zlen_length _ _ Ld), zlen_ztake,
      zlen_zdrop. lia. }
  replace (Z.to_nat (totalShards16 r)) with (length mat)
    by (unfold zlen in Lmat; lia).
  destruct (encode16_adjust_total (dataShards16 r) size sp ltac:(lia) mat 0)
    as (mat2 & Ea & Fa).
  rewrite Ea. cbn [bind].
  pose proof (Hkeep mat2) as HK.
  destruct (Encode (ff_engine (rs16 r)) mat2) as [err2 mat3].
  cbn [snd] in HK.
  destruct err2 as [x0 |]; [eexists _, _, _; reflexivity |].
  assert (L2 : zlen mat2 = totalShards16 r)
    by (rewrite <- (zlen_length _ _ (Forall2_length Fa)); exact Lmat).
  assert (L3 : zlen mat3 = totalShards16 r)
    by (rewrite <- (zlen_length _ _ (Forall2_length HK)); exact L2).
  assert (F3 : Forall2 (fun a c => sp <= cap c /\
                                   (sp <= cap a -> cap c = cap a))
                 mat mat3).
  { clear - Fa HK. revert mat3 HK.
    induction Fa as [| a b la lb (_ & H1 & H2) _ IHF]; intros mat3 HK;
      inversion HK; subst; constructor.
    - split; [lia |]. intros H. specialize (H2 H). lia.
    - apply IHF. assumption. }
  rewrite from_ok by lia. cbn [bind].
  rewrite writeOutputs16_loop. fold sp.
  destruct (writeOutputs_loop_total sp ltac:(lia) outputs
              (zdrop (dataShards16 r) mat3) 0)
    as (e & o' & Eo & Lo).
  { apply Forall_zdrop. eapply Forall2_right; [| exact F3].
    cbn. intros a c [H _]. exact H. }
  { apply Nat2Z.inj_le. fold (zlen outputs).
    fold (zlen (zdrop (dataShards16 r) mat3)).
    rewrite zlen_zdrop. lia. }
  rewrite Eo. cbn [bind].
  destruct e as [x0 |]; [eexists _, _, _; reflexivity |].
  apply IH.
  - lia.
  - rewrite (zlen_length _ _ Lr). exact Hli.
  - rewrite (zlen_length _ _ Lo). exact Hlo.
  - exact L3.
  - assert (Fd' : Forall (fun s => blockSize16 r <= cap s)
                    (ztake (dataShards16 r) mat)).
    { unfold mat. rewrite ztake_app_l
        by (rewrite (zlen_length _ _ Ld), zlen_ztake; lia).
      apply Forall_ztake. eapply Forall_impl; [| exact Fd].
      cbn. intros s [_ H]. exact H. }
    clear - F3 Fd' HaB. unfold ztake in *.
    revert Fd'. generalize (Z.to_nat (dataShards16 r)) as n.
    induction F3 as [| a c la lc [_ H] _ IHF]; intros n Fd'.
    + rewrite firstn_nil. constructor.
    + destruct n as [| n]; [constructor |].
      cbn [firstn] in Fd' |- *.
      apply Forall_cons_iff in Fd'. destruct Fd' as [Fa Fr].
      constructor; [| apply IHF; exact Fr].
      rewrite H by lia. exact Fa.
Qed.

(** X20: [rsStream16.encode] always comes back.  For an encoder as
    [newStreamEncoderFF16] builds it ([k >= 0] data and [m >= 0] parity
    shards, [k + m] in total, a positive block size that is a multiple
    of 64) over a codec whose [Encode] keeps the capacity of every
    buffer, [encode] neither indexes out of range nor loops for ever,
    whatever the input streams and the output writers do. *)
Theorem encode16_always_returns :
  forall (r : rsStream16) (inputs : list (option Reader))
         (outputs : list (option Writer)),
    0 < blockSize16 r -> Z.rem (blockSize16 r) 64 = 0 ->
    0 <= dataShards16 r -> 0 <= parityShards16 r ->
    totalShards16 r = dataShards16 r + parityShards16 r ->
    keeps_caps (Encode (ff_engine (rs16 r))) ->
    exists e inputs' outputs',
      encode16 r inputs outputs = Ret (e, inputs', outputs').
Proof.
  intros r inputs outputs HB HBr Hk Hm Ht Hkeep.
  unfold encode16.
  destruct (Z.eqb_spec (zlen inputs) (dataShards16 r)) as [Hli | Hli];
    cbn [negb]; [| eexists _, _, _; reflexivity].
  destruct (Z.eqb_spec (zlen outputs) (parityShards16 r)) as [Hlo | Hlo];
    cbn [negb]; [| eexists _, _, _; reflexivity].
  assert (Hcaps : Forall (fun s => blockSize16 r <= cap s) (createSlice16 r)).
  { unfold createSlice16, AllocAligned. apply Forall_repeat.
    rewrite cap_make. lia. }
  assert (Hlen : zlen (createSlice16 r) = totalShards16 r).
  { unfold createSlice16, AllocAligned. rewrite zlen_repeat. lia. }
  rewrite mapM_reslice by (try lia; exact Hcaps). cbn [bind].
  apply encode16_loop_total; try assumption.
  - rewrite stream_fuel_pending. lia.
  - rewrite zlen_map. lia.
  - apply Forall_ztake. apply caps_resliced. exact Hcaps.
Qed.

Lemma encode16_always_returns_witness :
  exists e inputs' outputs',
    encode16 (mkStream16 sample_ff 2 1 3 128)
      [Some (bytesReader (payload 71)); Some (bytesBuffer (payload 300))]
      [Some newBuffer]
    = Ret (e, inputs', outputs').
Proof.
  apply (encode16_always_returns (mkStream16 sample_ff 2 1 3 128)
           [Some (bytesReader (payload 71)); Some (bytesBuffer (payload 300))]
           [Some newBuffer]).
  - cbn; lia.
  - reflexivity.
  - cbn; lia.
  - cbn; lia.
  - reflexivity.
  - intros shards. cbn. induction shards; constructor; auto.
Defined.

(** ** galois_bridge.go: rsStream16.reconstruct comes back *)

Lemma read_blocks16_pending B :
  forall readers dst i size e size' dst' readers',
    read_blocks16 B i size readers dst = Ret (e, size', dst', readers') ->
    (pending readers' <= pending readers)%nat /\
    (size = 0 -> size' <> 0 -> (pending readers' < pending readers)%nat) /\
    (e = None ->
     length readers' = length readers /\ length dst' = length dst).
Proof.
  induction readers as [| rd readers IH];
    intros dst i size e size' dst' readers' H; cbn [read_blocks16] in H.
  - injection H as <- <- <- <-. split; [lia |].
    split; [congruence | split; reflexivity].
  - destruct dst as [| s dst]; [discriminate |].
    destruct rd as [reader |].
    + destruct (reslice s B) as [x | |]; try discriminate. cbn [bind] in H.
      destruct (ReadFull reader B) as [[got err] reader'] eqn:ER.
      destruct (ReadFull_rest _ _ _ _ _ ER) as [Hr Hg].
      destruct (is_some err && negb (is_err err EOF)
                && negb (is_err err ErrUnexpectedEOF)) eqn:Ee.
      * injection H as <- <- <- <-. cbn [pending fold_right].
        fold (pending readers). split; [lia |]. split; [congruence |].
        intros He. destruct err; discriminate.
      * destruct (reslice (store s got) (zlen got)) as [y | |];
          try discriminate. cbn [bind] in H.
        destruct (read_blocks16 B (i + 1)
                    (if (zlen got >? 0) && (size =? 0) then zlen got
                     else size) readers dst)
          as [[[[e1 sz1] d1] r1] | |] eqn:EL; try discriminate.
        cbn [bind] in H. injection H as <- <- <- <-.
        destruct (IH _ _ _ _ _ _ _ EL) as (Hle & Hlt & Hlen).
        cbn [pending fold_right]. fold (pending readers) (pending r1).
        split; [lia |]. split.
        -- intros Hs Hs'.
           destruct (Z.gtb_spec (zlen got) 0) as [Hpos | Hz];
             destruct (Z.eqb_spec size 0) as [_ | Hn]; cbn [andb] in *;
             try contradiction.
           ++ unfold zlen in Hpos. lia.
           ++ specialize (Hlt Hs Hs'). lia.
        -- intros He. destruct (Hlen He) as [L1 L2]. cbn [length]. lia.
    + destruct (reslice s 0) as [x | |]; try discriminate. cbn [bind] in H.
      destruct (read_blocks16 B (i + 1) size readers dst)
        as [[[[e1 sz1] d1] r1] | |] eqn:EL; try discriminate.
      cbn [bind] in H. injection H as <- <- <- <-.
      destruct (IH _ _ _ _ _ _ _ EL) as (Hle & Hlt & Hlen).
      cbn [pending fold_right]. fold (pending readers) (pending r1).
      split; [exact Hle |]. split; [exact Hlt |].
      intros He. destruct (Hlen He) as [L1 L2]. cbn [length]. lia.
Qed.

Lemma read_blocks16_total B : 0 < B -> forall readers dst i size,
  Forall (fun s => B <= cap s) dst ->
  length dst = length readers ->
  0 <= size <= B ->
  exists e size' dst' readers',
    read_blocks16 B i size readers dst = Ret (e, size', dst', readers') /\
    (e = None ->
     Forall (fun s => 0 <= len s <= B /\ B <= cap s) dst' /\
     0 <= size' <= B).
Proof.
  intros HB.
  induction readers as [| rd readers IH]; intros dst i size Hc Hl Hs.
  - destruct dst; [| discriminate]. cbn [read_blocks16].
    eexists _, _, _, _. split; [reflexivity |]. intros _.
    split; [constructor | exact Hs].
  - destruct dst as [| s dst]; [discriminate |].
    cbn [length] in Hl. injection Hl as Hl.
    apply Forall_cons_iff in Hc. destruct Hc as [Hcs Hc].
    pose proof (zlen_nonneg (arr s)) as Hcap0. fold (cap s) in Hcap0.
    cbn [read_blocks16]. destruct rd as [reader |].
    + rewrite reslice_ok by lia. cbn [bind].
      destruct (ReadFull reader B) as [[got err] reader'] eqn:ER.
      destruct (ReadFull_rest _ _ _ _ _ ER) as [_ Hg].
      pose proof (zlen_nonneg got) as Hg0.
      destruct (is_some err && negb (is_err err EOF)
                && negb (is_err err ErrUnexpectedEOF)) eqn:Eerr.
      * eexists _, _, _, _. split; [reflexivity |].
        intros He. destruct err; discriminate.
      * assert (Hst : cap (store s got) = cap s).
        { unfold cap, store. cbn [arr]. rewrite zlen_app, zlen_zdrop.
          fold (cap s). lia. }
        rewrite reslice_ok by (rewrite Hst; lia). cbn [bind].
        destruct (IH dst (i + 1)
                    (if (zlen got >? 0) && (size =? 0) then zlen got
                     else size) Hc Hl)
          as (e & sz & d1 & r1 & Eq & Hok).
        { destruct ((zlen got >? 0) && (size =? 0)); lia. }
        rewrite Eq. cbn [bind]. eexists _, _, _, _. split; [reflexivity |].
        intros He. destruct (Hok He) as (F & S').
        split; [| exact S'].
        constructor; [| exact F]. cbn [len]. unfold cap. cbn [arr].
        fold (cap (store s got)). rewrite Hst. lia.
    + rewrite reslice_ok by lia. cbn [bind].
      destruct (IH dst (i + 1) size Hc Hl Hs)
        as (e & sz & d1 & r1 & Eq & Hok).
      rewrite Eq. cbn [bind]. eexists _, _, _, _. split; [reflexivity |].
      intros He. destruct (Hok He) as (F & S').
      split; [| exact S'].
      constructor; [| exact F]. cbn [len]. unfold cap. cbn [arr].
      fold (cap s). lia.
Qed.

Lemma shape_recon16_total B sp : 0 < sp <= B ->
  forall all missing,
    Forall (fun s => 0 <= len s <= B /\ B <= cap s) all ->
    exists e all',
      shape_recon16 sp missing all = Ret (e, all') /\
      (e = None ->
       Forall (fun s => B <= cap s) all' /\ length all' = length all).
Proof.
  intros Hsp. induction all as [| s all IH]; intros missing Hw.
  - eexists _, _. split; [reflexivity |]. intros _.
    split; [constructor | reflexivity].
  - apply Forall_cons_iff in Hw. destruct Hw as [[Hl Hc] Hw].
    destruct (IH (tl missing) Hw) as (e & rest & Er & Hok).
    assert (Hdone : forall s',
      B <= cap s' ->
      exists e0 all',
        ('(e, rest') <- shape_recon16 sp (tl missing) all ;;
         Ret (e, s' :: rest')) = Ret (e0, all') /\
        (e0 = None ->
         Forall (fun s => B <= cap s) all' /\
         length all' = length (s :: all))).
    { intros s' Hc'. rewrite Er. cbn [bind]. eexists _, _.
      split; [reflexivity |]. intros He. destruct (Hok He) as [F L].
      split; [constructor; assumption | cbn [length]; now rewrite L]. }
    cbn [shape_recon16].
    destruct (is_missing missing).
    + rewrite reslice_ok by lia. cbn [bind].
      apply Hdone. unfold cap in *. cbn [arr]. exact Hc.
    + destruct (Z.eqb_spec (len s) 0).
      { eexists _, _. split; [reflexivity | discriminate]. }
      destruct (Z.ltb_spec (len s) sp).
      * rewrite extend_ok by lia.
        destruct (grow_zero s (len s) sp) as (s' & E & L & C & _); try lia.
        rewrite reslice_ok in E |- * by lia.
        cbn [bind] in E |- *. rewrite E. cbn [bind].
        apply Hdone. lia.
      * destruct (Z.gtb_spec (len s) sp).
        -- rewrite reslice_ok by lia. cbn [bind].
           apply Hdone. unfold cap in *. cbn [arr]. exact Hc.
        -- apply Hdone. exact Hc.
Qed.

Lemma recon_write16_total k size sp : 0 <= size <= sp ->
  forall outputs missing all i,
    Forall (fun b => sp <= cap b) all ->
    (length outputs <= length all)%nat ->
    exists e o',
      recon_write16 k size sp i outputs missing all = Ret (e, o') /\
      length o' = length outputs.
Proof.
  intros Hs. induction outputs as [| w outputs IH]; intros missing all i Hc Hl.
  - eexists _, _. split; reflexivity.
  - destruct all as [| b all]; [cbn in Hl; lia |].
    apply Forall_cons_iff in Hc. destruct Hc as [Hc1 Hc2].
    cbn [length] in Hl.
    pose proof (zlen_nonneg (arr b)) as Hn. fold (cap b) in Hn.
    destruct (IH (tl missing) all (i + 1) Hc2 ltac:(lia))
      as (e & o' & Eq & L).
    cbn [recon_write16 tl]. destruct w as [w |].
    + destruct (negb (is_missing missing)).
      * rewrite Eq. cbn [bind]. eexists _, _. split; [reflexivity |].
        cbn [length]. now rewrite L.
      * rewrite reslice_ok by (destruct (i >=? k); lia). cbn [bind].
        destruct (Write w (bytes (mkSlice (arr b)
                                    (if i >=? k then sp else size))))
          as [[n err] w1].
        destruct err as [x |]; [eexists _, _; split; reflexivity |].
        destruct (negb (n =? (if i >=? k then sp else size)));
          [eexists _, _; split; reflexivity |].
        rewrite Eq. cbn [bind]. eexists _, _. split; [reflexivity |].
        cbn [length]. now rewrite L.
    + rewrite Eq. cbn [bind]. eexists _, _. split; [reflexivity |].
      cbn [length]. now rewrite L.
Qed.

Lemma reconstruct16_loop_total (r : rsStream16) :
  0 < blockSize16 r -> Z.rem (blockSize16 r) 64 = 0 ->
  keeps_caps (Reconstruct (ff_engine (rs16 r))) ->
  keeps_caps (ReconstructData (ff_engine (rs16 r))) ->
  forall fuel rdo missing all read inputs outputs,
    (pending inputs < fuel)%nat ->
    Forall (fun s => blockSize16 r <= cap s) all ->
    length all = length inputs ->
    length outputs = length inputs ->
    exists e inputs' outputs',
      reconstruct16_loop fuel r rdo missing all read inputs outputs
      = Ret (e, inputs', outputs').
Proof.
  intros HB HBr Hk1 Hk2.
  induction fuel as [| fuel IH];
    intros rdo missing all read inputs outputs Hf Hc Hla Hlo; [lia |].
  cbn [reconstruct16_loop].
  destruct (read_blocks16_total (blockSize16 r) HB inputs all 0 0 Hc Hla
              ltac:(lia))
    as (e & size & all1 & inputs1 & Eq & Hok).
  rewrite Eq. cbn [bind].
  destruct (read_blocks16_pending _ _ _ _ _ _ _ _ _ Eq) as (Hle & Hlt & Hlen).
  destruct e as [x |]; [eexists _, _, _; reflexivity |].
  destruct (Hok eq_refl) as (F1 & Hsz).
  destruct (Hlen eq_refl) as (Li & La).
  destruct (Z.eqb_spec size 0) as [E0 | E0].
  { destruct (read =? 0); eexists _, _, _; reflexivity. }
  cbv zeta. rewrite (aligned16 size) by lia.
  pose proof (align64_bounds size ltac:(lia)) as [Ha _].
  assert (HaB : align64 size <= blockSize16 r)
    by (apply align64_le_block; lia).
  set (sp := align64 size) in *.
  destruct (shape_recon16_total (blockSize16 r) sp ltac:(lia) all1 missing F1)
    as (e2 & all2 & E2 & Hok2).
  rewrite E2. cbn [bind].
  destruct e2 as [x |]; [eexists _, _, _; reflexivity |].
  destruct (Hok2 eq_refl) as (F2 & L2).
  assert (Hcodec : exists err all3,
    (if rdo then ReconstructData (ff_engine (rs16 r)) all2
     else Reconstruct (ff_engine (rs16 r)) all2) = (err, all3) /\
    Forall (fun s => blockSize16 r <= cap s) all3 /\
    length all3 = length all2).
  { destruct rdo.
    - destruct (keeps_caps_ge (blockSize16 r) _ all2 Hk2 F2) as [G L].
      destruct (ReconstructData (ff_engine (rs16 r)) all2) as [err all3].
      exists err, all3. split; [reflexivity |]. split; assumption.
    - destruct (keeps_caps_ge (blockSize16 r) _ all2 Hk1 F2) as [G L].
      destruct (Reconstruct (ff_engine (rs16 r)) all2) as [err all3].
      exists err, all3. split; [reflexivity |]. split; assumption. }
  destruct Hcodec as (err & all3 & -> & F3 & L3).
  destruct err as [x |]; [eexists _, _, _; reflexivity |].
  destruct (recon_write16_total (dataShards16 r) size sp ltac:(lia)
              outputs missing all3 0)
    as (e4 & o4 & E4 & L4).
  { eapply Forall_impl; [| exact F3]. cbn. intros s H. lia. }
  { lia. }
  rewrite E4. cbn [bind].
  destruct e4 as [x |]; [eexists _, _, _; reflexivity |].
  apply IH.
  - specialize (Hlt eq_refl E0). lia.
  - exact F3.
  - lia.
  - lia.
Qed.

(** X21: [rsStream16.reconstruct] always comes back.  For an encoder
    with a positive block size that is a multiple of 64, over a codec
    whose [Reconstruct] and [ReconstructData] keep the capacities of the
    buffers they are given, [reconstruct] returns without indexing out
    of range or looping for ever, whatever the input streams and the
    output writers do. *)
Theorem reconstruct16_always_returns :
  forall (r : rsStream16) (inputs : list (option Reader))
         (outputs : list (option Writer)),
    0 < blockSize16 r -> Z.rem (blockSize16 r) 64 = 0 ->
    keeps_caps (Reconstruct (ff_engine (rs16 r))) ->
    keeps_caps (ReconstructData (ff_engine (rs16 r))) ->
    exists e inputs' outputs',
      reconstruct16 r inputs outputs = Ret (e, inputs', outputs').
Proof.
  intros r inputs outputs HB HBr Hk1 Hk2.
  unfold reconstruct16.
  destruct (Z.eqb_spec (zlen inputs) (totalShards16 r)) as [Hli | Hli];
    cbn [negb]; [| eexists _, _, _; reflexivity].
  destruct (Z.eqb_spec (zlen outputs) (totalShards16 r)) as [Hlo | Hlo];
    cbn [negb]; [| eexists _, _, _; reflexivity].
  replace (blockSize16 r <? 0) with false by (symmetry; apply Z.ltb_ge; lia).
  rewrite andb_false_r.
  assert (Hl : length inputs = length outputs) by (apply length_zlen; lia).
  destruct (recon_check_total (dataShards16 r) inputs outputs 0 true Hl)
    as (e & b & ->).
  cbn [bind]. destruct e as [x |]; [eexists _, _, _; reflexivity |].
  rewrite (missing16_of_flags inputs outputs Hl). cbn [bind].
  destruct (negb (existsb (fun m => m) (missing_flags inputs outputs)));
    [eexists _, _, _; reflexivity |].
  apply reconstruct16_loop_total; try assumption.
  - rewrite stream_fuel_pending. lia.
  - apply Forall_repeat. rewrite cap_make. lia.
  - rewrite repeat_length. unfold zlen in Hli. lia.
  - lia.
Qed.

Lemma reconstruct16_always_returns_witness :
  exists e inputs' outputs',
    reconstruct16 (mkStream16 sample_ff 2 1 3 128)
      [Some (bytesReader (payload 300)); None;
       Some (bytesReader (payload 300))]
      [None; Some newBuffer; None]
    = Ret (e, inputs', outputs').
Proof.
  apply (reconstruct16_always_returns (mkStream16 sample_ff 2 1 3 128)
           [Some (bytesReader (payload 300)); None;
            Some (bytesReader (payload 300))]
           [None; Some newBuffer; None]).
  - cbn; lia.
  - reflexivity.
  - intros shards. cbn. induction shards; constructor; auto.
  - intros shards. cbn. induction shards; constructor; auto.
Defined.

(** ** galois_bridge.go: the 16-bit adaptor on streams at EOF *)

Lemma read_blocks16_exhausted B readers : forall dst i size,
  0 < B ->
  Forall exhausted readers ->
  Forall (fun s => B <= cap s) dst ->
  (length readers <= length dst)%nat ->
  exists dst',
    read_blocks16 B i size readers dst = Ret (None, size, dst', readers).
Proof.
  induction readers as [| rd readers IH]; intros dst i size HB He Hc Hl.
  - exists dst. reflexivity.
  - destruct dst as [| s dst]; [cbn in Hl; lia |].
    apply Forall_cons_iff in He. destruct He as [He1 He2].
    apply Forall_cons_iff in Hc. destruct Hc as [Hc1 Hc2].
    cbn [length] in Hl.
    destruct (IH dst (i + 1) size HB He2 Hc2 ltac:(lia)) as (dst' & E).
    pose proof (zlen_nonneg (arr s)) as Hn. fold (cap s) in Hn.
    cbn [read_blocks16].
    destruct rd as [rd |].
    + destruct He1 as [Hd Hf].
      rewrite reslice_ok by lia.
      cbn [bind]. rewrite ReadFull_exhausted by assumption.
      cbn [is_some is_err error_eqb negb andb zlen length Z.of_nat].
      change (0 >? 0) with false. cbn [andb].
      rewrite reslice_ok
        by (unfold store, cap; cbn [arr zlen length Z.of_nat app];
            rewrite zdrop_nonpos by lia; fold (cap s); lia).
      cbn [bind]. rewrite E. cbn [bind].
      eexists; reflexivity.
    + rewrite reslice_ok by lia.
      cbn [bind]. rewrite E. cbn [bind].
      eexists; reflexivity.
Qed.

(** X22: the 16-bit stream adaptor on input streams that are all at EOF
    on entry.  [encode] returns [nil] (its loop leaves on the [io.EOF]
    of [readInputs], before the test for data), while [verify],
    [reconstructData] and -- when there is a shard to rebuild --
    [reconstruct] return [ErrShardNoData].  No stream is touched and
    nothing is written. *)
Theorem stream16_on_exhausted_inputs :
  forall (r : rsStream16) (inputs : list (option Reader))
         (outputs : list (option Writer)),
    0 < blockSize16 r ->
    0 <= dataShards16 r <= totalShards16 r ->
    Forall exhausted inputs ->
    (zlen inputs = dataShards16 r -> zlen outputs = parityShards16 r ->
       encode16 r inputs outputs = Ret (None, inputs, outputs)) /\
    (zlen inputs = totalShards16 r ->
       verify16 r inputs = Ret (false, Some ErrShardNoData, inputs)) /\
    (zlen inputs = totalShards16 r -> zlen outputs = totalShards16 r ->
     no_clash inputs outputs ->
       reconstructData16 r inputs outputs
       = Ret (Some ErrShardNoData, inputs, outputs) /\
       (existsb (fun m => m) (missing_flags inputs outputs) = true ->
        reconstruct16 r inputs outputs
        = Ret (Some ErrShardNoData, inputs, outputs))).
Proof.
  intros r inputs outputs HB Hk He.
  assert (Hcaps : Forall (fun s => blockSize16 r <= cap s) (createSlice16 r)).
  { unfold createSlice16, AllocAligned. apply Forall_repeat.
    rewrite cap_make. lia. }
  assert (Hlen : zlen (createSlice16 r) = totalShards16 r).
  { unfold createSlice16, AllocAligned. rewrite zlen_repeat. lia. }
  split; [| split].
  - intros Hli Hlo. unfold encode16.
    rewrite Hli, Hlo, !Z.eqb_refl. cbn [negb].
    rewrite mapM_reslice by (assumption || lia). cbn [bind].
    destruct (stream_fuel_pos inputs) as [f ->]. cbn [encode16_loop].
    set (sh := map _ (createSlice16 r)) in *.
    assert (Hsh : zlen sh = totalShards16 r)
      by (unfold sh; rewrite zlen_map; lia).
    rewrite upto_ok by lia. cbn [bind]. unfold readInputs16.
    destruct (read_blocks_exhausted (blockSize16 r) inputs
                (ztake (dataShards16 r) sh) 0 (-1)) as (dst' & E & _ & _);
      auto.
    { apply Forall_ztake. apply caps_resliced. exact Hcaps. }
    { unfold ztake. rewrite length_firstn. unfold zlen in *. lia. }
    rewrite E. reflexivity.
  - intros Hli. unfold verify16.
    rewrite Hli, Z.eqb_refl. cbn [negb].
    destruct (stream_fuel_pos inputs) as [f ->]. cbn [verify16_loop].
    destruct (read_blocks_exhausted (blockSize16 r) inputs (createSlice16 r)
                0 (-1)) as (dst' & E & _ & _); auto.
    { unfold zlen in *. lia. }
    rewrite E. reflexivity.
  - intros Hli Hlo Hnc. split.
    + unfold reconstructData16.
      rewrite Hli, Hlo, Z.eqb_refl. cbn [negb]. cbv zeta.
      rewrite data_check_clear by assumption. cbn [bind].
      destruct (Z.gtb_spec (dataShards16 r) (totalShards16 r)); [lia |].
      destruct (stream_fuel_pos inputs) as [f ->].
      cbn [reconstructData16_loop].
      destruct (read_blocks_exhausted (blockSize16 r) inputs
                  (createSlice16 r) 0 (-1)) as (dst' & E & _ & _); auto.
      { unfold zlen in *. lia. }
      rewrite E. reflexivity.
    + intros Hm. unfold reconstruct16.
      rewrite Hli, Hlo, Z.eqb_refl. cbn [negb].
      replace (blockSize16 r <? 0) with false
        by (symmetry; apply Z.ltb_ge; lia).
      rewrite andb_false_r.
      assert (Hl : length inputs = length outputs)
        by (apply length_zlen; lia).
      destruct (recon_check_clear (dataShards16 r) inputs outputs 0 true Hnc)
        as (b & ->).
      cbn [bind]. rewrite (missing16_of_flags inputs outputs Hl).
      cbn [bind]. rewrite Hm. cbn [negb].
      destruct (stream_fuel_pos inputs) as [f ->].
      cbn [reconstruct16_loop].
      assert (Hc16 : Forall (fun s => blockSize16 r <= cap s)
                       (repeat (make (blockSize16 r))
                          (Z.to_nat (totalShards16 r))))
        by (apply Forall_repeat; rewrite cap_make; lia).
      assert (Hl16 : (length inputs
                      <= length (repeat (make (blockSize16 r))
                                   (Z.to_nat (totalShards16 r))))%nat)
        by (rewrite repeat_length; unfold zlen in *; lia).
      destruct (read_blocks16_exhausted (blockSize16 r) inputs _ 0 0
                  HB He Hc16 Hl16) as (dst' & E).
      rewrite E. reflexivity.
Qed.

Lemma stream16_on_exhausted_inputs_witness :
  let r := mkStream16 sample_ff 2 1 3 128 in
  encode16 r [Some (bytesReader []); Some (bytesBuffer [])] [Some newBuffer]
  = Ret (None, [Some (bytesReader []); Some (bytesBuffer [])],
         [Some newBuffer]) /\
  verify16 r [Some (bytesReader []); Some (bytesBuffer []); None]
  = Ret (false, Some ErrShardNoData,
         [Some (bytesReader []); Some (bytesBuffer []); None]).
Proof.
  intros r. split.
  - apply (stream16_on_exhausted_inputs r
             [Some (bytesReader []); Some (bytesBuffer [])]
             [Some newBuffer]).
    + cbn; lia.
    + cbn; lia.
    + repeat constructor.
    + reflexivity.
    + reflexivity.
  - apply (stream16_on_exhausted_inputs r
             [Some (bytesReader []); Some (bytesBuffer []); None]
             [Some newBuffer]).
    + cbn; lia.
    + cbn; lia.
    + repeat constructor.
    + reflexivity.
Defined.

(** ** galois_bridge.go: the bridge functions together *)

(** X23: the bridge's division does not undo its multiplication.  For
    every [a] and every [b <> 0], [GaloisDivide(GaloisMultiply(a, b), b)]
    is [a XOR b], which is never [a]; and [GaloisExp] ignores its
    exponent, so [GaloisExp(a, 0)] is [a] rather than one, and
    [GaloisExp(a, 2)] differs from [GaloisMultiply(a, a)] for every
    [a <> 0]. *)
Theorem GaloisDivide_does_not_undo_multiply :
  (forall a b, b <> 0 ->
     Bridge.GaloisDivide (Bridge.GaloisMultiply a b) b = Ret (Z.lxor a b) /\
     Z.lxor a b <> a) /\
  (forall a n, Bridge.GaloisExp a n = a) /\
  (forall a, a <> 0 ->
     Bridge.GaloisExp a 2 <> Bridge.GaloisMultiply a a).
Proof.
  split; [| split].
  - intros a b Hb. unfold Bridge.GaloisDivide, Bridge.GaloisMultiply.
    destruct (Z.eqb_spec b 0) as [E | _]; [contradiction |].
    split; [reflexivity |]. intros E. apply Hb.
    assert (H : Z.lxor a (Z.lxor a b) = Z.lxor a a) by (now rewrite E).
    rewrite <- Z.lxor_assoc, Z.lxor_nilpotent, Z.lxor_0_l in H. exact H.
  - reflexivity.
  - intros a Ha. unfold Bridge.GaloisExp, Bridge.GaloisMultiply.
    rewrite Z.lxor_nilpotent. exact Ha.
Qed.

(** ** Design document: fecAlignedSlice *)

(** X24: [fecAlignedSlice] of the design document.  For [size >= 0]
    and a buffer the allocator places at address [addr]: when [addr] is
    already a multiple of 16 the offset is 16 and the slice expression
    [buf[16 : 16+size]] is out of range (the buffer has [size + 15]
    bytes), so the call panics; otherwise it returns [size] zero bytes
    whose first byte lies at a multiple of 16. *)
Theorem fecAlignedSlice_aligned_or_panics :
  forall addr size,
    0 <= addr -> 0 <= size ->
    (addr mod 16 = 0 -> fecAlignedSlice addr size = Panic) /\
    (addr mod 16 <> 0 ->
     exists s,
       fecAlignedSlice addr size = Ret (addr + (16 - addr mod 16), s) /\
       (addr + (16 - addr mod 16)) mod 16 = 0 /\
       len s = size /\ bytes s = zeros size).
Proof.
  intros addr size Ha Hs.
  assert (Hland : Z.land addr 15 = addr mod 16).
  { change 15 with (Z.ones 4). rewrite Z.land_ones by lia. reflexivity. }
  pose proof (Z.mod_pos_bound addr 16 ltac:(lia)) as Hm.
  unfold fecAlignedSlice. rewrite Hland.
  destruct (Z.ltb_spec (size + 15) 0); [lia |].
  cbv zeta. change (len (make (size + 15))) with (size + 15).
  destruct (Z.eqb_spec (size + 15) 0); [lia |].
  rewrite cap_make. split.
  - intros E. rewrite E.
    destruct (Z.leb_spec (16 - 0 + size) (Z.max 0 (size + 15))); [lia |].
    now rewrite andb_false_r.
  - intros E. eexists.
    destruct (Z.leb_spec 0 (16 - addr mod 16)); [| lia].
    destruct (Z.leb_spec (16 - addr mod 16) (16 - addr mod 16 + size));
      [| lia].
    destruct (Z.leb_spec (16 - addr mod 16 + size) (Z.max 0 (size + 15)));
      [| lia].
    cbn [andb]. split; [reflexivity |]. split; [| split].
    + replace (addr + (16 - addr mod 16))
        with (addr - addr mod 16 + 1 * 16) by lia.
      rewrite Z.mod_add by lia.
      rewrite Zminus_mod, Z.mod_mod, Z.sub_diag by lia. reflexivity.
    + reflexivity.
    + unfold bytes, make. cbn [len arr].
      rewrite zdrop_zeros by lia. rewrite ztake_zeros. f_equal. lia.
Qed.

Lemma fecAlignedSlice_aligned_or_panics_witness :
  fecAlignedSlice 4096 100 = Panic /\
  exists s,
    fecAlignedSlice 4104 100 = Ret (4112, s) /\
    len s = 100 /\ bytes s = zeros 100.
Proof.
  destruct (fecAlignedSlice_aligned_or_panics 4096 100) as [H _];
    [lia | lia |].
  destruct (fecAlignedSlice_aligned_or_panics 4104 100) as [_ H'];
    [lia | lia |].
  split; [apply H; reflexivity |].
  destruct H' as (s & E & _ & L & By); [vm_compute; discriminate |].
  exists s. split; [exact E |]. split; assumption.
Defined.

(** ** streaming8.go: a whole run of encode *)

Lemma holds_clean n inputs : Forall (holds n) inputs -> Forall clean inputs.
Proof.
  intros H. eapply Forall_impl; [| exact H].
  intros [rd |]; cbn; [tauto | tauto].
Qed.

Lemma holds_exhausted inputs : Forall (holds 0) inputs -> Forall exhausted inputs.
Proof.
  intros H. eapply Forall_impl; [| exact H].
  intros [rd |]; cbn; [| tauto].
  intros [Hf Hz]. split; [apply zlen_zero_nil; exact Hz | exact Hf].
Qed.

Lemma holds_advance B n inputs :
  0 < B -> 0 <= n ->
  Forall (holds n) inputs ->
  Forall (holds (n - Z.min B n)) (map (advance B) inputs).
Proof.
  intros HB Hn H. apply Forall_forall. intros o Ho.
  apply in_map_iff in Ho. destruct Ho as (o0 & <- & Hin).
  rewrite Forall_forall in H. specialize (H o0 Hin).
  destruct o0 as [rd |]; cbn in H |- *; [| contradiction].
  destruct H as [Hf Hz]. split; [exact Hf |].
  rewrite zlen_zdrop, Hz. lia.
Qed.

Lemma holds_first_size B n inputs :
  0 < B -> 0 < n -> inputs <> [] ->
  Forall (holds n) inputs ->
  first_size (-1) (map (chunk_of B) inputs) = Z.min B n.
Proof.
  intros HB Hn Hne H.
  destruct inputs as [| o inputs]; [congruence |].
  apply Forall_cons_iff in H. destruct H as [Ho H].
  destruct o as [rd |]; cbn in Ho; [| contradiction].
  destruct Ho as [_ Hz].
  cbn [map chunk_of first_size]. cbn [Z.eqb andb].
  assert (Hc : zlen (ztake B (rdata rd)) = Z.min B n)
    by (rewrite zlen_ztake, Hz; lia).
  rewrite Hc.
  destruct (Z.gtb_spec (Z.min B n) 0); [| lia].
  destruct (first_size_bound B (map (chunk_of B) inputs) (Z.min B n))
    as [E | [E _]]; [| exact E | lia].
  apply Forall_forall. intros c Hin. apply in_map_iff in Hin.
  destruct Hin as (o & <- & _). pose proof (zlen_chunk_of B o). lia.
Qed.

Lemma align64_split B n :
  0 < B -> Z.rem B 64 = 0 -> 0 < n ->
  align64 (Z.min B n) + align64 (n - Z.min B n) = align64 n.
Proof.
  intros HB Hr Hn. unfold align64.
  destruct (Z.le_gt_cases n B).
  - rewrite Z.min_r by lia. rewrite Z.sub_diag. cbn. lia.
  - rewrite Z.min_l by lia. Z.to_euclidean_division_equations. lia.
Qed.

Lemma grew_refl ws : Forall willing ws -> Forall2 (grew 0) ws ws.
Proof.
  induction 1 as [| o ws Ho _ IH]; constructor; [| exact IH].
  destruct o as [w |]; cbn; [| exact I].
  exists []. rewrite app_nil_r. repeat split. exact Ho.
Qed.

Lemma grew_trans a b ws1 ws2 ws3 :
  Forall2 (grew a) ws1 ws2 -> Forall2 (grew b) ws2 ws3 ->
  Forall2 (grew (a + b)) ws1 ws3.
Proof.
  intros H. revert ws3.
  induction H as [| o1 o2 ws1 ws2 H12 _ IH]; intros ws3 H23;
    inversion H23 as [| ? o3 ? ws3' H23a H23b]; subst; constructor.
  - destruct o1 as [w1 |], o2 as [w2 |], o3 as [w3 |]; cbn in *;
      try contradiction; try exact I.
    destruct H12 as (c1 & E1 & L1 & _). destruct H23a as (c2 & E2 & L2 & F).
    exists (c1 ++ c2). rewrite E2, E1, app_assoc, zlen_app.
    repeat split; [lia | exact F].
  - apply IH. assumption.
Qed.

Lemma feed_all_grew sp : forall ws cs,
  length cs = length ws ->
  Forall (fun c => zlen c = sp) cs ->
  Forall2 (grew sp) ws (feed_all ws cs) /\
  Forall willing (feed_all ws cs) /\
  length (feed_all ws cs) = length ws.
Proof.
  induction ws as [| o ws IH]; intros cs Hl Hc.
  - destruct cs; [| discriminate].
    split; [constructor |]. split; [constructor | reflexivity].
  - destruct cs as [| c cs]; [discriminate |].
    cbn [length] in Hl. injection Hl as Hl.
    apply Forall_cons_iff in Hc. destruct Hc as [Hc1 Hc2].
    destruct (IH cs Hl Hc2) as (G & W & L).
    unfold feed_all in *. cbn [combine map fst snd].
    split; [| split].
    + constructor; [| exact G].
      destruct o as [w |]; cbn; [| exact I].
      exists c. repeat split. exact Hc1.
    + constructor; [| exact W]. destruct o; cbn; [reflexivity | exact I].
    + cbn [length]. now rewrite L.
Qed.

Lemma encode_loop_run (r : rsStreamFF8) :
  0 < blockSize r -> Z.rem (blockSize r) 64 = 0 ->
  0 < dataShards r -> 0 <= parityShards r ->
  totalShards r = dataShards r + parityShards r ->
  keeps_shape (Encode (ff_engine (rs r))) ->
  succeeds (Encode (ff_engine (rs r))) ->
  forall fuel shards inputs outputs n,
    (pending inputs < fuel)%nat ->
    0 <= n ->
    Forall (holds n) inputs ->
    Forall willing outputs ->
    zlen inputs = dataShards r -> zlen outputs = parityShards r ->
    zlen shards = totalShards r ->
    Forall (fun s => blockSize r <= cap s) (ztake (dataShards r) shards) ->
    Forall (fun s => 0 <= len s <= cap s) (zdrop (dataShards r) shards) ->
    exists inputs' outputs',
      encode_loop fuel r shards inputs outputs
      = Ret (None, inputs', outputs') /\
      Forall (holds 0) inputs' /\
      Forall2 (grew (align64 n)) outputs outputs'.
Proof.
  intros HB HBr Hk Hm Ht Hkeep Hsucc.
  induction fuel as [| fuel IH];
    intros shards inputs outputs n Hf Hn Hin Hw Hli Hlo Hls Hd Hp; [lia |].
  assert (Hlen : length (ztake (dataShards r) shards) = length inputs).
  { apply length_zlen. rewrite zlen_ztake. lia. }
  cbn [encode_loop]. rewrite upto_ok by lia. cbn [bind].
  destruct (Z.eq_dec n 0) as [-> | Hn0].
  { (* nothing left: [readInputs] reports [io.EOF] *)
    unfold readInputs.
    destruct (read_blocks_exhausted (blockSize r) inputs
                (ztake (dataShards r) shards) 0 (-1) HB
                (holds_exhausted inputs Hin) Hd ltac:(lia))
      as (dst' & E & _ & _).
    rewrite E. cbn [bind Z.eqb is_err error_eqb].
    exists inputs, outputs. split; [reflexivity |]. split; [exact Hin |].
    change (align64 0) with 0. apply grew_refl. exact Hw. }
  assert (Hne : inputs <> []).
  { intros ->. rewrite zlen_nil in Hli. lia. }
  pose proof (holds_clean n inputs Hin) as Hclean.
  pose proof (holds_first_size (blockSize r) n inputs HB ltac:(lia) Hne Hin)
    as Hfs.
  set (s := Z.min (blockSize r) n) in *.
  assert (Hs : 0 < s) by (unfold s; lia).
  destruct (round_parts r inputs (ztake (dataShards r) shards) HB HBr Hclean
              Hd Hlen ltac:(rewrite Hfs; exact Hs))
    as (_ & (blocks & Eri & _ & _) & _).
  rewrite Hfs in Eri.
  destruct (readInputs_total r inputs (ztake (dataShards r) shards) HB HBr Hd
              Hlen)
    as (size & err & dst' & inputs1 & Eq & Hle & Hok).
  rewrite Eri in Eq. injection Eq as <- <- <- <-.
  destruct (Hok eq_refl) as (Hsz & Lr & Ld & Fd & Hlt).
  rewrite Eri. cbn [bind is_err].
  assert (Hhas : existsb (fun b => len b >? 0) blocks = true).
  { destruct blocks as [| b blocks0].
    - exfalso. cbn [length] in Ld. rewrite Hlen in Ld.
      destruct inputs; [congruence | discriminate].
    - apply Forall_cons_iff in Fd. destruct Fd as [[Hl _] _].
      pose proof (align64_bounds s ltac:(lia)).
      cbn [existsb]. destruct (Z.gtb_spec (len b) 0); [reflexivity | lia]. }
  rewrite Hhas. cbn [negb].
  pose proof (align64_bounds s ltac:(lia)) as [Ha _].
  assert (HaB : align64 s <= blockSize r) by (apply align64_le_block; lia).
  set (sp := align64 s) in *.
  destruct (mapM_spec (encode_align sp)
              (fun _ s' => len s' = sp /\ blockSize r <= cap s') blocks)
    as (x & Ex & Fx).
  { intros b Hb. rewrite Forall_forall in Fd. destruct (Fd b Hb) as [Hl1 Hc1].
    destruct (encode_align_total sp b) as (b' & E & L & _ & C); try lia.
    exists b'. split; [exact E |]. split; [exact L |]. rewrite C; lia. }
  destruct (mapM_spec (encode_align sp)
              (fun _ s' => len s' = sp /\ sp <= cap s')
              (zdrop (dataShards r) shards))
    as (y & Ey & Fy).
  { intros b Hb. rewrite Forall_forall in Hp.
    destruct (encode_align_total sp b) as (b' & E & L & C & _);
      [lia | apply Hp; exact Hb |].
    exists b'. split; [exact E |]. split; [exact L | exact C]. }
  rewrite mapM_app, Ex. cbn [bind]. rewrite Ey. cbn [bind].
  assert (Lx : zlen x = dataShards r).
  { rewrite <- (zlen_length _ _ (Forall2_length Fx)).
    rewrite (zlen_length _ _ Ld), zlen_ztake. lia. }
  assert (Ly : zlen y = parityShards r).
  { rewrite <- (zlen_length _ _ (Forall2_length Fy)).
    rewrite zlen_zdrop. lia. }
  pose proof (Hkeep (x ++ y)) as HK.
  pose proof (Hsucc (x ++ y)) as HS.
  destruct (Encode (ff_engine (rs r)) (x ++ y)) as [err2 shards2].
  cbn [snd] in HK. cbn [fst] in HS. subst err2.
  apply Forall2_app_inv_l in HK.
  destruct HK as (x2 & y2 & Fx2 & Fy2 & ->).
  assert (Lx2 : zlen x2 = dataShards r)
    by (rewrite <- (zlen_length _ _ (Forall2_length Fx2)); exact Lx).
  assert (Ly2 : zlen y2 = parityShards r)
    by (rewrite <- (zlen_length _ _ (Forall2_length Fy2)); exact Ly).
  assert (Gx : Forall (fun s => len s = sp /\ blockSize r <= cap s) x).
  { eapply Forall2_right; [| exact Fx]; cbn; auto. }
  assert (Gy : Forall (fun s => len s = sp /\ sp <= cap s) y).
  { eapply Forall2_right; [| exact Fy]; cbn; auto. }
  assert (Gx2 : Forall (fun s => blockSize r <= cap s) x2).
  { clear - Gx Fx2. induction Fx2 as [| a b la lb [Hc Hl] _ IHF];
      constructor.
    - apply Forall_cons_iff in Gx. destruct Gx as [[_ G] _]. lia.
    - apply IHF. apply Forall_cons_iff in Gx. tauto. }
  assert (Gy2 : Forall (fun s => len s = sp /\ sp <= cap s) y2).
  { clear - Gy Fy2. induction Fy2 as [| a b la lb [Hc Hl] _ IHF];
      constructor.
    - apply Forall_cons_iff in Gy. destruct Gy as [[G1 G2] _]. lia.
    - apply IHF. apply Forall_cons_iff in Gy. tauto. }
  rewrite from_ok by (rewrite zlen_app; lia). cbn [bind].
  rewrite zdrop_app_r by lia. rewrite zdrop_nonpos by lia.
  unfold writeOutputs. fold sp.
  assert (Hy2c : Forall (fun b => sp <= cap b) y2).
  { eapply Forall_impl; [| exact Gy2]. cbn. intros b [_ H]. exact H. }
  assert (Hy2l : length y2 = length outputs) by (unfold zlen in *; lia).
  rewrite (writeOutputs_loop_ok sp outputs y2 0 ltac:(lia) Hw Hy2c Hy2l).
  cbn [bind].
  set (cs := map (fun b => ztake sp (arr b)) y2).
  destruct (feed_all_grew sp outputs cs) as (G1 & W1 & L1).
  { unfold cs. rewrite length_map. exact Hy2l. }
  { unfold cs. apply Forall_forall. intros c Hc. apply in_map_iff in Hc.
    destruct Hc as (b & <- & Hb). rewrite Forall_forall in Hy2c.
    specialize (Hy2c b Hb). rewrite zlen_ztake. unfold cap in Hy2c. lia. }
  destruct (IH (x2 ++ y2) (map (advance (blockSize r)) inputs)
              (feed_all outputs cs) (n - s))
    as (inputs' & outputs' & E & Hfin & G2).
  - lia.
  - unfold s. lia.
  - apply holds_advance; [exact HB | lia | exact Hin].
  - exact W1.
  - rewrite zlen_map. exact Hli.
  - rewrite (zlen_length _ _ L1). exact Hlo.
  - rewrite zlen_app. lia.
  - rewrite ztake_app_l by lia. rewrite ztake_all by lia. exact Gx2.
  - rewrite zdrop_app_r by lia. rewrite zdrop_nonpos by lia.
    eapply Forall_impl; [| exact Gy2]. cbn. intros b [H1 H2]. lia.
  - exists inputs', outputs'. split; [exact E |]. split; [exact Hfin |].
    rewrite <- (align64_split (blockSize r) n HB HBr ltac:(lia)).
    fold s. fold sp. eapply grew_trans; [exact G1 | exact G2].
Qed.

(** X25: a whole run of [encode].  Let the encoder have [k > 0] data
    and [m >= 0] parity shards, a positive block size that is a multiple
    of 64, and a codec whose [Encode] works in place and reports no
    error.  If every one of the [k] input streams holds exactly [L]
    bytes and ends cleanly, and no writer fails, then [encode] returns
    [nil], has read every stream to its end, and has appended to every
    parity writer exactly [L] rounded up to a multiple of 64 bytes. *)
Theorem encode_writes_rounded_length :
  forall (r : rsStreamFF8) (L : Z) (inputs : list (option Reader))
         (outputs : list (option Writer)),
    0 < blockSize r -> Z.rem (blockSize r) 64 = 0 ->
    0 < dataShards r -> 0 <= parityShards r ->
    totalShards r = dataShards r + parityShards r ->
    keeps_shape (Encode (ff_engine (rs r))) ->
    succeeds (Encode (ff_engine (rs r))) ->
    zlen inputs = dataShards r -> zlen outputs = parityShards r ->
    0 <= L ->
    Forall (holds L) inputs ->
    Forall willing outputs ->
    exists inputs' outputs',
      encode r inputs outputs = Ret (None, inputs', outputs') /\
      Forall (holds 0) inputs' /\
      Forall2 (grew (align64 L)) outputs outputs'.
Proof.
  intros r L inputs outputs HB HBr Hk Hm Ht Hkeep Hsucc Hli Hlo HL Hin Hw.
  unfold encode, encode_with.
  rewrite Hli, Hlo, !Z.eqb_refl. cbn [negb].
  pose proof (createSlice_caps r) as Hcaps.
  pose proof (zlen_createSlice r) as Hlen.
  rewrite mapM_reslice by (try lia; exact Hcaps). cbn [bind].
  apply (encode_loop_run r HB HBr Hk Hm Ht Hkeep Hsucc) with (n := L);
    try assumption.
  - rewrite stream_fuel_pending. lia.
  - rewrite zlen_map. lia.
  - apply Forall_ztake. apply caps_resliced. exact Hcaps.
  - apply Forall_zdrop. apply Forall_forall. intros s Hs.
    apply in_map_iff in Hs. destruct Hs as (s0 & <- & Hs0).
    rewrite Forall_forall in Hcaps. specialize (Hcaps s0 Hs0).
    cbn [len]. unfold cap in *. cbn [arr]. lia.
Qed.

Lemma encode_writes_rounded_length_witness :
  exists inputs' outputs',
    encode sample_stream
      [Some (bytesReader (payload 300)); Some (bytesBuffer (payload 300))]
      [Some newBuffer]
    = Ret (None, inputs', outputs') /\
    Forall (holds 0) inputs' /\
    Forall2 (grew 320) [Some newBuffer] outputs'.
Proof.
  apply (encode_writes_rounded_length sample_stream 300
           [Some (bytesReader (payload 300)); Some (bytesBuffer (payload 300))]
           [Some newBuffer]).
  - cbn; lia.
  - reflexivity.
  - cbn; lia.
  - cbn; lia.
  - reflexivity.
  - intros shards. cbn. induction shards; constructor; auto.
  - intros shards. reflexivity.
  - reflexivity.
  - reflexivity.
  - lia.
  - repeat constructor.
  - repeat constructor.
Defined.

(** ** galois_bridge.go: a whole run of rsStream16.encode *)

Lemma align64_even_up s : 0 < s -> align64 (even_up s) = align64 s.
Proof.
  intros Hs. unfold even_up, align64.
  destruct (Z.eqb_spec (Z.rem s 2) 0) as [E | E]; [reflexivity |].
  Z.to_euclidean_division_equations. lia.
Qed.

Lemma encode16_loop_run (r : rsStream16) :
  0 < blockSize16 r -> Z.rem (blockSize16 r) 64 = 0 ->
  0 < dataShards16 r -> 0 <= parityShards16 r ->
  totalShards16 r = dataShards16 r + parityShards16 r ->
  keeps_caps (Encode (ff_engine (rs16 r))) ->
  succeeds (Encode (ff_engine (rs16 r))) ->
  forall fuel shards inputs outputs n,
    (pending inputs < fuel)%nat ->
    0 <= n ->
    Forall (holds n) inputs ->
    Forall willing outputs ->
    zlen inputs = dataShards16 r -> zlen outputs = parityShards16 r ->
    zlen shards = totalShards16 r ->
    Forall (fun s => blockSize16 r <= cap s)
      (ztake (dataShards16 r) shards) ->
    exists inputs' outputs',
      encode16_loop fuel r shards inputs outputs
      = Ret (None, inputs', outputs') /\
      Forall (holds 0) inputs' /\
      Forall2 (grew (align64 n)) outputs outputs'.
Proof.
  intros HB HBr Hk Hm Ht Hkeep Hsucc.
  induction fuel as [| fuel IH];
    intros shards inputs outputs n Hf Hn Hin Hw Hli Hlo Hls Hd; [lia |].
  assert (Hlen : length (ztake (dataShards16 r) shards) = length inputs).
  { apply length_zlen. rewrite zlen_ztake. lia. }
  cbn [encode16_loop]. rewrite upto_ok by lia. cbn [bind].
  destruct (Z.eq_dec n 0) as [-> | Hn0].
  { unfold readInputs16.
    destruct (read_blocks_exhausted (blockSize16 r) inputs
                (ztake (dataShards16 r) shards) 0 (-1) HB
                (holds_exhausted inputs Hin) Hd ltac:(lia))
      as (dst' & E & _ & _).
    rewrite E. cbn [bind Z.eqb is_err error_eqb].
    exists inputs, outputs. split; [reflexivity |]. split; [exact Hin |].
    change (align64 0) with 0. apply grew_refl. exact Hw. }
  assert (Hne : inputs <> []).
  { intros ->. rewrite zlen_nil in Hli. lia. }
  pose proof (holds_clean n inputs Hin) as Hclean.
  pose proof (holds_first_size (blockSize16 r) n inputs HB ltac:(lia) Hne Hin)
    as Hfs.
  set (s := Z.min (blockSize16 r) n) in *.
  assert (Hs : 0 < s) by (unfold s; lia).
  destruct (readInputs16_ok r inputs HB HBr Hclean
              ltac:(rewrite Hfs; exact Hs) (ztake (dataShards16 r) shards)
              Hd Hlen)
    as (blocks & Eri & _).
  rewrite Hfs in Eri.
  destruct (readInputs16_total r inputs (ztake (dataShards16 r) shards)
              HB HBr Hd Hlen)
    as (size & err & dst' & inputs1 & Eq & Hle & Hok).
  rewrite Eri in Eq. injection Eq as <- <- <- <-.
  destruct (Hok eq_refl) as (Hsz & Hev & Lr & Ld & Fd & Hlt).
  rewrite Eri. cbn [bind is_err].
  pose proof (align64_bounds (even_up s) ltac:(lia)) as [Ha _].
  assert (HaB : align64 (even_up s) <= blockSize16 r)
    by (apply align64_le_block; lia).
  assert (Hhas : existsb (fun b => len b >? 0) blocks = true).
  { destruct blocks as [| b blocks0].
    - exfalso. cbn [length] in Ld. rewrite Hlen in Ld.
      destruct inputs; [congruence | discriminate].
    - apply Forall_cons_iff in Fd. destruct Fd as [[Hl _] _].
      cbn [existsb]. destruct (Z.gtb_spec (len b) 0); [reflexivity | lia]. }
  rewrite Hhas. cbn [negb]. cbv zeta.
  rewrite Hev. cbn [Z.eqb negb].
  rewrite (aligned16 (even_up s)) by lia.
  rewrite (align64_even_up s Hs) in *.
  set (sp := align64 s) in *.
  set (mat := blocks ++ zdrop (dataShards16 r) shards).
  assert (Lmat : zlen mat = totalShards16 r).
  { unfold mat. rewrite zlen_app, (zlen_length _ _ Ld), zlen_ztake,
      zlen_zdrop. lia. }
  replace (Z.to_nat (totalShards16 r)) with (length mat)
    by (unfold zlen in Lmat; lia).
  destruct (encode16_adjust_total (dataShards16 r) (even_up s) sp
              ltac:(lia) mat 0) as (mat2 & Ea & Fa).
  rewrite Ea. cbn [bind].
  pose proof (Hkeep mat2) as HK.
  pose proof (Hsucc mat2) as HS.
  destruct (Encode (ff_engine (rs16 r)) mat2) as [err2 mat3].
  cbn [snd] in HK. cbn [fst] in HS. subst err2.
  assert (L2 : zlen mat2 = totalShards16 r)
    by (rewrite <- (zlen_length _ _ (Forall2_length Fa)); exact Lmat).
  assert (L3 : zlen mat3 = totalShards16 r)
    by (rewrite <- (zlen_length _ _ (Forall2_length HK)); exact L2).
  assert (F3 : Forall2 (fun a c => sp <= cap c /\
                                   (sp <= cap a -> cap c = cap a))
                 mat mat3).
  { clear - Fa HK. revert mat3 HK.
    induction Fa as [| a b la lb (_ & H1 & H2) _ IHF]; intros mat3 HK;
      inversion HK; subst; constructor.
    - split; [lia |]. intros H. specialize (H2 H). lia.
    - apply IHF. assumption. }
  rewrite from_ok by lia. cbn [bind].
  rewrite writeOutputs16_loop. rewrite (align64_even_up s Hs). fold sp.
  set (y2 := zdrop (dataShards16 r) mat3).
  assert (Hy2c : Forall (fun b => sp <= cap b) y2).
  { unfold y2. apply Forall_zdrop. eapply Forall2_right; [| exact F3].
    cbn. intros a c [H _]. exact H. }
  assert (Hy2l : length y2 = length outputs).
  { apply length_zlen. unfold y2. rewrite zlen_zdrop. lia. }
  rewrite (writeOutputs_loop_ok sp outputs y2 0 ltac:(lia) Hw Hy2c Hy2l).
  cbn [bind].
  set (cs := map (fun b => ztake sp (arr b)) y2).
  destruct (feed_all_grew sp outputs cs) as (G1 & W1 & L1).
  { unfold cs. rewrite length_map. exact Hy2l. }
  { unfold cs. apply Forall_forall. intros c Hc. apply in_map_iff in Hc.
    destruct Hc as (b & <- & Hb). rewrite Forall_forall in Hy2c.
    specialize (Hy2c b Hb). rewrite zlen_ztake. unfold cap in Hy2c. lia. }
  destruct (IH mat3 (map (advance (blockSize16 r)) inputs)
              (feed_all outputs cs) (n - s))
    as (inputs' & outputs' & E & Hfin & G2).
  - lia.
  - unfold s. lia.
  - apply holds_advance; [exact HB | lia | exact Hin].
  - exact W1.
  - rewrite zlen_map. exact Hli.
  - rewrite (zlen_length _ _ L1). exact Hlo.
  - exact L3.
  - assert (Fd' : Forall (fun s => blockSize16 r <= cap s)
                    (ztake (dataShards16 r) mat)).
    { unfold mat. rewrite ztake_app_l
        by (rewrite (zlen_length _ _ Ld), zlen_ztake; lia).
      apply Forall_ztake. eapply Forall_impl; [| exact Fd].
      cbn. intros b [_ H]. exact H. }
    clear - F3 Fd' HaB. unfold ztake in *.
    revert Fd'. generalize (Z.to_nat (dataShards16 r)) as j.
    induction F3 as [| a c la lc [_ H] _ IHF]; intros j Fd'.
    + rewrite firstn_nil. constructor.
    + destruct j as [| j]; [constructor |].
      cbn [firstn] in Fd' |- *.
      apply Forall_cons_iff in Fd'. destruct Fd' as [Fa Fr].
      constructor; [| apply IHF; exact Fr].
      rewrite H by lia. exact Fa.
  - exists inputs', outputs'. split; [exact E |]. split; [exact Hfin |].
    rewrite <- (align64_split (blockSize16 r) n HB HBr ltac:(lia)).
    fold s. fold sp. eapply grew_trans; [exact G1 | exact G2].
Qed.

(** X26: a whole run of [rsStream16.encode].  Under the conditions of
    X25 (with a codec whose [Encode] keeps the capacities and reports
    no error), when every one of the [k] input streams holds exactly
    [L] bytes, [encode] returns [nil], has read every stream to its end
    and has appended to every parity writer exactly [L] rounded up to a
    multiple of 64 bytes: making the round size even never adds to what
    is written. *)
Theorem encode16_writes_rounded_length :
  forall (r : rsStream16) (L : Z) (inputs : list (option Reader))
         (outputs : list (option Writer)),
    0 < blockSize16 r -> Z.rem (blockSize16 r) 64 = 0 ->
    0 < dataShards16 r -> 0 <= parityShards16 r ->
    totalShards16 r = dataShards16 r + parityShards16 r ->
    keeps_caps (Encode (ff_engine (rs16 r))) ->
    succeeds (Encode (ff_engine (rs16 r))) ->
    zlen inputs = dataShards16 r -> zlen outputs = parityShards16 r ->
    0 <= L ->
    Forall (holds L) inputs ->
    Forall willing outputs ->
    exists inputs' outputs',
      encode16 r inputs outputs = Ret (None, inputs', outputs') /\
      Forall (holds 0) inputs' /\
      Forall2 (grew (align64 L)) outputs outputs'.
Proof.
  intros r L inputs outputs HB HBr Hk Hm Ht Hkeep Hsucc Hli Hlo HL Hin Hw.
  unfold encode16.
  rewrite Hli, Hlo, !Z.eqb_refl. cbn [negb].
  assert (Hcaps : Forall (fun s => blockSize16 r <= cap s) (createSlice16 r)).
  { unfold createSlice16, AllocAligned. apply Forall_repeat.
    rewrite cap_make. lia. }
  assert (Hlen : zlen (createSlice16 r) = totalShards16 r).
  { unfold createSlice16, AllocAligned. rewrite zlen_repeat. lia. }
  rewrite mapM_reslice by (try lia; exact Hcaps). cbn [bind].
  apply (encode16_loop_run r HB HBr Hk Hm Ht Hkeep Hsucc) with (n := L);
    try assumption.
  - rewrite stream_fuel_pending. lia.
  - rewrite zlen_map. lia.
  - apply Forall_ztake. apply caps_resliced. exact Hcaps.
Qed.

Lemma encode16_writes_rounded_length_witness :
  exists inputs' outputs',
    encode16 (mkStream16 sample_ff 2 1 3 128)
      [Some (bytesReader (payload 301)); Some (bytesBuffer (payload 301))]
      [Some newBuffer]
    = Ret (None, inputs', outputs') /\
    Forall (holds 0) inputs' /\
    Forall2 (grew 320) [Some newBuffer] outputs'.
Proof.
  apply (encode16_writes_rounded_length (mkStream16 sample_ff 2 1 3 128) 301
           [Some (bytesReader (payload 301)); Some (bytesBuffer (payload 301))]
           [Some newBuffer]).
  - cbn; lia.
  - reflexivity.
  - cbn; lia.
  - cbn; lia.
  - reflexivity.
  - intros shards. cbn. induction shards; constructor; auto.
  - intros shards. reflexivity.
  - reflexivity.
  - reflexivity.
  - lia.
  - repeat constructor.
  - repeat constructor.
Defined.

(** ** streaming8.go: a whole run of reconstruct and reconstructData *)

Lemma holds_or_nil_clean n inputs :
  Forall (holds_or_nil n) inputs -> Forall clean inputs.
Proof.
  intros H. eapply Forall_impl; [| exact H].
  intros [rd |]; cbn; tauto.
Qed.

Lemma holds_or_nil_exhausted inputs :
  Forall (holds_or_nil 0) inputs -> Forall exhausted inputs.
Proof.
  intros H. eapply Forall_impl; [| exact H].
  intros [rd |]; cbn; [| tauto].
  intros [Hf Hz]. split; [apply zlen_zero_nil; exact Hz | exact Hf].
Qed.

Lemma holds_or_nil_advance B n inputs :
  0 < B -> 0 <= n ->
  Forall (holds_or_nil n) inputs ->
  Forall (holds_or_nil (n - Z.min B n)) (map (advance B) inputs).
Proof.
  intros HB Hn H. apply Forall_forall. intros o Ho.
  apply in_map_iff in Ho. destruct Ho as (o0 & <- & Hin).
  rewrite Forall_forall in H. specialize (H o0 Hin).
  destruct o0 as [rd |]; cbn in H |- *; [| exact I].
  destruct H as [Hf Hz]. split; [exact Hf |].
  rewrite zlen_zdrop, Hz. lia.
Qed.

Lemma exists_some_advance B (inputs : list (option Reader)) :
  existsb is_some inputs = true ->
  existsb is_some (map (advance B) inputs) = true.
Proof.
  induction inputs as [| o inputs IH]; [discriminate |].
  cbn [existsb map]. destruct o as [rd |]; [reflexivity |].
  cbn [advance option_map is_some orb]. exact IH.
Qed.

Lemma holds_or_nil_first_size B n : 0 < B -> 0 < n ->
  forall inputs,
    existsb is_some inputs = true ->
    Forall (holds_or_nil n) inputs ->
    first_size (-1) (map (chunk_of B) inputs) = Z.min B n.
Proof.
  intros HB Hn. induction inputs as [| o inputs IH]; intros Hex H;
    [discriminate |].
  apply Forall_cons_iff in H. destruct H as [Ho H].
  destruct o as [rd |].
  - destruct Ho as [_ Hz].
    cbn [map chunk_of first_size]. cbn [Z.eqb andb].
    assert (Hc : zlen (ztake B (rdata rd)) = Z.min B n)
      by (rewrite zlen_ztake, Hz; lia).
    rewrite Hc.
    destruct (Z.gtb_spec (Z.min B n) 0); [| lia].
    destruct (first_size_bound B (map (chunk_of B) inputs) (Z.min B n))
      as [E | [E _]]; [| exact E | lia].
    apply Forall_forall. intros c Hin. apply in_map_iff in Hin.
    destruct Hin as (o & <- & _). pose proof (zlen_chunk_of B o). lia.
  - cbn [map chunk_of first_size]. change (zlen (@nil Z)) with 0.
    cbn [Z.eqb Z.gtb Z.compare andb].
    apply IH; [exact Hex | exact H].
Qed.

Lemma grew_slots_refl k : forall ws i,
  Forall willing ws -> grew_slots k 0 0 i ws ws.
Proof.
  induction ws as [| o ws IH]; intros i Hw; [exact I |].
  apply Forall_cons_iff in Hw. destruct Hw as [Ho Hw].
  cbn [grew_slots]. split; [| apply IH; exact Hw].
  replace (if i >=? k then 0 else 0) with 0 by (destruct (i >=? k); reflexivity).
  destruct o as [w |]; cbn; [| exact I].
  exists []. rewrite app_nil_r. repeat split. exact Ho.
Qed.

Lemma grew_slots_trans k a1 b1 a2 b2 : forall ws1 ws2 ws3 i,
  grew_slots k a1 b1 i ws1 ws2 -> grew_slots k a2 b2 i ws2 ws3 ->
  grew_slots k (a1 + a2) (b1 + b2) i ws1 ws3.
Proof.
  induction ws1 as [| o1 ws1 IH]; intros ws2 ws3 i H12 H23.
  - destruct ws2; [| contradiction]. destruct ws3; [exact I | contradiction].
  - destruct ws2 as [| o2 ws2]; [contradiction |].
    destruct ws3 as [| o3 ws3]; [contradiction |].
    cbn [grew_slots] in *. destruct H12 as [G12 H12], H23 as [G23 H23].
    split; [| eapply IH; eassumption].
    destruct o1 as [w1 |], o2 as [w2 |], o3 as [w3 |]; cbn in *;
      try contradiction; try exact I.
    destruct G12 as (c1 & E1 & L1 & _). destruct G23 as (c2 & E2 & L2 & F).
    exists (c1 ++ c2). rewrite E2, E1, app_assoc, zlen_app.
    repeat split; [destruct (i >=? k); lia | exact F].
Qed.

Lemma feed_all_slots k nd np : forall ws cs i,
  (length ws <= length cs)%nat ->
  (forall j c, (j < length ws)%nat -> nth_error cs j = Some c ->
               zlen c = if i + Z.of_nat j >=? k then np else nd) ->
  grew_slots k nd np i ws (feed_all ws cs) /\
  Forall willing (feed_all ws cs) /\
  length (feed_all ws cs) = length ws.
Proof.
  induction ws as [| o ws IH]; intros cs i Hl Hc.
  - split; [exact I |]. split; [constructor | reflexivity].
  - destruct cs as [| c cs]; [cbn in Hl; lia |].
    cbn [length] in Hl, Hc.
    destruct (IH cs (i + 1) ltac:(lia)) as (G & W & L).
    { intros j c0 Hlt Hj. rewrite (Hc (S j) c0 ltac:(lia) Hj).
      replace (i + Z.of_nat (S j)) with (i + 1 + Z.of_nat j) by lia.
      reflexivity. }
    unfold feed_all in *. cbn [combine map fst snd grew_slots].
    split; [split; [| exact G] |]. 2: split.
    + specialize (Hc O c ltac:(lia) eq_refl). rewrite Z.add_0_r in Hc.
      destruct o as [w |]; cbn; [| exact I].
      exists c. repeat split. exact Hc.
    + constructor; [| exact W]. destruct o; cbn; [reflexivity | exact I].
    + cbn [length]. now rewrite L.
Qed.

Lemma grew_slots_tail k nd : forall ws i,
  k <= i -> Forall willing ws -> grew_slots k nd 0 i ws ws.
Proof.
  induction ws as [| o ws IH]; intros i Hi Hw; [exact I |].
  apply Forall_cons_iff in Hw. destruct Hw as [Ho Hw].
  cbn [grew_slots]. split; [| apply IH; [lia | exact Hw]].
  destruct (Z.geb_spec i k); [| lia].
  destruct o as [w |]; cbn; [| exact I].
  exists []. rewrite app_nil_r. repeat split. exact Ho.
Qed.

Lemma grew_slots_app k nd np : forall ws1 ws1' ws2 ws2' i,
  grew_slots k nd np i ws1 ws1' ->
  grew_slots k nd np (i + zlen ws1) ws2 ws2' ->
  grew_slots k nd np i (ws1 ++ ws2) (ws1' ++ ws2').
Proof.
  induction ws1 as [| o ws1 IH]; intros ws1' ws2 ws2' i H1 H2.
  - destruct ws1'; [| contradiction].
    rewrite zlen_nil, Z.add_0_r in H2. exact H2.
  - destruct ws1' as [| o' ws1']; [contradiction |].
    cbn [grew_slots app] in *. destruct H1 as [G H1].
    split; [exact G |]. apply IH; [exact H1 |].
    rewrite zlen_cons in H2.
    replace (i + 1 + zlen ws1) with (i + (zlen ws1 + 1)) by lia. exact H2.
Qed.

Lemma recon_write_ge k s writers : forall all i,
  0 <= s ->
  Forall willing writers ->
  Forall (fun b => align64 s <= cap b) all ->
  (length writers <= length all)%nat ->
  recon_write k s (align64 s) i writers all
  = Ret (None, feed_all writers (recon_chunks k s i all)).
Proof.
  induction writers as [| w writers IH]; intros all i Hs Hw Hc Hl.
  - reflexivity.
  - destruct all as [| b all]; [cbn in Hl; lia |].
    apply Forall_cons_iff in Hw; destruct Hw as [Hw1 Hw2].
    apply Forall_cons_iff in Hc; destruct Hc as [Hc1 Hc2].
    cbn [length] in Hl.
    pose proof (align64_bounds s Hs) as [[Ha _] _].
    cbn [recon_write tl recon_chunks].
    destruct w as [w |].
    + destruct (Write_reslice w b (if i >=? k then align64 s else s) Hw1)
        as (p & Ep & _ & Ew); [destruct (i >=? k); lia |].
      rewrite Ep. cbn [bind]. rewrite Ew, Z.eqb_refl. cbn [negb].
      rewrite IH by (assumption || lia). reflexivity.
    + rewrite IH by (assumption || lia). reflexivity.
Qed.

Lemma data_write_ge s writers : forall all i,
  0 <= s ->
  Forall willing writers ->
  Forall (fun b => s <= cap b) all ->
  (length writers <= length all)%nat ->
  data_write s i writers all
  = Ret (None, feed_all writers (map (fun b => ztake s (arr b)) all)).
Proof.
  induction writers as [| w writers IH]; intros all i Hs Hw Hc Hl.
  - reflexivity.
  - destruct all as [| b all]; [cbn in Hl; lia |].
    apply Forall_cons_iff in Hw; destruct Hw as [Hw1 Hw2].
    apply Forall_cons_iff in Hc; destruct Hc as [Hc1 Hc2].
    cbn [length] in Hl.
    cbn [data_write tl].
    destruct w as [w |].
    + destruct (Write_reslice w b s Hw1 ltac:(lia)) as (p & Ep & _ & Ew).
      rewrite Ep. cbn [bind]. rewrite Ew, Z.eqb_refl. cbn [negb].
      rewrite IH by (assumption || lia). reflexivity.
    + rewrite IH by (assumption || lia). reflexivity.
Qed.

Section ReconstructRun.

Variable r : rsStreamFF8.
Let B := blockSize r.
Let k := dataShards r.

Hypothesis HB : 0 < B.
Hypothesis HBr : Z.rem B 64 = 0.
Hypothesis HkR : keeps_caps (Reconstruct (ff_engine (rs r))).
Hypothesis HkD : keeps_caps (ReconstructData (ff_engine (rs r))).
Hypothesis HsR : succeeds (Reconstruct (ff_engine (rs r))).
Hypothesis HsD : succeeds (ReconstructData (ff_engine (rs r))).

Lemma reconstruct_loop_run :
  forall fuel rdo all read inputs outputs n,
    (pending inputs < fuel)%nat ->
    0 <= n -> 0 <= read -> (n = 0 -> 0 < read) ->
    existsb is_some inputs = true ->
    Forall (holds_or_nil n) inputs ->
    Forall willing outputs ->
    Forall (fun s => B <= cap s) all ->
    length all = length inputs ->
    length outputs = length inputs ->
    exists inputs' outputs',
      reconstruct_loop fuel r rdo all read inputs outputs
      = Ret (None, inputs', outputs') /\
      Forall (holds_or_nil 0) inputs' /\
      grew_slots k n (align64 n) 0 outputs outputs'.
Proof.
  induction fuel as [| fuel IH];
    intros rdo all read inputs outputs n Hf Hn Hr Hr0 Hex Hin Hw Hc Hl Hlo;
    [lia |].
  cbn [reconstruct_loop]. fold B.
  destruct (Z.eq_dec n 0) as [-> | Hn0].
  { destruct (read_blocks_exhausted B inputs all 0 (-1) HB
                (holds_or_nil_exhausted inputs Hin) Hc ltac:(lia))
      as (dst' & E & _ & _).
    rewrite E. cbn [bind Z.eqb orb].
    destruct (Z.eqb_spec read 0) as [E0 | _]; [specialize (Hr0 eq_refl); lia |].
    exists inputs, outputs. split; [reflexivity |]. split; [exact Hin |].
    change (align64 0) with 0. apply grew_slots_refl. exact Hw. }
  pose proof (holds_or_nil_clean n inputs Hin) as Hclean.
  pose proof (holds_or_nil_first_size B n HB ltac:(lia) inputs Hex Hin) as Hfs.
  set (s := Z.min B n) in *.
  assert (Hs : 0 < s <= B) by (unfold s; lia).
  destruct (read_blocks_ok B inputs all 0 (-1) HB Hclean Hc Hl)
    as (all1 & Er & Fr).
  rewrite Hfs in Er. rewrite Er. cbn [bind].
  destruct (Z.eqb_spec s (-1)); [lia |].
  destruct (Z.eqb_spec s 0); [lia |]. cbn [orb].
  assert (F1 : Forall (fun b => 0 <= len b <= B /\ B <= cap b) all1).
  { eapply Forall2_right; [| exact Fr]. intros c b (H1 & _ & H3 & H4).
    pose proof (zlen_nonneg c). lia. }
  assert (L1 : length all1 = length inputs).
  { rewrite <- (Forall2_length Fr). apply length_map. }
  destruct (shape_blocks_total B s all1 Hs HBr F1) as (all2 & E2 & L2 & F2).
  rewrite E2. cbn [bind].
  pose proof (align64_bounds s ltac:(lia)) as [Ha _].
  assert (HaB : align64 s <= B) by (apply align64_le_block; lia).
  rewrite (mapM_id (even_block (align64 s)) all2).
  2:{ eapply Forall_impl; [| exact F2]. cbn. intros b [H _].
      now apply even_block_padded. }
  cbn [bind].
  assert (F2c : Forall (fun b => B <= cap b) all2).
  { eapply Forall_impl; [| exact F2]. cbn. intros b [_ H]. exact H. }
  set (res := if rdo
              then ReconstructData (ff_engine (rs r)) all2
              else Reconstruct (ff_engine (rs r)) all2).
  assert (Hres : fst res = None /\
                 Forall (fun b => B <= cap b) (snd res) /\
                 length (snd res) = length all2).
  { unfold res. destruct rdo.
    - split; [apply HsD | apply keeps_caps_ge; assumption].
    - split; [apply HsR | apply keeps_caps_ge; assumption]. }
  destruct res as [err all3]. cbn [fst snd] in Hres.
  destruct Hres as (-> & F3 & L3).
  assert (F3a : Forall (fun b => align64 s <= cap b) all3).
  { eapply Forall_impl; [| exact F3]. cbn. intros; lia. }
  fold k.
  rewrite (recon_write_ge k s outputs all3 0 ltac:(lia) Hw F3a ltac:(lia)).
  cbn [bind].
  destruct (feed_all_slots k s (align64 s) outputs (recon_chunks k s 0 all3) 0)
    as (G1 & W1 & Lf).
  { assert (Hrc : forall l i, length (recon_chunks k s i l) = length l).
    { induction l as [| b l IHl]; intros i; [reflexivity |].
      cbn [recon_chunks length]. now rewrite IHl. }
    rewrite Hrc. lia. }
  { intros j c _ Hj.
    rewrite (recon_chunks_sizes k s all3 0 j c ltac:(lia) F3a Hj).
    destruct (Z.ltb_spec (0 + Z.of_nat j) k),
             (Z.geb_spec (0 + Z.of_nat j) k); lia || reflexivity. }
  destruct (IH rdo all3 (read + s) (map (advance B) inputs)
              (feed_all outputs (recon_chunks k s 0 all3)) (n - s))
    as (inputs' & outputs' & E & Hfin & G2).
  - assert (Hp : (pending (map (advance B) inputs) < pending inputs)%nat).
    { destruct (read_blocks_pending _ _ _ _ _ _ _ _ _ Er) as [_ Hlt].
      apply Hlt; [reflexivity | lia]. }
    lia.
  - unfold s. lia.
  - lia.
  - lia.
  - apply exists_some_advance. exact Hex.
  - apply holds_or_nil_advance; [exact HB | lia | exact Hin].
  - exact W1.
  - exact F3.
  - rewrite length_map. lia.
  - rewrite length_map. lia.
  - exists inputs', outputs'. split; [exact E |]. split; [exact Hfin |].
    rewrite <- (align64_split B n HB HBr ltac:(lia)). fold s.
    replace n with (s + (n - s)) at 1 by lia.
    eapply grew_slots_trans; [exact G1 | exact G2].
Qed.

End ReconstructRun.

Section ReconstructDataRun.

Variable r : rsStreamFF8.
Let B := blockSize r.
Let k := dataShards r.

Hypothesis HB : 0 < B.
Hypothesis HBr : Z.rem B 64 = 0.
Hypothesis Hk0 : 0 <= k.
Hypothesis HkD : keeps_caps (ReconstructData (ff_engine (rs r))).
Hypothesis HsD : succeeds (ReconstructData (ff_engine (rs r))).

Lemma reconstructData_loop_run :
  forall fuel missing all read inputs outputs n,
    (pending inputs < fuel)%nat ->
    0 <= n -> 0 <= read -> (n = 0 -> 0 < read) ->
    existsb is_some inputs = true ->
    Forall (holds_or_nil n) inputs ->
    Forall willing outputs ->
    Forall (fun s => B <= cap s) all ->
    length all = length inputs ->
    length outputs = length inputs ->
    length missing = length inputs ->
    k <= zlen inputs ->
    exists inputs' outputs',
      reconstructData_loop fuel r missing all read inputs outputs
      = Ret (None, inputs', outputs') /\
      Forall (holds_or_nil 0) inputs' /\
      grew_slots k n 0 0 outputs outputs'.
Proof.
  induction fuel as [| fuel IH];
    intros missing all read inputs outputs n Hf Hn Hr Hr0 Hex Hin Hw Hc Hl
           Hlo Hlm Hkt; [lia |].
  cbn [reconstructData_loop]. fold B.
  destruct (Z.eq_dec n 0) as [-> | Hn0].
  { destruct (read_blocks_exhausted B inputs all 0 (-1) HB
                (holds_or_nil_exhausted inputs Hin) Hc ltac:(lia))
      as (dst' & E & _ & _).
    rewrite E. cbn [bind Z.eqb orb].
    destruct (Z.eqb_spec read 0) as [E0 | _]; [specialize (Hr0 eq_refl); lia |].
    exists inputs, outputs. split; [reflexivity |]. split; [exact Hin |].
    apply grew_slots_refl. exact Hw. }
  pose proof (holds_or_nil_clean n inputs Hin) as Hclean.
  pose proof (holds_or_nil_first_size B n HB ltac:(lia) inputs Hex Hin) as Hfs.
  set (s := Z.min B n) in *.
  assert (Hs : 0 < s <= B) by (unfold s; lia).
  destruct (read_blocks_ok B inputs all 0 (-1) HB Hclean Hc Hl)
    as (all1 & Er & Fr).
  rewrite Hfs in Er. rewrite Er. cbn [bind].
  destruct (Z.eqb_spec s (-1)); [lia |].
  destruct (Z.eqb_spec s 0); [lia |]. cbn [orb].
  assert (F1 : Forall (fun b => 0 <= len b <= B /\ B <= cap b) all1).
  { eapply Forall2_right; [| exact Fr]. intros c b (H1 & _ & H3 & H4).
    pose proof (zlen_nonneg c). lia. }
  assert (L1 : length all1 = length inputs).
  { rewrite <- (Forall2_length Fr). apply length_map. }
  pose proof (align64_bounds s ltac:(lia)) as [Ha Har].
  assert (HaB : align64 s <= B) by (apply align64_le_block; lia).
  set (R0 := fun (_ : bool) b => 0 <= len b <= B /\ B <= cap b).
  set (R1 := fun (m : bool) b =>
               if m then B <= cap b else len b = s /\ B <= cap b).
  set (R2 := fun (m : bool) b =>
               if m then B <= cap b else len b = align64 s /\ B <= cap b).
  assert (G0 : Forall2 R0 missing all1).
  { unfold R0.
    apply (Forall2_const_l (fun b => 0 <= len b <= B /\ B <= cap b));
      [lia | exact F1]. }
  destruct (skip_missing_rel (resize_block true s) R0 R1) with
    (missing := missing) (all := all1) as (all2 & E2 & G1); [| | exact G0 |].
  { intros b [Hl1 Hc1].
    destruct (resize_block_spec true s b) as (b' & E & L & C & _); try lia.
    exists b'. split; [exact E |]. split; [exact L | lia]. }
  { intros b [_ Hc1]. exact Hc1. }
  rewrite E2. cbn [bind].
  assert (Hpad : exists all3,
            (if negb (Z.rem s 64 =? 0)
             then (all <- skip_missing (pad_block s (align64 s))
                            missing all2 ;;
                   Ret (align64 s, all))
             else Ret (s, all2)) = Ret (align64 s, all3) /\
            Forall2 R2 missing all3).
  { destruct (Z.eqb_spec (Z.rem s 64) 0) as [Hr64 | Hr64]; cbn [negb].
    - exists all2. rewrite (align64_fix s) by lia.
      split; [reflexivity |]. unfold R2. rewrite (align64_fix s) by lia.
      exact G1.
    - destruct (skip_missing_rel (pad_block s (align64 s)) R1 R2) with
        (missing := missing) (all := all2) as (all3 & E3 & G2);
        [| | exact G1 |].
      + intros b [Hl1 Hc1].
        destruct (pad_block_spec s (align64 s) b)
          as (b' & E & _ & L & C & _); try lia.
        exists b'. split; [exact E |]. split; [exact L | lia].
      + intros b Hc1. exact Hc1.
      + exists all3. rewrite E3. cbn [bind]. split; [reflexivity | exact G2]. }
  destruct Hpad as (all3 & -> & G2). cbn [bind].
  destruct (clear_missing_total B (align64 s) HaB missing all3)
    as (all4 & E4 & F4 & L4).
  { eapply Forall2_weaken; [| exact G2]. unfold R2.
    intros m b H. destruct m; [exact H | apply H]. }
  rewrite E4. cbn [bind].
  destruct (keeps_caps_ge B _ all4 HkD F4) as [F5 L5].
  pose proof (HsD all4) as HS.
  destruct (ReconstructData (ff_engine (rs r)) all4) as [err all5].
  cbn [snd] in F5, L5. cbn [fst] in HS. subst err.
  assert (L3 : length all3 = length missing)
    by (symmetry; eapply Forall2_length; exact G2).
  assert (Hzo : zlen outputs = zlen inputs) by (unfold zlen; lia).
  fold k. rewrite upto_ok by lia. cbn [bind].
  assert (F5s : Forall (fun b => s <= cap b) all5).
  { eapply Forall_impl; [| exact F5]. cbn. intros; lia. }
  assert (Hzk : zlen (ztake k outputs) = k) by (rewrite zlen_ztake; lia).
  assert (Hlk : (length (ztake k outputs) <= length all5)%nat)
    by (unfold zlen in *; lia).
  rewrite (data_write_ge s (ztake k outputs) all5 0 ltac:(lia)
             (Forall_ztake _ _ _ Hw) F5s Hlk).
  cbn [bind].
  set (cs := map (fun b => ztake s (arr b)) all5).
  destruct (feed_all_slots k s 0 (ztake k outputs) cs 0) as (G1' & W1 & Lf).
  { unfold cs. rewrite length_map. exact Hlk. }
  { intros j c Hj Hc0.
    assert (Hjk : Z.of_nat j < k) by (unfold zlen in Hzk; lia).
    destruct (Z.geb_spec (0 + Z.of_nat j) k); [lia |].
    unfold cs in Hc0. rewrite nth_error_map in Hc0.
    destruct (nth_error all5 j) as [b |] eqn:Eb; [| discriminate].
    injection Hc0 as <-. apply nth_error_In in Eb.
    rewrite Forall_forall in F5s. specialize (F5s b Eb).
    rewrite zlen_ztake. unfold cap in F5s. lia. }
  set (outputs1 := feed_all (ztake k outputs) cs ++ zdrop k outputs).
  assert (Gs : grew_slots k s 0 0 outputs outputs1).
  { replace outputs with (ztake k outputs ++ zdrop k outputs) at 1
      by (unfold ztake, zdrop; apply firstn_skipn).
    unfold outputs1. apply grew_slots_app; [exact G1' |].
    apply grew_slots_tail; [lia |]. apply Forall_zdrop. exact Hw. }
  assert (Lo1 : length outputs1 = length outputs).
  { unfold outputs1. rewrite length_app, Lf, <- length_app.
    unfold ztake, zdrop. now rewrite firstn_skipn. }
  destruct (IH missing all5 (read + s) (map (advance B) inputs)
              outputs1 (n - s))
    as (inputs' & outputs' & E & Hfin & G2').
  - assert (Hp : (pending (map (advance B) inputs) < pending inputs)%nat).
    { destruct (read_blocks_pending _ _ _ _ _ _ _ _ _ Er) as [_ Hlt].
      apply Hlt; [reflexivity | lia]. }
    lia.
  - unfold s. lia.
  - lia.
  - lia.
  - apply exists_some_advance. exact Hex.
  - apply holds_or_nil_advance; [exact HB | lia | exact Hin].
  - unfold outputs1. apply Forall_app. split; [exact W1 |].
    apply Forall_zdrop. exact Hw.
  - exact F5.
  - rewrite length_map. lia.
  - rewrite length_map. lia.
  - rewrite length_map. lia.
  - rewrite zlen_map. exact Hkt.
  - exists inputs', outputs'. split; [exact E |]. split; [exact Hfin |].
    replace n with (s + (n - s)) at 1 by lia.
    change 0 with (0 + 0) at 1.
    eapply grew_slots_trans; [exact Gs | exact G2'].
Qed.

End ReconstructDataRun.

(** X27: a whole run of [reconstruct] and of [reconstructData].  Let
    the block size be a positive multiple of 64, the codec's
    [Reconstruct] and [ReconstructData] keep capacities and report no
    error, both slices have [totalShards] slots with no slot both an
    input and an output, no writer fail, at least one stream be present
    and every present stream hold exactly [L > 0] bytes.  Then
    [reconstruct] returns [nil], has read every stream to its end and
    has appended exactly [L] bytes to every writer of a data slot and
    [L] rounded up to a multiple of 64 to every writer of a parity slot;
    [reconstructData] returns [nil], has read every stream to its end
    and has appended exactly [L] bytes to every writer of a data slot
    and nothing to the others. *)
Theorem reconstruct_writes_stream_length :
  forall (r : rsStreamFF8) (L : Z) (inputs : list (option Reader))
         (outputs : list (option Writer)),
    0 < blockSize r -> Z.rem (blockSize r) 64 = 0 ->
    0 <= dataShards r <= totalShards r ->
    keeps_caps (Reconstruct (ff_engine (rs r))) ->
    keeps_caps (ReconstructData (ff_engine (rs r))) ->
    succeeds (Reconstruct (ff_engine (rs r))) ->
    succeeds (ReconstructData (ff_engine (rs r))) ->
    zlen inputs = totalShards r -> zlen outputs = totalShards r ->
    no_clash inputs outputs ->
    0 < L ->
    existsb is_some inputs = true ->
    Forall (holds_or_nil L) inputs ->
    Forall willing outputs ->
    (exists inputs' outputs',
       reconstruct r inputs outputs = Ret (None, inputs', outputs') /\
       Forall (holds_or_nil 0) inputs' /\
       grew_slots (dataShards r) L (align64 L) 0 outputs outputs') /\
    (exists inputs' outputs',
       reconstructData r inputs outputs = Ret (None, inputs', outputs') /\
       Forall (holds_or_nil 0) inputs' /\
       grew_slots (dataShards r) L 0 0 outputs outputs').
Proof.
  intros r L inputs outputs HB HBr Hk HkR HkD HsR HsD Hli Hlo Hnc HL Hex
         Hin Hw.
  pose proof (createSlice_caps r) as Hcaps.
  pose proof (zlen_createSlice r) as Hlen.
  split.
  - unfold reconstruct, reconstruct_with.
    rewrite Hli, Hlo, Z.eqb_refl. cbn [negb].
    destruct (recon_check_clear (dataShards r) inputs outputs 0 true Hnc)
      as (b & ->).
    cbn [bind].
    apply (reconstruct_loop_run r HB HBr HkR HkD HsR HsD); try assumption;
      try lia.
    + rewrite stream_fuel_pending. lia.
    + unfold zlen in *. lia.
    + unfold zlen in *. lia.
  - unfold reconstructData, reconstructData_with.
    rewrite Hli, Hlo, Z.eqb_refl. cbn [negb].
    rewrite data_check_clear by assumption. cbn [bind].
    destruct (Z.gtb_spec (dataShards r) (totalShards r)); [lia |].
    apply (reconstructData_loop_run r HB HBr ltac:(lia) HkD HsD);
      try assumption; try lia.
    + rewrite stream_fuel_pending. lia.
    + unfold zlen in *. lia.
    + unfold zlen in *. lia.
    + assert (Hm : forall ins outs i,
                length ins = length outs ->
                length (missing_of (dataShards r) i ins outs) = length ins).
      { induction ins as [| a ins IHm]; intros outs i Hlen'.
        - reflexivity.
        - destruct outs as [| o outs]; [discriminate |].
          cbn [missing_of length]. rewrite IHm; [reflexivity |].
          cbn [length] in Hlen'. lia. }
      apply Hm. unfold zlen in *. lia.
Qed.

Lemma reconstruct_writes_stream_length_witness :
  let inputs := [Some (bytesReader (payload 300)); None;
                 Some (bytesReader (payload 300))] in
  let outputs := [None; Some newBuffer; None] in
  (exists inputs' outputs',
     reconstruct sample_stream inputs outputs
     = Ret (None, inputs', outputs') /\
     Forall (holds_or_nil 0) inputs' /\
     grew_slots 2 300 320 0 outputs outputs') /\
  (exists inputs' outputs',
     reconstructData sample_stream inputs outputs
     = Ret (None, inputs', outputs') /\
     Forall (holds_or_nil 0) inputs' /\
     grew_slots 2 300 0 0 outputs outputs').
Proof.
  intros inputs outputs.
  apply (reconstruct_writes_stream_length sample_stream 300 inputs outputs).
  - cbn; lia.
  - reflexivity.
  - cbn; lia.
  - intros shards. cbn. induction shards; constructor; auto.
  - intros shards. cbn. induction shards; constructor; auto.
  - intros shards. reflexivity.
  - intros shards. reflexivity.
  - reflexivity.
  - reflexivity.
  - repeat constructor.
  - lia.
  - reflexivity.
  - repeat constructor.
  - repeat constructor.
Defined.

(** ** streaming8.go: a whole run of verify *)

Lemma verify_loop_run (r : rsStreamFF8) :
  0 < blockSize r -> Z.rem (blockSize r) 64 = 0 ->
  (forall all, Verify (ff_engine (rs r)) all = (true, None)) ->
  forall fuel all read inputs n,
    (pending inputs < fuel)%nat ->
    0 <= n -> 0 <= read -> (n = 0 -> 0 < read) ->
    existsb is_some inputs = true ->
    Forall (holds_or_nil n) inputs ->
    Forall (fun s => blockSize r <= cap s) all ->
    length all = length inputs ->
    exists inputs',
      verify_loop fuel r all read inputs = Ret (true, None, inputs') /\
      Forall (holds_or_nil 0) inputs'.
Proof.
  intros HB HBr Hacc.
  induction fuel as [| fuel IH];
    intros all read inputs n Hf Hn Hr Hr0 Hex Hin Hc Hl; [lia |].
  cbn [verify_loop].
  destruct (Z.eq_dec n 0) as [-> | Hn0].
  { destruct (read_blocks_exhausted (blockSize r) inputs all 0 (-1) HB
                (holds_or_nil_exhausted inputs Hin) Hc ltac:(lia))
      as (dst' & E & _ & _).
    rewrite E. cbn [bind Z.eqb orb].
    destruct (Z.eqb_spec read 0) as [E0 | _]; [specialize (Hr0 eq_refl); lia |].
    exists inputs. split; [reflexivity | exact Hin]. }
  pose proof (holds_or_nil_clean n inputs Hin) as Hclean.
  pose proof (holds_or_nil_first_size (blockSize r) n HB ltac:(lia) inputs
                Hex Hin) as Hfs.
  set (s := Z.min (blockSize r) n) in *.
  assert (Hs : 0 < s <= blockSize r) by (unfold s; lia).
  destruct (read_blocks_ok (blockSize r) inputs all 0 (-1) HB Hclean Hc Hl)
    as (all1 & Er & Fr).
  rewrite Hfs in Er. rewrite Er. cbn [bind].
  destruct (Z.eqb_spec s (-1)); [lia |].
  destruct (Z.eqb_spec s 0); [lia |]. cbn [orb].
  assert (F1 : Forall (fun b => 0 <= len b <= blockSize r /\
                                blockSize r <= cap b) all1).
  { eapply Forall2_right; [| exact Fr]. intros c b (H1 & _ & H3 & H4).
    pose proof (zlen_nonneg c). lia. }
  assert (L1 : length all1 = length inputs).
  { rewrite <- (Forall2_length Fr). apply length_map. }
  destruct (shape_blocks_total (blockSize r) s all1 Hs HBr F1)
    as (all2 & E2 & L2 & F2).
  rewrite E2. cbn [bind]. rewrite Hacc. cbn [negb is_some orb].
  apply (IH all2 (read + s) (map (advance (blockSize r)) inputs) (n - s)).
  - assert (Hp : (pending (map (advance (blockSize r)) inputs)
                  < pending inputs)%nat).
    { destruct (read_blocks_pending _ _ _ _ _ _ _ _ _ Er) as [_ Hlt].
      apply Hlt; [reflexivity | lia]. }
    lia.
  - unfold s. lia.
  - lia.
  - lia.
  - apply exists_some_advance. exact Hex.
  - apply holds_or_nil_advance; [exact HB | lia | exact Hin].
  - eapply Forall_impl; [| exact F2]. cbn. intros b [_ H]. exact H.
  - rewrite length_map. lia.
Qed.

(** X28: a whole run of [verify].  Let the block size be a positive
    multiple of 64, [verify] be given [totalShards] streams of which at
    least one is present, and every present stream hold exactly [L > 0]
    bytes and end cleanly.  If the codec accepts every block row,
    [verify] returns [(true, nil)] and has read every stream to its end.
    If the codec answers every row with something else, [verify]
    returns that answer after the first row: only one block has been
    taken from each stream. *)
Theorem verify_reads_to_the_end_or_first_rejection :
  forall (r : rsStreamFF8) (L : Z) (inputs : list (option Reader)),
    0 < blockSize r -> Z.rem (blockSize r) 64 = 0 ->
    zlen inputs = totalShards r ->
    0 < L ->
    existsb is_some inputs = true ->
    Forall (holds_or_nil L) inputs ->
    ((forall all, Verify (ff_engine (rs r)) all = (true, None)) ->
     exists inputs',
       verify r inputs = Ret (true, None, inputs') /\
       Forall (holds_or_nil 0) inputs') /\
    (forall ok err,
       negb ok || is_some err = true ->
       (forall all, Verify (ff_engine (rs r)) all = (ok, err)) ->
       verify r inputs
       = Ret (ok, err, map (advance (blockSize r)) inputs)).
Proof.
  intros r L inputs HB HBr Hli HL Hex Hin.
  pose proof (createSlice_caps r) as Hcaps.
  pose proof (zlen_createSlice r) as Hlen.
  assert (Hl : length (createSlice r) = length inputs)
    by (unfold zlen in *; lia).
  split.
  - intros Hacc. unfold verify, verify_with.
    rewrite Hli, Z.eqb_refl. cbn [negb].
    apply (verify_loop_run r HB HBr Hacc) with (n := L); try assumption;
      try lia.
    rewrite stream_fuel_pending. lia.
  - intros ok err Hrej Hans. unfold verify, verify_with.
    rewrite Hli, Z.eqb_refl. cbn [negb].
    destruct (stream_fuel_pos inputs) as [f ->]. cbn [verify_loop].
    pose proof (holds_or_nil_clean L inputs Hin) as Hclean.
    pose proof (holds_or_nil_first_size (blockSize r) L HB HL inputs Hex Hin)
      as Hfs.
    set (s := Z.min (blockSize r) L) in *.
    assert (Hs : 0 < s <= blockSize r) by (unfold s; lia).
    destruct (read_blocks_ok (blockSize r) inputs (createSlice r) 0 (-1) HB
                Hclean Hcaps Hl) as (all1 & Er & Fr).
    rewrite Hfs in Er. rewrite Er. cbn [bind].
    destruct (Z.eqb_spec s (-1)); [lia |].
    destruct (Z.eqb_spec s 0); [lia |]. cbn [orb].
    assert (F1 : Forall (fun b => 0 <= len b <= blockSize r /\
                                  blockSize r <= cap b) all1).
    { eapply Forall2_right; [| exact Fr]. intros c b (H1 & _ & H3 & H4).
      pose proof (zlen_nonneg c). lia. }
    destruct (shape_blocks_total (blockSize r) s all1 Hs HBr F1)
      as (all2 & E2 & L2 & F2).
    rewrite E2. cbn [bind]. rewrite Hans, Hrej. reflexivity.
Qed.

Lemma verify_reads_to_the_end_or_first_rejection_witness :
  exists inputs',
    verify sample_stream
      [Some (bytesReader (payload 300)); Some (bytesReader (payload 300));
       Some (bytesReader (payload 300))]
    = Ret (true, None, inputs') /\
    Forall (holds_or_nil 0) inputs'.
Proof.
  destruct (verify_reads_to_the_end_or_first_rejection sample_stream 300
              [Some (bytesReader (payload 300));
               Some (bytesReader (payload 300));
               Some (bytesReader (payload 300))]) as [H _].
  - cbn; lia.
  - reflexivity.
  - reflexivity.
  - lia.
  - reflexivity.
  - repeat constructor.
  - apply H. intros all. reflexivity.
Defined.

(** ** galois_bridge.go: a whole run of rsStream16.reconstruct *)

Lemma holds_or_nil_first_size16 B n : 0 < B -> 0 < n ->
  forall inputs,
    existsb is_some inputs = true ->
    Forall (holds_or_nil n) inputs ->
    first_size16 0 (map (chunk_of B) inputs) = Z.min B n.
Proof.
  intros HB Hn. induction inputs as [| o inputs IH]; intros Hex H;
    [discriminate |].
  apply Forall_cons_iff in H. destruct H as [Ho H].
  destruct o as [rd |].
  - destruct Ho as [_ Hz].
    cbn [map chunk_of first_size16]. cbn [Z.eqb andb].
    assert (Hc : zlen (ztake B (rdata rd)) = Z.min B n)
      by (rewrite zlen_ztake, Hz; lia).
    rewrite Hc.
    destruct (Z.gtb_spec (Z.min B n) 0); [| lia]. cbn [andb].
    destruct (first_size16_bound B (map (chunk_of B) inputs) (Z.min B n))
      as [E | [E _]]; [| exact E | lia].
    apply Forall_forall. intros c Hin. apply in_map_iff in Hin.
    destruct Hin as (o & <- & _). pose proof (zlen_chunk_of B o). lia.
  - cbn [map chunk_of first_size16]. change (zlen (@nil Z)) with 0.
    cbn [Z.gtb Z.compare andb].
    apply IH; [exact Hex | exact H].
Qed.

Lemma recon_write16_ok k s : 0 <= s ->
  forall outputs missing all i,
    Forall willing outputs ->
    Forall (fun b => align64 s <= cap b) all ->
    (length outputs <= length all)%nat ->
    Forall2 (fun (m : bool) o => is_some o = true -> m = true)
      missing outputs ->
    recon_write16 k s (align64 s) i outputs missing all
    = Ret (None, feed_all outputs (recon_chunks k s i all)).
Proof.
  intros Hs. pose proof (align64_bounds s Hs) as [[Ha _] _].
  induction outputs as [| w outputs IH]; intros missing all i Hw Hc Hl Hm.
  - reflexivity.
  - destruct all as [| b all]; [cbn in Hl; lia |].
    inversion Hm as [| m o ms os Hmo Hms]; subst.
    apply Forall_cons_iff in Hw; destruct Hw as [Hw1 Hw2].
    apply Forall_cons_iff in Hc; destruct Hc as [Hc1 Hc2].
    cbn [length] in Hl.
    cbn [recon_write16 tl recon_chunks is_missing].
    destruct w as [w |].
    + rewrite (Hmo eq_refl). cbn [negb].
      destruct (Write_reslice w b (if i >=? k then align64 s else s) Hw1)
        as (p & Ep & _ & Ew); [destruct (i >=? k); lia |].
      rewrite Ep. cbn [bind]. rewrite Ew, Z.eqb_refl. cbn [negb].
      rewrite (IH ms all (i + 1)) by (assumption || lia). reflexivity.
    + rewrite (IH ms all (i + 1)) by (assumption || lia). reflexivity.
Qed.

Lemma feed_all_some (P : bool -> Prop) : forall missing outputs cs,
  (length outputs <= length cs)%nat ->
  Forall2 (fun (m : bool) (o : option Writer) => is_some o = true -> P m)
    missing outputs ->
  Forall2 (fun (m : bool) (o : option Writer) => is_some o = true -> P m)
    missing (feed_all outputs cs).
Proof.
  intros missing outputs cs Hl H. revert cs Hl.
  induction H as [| m o ms os Hmo _ IH]; intros cs Hl.
  - constructor.
  - destruct cs as [| c cs]; [cbn in Hl; lia |].
    cbn [length] in Hl. unfold feed_all in *. cbn [combine map fst snd].
    constructor; [| apply IH; lia].
    destruct o; cbn in *; [exact Hmo | discriminate].
Qed.

Lemma served_chunks B n : 0 < B -> 0 < n ->
  forall (missing : list bool) inputs,
    Forall2 (fun (m : bool) (inp : option Reader) => inp = None -> m = true)
      missing inputs ->
    Forall (holds_or_nil n) inputs ->
    Forall (fun mc : bool * list Z => fst mc = true \/ snd mc <> [])
      (combine missing (map (chunk_of B) inputs)).
Proof.
  intros HB Hn missing inputs H.
  induction H as [| m inp ms inps Hm _ IH]; intros Hin; [constructor |].
  apply Forall_cons_iff in Hin. destruct Hin as [Hi Hin].
  cbn [map combine]. constructor; [| apply IH; exact Hin].
  cbn [fst snd]. destruct inp as [rd |].
  - right. cbn [chunk_of]. destruct Hi as [_ Hz]. intros E.
    assert (Hc : zlen (ztake B (rdata rd)) = 0) by (rewrite E; reflexivity).
    rewrite zlen_ztake in Hc. lia.
  - left. apply Hm. reflexivity.
Qed.

Lemma advance_none B : forall (missing : list bool) inputs,
  Forall2 (fun (m : bool) (inp : option Reader) => inp = None -> m = true)
    missing inputs ->
  Forall2 (fun (m : bool) (inp : option Reader) => inp = None -> m = true)
    missing (map (advance B) inputs).
Proof.
  induction 1 as [| m inp ms inps Hm _ IH]; [constructor |].
  cbn [map]. constructor; [| exact IH].
  destruct inp; cbn; [discriminate | exact Hm].
Qed.

Section Reconstruct16Run.

Variable r : rsStream16.
Let B := blockSize16 r.
Let k := dataShards16 r.

Hypothesis HB : 0 < B.
Hypothesis HBr : Z.rem B 64 = 0.
Hypothesis HkR : keeps_caps (Reconstruct (ff_engine (rs16 r))).
Hypothesis HkD : keeps_caps (ReconstructData (ff_engine (rs16 r))).
Hypothesis HsR : succeeds (Reconstruct (ff_engine (rs16 r))).
Hypothesis HsD : succeeds (ReconstructData (ff_engine (rs16 r))).

Lemma reconstruct16_loop_run :
  forall fuel rdo missing all read inputs outputs n,
    (pending inputs < fuel)%nat ->
    0 <= n -> 0 <= read -> (n = 0 -> 0 < read) ->
    existsb is_some inputs = true ->
    Forall (holds_or_nil n) inputs ->
    Forall willing outputs ->
    Forall (fun s => B <= cap s) all ->
    length all = length inputs ->
    length outputs = length inputs ->
    Forall2 (fun (m : bool) (inp : option Reader) => inp = None -> m = true)
      missing inputs ->
    Forall2 (fun (m : bool) o => is_some o = true -> m = true)
      missing outputs ->
    exists inputs' outputs',
      reconstruct16_loop fuel r rdo missing all read inputs outputs
      = Ret (None, inputs', outputs') /\
      Forall (holds_or_nil 0) inputs' /\
      grew_slots k n (align64 n) 0 outputs outputs'.
Proof.
  induction fuel as [| fuel IH];
    intros rdo missing all read inputs outputs n Hf Hn Hr Hr0 Hex Hin Hw Hc
           Hl Hlo Him Hio; [lia |].
  cbn [reconstruct16_loop]. fold B.
  destruct (Z.eq_dec n 0) as [-> | Hn0].
  { destruct (read_blocks16_exhausted B inputs all 0 0 HB
                (holds_or_nil_exhausted inputs Hin) Hc ltac:(lia))
      as (dst' & E).
    rewrite E. cbn [bind Z.eqb].
    destruct (Z.eqb_spec read 0) as [E0 | _]; [specialize (Hr0 eq_refl); lia |].
    exists inputs, outputs. split; [reflexivity |]. split; [exact Hin |].
    change (align64 0) with 0. apply grew_slots_refl. exact Hw. }
  pose proof (holds_or_nil_clean n inputs Hin) as Hclean.
  pose proof (holds_or_nil_first_size16 B n HB ltac:(lia) inputs Hex Hin)
    as Hfs.
  set (s := Z.min B n) in *.
  assert (Hs : 0 < s <= B) by (unfold s; lia).
  destruct (read_blocks16_ok B inputs all 0 0 HB Hclean Hc Hl)
    as (all1 & Er & Fr).
  rewrite Hfs in Er. rewrite Er. cbn [bind].
  destruct (Z.eqb_spec s 0); [lia |].
  cbv zeta. rewrite (aligned16 s) by lia.
  pose proof (align64_bounds s ltac:(lia)) as [Ha _].
  assert (HaB : align64 s <= B) by (apply align64_le_block; lia).
  assert (Hlm : length missing = length (map (chunk_of B) inputs)).
  { rewrite length_map. eapply Forall2_length. exact Him. }
  destruct (combine_block_read B _ _ _ Fr Hlm) as [F' Ef].
  destruct (shape_recon16_ok B (align64 s) ltac:(lia) _ _ F'
              (served_chunks B n HB ltac:(lia) missing inputs Him Hin))
    as (all2 & E2 & _ & F2 & L2).
  rewrite Ef in E2. rewrite E2. cbn [bind].
  set (res := if rdo
              then ReconstructData (ff_engine (rs16 r)) all2
              else Reconstruct (ff_engine (rs16 r)) all2).
  assert (Hres : fst res = None /\
                 Forall (fun b => B <= cap b) (snd res) /\
                 length (snd res) = length all2).
  { unfold res. destruct rdo.
    - split; [apply HsD | apply keeps_caps_ge; assumption].
    - split; [apply HsR | apply keeps_caps_ge; assumption]. }
  destruct res as [err all3]. cbn [fst snd] in Hres.
  destruct Hres as (-> & F3 & L3).
  assert (F3a : Forall (fun b => align64 s <= cap b) all3).
  { eapply Forall_impl; [| exact F3]. cbn. intros; lia. }
  assert (L1 : length all1 = length inputs).
  { rewrite <- (Forall2_length Fr). apply length_map. }
  fold k.
  rewrite (recon_write16_ok k s ltac:(lia) outputs missing all3 0 Hw F3a
             ltac:(lia) Hio).
  cbn [bind].
  assert (Hrc : forall l i, length (recon_chunks k s i l) = length l).
  { induction l as [| b l IHl]; intros i; [reflexivity |].
    cbn [recon_chunks length]. now rewrite IHl. }
  destruct (feed_all_slots k s (align64 s) outputs (recon_chunks k s 0 all3) 0)
    as (G1 & W1 & Lf).
  { rewrite Hrc. lia. }
  { intros j c _ Hj.
    rewrite (recon_chunks_sizes k s all3 0 j c ltac:(lia) F3a Hj).
    destruct (Z.ltb_spec (0 + Z.of_nat j) k),
             (Z.geb_spec (0 + Z.of_nat j) k); lia || reflexivity. }
  destruct (IH rdo missing all3 (read + s) (map (advance B) inputs)
              (feed_all outputs (recon_chunks k s 0 all3)) (n - s))
    as (inputs' & outputs' & E & Hfin & G2).
  - assert (Hp : (pending (map (advance B) inputs) < pending inputs)%nat).
    { destruct (read_blocks16_pending _ _ _ _ _ _ _ _ _ Er) as (_ & Hlt & _).
      apply Hlt; [reflexivity | lia]. }
    lia.
  - unfold s. lia.
  - lia.
  - lia.
  - apply exists_some_advance. exact Hex.
  - apply holds_or_nil_advance; [exact HB | lia | exact Hin].
  - exact W1.
  - exact F3.
  - rewrite length_map. lia.
  - rewrite length_map. lia.
  - apply advance_none. exact Him.
  - apply (feed_all_some (fun m => m = true)); [rewrite Hrc; lia | exact Hio].
  - exists inputs', outputs'. split; [exact E |]. split; [exact Hfin |].
    rewrite <- (align64_split B n HB HBr ltac:(lia)). fold s.
    replace n with (s + (n - s)) at 1 by lia.
    eapply grew_slots_trans; [exact G1 | exact G2].
Qed.

End Reconstruct16Run.

(** X29: a whole run of [rsStream16.reconstruct].  Let the block size
    be a positive multiple of 64, the codec's [Reconstruct] and
    [ReconstructData] keep capacities and report no error, both slices
    have [totalShards] slots, every slot have either a stream or a
    writer (never both), at least one stream and at least one writer be
    there, every stream hold exactly [L > 0] bytes and no writer fail.
    Then [reconstruct] returns [nil], has read every stream to its end
    and has appended exactly [L] bytes to every writer of a data slot
    and [L] rounded up to a multiple of 64 to every writer of a parity
    slot. *)
Theorem reconstruct16_writes_stream_length :
  forall (r : rsStream16) (L : Z) (inputs : list (option Reader))
         (outputs : list (option Writer)),
    0 < blockSize16 r -> Z.rem (blockSize16 r) 64 = 0 ->
    keeps_caps (Reconstruct (ff_engine (rs16 r))) ->
    keeps_caps (ReconstructData (ff_engine (rs16 r))) ->
    succeeds (Reconstruct (ff_engine (rs16 r))) ->
    succeeds (ReconstructData (ff_engine (rs16 r))) ->
    zlen inputs = totalShards16 r -> zlen outputs = totalShards16 r ->
    no_clash inputs outputs ->
    served inputs outputs ->
    0 < L ->
    existsb is_some inputs = true ->
    existsb is_some outputs = true ->
    Forall (holds_or_nil L) inputs ->
    Forall willing outputs ->
    exists inputs' outputs',
      reconstruct16 r inputs outputs = Ret (None, inputs', outputs') /\
      Forall (holds_or_nil 0) inputs' /\
      grew_slots (dataShards16 r) L (align64 L) 0 outputs outputs'.
Proof.
  intros r L inputs outputs HB HBr HkR HkD HsR HsD Hli Hlo Hnc Hsv HL Hex
         Hexo Hin Hw.
  unfold reconstruct16. rewrite Hli, Hlo, Z.eqb_refl. cbn [negb].
  replace (blockSize16 r <? 0) with false by (symmetry; apply Z.ltb_ge; lia).
  rewrite andb_false_r.
  assert (Hl : length inputs = length outputs) by (apply length_zlen; lia).
  destruct (recon_check_clear (dataShards16 r) inputs outputs 0 true Hnc)
    as (b & ->).
  cbn [bind]. rewrite (missing16_of_flags inputs outputs Hl). cbn [bind].
  assert (Hflags :
    Forall2 (fun (m : bool) (inp : option Reader) => inp = None -> m = true)
      (missing_flags inputs outputs) inputs /\
    Forall2 (fun (m : bool) (o : option Writer) => is_some o = true -> m = true)
      (missing_flags inputs outputs) outputs /\
    (existsb is_some outputs = true ->
     existsb (fun m : bool => m) (missing_flags inputs outputs) = true)).
  { clear - Hnc Hsv. unfold no_clash, served in *.
    induction Hnc as [| inp out ins outs Hc _ IH].
    - split; [constructor |]. split; [constructor | discriminate].
    - inversion Hsv as [| ? ? ? ? Hs Hsv']; subst.
      destruct (IH Hsv') as (I1 & I2 & I3).
      unfold missing_flags in *. cbn [combine map fst snd existsb].
      split; [| split].
      + constructor; [| exact I1]. intros ->. cbn in Hs |- *.
        destruct out; [reflexivity | discriminate].
      + constructor; [| exact I2]. intros Ho. rewrite Ho in Hc |- *.
        destruct inp; [discriminate | reflexivity].
      + intros He. destruct out as [w |]; cbn [is_some orb] in He.
        * destruct inp; [discriminate | reflexivity].
        * rewrite andb_false_r. cbn [orb]. apply I3. exact He. }
  destruct Hflags as (Him & Hio & Hany).
  rewrite (Hany Hexo). cbn [negb].
  apply (reconstruct16_loop_run r HB HBr HkR HkD HsR HsD); try assumption;
    try lia.
  - rewrite stream_fuel_pending. lia.
  - apply Forall_repeat. rewrite cap_make. lia.
  - rewrite repeat_length. unfold zlen in Hli. lia.
Qed.

Lemma reconstruct16_writes_stream_length_witness :
  let inputs := [Some (bytesReader (payload 300)); None;
                 Some (bytesReader (payload 300))] in
  let outputs := [None; Some newBuffer; None] in
  exists inputs' outputs',
    reconstruct16 (mkStream16 sample_ff 2 1 3 128) inputs outputs
    = Ret (None, inputs', outputs') /\
    Forall (holds_or_nil 0) inputs' /\
    grew_slots 2 300 320 0 outputs outputs'.
Proof.
  intros inputs outputs.
  apply (reconstruct16_writes_stream_length (mkStream16 sample_ff 2 1 3 128)
           300 inputs outputs).
  - cbn; lia.
  - reflexivity.
  - intros shards. cbn. induction shards; constructor; auto.
  - intros shards. cbn. induction shards; constructor; auto.
  - intros shards. reflexivity.
  - intros shards. reflexivity.
  - reflexivity.
  - reflexivity.
  - repeat constructor.
  - repeat constructor.
  - lia.
  - reflexivity.
  - reflexivity.
  - repeat constructor.
  - repeat constructor.
Defined.
